(** * Shard role assignment (src/pkg/shard/sharder.go)

    A shallow embedding of the sharding control plane: the role follower of a
    server ([fillRoles]), the version follower of a frontend ([runFrontend]),
    and the assigner ([AssignRoles]) with its helpers [assignMaster],
    [assignReplica] and [swapReplica].

    Go values are embedded as follows.
    - [uint64] is [N]; the only operation of the code that can wrap is the
      product [numShards * numReplicas], written [mul64].
    - [int64] is [Z]; [version - 1] is written with [wrap64].
    - [map[K]V] is [gmap K V].  Go leaves the order of [range] over a map
      unspecified, so every such loop asks an oracle [rangeOver] for the
      order, indexed by the place of the loop ([Site]).
    - a function that mutates its arguments and reports success with a
      [bool] returns [option] of the updated arguments; [None] is the
      [return false] exit, which in the source always precedes any write. *)

From Stdlib Require Import ZArith NArith Lia.
From stdpp Require Import base numbers option list sorting gmap fin_maps strings pretty.

Local Open Scope N_scope.

(** ** Machine integers *)

Definition MaxUint64 : N := 2 ^ 64 - 1.
Definition MaxInt64 : Z := (2 ^ 63 - 1)%Z.
Definition InvalidVersion : Z := (-1)%Z.

Definition mul64 (a b : N) : N := (a * b) mod 2 ^ 64.
Definition wrap64 (z : Z) : Z := ((z + 2 ^ 63) mod 2 ^ 64 - 2 ^ 63)%Z.

(** ** Protocol records (shard/proto) *)

Module ServerState.
Record t := mk {
  Id : string;
  Address : string;
  Version : Z;
  Shards : gmap N bool
}.
End ServerState.

Module FrontendState.
Record t := mk {
  Address : string;
  Version : Z
}.
End FrontendState.

Module ServerRole.
Record t := mk {
  Id : string;
  Version : Z;
  Masters : gmap N bool;
  Replicas : gmap N bool
}.
End ServerRole.

Module ShardAddresses.
Record t := mk {
  Master : string;
  Replicas : gmap string bool
}.
End ShardAddresses.

Module Addresses.
Record t := mk {
  Version : Z;
  Addresses : gmap N ShardAddresses.t
}.
End Addresses.

(** [m[k]] on a [map[K]bool]: the zero value [false] when the key is absent. *)
Definition index `{Countable K} (m : gmap K bool) (k : K) : bool :=
  default false (m !! k).

(** [len(m)] converted to [uint64]. *)
Definition len `{Countable K} {V} (m : gmap K V) : N := N.of_nat (size m).

(** [m[k]] on a [map[K][]string]: the nil slice when the key is absent. *)
Definition slice `{Countable K} (m : gmap K (list string)) (k : K) : list string :=
  default [] (m !! k).

(** ** The maps the assignment helpers mutate in place *)

Record Plan := mkPlan {
  serverRoles : gmap string ServerRole.t;
  masters : gmap N string;
  replicas : gmap N (list string)
}.

Definition hasShard (serverRole : ServerRole.t) (shard : N) : bool :=
  index (ServerRole.Masters serverRole) shard
  || index (ServerRole.Replicas serverRole) shard.

Definition removeReplica (replicas : gmap N (list string)) (shard : N) (id : string)
  : gmap N (list string) :=
  <[shard := filter (λ replicaID, id ≠ replicaID) (slice replicas shard)]> replicas.

Definition addMaster (serverRole : ServerRole.t) (shard : N) : ServerRole.t :=
  ServerRole.mk (ServerRole.Id serverRole) (ServerRole.Version serverRole)
    (<[shard := true]> (ServerRole.Masters serverRole))
    (ServerRole.Replicas serverRole).

Definition addReplica (serverRole : ServerRole.t) (shard : N) : ServerRole.t :=
  ServerRole.mk (ServerRole.Id serverRole) (ServerRole.Version serverRole)
    (ServerRole.Masters serverRole)
    (<[shard := true]> (ServerRole.Replicas serverRole)).

Definition dropReplica (serverRole : ServerRole.t) (shard : N) : ServerRole.t :=
  ServerRole.mk (ServerRole.Id serverRole) (ServerRole.Version serverRole)
    (ServerRole.Masters serverRole)
    (delete shard (ServerRole.Replicas serverRole)).

(** [assignMaster]: the remainder is passed by pointer in the source, here it
    is returned next to the plan. *)
Definition assignMaster (p : Plan) (id : string) (shard : N)
    (masterRolesPerServer masterRolesRemainder : N) : option (Plan * N) :=
  match serverRoles p !! id with
  | None => None
  | Some serverRole =>
    let n := len (ServerRole.Masters serverRole) in
    if masterRolesPerServer <? n then None
    else if (n =? masterRolesPerServer) && (masterRolesRemainder =? 0) then None
    else if hasShard serverRole shard then None
    else
      let remainder :=
        if (n =? masterRolesPerServer) && (0 <? masterRolesRemainder)
        then masterRolesRemainder - 1 else masterRolesRemainder in
      Some (mkPlan (<[id := addMaster serverRole shard]> (serverRoles p))
                   (<[shard := id]> (masters p))
                   (replicas p),
            remainder)
  end.

Definition assignReplica (p : Plan) (id : string) (shard : N)
    (replicaRolesPerServer replicaRolesRemainder : N) : option (Plan * N) :=
  match serverRoles p !! id with
  | None => None
  | Some serverRole =>
    let n := len (ServerRole.Replicas serverRole) in
    if replicaRolesPerServer <? n then None
    else if (n =? replicaRolesPerServer) && (replicaRolesRemainder =? 0) then None
    else if hasShard serverRole shard then None
    else
      let remainder :=
        if (n =? replicaRolesPerServer) && (0 <? replicaRolesRemainder)
        then replicaRolesRemainder - 1 else replicaRolesRemainder in
      Some (mkPlan (<[id := addReplica serverRole shard]> (serverRoles p))
                   (masters p)
                   (<[shard := slice (replicas p) shard ++ [id]]> (replicas p)),
            remainder)
  end.

(** The corrective move of [swapReplica], once the pair [(swapID, swapShard)]
    has been found.  Both inner calls ignore the result of [assignReplica]
    and share the local [noReplicaRemainder]. *)
Definition applySwap (p : Plan) (id : string) (shard : N) (replicaRolesPerServer : N)
    (swapID : string) (swapServerRole : ServerRole.t) (swapShard : N) : Plan :=
  let p1 := mkPlan (<[swapID := dropReplica swapServerRole swapShard]> (serverRoles p))
                   (masters p)
                   (removeReplica (replicas p) swapShard swapID) in
  let noReplicaRemainder := 0 in
  let '(p2, noReplicaRemainder) :=
    default (p1, noReplicaRemainder)
            (assignReplica p1 swapID shard MaxUint64 noReplicaRemainder) in
  let '(p3, _) :=
    default (p2, noReplicaRemainder)
            (assignReplica p2 id swapShard replicaRolesPerServer noReplicaRemainder) in
  p3.

(** Inner loop of [swapReplica]: the first [swapShard] of [swapServerRole]
    that [id] does not hold, provided [swapServerRole] does not hold [shard]. *)
Fixpoint findSwapShard (serverRole swapServerRole : ServerRole.t) (shard : N)
    (swapShards : list (N * bool)) : option N :=
  match swapShards with
  | [] => None
  | (swapShard, _) :: rest =>
    if hasShard serverRole swapShard
    then findSwapShard serverRole swapServerRole shard rest
    else if hasShard swapServerRole shard
    then findSwapShard serverRole swapServerRole shard rest
    else Some swapShard
  end.

(** Outer loop of [swapReplica] over [serverRoles]. *)
Fixpoint findSwap (replicasOrder : string → gmap N bool → list (N * bool))
    (serverRole : ServerRole.t) (id : string) (shard : N)
    (swapRoles : list (string * ServerRole.t)) : option (string * ServerRole.t * N) :=
  match swapRoles with
  | [] => None
  | (swapID, swapServerRole) :: rest =>
    if decide (swapID = id)
    then findSwap replicasOrder serverRole id shard rest
    else
      match findSwapShard serverRole swapServerRole shard
              (replicasOrder swapID (ServerRole.Replicas swapServerRole)) with
      | Some swapShard => Some (swapID, swapServerRole, swapShard)
      | None => findSwap replicasOrder serverRole id shard rest
      end
  end.

(** [swapReplica], with the orders of its two [range] loops as arguments. *)
Definition swapReplica
    (rolesOrder : gmap string ServerRole.t → list (string * ServerRole.t))
    (replicasOrder : string → gmap N bool → list (N * bool))
    (p : Plan) (id : string) (shard : N) (replicaRolesPerServer : N) : option Plan :=
  match serverRoles p !! id with
  | None => None
  | Some serverRole =>
    if replicaRolesPerServer <=? len (ServerRole.Replicas serverRole) then None
    else
      match findSwap replicasOrder serverRole id shard (rolesOrder (serverRoles p)) with
      | None => None
      | Some (swapID, swapServerRole, swapShard) =>
        Some (applySwap p id shard replicaRolesPerServer swapID swapServerRole swapShard)
      end
  end.

(** ** Loops *)

(** [for x := ... { if f(x) { continue Outer } }]: the state after the first
    call that succeeds, [None] when every call fails. *)
Fixpoint firstSuccess {S A : Type} (f : S → A → option S) (st : S) (l : list A)
  : option S :=
  match l with
  | [] => None
  | x :: rest =>
    match f st x with
    | Some st' => Some st'
    | None => firstSuccess f st rest
    end
  end.

(** A loop whose body may leave the callback: [None] when some iteration
    does. *)
Fixpoint forEach {S A : Type} (f : S → A → option S) (st : S) (l : list A)
  : option S :=
  match l with
  | [] => Some st
  | x :: rest =>
    match f st x with
    | Some st' => forEach f st' rest
    | None => None
    end
  end.

(** [for i := uint64(0); i < n; i++]. *)
Definition upTo (n : N) : list N := N.of_nat <$> seq 0 (N.to_nat n).

(** ** Places where the code ranges over a map *)

Inductive Site :=
  | DecodeStates                       (* AssignRoles, decoding the snapshot *)
  | StateShards (id : string)          (* AssignRoles, serverState.Shards *)
  | FrontendStates (delivery : nat)    (* AssignRoles, the frontend wait *)
  | CollectRoles                       (* AssignRoles, deleting old roles *)
  | MasterAny (shard : N)              (* master pass, any live server *)
  | ReplicaAny (replica shard : N)     (* replica pass, any live server *)
  | SwapAny (replica shard : N)        (* replica pass, swap candidates *)
  | SwapRoles (replica shard : N) (id : string)          (* swapReplica, outer *)
  | SwapReplicas (replica shard : N) (id swapID : string) (* swapReplica, inner *)
  | PublishRoles                       (* AssignRoles, writing the roles *)
  | PublishMasters (id : string)
  | PublishReplicas (id : string)
  | FollowerRoles                      (* fillRoles, decoding *)
  | FollowerMasters (version : Z)      (* shards(), masters *)
  | FollowerReplicas (version : Z)     (* shards(), replicas *)
  | FollowerExpired                    (* fillRoles, expired roles *)
  | FrontendServers.                   (* runFrontend, decoding *)

Definition RangeOrder : Type :=
  ∀ (K : Type) (EqK : EqDecision K) (CountK : Countable K) (V : Type),
    Site → gmap K V → list (K * V).

(** [for k, v := range m] at [site]. *)
Definition rangeAt (rangeOver : RangeOrder) `{Countable K} {V : Type}
    (site : Site) (m : gmap K V) : list (K * V) :=
  rangeOver K _ _ V site m.

(** Go visits every entry of the map once. *)
Definition RangeSound (rangeOver : RangeOrder) : Prop :=
  ∀ (K : Type) (EqK : EqDecision K) (CountK : Countable K) (V : Type)
    (site : Site) (m : gmap K V),
    rangeOver K EqK CountK V site m ≡ₚ map_to_list m.

(** The order [map_to_list] happens to give is one admissible order. *)
Definition rangeCanonical : RangeOrder := λ K _ _ V _ m, map_to_list m.

(** ** The two passes of the assigner *)

Section Passes.
Variable rangeOver : RangeOrder.
Variable numShards numReplicas : N.
Variable oldMasters : gmap N string.
Variable oldReplicas : gmap N (list string).
Variable shardLocations : gmap N (list string).
Variable newServerStates : gmap string ServerState.t.

(** Preference order (a)-(c) for a shard; (d) is appended by the caller
    since its order is that of a [range]. *)
Definition preferred (shard : N) : list string :=
  option_list (oldMasters !! shard)
  ++ slice oldReplicas shard
  ++ slice shardLocations shard.

Definition masterStep (masterRolesPerServer : N) (st : Plan * N) (shard : N)
  : option (Plan * N) :=
  firstSuccess
    (λ '(p, remainder) id, assignMaster p id shard masterRolesPerServer remainder)
    st
    (preferred shard ++ (rangeAt rangeOver (MasterAny shard) newServerStates).*1).

Definition masterPass (masterRolesPerServer : N) (st : Plan * N)
  : option (Plan * N) :=
  forEach (masterStep masterRolesPerServer) st (upTo numShards).

Definition replicaStep (replicaRolesPerServer : N) (replica : N)
    (st : Plan * N) (shard : N) : option (Plan * N) :=
  match
    firstSuccess
      (λ '(p, remainder) id, assignReplica p id shard replicaRolesPerServer remainder)
      st
      (preferred shard ++ (rangeAt rangeOver (ReplicaAny replica shard) newServerStates).*1)
  with
  | Some st' => Some st'
  | None =>
    firstSuccess
      (λ '(p, remainder) id,
         p' ← swapReplica (rangeAt rangeOver (SwapRoles replica shard id))
                          (λ swapID, rangeAt rangeOver (SwapReplicas replica shard id swapID))
                          p id shard replicaRolesPerServer;
         Some (p', remainder))
      st
      ((rangeAt rangeOver (SwapAny replica shard) newServerStates).*1)
  end.

Definition replicaPass (replicaRolesPerServer : N) (st : Plan * N)
  : option (Plan * N) :=
  forEach
    (λ st replica, forEach (replicaStep replicaRolesPerServer replica) st (upTo numShards))
    st (upTo numReplicas).
End Passes.

(** ** Errors, store keys and effects *)

Inductive error :=
  | errComplete               (* the COMPLETE marker that ends a watch *)
  | discoveryErrCancelled     (* discovery.ErrCancelled *)
  | ErrCancelled              (* cancelled by user *)
  | Failure (reason : string) (* any other error of a collaborator *)
  | nilDereference.           (* a run-time panic; the callback does not return *)

#[global] Instance error_eq_dec : EqDecision error.
Proof. solve_decision. Defined.

(** Keys the assigner writes ([serverRoleKeyVersion], [addressesKey]). *)
Inductive Key :=
  | ServerRoleKey (id : string) (version : Z)
  | AddressesKey (version : Z).

(** What is written under a key, before [marshaler.MarshalToString]. *)
Inductive Value :=
  | RoleValue (serverRole : ServerRole.t)
  | AddressesValue (addresses : Addresses.t).

(** Calls to the collaborators, in the order they are made.  Of the log
    lines only the error report is kept. *)
Inductive Event :=
  | StoreDelete (key : string)                     (* discoveryClient.Delete *)
  | StoreSet (key : Key) (value : Value) (ttl : N) (* discoveryClient.Set *)
  | FailedToAssignRoles (serverStates : gmap string ServerState.t)
                        (numShards numReplicas : N) (* protolog.Error *)
  | AddShard (shard : N) (version : Z)             (* server.AddShard *)
  | RemoveShard (shard : N) (version : Z)          (* server.RemoveShard *)
  | FrontendVersion (version : Z)                  (* frontend.Version *)
  | Send (version : Z).                            (* versionChan <- version *)

(** State the assigner keeps between callbacks (the variables [AssignRoles]
    declares before it starts the watch). *)
Record Assigner := mkAssigner {
  version : Z;
  oldServers : gmap string bool;
  oldRoles : gmap string ServerRole.t;
  oldMasters : gmap N string;
  oldReplicas : gmap N (list string);
  oldMinVersion : Z
}.

(** What the collaborators answer during one callback of the assigner. *)
Record World := mkWorld {
  frontendDeliveries : list (gmap string string);
    (* successive snapshots of the frontend-state prefix *)
  frontendWatchEnd : error;
    (* how that watch ends when no snapshot ends it *)
  roleRecords : error + gmap string string;
    (* GetAll(serverRoleDir) *)
  deleteResult : string → option error;
  marshalResult : Value → option error;
  setResult : Key → option error
}.

(** A callback body over the variables [St] its closure captures: it reads
    and writes them, calls its collaborators, and either goes on with a value
    or returns ([inl r], with [r = None] for [return nil]). *)
Definition Eff (St A : Type) : Type :=
  St → St * list Event * (option error + A).

#[global] Instance Eff_ret {St : Type} : MRet (Eff St) := λ A x st, (st, [], inr x).

#[global] Instance Eff_bind {St : Type} : MBind (Eff St) := λ A B k m st,
  match m st with
  | (st', evs, inl r) => (st', evs, inl r)
  | (st', evs, inr x) =>
    let '(st'', evs', r) := k x st' in (st'', evs ++ evs', r)
  end.

Definition leave {St A : Type} (r : option error) : Eff St A := λ st, (st, [], inl r).
Definition emit {St : Type} (e : Event) : Eff St unit := λ st, (st, [e], inr tt).
Definition get {St : Type} : Eff St St := λ st, (st, [], inr st).
Definition put {St : Type} (st : St) : Eff St unit := λ _, (st, [], inr tt).

(** [if err := ...; err != nil { return err }]. *)
Definition check {St : Type} (r : option error) : Eff St unit :=
  match r with
  | Some err => leave (Some err)
  | None => mret tt
  end.

Definition try {St A : Type} (r : error + A) : Eff St A :=
  match r with
  | inl err => leave (Some err)
  | inr x => mret x
  end.

Fixpoint forEff {St A : Type} (f : A → Eff St unit) (l : list A) : Eff St unit :=
  match l with
  | [] => mret tt
  | x :: rest => f x ;; forEff f rest
  end.

Fixpoint foldEff {St A S : Type} (f : S → A → Eff St S) (acc : S) (l : list A)
  : Eff St S :=
  match l with
  | [] => mret acc
  | x :: rest => acc' ← f acc x; foldEff f acc' rest
  end.

(** What a callback hands back to the watch that called it. *)
Definition returned {St A : Type} (r : St * list Event * (option error + A))
  : St * list Event * option error :=
  match r with
  | (st, evs, inl r) => (st, evs, r)
  | (st, evs, inr _) => (st, evs, None)
  end.

(** Modelled from the spec: [discovery.Client.WatchAll], which is not part of
    the sources at hand.  The watch delivers the full snapshot on every
    change; it ends when the callback returns any non-nil value, which it
    passes on, or when the store reports cancellation or an error
    ([ending]).  It never returns nil.  The callback gets the number of the
    delivery. *)
Fixpoint WatchAll {St Snap : Type}
    (callback : nat → St → Snap → St * list Event * option error)
    (delivery : nat) (st : St) (deliveries : list Snap) (ending : error)
  : St * list Event * error :=
  match deliveries with
  | [] => (st, [], ending)
  | snapshot :: rest =>
    match callback delivery st snapshot with
    | (st', evs, Some err) => (st', evs, err)
    | (st', evs, None) =>
      let '(st'', evs', err) := WatchAll callback (S delivery) st' rest ending in
      (st'', evs ++ evs', err)
    end
  end.

(** The result of [sameServers] does not depend on the order of its loop. *)
Definition sameServers (oldServers : gmap string bool)
    (newServerStates : gmap string ServerState.t) : bool :=
  if decide (size oldServers ≠ size newServerStates) then false
  else bool_decide (map_Forall (λ id _, is_Some (newServerStates !! id)) oldServers).

(** ** The assigner callback *)

Section AssignRoles.
Variable rangeOver : RangeOrder.
Variable numShards numReplicas : N.
Variable decodeServerState : string → error + ServerState.t.
Variable decodeServerRole : string → error + ServerRole.t.
Variable decodeFrontendState : string → error + FrontendState.t.

(** The maps filled while the snapshot is decoded. *)
Record Decoded := mkDecoded {
  newServerStates : gmap string ServerState.t;
  shardLocations : gmap N (list string);
  newRoles : gmap string ServerRole.t
}.

Definition recordShards (key id : string) (shards : gmap N bool)
    (shardLocations : gmap N (list string)) : gmap N (list string) :=
  foldl (λ locations '(shard, _), <[shard := slice locations shard ++ [id]]> locations)
        shardLocations
        (rangeAt rangeOver (StateShards key) shards).

Fixpoint decodeStates (version : Z) (d : Decoded)
    (encodedServerStates : list (string * string)) : error + Decoded :=
  match encodedServerStates with
  | [] => inr d
  | (key, encodedServerState) :: rest =>
    match decodeServerState encodedServerState with
    | inl err => inl err
    | inr serverState =>
      let id := ServerState.Id serverState in
      decodeStates version
        (mkDecoded
           (<[id := serverState]> (newServerStates d))
           (recordShards key id (ServerState.Shards serverState) (shardLocations d))
           (<[id := ServerRole.mk id version ∅ ∅]> (newRoles d)))
        rest
    end
  end.

(** [minVersion] does not depend on the order of the loop. *)
Definition minVersionOf (states : gmap string ServerState.t) : Z :=
  map_fold (λ _ serverState minVersion,
              if (ServerState.Version serverState <? minVersion)%Z
              then ServerState.Version serverState else minVersion)
           MaxInt64 states.

(** Callback of the one-shot wait on the frontend states. *)
Fixpoint frontendsReached (minVersion : Z) (encodedFrontendStates : list (string * string))
  : option error :=
  match encodedFrontendStates with
  | [] => Some errComplete
  | (_, encodedFrontendState) :: rest =>
    match decodeFrontendState encodedFrontendState with
    | inl err => Some err
    | inr frontendState =>
      if (FrontendState.Version frontendState <? minVersion)%Z then None
      else frontendsReached minVersion rest
    end
  end.

Definition waitForFrontends (w : World) (minVersion : Z) : error :=
  (WatchAll
     (λ delivery (_ : unit) encodedFrontendStates,
        (tt, [],
         frontendsReached minVersion
           (rangeAt rangeOver (FrontendStates delivery) encodedFrontendStates)))
     O tt (frontendDeliveries w) (frontendWatchEnd w)).2.

Definition deleteOldRole (w : World) (minVersion : Z) (entry : string * string)
  : Eff Assigner unit :=
  serverRole ← try (decodeServerRole entry.2);
  if (ServerRole.Version serverRole <? minVersion)%Z
  then emit (StoreDelete entry.1) ;; check (deleteResult w entry.1)
  else mret tt.

(** "Delete roles that no servers are using anymore". *)
Definition collectRoles (w : World) (minVersion : Z) : Eff Assigner unit :=
  st ← get;
  if (oldMinVersion st <? minVersion)%Z then
    put (mkAssigner (version st) (oldServers st) (oldRoles st) (oldMasters st)
                    (oldReplicas st) minVersion) ;;
    (let err := waitForFrontends w minVersion in
     if decide (err = errComplete) then mret tt else leave (Some err)) ;;
    serverRoles ← try (roleRecords w);
    forEff (deleteOldRole w minVersion) (rangeAt rangeOver CollectRoles serverRoles)
  else mret tt.

Definition failedToAssignRoles {A : Type} (d : Decoded) : Eff Assigner A :=
  emit (FailedToAssignRoles (newServerStates d) numShards numReplicas) ;;
  leave None.

(** The master pass followed by the replica pass. *)
Definition planRoles (st : Assigner) (d : Decoded) (servers : N) : Eff Assigner Plan :=
  let masterRolesPerServer := numShards / servers in
  let masterRolesRemainder := numShards mod servers in
  let replicaRolesPerServer := mul64 numShards numReplicas / servers in
  let replicaRolesRemainder := mul64 numShards numReplicas mod servers in
  match masterPass rangeOver numShards (oldMasters st) (oldReplicas st)
          (shardLocations d) (newServerStates d) masterRolesPerServer
          (mkPlan (newRoles d) ∅ ∅, masterRolesRemainder) with
  | None => failedToAssignRoles d
  | Some (p, _) =>
    match replicaPass rangeOver numShards numReplicas (oldMasters st) (oldReplicas st)
            (shardLocations d) (newServerStates d) replicaRolesPerServer
            (p, replicaRolesRemainder) with
    | None => failedToAssignRoles d
    | Some (p', _) => mret p'
    end
  end.

Definition setMaster (address : string) (addresses : gmap N ShardAddresses.t)
    (shard : N) : Eff Assigner (gmap N ShardAddresses.t) :=
  match addresses !! shard with
  | None => leave (Some nilDereference)
  | Some shardAddresses =>
    mret (<[shard := ShardAddresses.mk address (ShardAddresses.Replicas shardAddresses)]>
            addresses)
  end.

Definition addReplicaAddress (address : string) (addresses : gmap N ShardAddresses.t)
    (shard : N) : Eff Assigner (gmap N ShardAddresses.t) :=
  match addresses !! shard with
  | None => leave (Some nilDereference)
  | Some shardAddresses =>
    mret (<[shard := ShardAddresses.mk (ShardAddresses.Master shardAddresses)
                       (<[address := true]> (ShardAddresses.Replicas shardAddresses))]>
            addresses)
  end.

Definition store (w : World) (key : Key) (value : Value) : Eff Assigner unit :=
  check (marshalResult w value) ;;
  emit (StoreSet key value 0) ;;
  check (setResult w key).

(** Body of the loop that writes one role and fills in its addresses. *)
Definition publishRole (w : World) (version : Z) (d : Decoded)
    (addresses : gmap N ShardAddresses.t) (entry : string * ServerRole.t)
  : Eff Assigner (gmap N ShardAddresses.t) :=
  let '(id, serverRole) := entry in
  store w (ServerRoleKey id version) (RoleValue serverRole) ;;
  match newServerStates d !! id with
  | None => leave (Some nilDereference)
  | Some serverState =>
    let address := ServerState.Address serverState in
    addresses ← foldEff (setMaster address) addresses
                  (rangeAt rangeOver (PublishMasters id) (ServerRole.Masters serverRole)).*1;
    foldEff (addReplicaAddress address) addresses
      (rangeAt rangeOver (PublishReplicas id) (ServerRole.Replicas serverRole)).*1
  end.

Definition emptyAddresses : gmap N ShardAddresses.t :=
  list_to_map ((λ shard, (shard, ShardAddresses.mk "" ∅)) <$> upTo numShards).

Definition publish (w : World) (d : Decoded) (p : Plan) : Eff Assigner unit :=
  st ← get;
  addresses ← foldEff (publishRole w (version st) d) emptyAddresses
                (rangeAt rangeOver PublishRoles (serverRoles p));
  store w (AddressesKey (version st))
        (AddressesValue (Addresses.mk (version st) addresses)) ;;
  st ← get;
  put (mkAssigner (wrap64 (version st + 1))
                  ((λ _, true) <$> newServerStates d)
                  (serverRoles p) (masters p) (replicas p)
                  (oldMinVersion st)).

Definition assignCallback (w : World) (encodedServerStates : gmap string string)
  : Eff Assigner unit :=
  if decide (size encodedServerStates = O) then leave None
  else
    st ← get;
    d ← try (decodeStates (version st) (mkDecoded ∅ ∅ ∅)
               (rangeAt rangeOver DecodeStates encodedServerStates));
    collectRoles w (minVersionOf (newServerStates d)) ;;
    st ← get;
    if sameServers (oldServers st) (newServerStates d) then leave None
    else
      p ← planRoles st d (len encodedServerStates);
      publish w d p ;;
      leave None.

(** The watch [AssignRoles] runs once its variables are reconstructed:
    every delivery brings the snapshot and what the collaborators answer
    while it is handled. *)
Definition AssignRoles (st : Assigner)
    (deliveries : list (World * gmap string string)) (ending : error)
  : Assigner * list Event * error :=
  let '(st', evs, err) :=
    WatchAll
      (λ _ st '(w, encodedServerStates),
         returned (assignCallback w encodedServerStates st))
      O st deliveries ending in
  (st', evs, if decide (err = discoveryErrCancelled) then ErrCancelled else err).
End AssignRoles.

(** ** The role follower of a server *)

(** [int64Slice] with [Less(i, j) = s[i] < s[j]]: [sort.Sort] leaves the
    slice in ascending order; for integers that order is unique. *)
Definition sortVersions (versions : list Z) : list Z := merge_sort Z.le versions.

(** The result of [containsShard] does not depend on the order of its loop. *)
Definition containsShard (roles : gmap Z ServerRole.t) (shard : N) : bool :=
  bool_decide (map_Exists (λ _ serverRole, hasShard serverRole shard = true) roles).

(** [roles[version]] on a [map[int64]proto.ServerRole]: the zero value when
    the key is absent. *)
Definition roleAt (roles : gmap Z ServerRole.t) (version : Z) : ServerRole.t :=
  default (ServerRole.mk "" 0 ∅ ∅) (roles !! version).

Fixpoint firstError (results : list (option error)) : option error :=
  match results with
  | [] => None
  | Some err :: _ => Some err
  | None :: rest => firstError rest
  end.

Section fillRoles.
Variable rangeOver : RangeOrder.
Variable decodeServerRole : string → error + ServerRole.t.
Variable addShard : N → Z → option error.
Variable removeShard : N → Z → option error.

Definition shards (version : Z) (serverRole : ServerRole.t) : list N :=
  (rangeAt rangeOver (FollowerMasters version) (ServerRole.Masters serverRole)).*1
  ++ (rangeAt rangeOver (FollowerReplicas version) (ServerRole.Replicas serverRole)).*1.

(** "Decode the roles". *)
Fixpoint decodeRoles (roles : gmap Z ServerRole.t) (versions : list Z)
    (encodedServerRoles : list (string * string))
  : error + (gmap Z ServerRole.t * list Z) :=
  match encodedServerRoles with
  | [] => inr (roles, versions)
  | (_, encodedServerRole) :: rest =>
    match decodeServerRole encodedServerRole with
    | inl err => inl err
    | inr serverRole =>
      decodeRoles (<[ServerRole.Version serverRole := serverRole]> roles)
                  (versions ++ [ServerRole.Version serverRole]) rest
    end
  end.

(** [versions = versions[0:2]] when there are more than two. *)
Definition window (versions : list Z) : list Z :=
  let versions := sortVersions versions in
  if decide (2 < length versions)%nat then take 2 versions else versions.

(** One fan-out of calls to the data plane, joined by the wait group.  The
    calls are listed in the order they are started; the error kept is that
    of the first call in that order that fails. *)
Definition fanOut (call : N → Z → option error) (event : N → Z → Event)
    (shards : list N) (from : Z) : Eff (gmap Z ServerRole.t) unit :=
  forEff (λ shard, emit (event shard from)) shards ;;
  check (firstError ((λ shard, call shard from) <$> shards)).

(** "For each new version bring the server up to date". *)
Definition bringUpToDate (roles : gmap Z ServerRole.t) (version : Z)
  : Eff (gmap Z ServerRole.t) unit :=
  oldRoles ← get;
  match oldRoles !! version with
  | Some _ => mret tt
  | None =>
    let serverRole := roleAt roles version in
    fanOut addShard AddShard
           (filter (λ shard, containsShard oldRoles shard = false) (shards version serverRole))
           (wrap64 (version - 1)) ;;
    put (<[version := serverRole]> oldRoles) ;;
    emit (Send version)
  end.

(** "See if there are any old roles that aren't needed". *)
Definition expire (roles : gmap Z ServerRole.t) (entry : Z * ServerRole.t)
  : Eff (gmap Z ServerRole.t) unit :=
  let '(version, serverRole) := entry in
  match roles !! version with
  | Some _ => mret tt
  | None =>
    fanOut removeShard RemoveShard
           (filter (λ shard, containsShard roles shard = false) (shards version serverRole))
           (wrap64 (version - 1))
  end.

Definition fillRolesCallback (encodedServerRoles : gmap string string)
  : Eff (gmap Z ServerRole.t) unit :=
  '(roles, versions) ← try (decodeRoles ∅ []
                              (rangeAt rangeOver FollowerRoles encodedServerRoles));
  let versions := window versions in
  forEff (bringUpToDate roles) versions ;;
  oldRoles ← get;
  forEff (expire roles) (rangeAt rangeOver FollowerExpired oldRoles) ;;
  put (foldl (λ oldRoles version, <[version := roleAt roles version]> oldRoles) ∅ versions) ;;
  leave None.

Definition fillRoles (deliveries : list (gmap string string)) (ending : error)
  : gmap Z ServerRole.t * list Event * error :=
  WatchAll (λ _ oldRoles encodedServerRoles,
              returned (fillRolesCallback encodedServerRoles oldRoles))
           O ∅ deliveries ending.
End fillRoles.

(** ** The version follower of a frontend *)

Section runFrontend.
Variable rangeOver : RangeOrder.
Variable decodeServerState : string → error + ServerState.t.
Variable frontendVersion : Z → option error.

Fixpoint minAcknowledged (minVersion : Z) (encodedServerStates : list (string * string))
  : error + Z :=
  match encodedServerStates with
  | [] => inr minVersion
  | (_, encodedServerState) :: rest =>
    match decodeServerState encodedServerState with
    | inl err => inl err
    | inr serverState =>
      minAcknowledged
        (if (ServerState.Version serverState <? minVersion)%Z
         then ServerState.Version serverState else minVersion)
        rest
    end
  end.

Definition runFrontendCallback (encodedServerStates : gmap string string)
  : Eff Z unit :=
  if decide (size encodedServerStates = O) then leave None
  else
    minVersion ← try (minAcknowledged MaxInt64
                        (rangeAt rangeOver FrontendServers encodedServerStates));
    version ← get;
    if (version <? minVersion)%Z then
      emit (FrontendVersion minVersion) ;;
      check (frontendVersion minVersion) ;;
      put minVersion ;;
      emit (Send minVersion) ;;
      leave None
    else leave None.

Definition runFrontend (deliveries : list (gmap string string)) (ending : error)
  : Z * list Event * error :=
  WatchAll (λ _ version encodedServerStates,
              returned (runFrontendCallback encodedServerStates version))
           O InvalidVersion deliveries ending.
End runFrontend.

(** ** Observations on a trace of calls *)

(** The versions sent on the version channel, in order. *)
Definition sent (evs : list Event) : list Z :=
  omap (λ ev, match ev with Send version => Some version | _ => None end) evs.

(** The role records written, in order. *)
Definition rolesWritten (evs : list Event) : list (string * Z * ServerRole.t) :=
  omap (λ ev, match ev with
              | StoreSet (ServerRoleKey id version) (RoleValue serverRole) _ =>
                Some (id, version, serverRole)
              | _ => None
              end) evs.

(** The addresses snapshots written, in order. *)
Definition addressesWritten (evs : list Event) : list Addresses.t :=
  omap (λ ev, match ev with
              | StoreSet (AddressesKey _) (AddressesValue addresses) _ => Some addresses
              | _ => None
              end) evs.

(** The keys deleted, in order. *)
Definition deleted (evs : list Event) : list string :=
  omap (λ ev, match ev with StoreDelete key => Some key | _ => None end) evs.

(** The window as the specification words it: the two newest versions. *)
Definition newestTwo (versions : list Z) : list Z :=
  let versions := sortVersions versions in
  drop (length versions - 2) versions.

(** ** Invariants of the assignment *)

(** Sum of the loads of all servers. *)
Definition total (loads : gmap string N) : N :=
  map_fold (λ _ load acc, load + acc) 0 loads.

(** The shards every server holds as master, and as replica. *)
Definition mastersOf (roles : gmap string ServerRole.t) : gmap string (gmap N bool) :=
  ServerRole.Masters <$> roles.
Definition replicasOf (roles : gmap string ServerRole.t) : gmap string (gmap N bool) :=
  ServerRole.Replicas <$> roles.

(** No map records a shard with the value [false]. *)
Definition AllTrue (held : gmap string (gmap N bool)) : Prop :=
  ∀ id shards s b, held !! id = Some shards → shards !! s = Some b → b = true.

(** The budget: nobody holds more than [perServer + 1], and the servers
    above [perServer] are paid for out of the remainder. *)
Definition Quota (perServer initial : N) (held : gmap string (gmap N bool))
    (remainder : N) : Prop :=
  (∀ id shards, held !! id = Some shards → len shards ≤ perServer + 1)
  ∧ total ((λ shards, len shards - perServer) <$> held) + remainder = initial.

(** No server holds a shard in both roles. *)
Definition Disjoint (roles : gmap string ServerRole.t) : Prop :=
  ∀ id serverRole shard,
    roles !! id = Some serverRole →
    index (ServerRole.Masters serverRole) shard = true →
    index (ServerRole.Replicas serverRole) shard = true → False.

(** [masters] records, for the shards below [done] and only for them, the
    one server that holds the shard as master. *)
Definition MastersTracked (held : gmap string (gmap N bool)) (masters : gmap N string)
    (done : N) : Prop :=
  (∀ id shards s, held !! id = Some shards → is_Some (shards !! s) →
                  masters !! s = Some id)
  ∧ (∀ s id, masters !! s = Some id →
             ∃ shards, held !! id = Some shards ∧ shards !! s = Some true)
  ∧ (∀ s, is_Some (masters !! s) ↔ s < done).

(** What holds after the master pass has placed the shards below [done]. *)
Definition MasterInv (perServer initial : N) (ids : gset string) (done : N)
    (st : Plan * N) : Prop :=
  dom (serverRoles st.1) = ids
  ∧ (∀ id serverRole, serverRoles st.1 !! id = Some serverRole →
                      ServerRole.Replicas serverRole = ∅)
  ∧ AllTrue (mastersOf (serverRoles st.1))
  ∧ MastersTracked (mastersOf (serverRoles st.1)) (masters st.1) done
  ∧ Quota perServer initial (mastersOf (serverRoles st.1)) st.2
  ∧ total (len <$> mastersOf (serverRoles st.1)) = done.

(** What holds after the replica pass has placed [count] replicas: the
    masters are as the master pass left them. *)
Definition ReplicaInv (perServer initial : N) (heldMasters : gmap string (gmap N bool))
    (placed : gmap N string) (count : N) (st : Plan * N) : Prop :=
  mastersOf (serverRoles st.1) = heldMasters
  ∧ masters st.1 = placed
  ∧ AllTrue (replicasOf (serverRoles st.1))
  ∧ Disjoint (serverRoles st.1)
  ∧ Quota perServer initial (replicasOf (serverRoles st.1)) st.2
  ∧ total (len <$> replicasOf (serverRoles st.1)) = count.

(** What holds of the plan both passes have completed. *)
Definition WellAssigned (numShards numReplicas : N)
    (masterRolesPerServer masterRolesRemainder : N)
    (replicaRolesPerServer replicaRolesRemainder : N)
    (ids : gset string) (p : Plan) : Prop :=
  dom (serverRoles p) = ids
  ∧ AllTrue (mastersOf (serverRoles p))
  ∧ AllTrue (replicasOf (serverRoles p))
  ∧ Disjoint (serverRoles p)
  ∧ MastersTracked (mastersOf (serverRoles p)) (masters p) numShards
  ∧ (∃ left, Quota masterRolesPerServer masterRolesRemainder
                   (mastersOf (serverRoles p)) left)
  ∧ total (len <$> mastersOf (serverRoles p)) = numShards
  ∧ (∃ left, Quota replicaRolesPerServer replicaRolesRemainder
                   (replicasOf (serverRoles p)) left)
  ∧ total (len <$> replicasOf (serverRoles p)) = numReplicas * numShards.

(** ** The addresses a list of roles produces *)

(** The address of a live server. *)
Definition addressOf (states : gmap string ServerState.t) (id : string) : string :=
  default "" (ServerState.Address <$> states !! id).

(** The entry of a shard once the roles of [written] have been visited, in
    that order, starting from [shardAddresses]. *)
Definition entryAfter (states : gmap string ServerState.t)
    (written : list (string * ServerRole.t)) (shard : N)
    (shardAddresses : ShardAddresses.t) : ShardAddresses.t :=
  foldl (λ entry '(id, serverRole),
           ShardAddresses.mk
             (if decide (is_Some (ServerRole.Masters serverRole !! shard))
              then addressOf states id else ShardAddresses.Master entry)
             (if decide (is_Some (ServerRole.Replicas serverRole !! shard))
              then <[addressOf states id := true]> (ShardAddresses.Replicas entry)
              else ShardAddresses.Replicas entry))
        shardAddresses written.

(** The id and version every role record carries. *)
Definition headersOf (roles : gmap string ServerRole.t) : gmap string (string * Z) :=
  (λ serverRole, (ServerRole.Id serverRole, ServerRole.Version serverRole)) <$> roles.

(** ** Shards that cannot be placed *)

Section Unplaceable.
Variable rangeOver : RangeOrder.
Variable numShards numReplicas : N.
Variable oldMasters : gmap N string.
Variable oldReplicas : gmap N (list string).
Variable shardLocations : gmap N (list string).
Variable newServerStates : gmap string ServerState.t.

(** The master pass reaches a shard that no server of the snapshot accepts
    as master. *)
Definition MasterUnplaceable (masterRolesPerServer : N) (st : Plan * N) : Prop :=
  ∃ shard p remainder,
    shard < numShards
    ∧ forEach (masterStep rangeOver oldMasters oldReplicas shardLocations
                 newServerStates masterRolesPerServer) st (upTo shard)
      = Some (p, remainder)
    ∧ ∀ id, is_Some (newServerStates !! id) →
            assignMaster p id shard masterRolesPerServer remainder = None.

(** The replica pass reaches a round and a shard that no server of the
    snapshot accepts as replica, not even by a swap. *)
Definition ReplicaUnplaceable (replicaRolesPerServer : N) (st : Plan * N) : Prop :=
  ∃ replica shard round p remainder,
    replica < numReplicas ∧ shard < numShards
    ∧ forEach (λ st replica,
                 forEach (replicaStep rangeOver oldMasters oldReplicas shardLocations
                            newServerStates replicaRolesPerServer replica)
                         st (upTo numShards))
              st (upTo replica) = Some round
    ∧ forEach (replicaStep rangeOver oldMasters oldReplicas shardLocations
                 newServerStates replicaRolesPerServer replica) round (upTo shard)
      = Some (p, remainder)
    ∧ ∀ id, is_Some (newServerStates !! id) →
            assignReplica p id shard replicaRolesPerServer remainder = None
            ∧ swapReplica (rangeAt rangeOver (SwapRoles replica shard id))
                (λ swapID, rangeAt rangeOver (SwapReplicas replica shard id swapID))
                p id shard replicaRolesPerServer = None.
End Unplaceable.

(** ** Sample clusters *)

(** A data plane and a frontend that accept every call. *)
Definition planeAccepts : N → Z → option error := λ _ _, None.
Definition frontendAccepts : Z → option error := λ _, None.

(** Three role records of server A, of versions 0, 1 and 2. *)
Definition sampleRoleDecoder (encoded : string) : error + ServerRole.t :=
  if decide (encoded = "v0") then inr (ServerRole.mk "A" 0 {[0 := true]} ∅)
  else if decide (encoded = "v1") then inr (ServerRole.mk "A" 1 {[0 := true]} {[1 := true]})
  else if decide (encoded = "v2") then inr (ServerRole.mk "A" 2 {[1 := true]} ∅)
  else inl (Failure "malformed").

Definition sampleRoleRecords : gmap string string :=
  {[ "role/A/0" := "v0"; "role/A/1" := "v1"; "role/A/2" := "v2" ]}.

(** Server states: the encoding is the id, the version is read off it. *)
Definition sampleStateDecoder (encoded : string) : error + ServerState.t :=
  inr (ServerState.mk encoded ("host-" +:+ encoded)
         (if decide (encoded = "A") then 1 else 0) ∅).

Definition sampleServers : gmap string string :=
  {[ "state/A" := "A"; "state/B" := "B" ]}.

Definition sampleLoneServer : gmap string string := {[ "state/A" := "A" ]}.

(** Frontend states: all at version 1. *)
Definition sampleFrontendDecoder (encoded : string) : error + FrontendState.t :=
  inr (FrontendState.mk encoded 1).

(** A store that holds the three role records of A and one frontend state,
    and accepts every write. *)
Definition sampleWorld : World :=
  mkWorld [ {[ "frontend/F" := "F" ]} ] discoveryErrCancelled (inr sampleRoleRecords)
          (λ _, None) (λ _, None) (λ _, None).

(** An assigner that remembers A as the master of shard 0. *)
Definition sampleAssigner : Assigner :=
  mkAssigner 3 ∅ ∅ {[ 0 := "A" ]} ∅ 0.

(** Four shards, one replica, servers A and B. *)
Definition samplePublication : Assigner * list Event * (option error + unit) :=
  assignCallback rangeCanonical 4 1 sampleStateDecoder sampleRoleDecoder
    sampleFrontendDecoder sampleWorld sampleServers sampleAssigner.

(** Four shards, one replica, server A alone: no replica can be placed. *)
Definition sampleFailure : Assigner * list Event * (option error + unit) :=
  assignCallback rangeCanonical 4 1 sampleStateDecoder sampleRoleDecoder
    sampleFrontendDecoder sampleWorld sampleLoneServer sampleAssigner.

Definition sampleDecoded (encodedServerStates : gmap string string) : Decoded :=
  match decodeStates rangeCanonical sampleStateDecoder 3 (mkDecoded ∅ ∅ ∅)
          (rangeAt rangeCanonical DecodeStates encodedServerStates) with
  | inr d => d
  | inl _ => mkDecoded ∅ ∅ ∅
  end.


(** ** More on the assigner *)

(** [version++] on an [int64]. *)
Definition nextVersion (version : Z) : Z := wrap64 (version + 1).

(** Servers A, B and C. *)
Definition sampleThreeServers : gmap string string :=
  {[ "state/A" := "A"; "state/B" := "B"; "state/C" := "C" ]}.

(** An assigner at version 4 that remembers servers A and B. *)
Definition sampleSettled : Assigner :=
  mkAssigner 4 {[ "A" := true; "B" := true ]} ∅ ∅ ∅ 0.

(** A and B again. *)
Definition sampleQuiet : Assigner * list Event * (option error + unit) :=
  assignCallback rangeCanonical 4 1 sampleStateDecoder sampleRoleDecoder
    sampleFrontendDecoder sampleWorld sampleServers sampleSettled.

(** A run over two snapshots: A and B, then A, B and C. *)
Definition sampleRun : Assigner * list Event * error :=
  AssignRoles rangeCanonical 4 1 sampleStateDecoder sampleRoleDecoder
    sampleFrontendDecoder sampleAssigner
    [(sampleWorld, sampleServers); (sampleWorld, sampleThreeServers)]
    discoveryErrCancelled.


(** [replicas] lists for every shard the servers that hold it as replica,
    each of them once. *)
Definition ReplicasTracked (roles : gmap string ServerRole.t)
    (replicas : gmap N (list string)) : Prop :=
  ∀ shard,
    NoDup (slice replicas shard)
    ∧ ∀ id, id ∈ slice replicas shard ↔
            ∃ serverRole, roles !! id = Some serverRole
                          ∧ index (ServerRole.Replicas serverRole) shard = true.

(** The replicas placed once [round] rounds are complete and the shards
    below [next] have been through the round that follows. *)
Definition ReplicaCount (numShards : N) (replicas : gmap N (list string))
    (round : nat) (next : N) : Prop :=
  ∀ shard, shard < numShards →
    length (slice replicas shard)
    = (round + (if decide (shard < next)%N then 1 else 0))%nat.


(** ** More observations *)

(** The versions handed to [frontend.Version], in order. *)
Definition applied (evs : list Event) : list Z :=
  omap (λ ev, match ev with FrontendVersion version => Some version | _ => None end) evs.

(** The shards handed to [server.AddShard] and to [server.RemoveShard]. *)
Definition added (evs : list Event) : list (N * Z) :=
  omap (λ ev, match ev with AddShard shard version => Some (shard, version) | _ => None end)
       evs.
Definition removed (evs : list Event) : list (N * Z) :=
  omap (λ ev, match ev with RemoveShard shard version => Some (shard, version) | _ => None end)
       evs.

(** Two snapshots of the server states: A and B, then A alone. *)
Definition sampleFollow : Z * list Event * error :=
  runFrontend rangeCanonical sampleStateDecoder frontendAccepts
    [sampleServers; sampleLoneServer] discoveryErrCancelled.

(** A role follower that holds nothing sees the three records of A. *)
Definition sampleFollowerStart
  : gmap Z ServerRole.t * list Event * (option error + unit) :=
  fillRolesCallback rangeCanonical sampleRoleDecoder planeAccepts planeAccepts
    sampleRoleRecords ∅.


(** ** More places where the code ranges over a map *)

Inductive Loop :=
  | ReconstructRecords                  (* AssignRoles, the records of a previous run *)
  | ReconstructRoles                    (* AssignRoles, range oldRoles *)
  | ReconstructMasters (id : string)    (* AssignRoles, range oldServerRole.Masters *)
  | ReconstructReplicas (id : string)   (* AssignRoles, range oldServerRole.Replicas *)
  | ShardToMaster                       (* GetShardToMasterAddress *)
  | ShardToReplicas                     (* GetShardToReplicaAddresses *)
  | AvailableEntries (delivery : nat)   (* WaitForAvailability, states and roles *)
  | AvailableVersions (delivery : nat)  (* WaitForAvailability, range versions *)
  | AvailableFrontends (delivery : nat). (* WaitForAvailability, frontend states *)

Definition LoopOrder : Type :=
  ∀ (K : Type) (EqK : EqDecision K) (CountK : Countable K) (V : Type),
    Loop → gmap K V → list (K * V).

(** [for k, v := range m] at [loop]. *)
Definition loopAt (loopOver : LoopOrder) `{Countable K} {V : Type}
    (loop : Loop) (m : gmap K V) : list (K * V) :=
  loopOver K _ _ V loop m.

Definition LoopSound (loopOver : LoopOrder) : Prop :=
  ∀ (K : Type) (EqK : EqDecision K) (CountK : Countable K) (V : Type)
    (loop : Loop) (m : gmap K V),
    loopOver K EqK CountK V loop m ≡ₚ map_to_list m.

Definition loopCanonical : LoopOrder := λ K _ _ V _ m, map_to_list m.

(** ** The state of a previous run *)

Section Reconstruct.
Variable loopOver : LoopOrder.
Variable decodeServerRole : string → error + ServerRole.t.

(** Body of the loop over the role records found in the store. *)
Definition rememberRole (st : Assigner) (serverRole : ServerRole.t) : Assigner :=
  let id := ServerRole.Id serverRole in
  let newer :=
    match oldRoles st !! id with
    | Some oldServerRole =>
      (ServerRole.Version oldServerRole <? ServerRole.Version serverRole)%Z
    | None => true
    end in
  mkAssigner
    (if (version st <? nextVersion (ServerRole.Version serverRole))%Z
     then nextVersion (ServerRole.Version serverRole) else version st)
    (if newer then <[id := true]> (oldServers st) else oldServers st)
    (if newer then <[id := serverRole]> (oldRoles st) else oldRoles st)
    (oldMasters st) (oldReplicas st) (oldMinVersion st).

Fixpoint reconstructRoles (st : Assigner) (serverRoles : list (string * string))
  : error + Assigner :=
  match serverRoles with
  | [] => inr st
  | (_, encodedServerRole) :: rest =>
    match decodeServerRole encodedServerRole with
    | inl err => inl err
    | inr serverRole => reconstructRoles (rememberRole st serverRole) rest
    end
  end.

(** Body of the loop over [oldRoles]. *)
Definition rememberShards (st : Assigner) (entry : string * ServerRole.t) : Assigner :=
  let oldServerRole := entry.2 in
  let id := ServerRole.Id oldServerRole in
  mkAssigner (version st) (oldServers st) (oldRoles st)
    (foldl (λ oldMasters '(shard, _), <[shard := id]> oldMasters)
           (oldMasters st)
           (loopAt loopOver (ReconstructMasters entry.1) (ServerRole.Masters oldServerRole)))
    (foldl (λ oldReplicas '(shard, _),
              <[shard := slice oldReplicas shard ++ [id]]> oldReplicas)
           (oldReplicas st)
           (loopAt loopOver (ReconstructReplicas entry.1)
              (ServerRole.Replicas oldServerRole)))
    (oldMinVersion st).

(** "Reconstruct state from a previous run": what [AssignRoles] does before
    it starts the watch, given the answer of [GetAll(serverRoleDir)]. *)
Definition reconstruct (records : error + gmap string string) : error + Assigner :=
  match records with
  | inl err => inl err
  | inr serverRoles =>
    match reconstructRoles (mkAssigner 0 ∅ ∅ ∅ ∅ 0)
            (loopAt loopOver ReconstructRecords serverRoles) with
    | inl err => inl err
    | inr st => inr (foldl rememberShards st (loopAt loopOver ReconstructRoles (oldRoles st)))
    end
  end.
End Reconstruct.

(** What the first loop has gathered from the roles seen so far. *)
Definition Gathered (seen : list ServerRole.t) (st : Assigner) : Prop :=
  (0 ≤ version st)%Z
  ∧ (∀ serverRole, serverRole ∈ seen →
       (nextVersion (ServerRole.Version serverRole) ≤ version st)%Z)
  ∧ (version st = 0%Z
     ∨ ∃ serverRole, serverRole ∈ seen
                     ∧ version st = nextVersion (ServerRole.Version serverRole))
  ∧ (∀ id serverRole, oldRoles st !! id = Some serverRole →
       serverRole ∈ seen ∧ ServerRole.Id serverRole = id
       ∧ ∀ serverRole', serverRole' ∈ seen → ServerRole.Id serverRole' = id →
           (ServerRole.Version serverRole' ≤ ServerRole.Version serverRole)%Z)
  ∧ (∀ serverRole, serverRole ∈ seen → is_Some (oldRoles st !! ServerRole.Id serverRole))
  ∧ oldServers st = (λ _, true) <$> oldRoles st
  ∧ oldMasters st = ∅ ∧ oldReplicas st = ∅ ∧ oldMinVersion st = 0%Z.

(** The two role records the publication for A and B writes, as they are
    found in the store afterwards: the encoding is the id of the server. *)
Definition sampleStoredDecoder (encoded : string) : error + ServerRole.t :=
  match list_find (λ written : string * Z * ServerRole.t, written.1.1 = encoded)
                  (rolesWritten samplePublication.1.2) with
  | Some (_, written) => inr written.2
  | None => inl (Failure "malformed")
  end.

Definition sampleStored : gmap string string :=
  {[ "role/A/3" := "A"; "role/B/3" := "B" ]}.

Definition sampleStoredPublication : Assigner * list Event * (option error + unit) :=
  assignCallback rangeCanonical 4 1 sampleStateDecoder sampleStoredDecoder
    sampleFrontendDecoder sampleWorld sampleServers sampleAssigner.


(** ** Reading the addresses *)

(** A reader works on the cache [a.addresses]; it returns the cache it
    leaves, the keys it asked the store for, and its results. *)
Definition Reader (A : Type) : Type :=
  gmap Z Addresses.t → gmap Z Addresses.t * list Key * A.

Section Readers.
Variable loopOver : LoopOrder.
Variable get : Key → error + string.                        (* discoveryClient.Get *)
Variable unmarshalAddresses : string → error + Addresses.t. (* jsonpb.UnmarshalString *)

Definition getAddresses (version : Z) : Reader (error + Addresses.t) := λ cache,
  if decide (version = InvalidVersion)
  then (cache, [], inl (Failure "invalid version"))
  else
    match cache !! version with
    | Some addresses => (cache, [], inr addresses)
    | None =>
      match get (AddressesKey version) with
      | inl err => (cache, [AddressesKey version], inl err)
      | inr encodedAddresses =>
        match unmarshalAddresses encodedAddresses with
        | inl err => (cache, [AddressesKey version], inl err)
        | inr addresses =>
          (<[version := addresses]> cache, [AddressesKey version], inr addresses)
        end
      end
    end.

(** [(result, ok, retErr)]. *)
Definition GetMasterAddress (shard : N) (version : Z)
  : Reader (string * bool * option error) := λ cache,
  match getAddresses version cache with
  | (cache, keys, inl err) => (cache, keys, ("", false, Some err))
  | (cache, keys, inr addresses) =>
    match Addresses.Addresses addresses !! shard with
    | None => (cache, keys, ("", false, None))
    | Some shardAddresses => (cache, keys, (ShardAddresses.Master shardAddresses, true, None))
    end
  end.

Definition shardNotFound (shard : N) : error :=
  Failure ("shard " +:+ pretty shard +:+ " not found").

(** [(result, retErr)]: the result is nil when there is an error. *)
Definition GetReplicaAddresses (shard : N) (version : Z)
  : Reader (error + gmap string bool) := λ cache,
  match getAddresses version cache with
  | (cache, keys, inl err) => (cache, keys, inl err)
  | (cache, keys, inr addresses) =>
    match Addresses.Addresses addresses !! shard with
    | None => (cache, keys, inl (shardNotFound shard))
    | Some shardAddresses => (cache, keys, inr (ShardAddresses.Replicas shardAddresses))
    end
  end.

Definition GetShardToMasterAddress (version : Z) : Reader (error + gmap N string) :=
  λ cache,
  match getAddresses version cache with
  | (cache, keys, inl err) => (cache, keys, inl err)
  | (cache, keys, inr addresses) =>
    (cache, keys,
     inr (foldl (λ result '(shard, shardAddresses),
                   <[shard := ShardAddresses.Master shardAddresses]> result)
                ∅ (loopAt loopOver ShardToMaster (Addresses.Addresses addresses))))
  end.

Definition GetShardToReplicaAddresses (version : Z)
  : Reader (error + gmap N (gmap string bool)) := λ cache,
  match getAddresses version cache with
  | (cache, keys, inl err) => (cache, keys, inl err)
  | (cache, keys, inr addresses) =>
    (cache, keys,
     inr (foldl (λ result '(shard, shardAddresses),
                   <[shard := ShardAddresses.Replicas shardAddresses]> result)
                ∅ (loopAt loopOver ShardToReplicas (Addresses.Addresses addresses))))
  end.
End Readers.

(** A store that holds the addresses of version 3 under the encoding "a3":
    shard 0 with master host-A and replica host-B. *)
Definition sampleGet (key : Key) : error + string :=
  match key with
  | AddressesKey 3 => inr "a3"
  | _ => inl (Failure "not found")
  end.

Definition sampleUnmarshal (encoded : string) : error + Addresses.t :=
  if decide (encoded = "a3")
  then inr (Addresses.mk 3 {[ 0 := ShardAddresses.mk "host-A" {[ "host-B" := true ]} ]})
  else inl (Failure "malformed").

(** A store that has lost everything. *)
Definition sampleGone (key : Key) : error + string := inl (Failure "not found").

(** A store that holds what the publication for A and B wrote under the
    addresses key. *)
Definition samplePublishedGet (key : Key) : error + string :=
  match key with
  | AddressesKey _ => inr "addresses"
  | _ => inl (Failure "not found")
  end.

Definition samplePublishedUnmarshal (encoded : string) : error + Addresses.t :=
  inr (default (Addresses.mk 0 ∅) (head (addressesWritten samplePublication.1.2))).


(** ** Announcing a server and a frontend *)

Definition holdTTL : N := 20.

(** The case of the [select] that fires at the end of a round. *)
Inductive Signal :=
  | Cancelled                  (* <-cancel *)
  | NewVersion (version : Z)   (* version := <-versionChan *)
  | Elapsed.                   (* <-time.After(holdTTL/2 seconds) *)

(** The version an announcer carries once it has been through [signals]. *)
Definition lastVersion (signals : list Signal) : Z :=
  foldl (λ version signal,
           match signal with NewVersion version' => version' | _ => version end)
        InvalidVersion signals.

Section Announce.
Variable id address : string.
Variable localShards : nat → error + gmap N bool.        (* server.LocalShards, by round *)
Variable marshalState : ServerState.t → option error.    (* marshaler.MarshalToString *)
Variable marshalFrontend : FrontendState.t → option error.
Variable setState : nat → option error.                  (* discoveryClient.Set, by round *)

(** The loop of [announceServer] from round [round] on: the states handed
    to [Set] with their time to live, and what the function returns, [None]
    while it waits in its [select] for a signal that has not come. *)
Fixpoint announceServerFrom (round : nat) (serverState : ServerState.t)
    (signals : list Signal) : list (ServerState.t * N) * option (option error) :=
  match localShards round with
  | inl err => ([], Some (Some err))
  | inr shards =>
    let serverState :=
      ServerState.mk (ServerState.Id serverState) (ServerState.Address serverState)
                     (ServerState.Version serverState) shards in
    match marshalState serverState with
    | Some err => ([], Some (Some err))
    | None =>
      match setState round with
      | Some err => ([(serverState, holdTTL)], Some (Some err))
      | None =>
        match signals with
        | [] => ([(serverState, holdTTL)], None)
        | Cancelled :: _ => ([(serverState, holdTTL)], Some None)
        | NewVersion version :: rest =>
          let '(sets, r) :=
            announceServerFrom (S round)
              (ServerState.mk (ServerState.Id serverState) (ServerState.Address serverState)
                              version (ServerState.Shards serverState))
              rest in
          ((serverState, holdTTL) :: sets, r)
        | Elapsed :: rest =>
          let '(sets, r) := announceServerFrom (S round) serverState rest in
          ((serverState, holdTTL) :: sets, r)
        end
      end
    end
  end.

Definition announceServer (signals : list Signal)
  : list (ServerState.t * N) * option (option error) :=
  announceServerFrom O (ServerState.mk id address InvalidVersion ∅) signals.

Fixpoint announceFrontendFrom (round : nat) (frontendState : FrontendState.t)
    (signals : list Signal) : list (FrontendState.t * N) * option (option error) :=
  match marshalFrontend frontendState with
  | Some err => ([], Some (Some err))
  | None =>
    match setState round with
    | Some err => ([(frontendState, holdTTL)], Some (Some err))
    | None =>
      match signals with
      | [] => ([(frontendState, holdTTL)], None)
      | Cancelled :: _ => ([(frontendState, holdTTL)], Some None)
      | NewVersion version :: rest =>
        let '(sets, r) :=
          announceFrontendFrom (S round)
            (FrontendState.mk (FrontendState.Address frontendState) version) rest in
        ((frontendState, holdTTL) :: sets, r)
      | Elapsed :: rest =>
        let '(sets, r) := announceFrontendFrom (S round) frontendState rest in
        ((frontendState, holdTTL) :: sets, r)
      end
    end
  end.

Definition announceFrontend (signals : list Signal)
  : list (FrontendState.t * N) * option (option error) :=
  announceFrontendFrom O (FrontendState.mk address InvalidVersion) signals.
End Announce.

(** A server whose collaborators never fail, with shard 0 on its disk. *)
Definition sampleAnnounce : list (ServerState.t * N) * option (option error) :=
  announceServer "A" "host-A" (λ _, inr {[ 0 := true ]}) (λ _, None) (λ _, None)
    [Elapsed; NewVersion 0; NewVersion 1; Elapsed; Cancelled; NewVersion 2].

Definition sampleAnnounceFrontend : list (FrontendState.t * N) * option (option error) :=
  announceFrontend "host-F" (λ _, None) (λ _, None)
    [NewVersion 0; Elapsed; Cancelled].


(** ** Waiting for the cluster to be available *)

Section WaitForAvailability.
Variable loopOver : LoopOrder.
Variable decodeServerState : string → error + ServerState.t.
Variable decodeServerRole : string → error + ServerRole.t.
Variable decodeFrontendState : string → error + FrontendState.t.
Variable serverStateDir serverRoleDir : string.   (* a.serverStateDir(), a.serverRoleDir() *)

(** The two maps the first callback fills. *)
Definition Available : Type :=
  gmap string ServerState.t * gmap string (gmap Z ServerRole.t).

(** Body of the loop over the entries under the server directory;
    [strings.HasPrefix(key, dir)] is [String.prefix dir key]. *)
Definition gatherEntry (available : Available) (entry : string * string)
  : error + Available :=
  let '(states, roles) := available in
  let '(key, encodedServerStateOrRole) := entry in
  match
    (if String.prefix serverStateDir key
     then match decodeServerState encodedServerStateOrRole with
          | inl err => inl err
          | inr serverState => inr (<[ServerState.Id serverState := serverState]> states)
          end
     else inr states)
  with
  | inl err => inl err
  | inr states =>
    if String.prefix serverRoleDir key
    then match decodeServerRole encodedServerStateOrRole with
         | inl err => inl err
         | inr serverRole =>
           inr (states,
                <[ServerRole.Id serverRole :=
                    <[ServerRole.Version serverRole := serverRole]>
                      (default ∅ (roles !! ServerRole.Id serverRole))]> roles)
         end
    else inr (states, roles)
  end.

Fixpoint gatherEntries (available : Available) (entries : list (string * string))
  : error + Available :=
  match entries with
  | [] => inr available
  | entry :: rest =>
    match gatherEntry available entry with
    | inl err => inl err
    | inr available => gatherEntries available rest
    end
  end.

(** The versions the server states acknowledge; the map built does not
    depend on the order of the loop. *)
Definition versionsOf (states : gmap string ServerState.t) : gmap Z bool :=
  map_fold (λ _ serverState versions, <[ServerState.Version serverState := true]> versions)
           ∅ states.

(** The checks of the first callback once the entries are decoded: [None]
    is [return nil], [Some version] is [return errComplete] with the outer
    [version] set. *)
Definition serversReady (delivery : nat) (serverIds : list string) (available : Available)
    (version : Z) : option Z :=
  let '(states, roles) := available in
  if decide (size states ≠ length serverIds) then None
  else if decide (size roles ≠ length serverIds) then None
  else if bool_decide (Exists (λ id, ¬ (is_Some (states !! id) ∧ is_Some (roles !! id)))
                              serverIds) then None
  else if bool_decide (map_Exists (λ _ serverState,
                                     ServerState.Version serverState = InvalidVersion)
                                  states) then None
  else
    let versions := versionsOf states in
    if decide (size versions ≠ 1%nat) then None
    else if bool_decide
              (map_Exists (λ _ versionToServerRole,
                             size versionToServerRole ≠ 1%nat
                             ∨ map_Exists (λ version _, index versions version = false)
                                          versionToServerRole)
                          roles) then None
    else Some (default version
                 (last (loopAt loopOver (AvailableVersions delivery) versions).*1)).

Definition serversCallback (delivery : nat) (serverIds : list string)
    (encodedServerStatesAndRoles : gmap string string) (version : Z)
  : Z * list Event * option error :=
  match gatherEntries (∅, ∅)
          (loopAt loopOver (AvailableEntries delivery) encodedServerStatesAndRoles) with
  | inl err => (version, [], Some err)
  | inr available =>
    match serversReady delivery serverIds available version with
    | None => (version, [], None)
    | Some version => (version, [], Some errComplete)
    end
  end.

(** The loop of the second callback: [inr None] is the [return nil] on a
    frontend state of another version. *)
Fixpoint gatherFrontends (version : Z) (frontendStates : gmap string FrontendState.t)
    (entries : list (string * string)) : error + option (gmap string FrontendState.t) :=
  match entries with
  | [] => inr (Some frontendStates)
  | (_, encodedFrontendState) :: rest =>
    match decodeFrontendState encodedFrontendState with
    | inl err => inl err
    | inr frontendState =>
      if decide (FrontendState.Version frontendState ≠ version) then inr None
      else gatherFrontends version
             (<[FrontendState.Address frontendState := frontendState]> frontendStates) rest
    end
  end.

Definition frontendsCallback (delivery : nat) (version : Z) (frontendIds : list string)
    (encodedFrontendStates : gmap string string) : option error :=
  match gatherFrontends version ∅
          (loopAt loopOver (AvailableFrontends delivery) encodedFrontendStates) with
  | inl err => Some err
  | inr None => None
  | inr (Some frontendStates) =>
    if decide (size frontendStates ≠ length frontendIds) then None
    else if bool_decide (Exists (λ id, ¬ is_Some (frontendStates !! id)) frontendIds)
    then None
    else Some errComplete
  end.

(** What a snapshot of the server directory shows when the first watch
    completes at [version]. *)
Definition ServersAvailable (serverIds : list string) (snapshot : gmap string string)
    (version : Z) : Prop :=
  version ≠ InvalidVersion
  ∧ (∀ id, id ∈ serverIds →
       (∃ key e serverState,
          snapshot !! key = Some e ∧ String.prefix serverStateDir key = true
          ∧ decodeServerState e = inr serverState
          ∧ ServerState.Id serverState = id ∧ ServerState.Version serverState = version)
       ∧ (∃ key e serverRole,
            snapshot !! key = Some e ∧ String.prefix serverRoleDir key = true
            ∧ decodeServerRole e = inr serverRole
            ∧ ServerRole.Id serverRole = id ∧ ServerRole.Version serverRole = version))
  ∧ (∀ key e,
       snapshot !! key = Some e → String.prefix serverRoleDir key = true →
       ∃ serverRole, decodeServerRole e = inr serverRole
                     ∧ ServerRole.Version serverRole = version).

(** What a snapshot of the frontend directory shows when the second watch
    completes. *)
Definition FrontendsAvailable (frontendIds : list string) (snapshot : gmap string string)
    (version : Z) : Prop :=
  (∀ key e, snapshot !! key = Some e →
            ∃ frontendState, decodeFrontendState e = inr frontendState
                             ∧ FrontendState.Version frontendState = version)
  ∧ (∀ id, id ∈ frontendIds →
       ∃ key e frontendState,
         snapshot !! key = Some e ∧ decodeFrontendState e = inr frontendState
         ∧ FrontendState.Address frontendState = id).

(** [WaitForAvailability], given what the two watches deliver. *)
Definition WaitForAvailability (frontendIds serverIds : list string)
    (serverDeliveries : list (gmap string string)) (serverEnding : error)
    (frontendDeliveries : list (gmap string string)) (frontendEnding : error)
  : option error :=
  let '(version, _, err) :=
    WatchAll (λ delivery version snapshot,
                serversCallback delivery serverIds snapshot version)
             O InvalidVersion serverDeliveries serverEnding in
  if decide (err ≠ errComplete) then Some err
  else
    let '(_, _, err) :=
      WatchAll (λ delivery (_ : unit) snapshot,
                  (tt, [], frontendsCallback delivery version frontendIds snapshot))
               O tt frontendDeliveries frontendEnding in
    if decide (err ≠ errComplete) then Some err else None.
End WaitForAvailability.

(** Server A announces itself, then its role of version 1 appears; the
    frontend F is at version 1. *)
Definition sampleAvailableState (encoded : string) : error + ServerState.t :=
  inr (ServerState.mk encoded ("host-" +:+ encoded) 1 ∅).

Definition sampleAvailableRole (encoded : string) : error + ServerRole.t :=
  inr (ServerRole.mk encoded 1 {[0 := true]} ∅).

Definition sampleAvailable : gmap string string :=
  {[ "state/A" := "A"; "role/A/1" := "A" ]}.

Definition sampleWait : option error :=
  WaitForAvailability loopCanonical sampleAvailableState sampleAvailableRole
    sampleFrontendDecoder "state" "role" ["F"] ["A"]
    [sampleLoneServer; sampleAvailable] discoveryErrCancelled
    [ {[ "frontend/F" := "F" ]} ] discoveryErrCancelled.

(** * Properties *)

(** ** Ranging over a map *)

Section Range.
Context (rangeOver : RangeOrder) (sound : RangeSound rangeOver).
Context `{Countable K} {V : Type}.
Implicit Types (site : Site) (m : gmap K V).

Lemma rangeAt_perm site m : rangeAt rangeOver site m ≡ₚ map_to_list m.
Proof. apply sound. Qed.

Lemma elem_of_rangeAt site m k v :
  (k, v) ∈ rangeAt rangeOver site m ↔ m !! k = Some v.
Proof. rewrite rangeAt_perm. apply elem_of_map_to_list. Qed.

Lemma elem_of_rangeAt_keys site m k :
  k ∈ (rangeAt rangeOver site m).*1 ↔ is_Some (m !! k).
Proof.
  rewrite list_elem_of_fmap. split.
  - intros [[k' v] [-> Hin]]. apply elem_of_rangeAt in Hin. by exists v.
  - intros [v Hv]. exists (k, v). split; [done|]. by apply elem_of_rangeAt.
Qed.

Lemma NoDup_rangeAt_keys site m : NoDup (rangeAt rangeOver site m).*1.
Proof. rewrite rangeAt_perm. apply NoDup_fst_map_to_list. Qed.

Lemma length_rangeAt site m : length (rangeAt rangeOver site m) = size m.
Proof. rewrite rangeAt_perm. by rewrite length_map_to_list. Qed.
End Range.

Lemma rangeCanonical_sound : RangeSound rangeCanonical.
Proof. intros K ? ? V site m. reflexivity. Qed.

(** ** Callback bodies *)

Lemma bind_run {St A B : Type} (m : Eff St A) (k : A → Eff St B) st st' evs r :
  (m ≫= k) st = (st', evs, r) →
  (∃ e, m st = (st', evs, inl e) ∧ r = inl e)
  ∨ (∃ st1 evs1 x evs2,
        m st = (st1, evs1, inr x) ∧ k x st1 = (st', evs2, r) ∧ evs = evs1 ++ evs2).
Proof.
  unfold mbind, Eff_bind. destruct (m st) as [[st1 evs1] [e|x]].
  - intros [= <- <- <-]. left. eauto.
  - destruct (k x st1) as [[st2 evs2] r2] eqn:Hk. intros [= <- <- <-].
    right. exists st1, evs1, x, evs2. eauto.
Qed.

Lemma bind_run_inr {St A B : Type} (m : Eff St A) (k : A → Eff St B) st st1 evs1 x :
  m st = (st1, evs1, inr x) →
  (m ≫= k) st = (let '(st', evs2, r) := k x st1 in (st', evs1 ++ evs2, r)).
Proof. intros Hm. unfold mbind, Eff_bind. by rewrite Hm. Qed.

Lemma bind_run_inl {St A B : Type} (m : Eff St A) (k : A → Eff St B) st st1 evs1 e :
  m st = (st1, evs1, inl e) → (m ≫= k) st = (st1, evs1, inl e).
Proof. intros Hm. unfold mbind, Eff_bind. by rewrite Hm. Qed.

(** ** The frontend version follower *)

Section runFrontendProperties.
Context (rangeOver : RangeOrder) (sound : RangeSound rangeOver).
Context (decodeServerState : string → error + ServerState.t).
Context (frontendVersion : Z → option error).

Lemma minAcknowledged_min (l : list (string * string)) (acc : Z) :
  (∀ k e, (k, e) ∈ l → ∃ s, decodeServerState e = inr s) →
  ∃ m, minAcknowledged decodeServerState acc l = inr m
       ∧ (m ≤ acc)%Z
       ∧ (∀ k e s, (k, e) ∈ l → decodeServerState e = inr s →
                   (m ≤ ServerState.Version s)%Z)
       ∧ (m = acc ∨ ∃ k e s, (k, e) ∈ l ∧ decodeServerState e = inr s
                             ∧ ServerState.Version s = m).
Proof.
  revert acc. induction l as [|[k e] l IH]; intros acc Hdec; simpl.
  - exists acc. split_and!; [done|lia| |by left].
    intros ??? Hin. by apply elem_of_nil in Hin.
  - destruct (Hdec k e) as [s Hs]; [left|]. rewrite Hs.
    set (acc' := if (ServerState.Version s <? acc)%Z then _ else _).
    destruct (IH acc') as (m & Hm & Hle & Hall & Hatt).
    { intros k' e' Hin. apply (Hdec k' e'). by right. }
    assert (acc' ≤ acc ∧ acc' ≤ ServerState.Version s
            ∧ (acc' = acc ∨ acc' = ServerState.Version s))%Z as (Ha1 & Ha2 & Ha3).
    { unfold acc'. destruct (Z.ltb_spec (ServerState.Version s) acc); lia. }
    exists m. split_and!; [done|lia| |].
    + intros k' e' s' [[= -> ->]|Hin]%elem_of_cons Hs'.
      * rewrite Hs in Hs'. injection Hs' as <-. lia.
      * by eapply Hall.
    + destruct Hatt as [->|(k' & e' & s' & Hin & Hs' & <-)].
      * destruct Ha3 as [->| ->]; [by left|].
        right. exists k, e, s. split_and!; [left|done|done].
      * right. exists k', e', s'. split_and!; [by right|done|done].
Qed.

(** C7.  On a non-empty snapshot of server states that all decode, the
    follower computes the minimum of the acknowledged versions of all of
    them (so [InvalidVersion] is the minimum as soon as one server reports
    it and no server reports less), calls [frontend.Version] with it exactly
    when it exceeds the version applied last, and on success keeps it and
    sends it on the version channel. *)
Theorem runFrontend_follows_minimum (encodedServerStates : gmap string string)
    (version : Z) :
  size encodedServerStates ≠ O →
  (∀ k e, encodedServerStates !! k = Some e →
          ∃ s, decodeServerState e = inr s ∧ (ServerState.Version s ≤ MaxInt64)%Z) →
  ∃ minVersion,
    (∀ k e s, encodedServerStates !! k = Some e → decodeServerState e = inr s →
              (minVersion ≤ ServerState.Version s)%Z)
    ∧ (∃ k e s, encodedServerStates !! k = Some e ∧ decodeServerState e = inr s
                ∧ ServerState.Version s = minVersion)
    ∧ ((∃ k e s, encodedServerStates !! k = Some e ∧ decodeServerState e = inr s
                 ∧ ServerState.Version s = InvalidVersion) →
       (∀ k e s, encodedServerStates !! k = Some e → decodeServerState e = inr s →
                 (InvalidVersion ≤ ServerState.Version s)%Z) →
       minVersion = InvalidVersion)
    ∧ runFrontendCallback rangeOver decodeServerState frontendVersion
        encodedServerStates version
      = if (version <? minVersion)%Z then
          match frontendVersion minVersion with
          | None => (minVersion, [FrontendVersion minVersion; Send minVersion], inl None)
          | Some err => (version, [FrontendVersion minVersion], inl (Some err))
          end
        else (version, [], inl None).
Proof.
  intros Hsize Hdec.
  set (l := rangeAt rangeOver FrontendServers encodedServerStates).
  destruct (minAcknowledged_min l MaxInt64) as (m & Hm & Hle & Hall & Hatt).
  { intros k e Hin. apply elem_of_rangeAt in Hin; [|done].
    destruct (Hdec k e Hin) as (s & Hs & _). eauto. }
  assert (Hall' : ∀ k e s, encodedServerStates !! k = Some e →
                           decodeServerState e = inr s → (m ≤ ServerState.Version s)%Z).
  { intros k e s Hk Hs. eapply Hall; [|done]. by apply elem_of_rangeAt. }
  assert (Hatt' : ∃ k e s, encodedServerStates !! k = Some e
                           ∧ decodeServerState e = inr s ∧ ServerState.Version s = m).
  { destruct Hatt as [->|(k & e & s & Hin & Hs & Hv)].
    - destruct (map_choose encodedServerStates) as (k & e & Hk).
      { intros ->. by rewrite map_size_empty in Hsize. }
      destruct (Hdec k e Hk) as (s & Hs & Hmax).
      exists k, e, s. split_and!; [done|done|].
      specialize (Hall' k e s Hk Hs). lia.
    - exists k, e, s. split_and!; [|done|done]. by apply elem_of_rangeAt in Hin. }
  exists m. split_and!; [done|done| |].
  - intros (k & e & s & Hk & Hs & Hv) Hlow.
    destruct Hatt' as (k' & e' & s' & Hk' & Hs' & Hv').
    specialize (Hall' k e s Hk Hs). specialize (Hlow k' e' s' Hk' Hs'). lia.
  - unfold runFrontendCallback. destruct (decide _) as [|_]; [done|].
    fold l. rewrite Hm. unfold mbind, Eff_bind; simpl.
    destruct (version <? m)%Z; [|done]. simpl.
    by destruct (frontendVersion m).
Qed.
End runFrontendProperties.

Lemma runFrontend_follows_minimum_witness :
  ∃ minVersion,
    (∃ k e s, sampleServers !! k = Some e ∧ sampleStateDecoder e = inr s
              ∧ ServerState.Version s = minVersion)
    ∧ runFrontendCallback rangeCanonical sampleStateDecoder frontendAccepts
        sampleServers InvalidVersion
      = if (InvalidVersion <? minVersion)%Z then
          match frontendAccepts minVersion with
          | None => (minVersion, [FrontendVersion minVersion; Send minVersion], inl None)
          | Some err => (InvalidVersion, [FrontendVersion minVersion], inl (Some err))
          end
        else (InvalidVersion, [], inl None).
Proof.
  destruct (runFrontend_follows_minimum rangeCanonical rangeCanonical_sound
              sampleStateDecoder frontendAccepts sampleServers InvalidVersion)
    as (minVersion & _ & Hattained & _ & Hrun).
  - vm_compute. lia.
  - intros k e _. eexists. split; [reflexivity|]. simpl.
    destruct (decide _); unfold MaxInt64; lia.
  - exists minVersion. by split.
Defined.

(** ** The role follower *)

Lemma sortVersions_sorted versions : StronglySorted Z.le (sortVersions versions).
Proof. apply StronglySorted_merge_sort; apply _. Qed.

Lemma sortVersions_perm versions : sortVersions versions ≡ₚ versions.
Proof. apply merge_sort_Permutation. Qed.

Lemma window_split versions :
  ∃ dropped, sortVersions versions = window versions ++ dropped
             ∧ (length (window versions) ≤ 2)%nat
             ∧ (dropped ≠ [] → length (window versions) = 2%nat).
Proof.
  unfold window. destruct (decide _) as [Hlen|Hlen].
  - exists (drop 2 (sortVersions versions)). rewrite take_drop, length_take.
    split_and!; [done|lia|lia].
  - exists []. rewrite app_nil_r. split_and!; [done|lia|done].
Qed.

Lemma StronglySorted_app_le (l1 l2 : list Z) v w :
  StronglySorted Z.le (l1 ++ l2) → v ∈ l1 → w ∈ l2 → (v ≤ w)%Z.
Proof.
  induction l1 as [|x l1 IH]; simpl; intros Hs Hv Hw.
  - by apply elem_of_nil in Hv.
  - apply StronglySorted_inv in Hs as [Hs Hx].
    apply elem_of_cons in Hv as [->|Hv]; [|by apply IH].
    rewrite Forall_forall in Hx. apply Hx, elem_of_app. by right.
Qed.

Lemma StronglySorted_app_l (l1 l2 : list Z) :
  StronglySorted Z.le (l1 ++ l2) → StronglySorted Z.le l1.
Proof.
  induction l1 as [|x l1 IH]; simpl; intros Hs; [constructor|].
  apply StronglySorted_inv in Hs as [Hs Hx]. constructor; [by apply IH|].
  rewrite Forall_app in Hx. by destruct Hx.
Qed.

Lemma sent_app evs1 evs2 : sent (evs1 ++ evs2) = sent evs1 ++ sent evs2.
Proof. apply omap_app. Qed.

Lemma forEff_emit {St A : Type} (f : A → Event) (l : list A) (st : St) :
  forEff (λ x, emit (f x)) l st = (st, f <$> l, inr tt).
Proof.
  induction l as [|x l IH]; [done|]. simpl.
  unfold mbind, Eff_bind. simpl. by rewrite IH.
Qed.

Lemma fanOut_run call event shards from (st : gmap Z ServerRole.t) :
  fanOut call event shards from st
  = (st, (λ shard, event shard from) <$> shards,
     match firstError ((λ shard, call shard from) <$> shards) with
     | Some err => inl (Some err)
     | None => inr tt
     end).
Proof.
  unfold fanOut. erewrite bind_run_inr; [|apply forEff_emit].
  destruct (firstError _); simpl; by rewrite app_nil_r.
Qed.

Lemma sent_fmap_AddShard (l : list N) from :
  sent ((λ shard, AddShard shard from) <$> l) = [].
Proof. by induction l. Qed.

Lemma sent_fmap_RemoveShard (l : list N) from :
  sent ((λ shard, RemoveShard shard from) <$> l) = [].
Proof. by induction l. Qed.

Section fillRolesProperties.
Context (rangeOver : RangeOrder) (sound : RangeSound rangeOver).
Context (decodeServerRole : string → error + ServerRole.t).
Context (addShard removeShard : N → Z → option error).

(** One version of the window: either it is already held, or its shards are
    added and, when every add succeeded, it is held and sent. *)
Lemma bringUpToDate_run roles v (st st' : gmap Z ServerRole.t) evs r :
  bringUpToDate rangeOver addShard roles v st = (st', evs, r) →
  (is_Some (st !! v) ∧ st' = st ∧ sent evs = [] ∧ r = inr tt)
  ∨ (st !! v = None ∧ st' = st ∧ sent evs = [] ∧ ∃ err, r = inl (Some err))
  ∨ (st !! v = None ∧ st' = <[v := roleAt roles v]> st ∧ sent evs = [v] ∧ r = inr tt).
Proof.
  unfold bringUpToDate. unfold mbind at 1, Eff_bind at 1. simpl.
  destruct (st !! v) as [role|] eqn:Hv; simpl.
  - intros [= <- <- <-]. left. eauto.
  - unfold mbind at 1, Eff_bind at 1. rewrite fanOut_run.
    destruct (firstError _) as [err|]; simpl.
    + intros [= <- <- <-]. right. left. rewrite sent_fmap_AddShard. eauto.
    + intros [= <- <- <-]. right. right.
      rewrite sent_app, sent_fmap_AddShard. eauto.
Qed.

(** The loop over the window sends exactly the versions not yet held, each
    once and in ascending order. *)
Lemma bringUpToDate_loop roles (l : list Z) (st st' : gmap Z ServerRole.t) evs r :
  StronglySorted Z.le l →
  forEff (bringUpToDate rangeOver addShard roles) l st = (st', evs, r) →
  StronglySorted Z.lt (sent evs)
  ∧ (∀ v, v ∈ sent evs → v ∈ l ∧ st !! v = None)
  ∧ (r = inr tt → ∀ v, v ∈ l → st !! v = None → v ∈ sent evs).
Proof.
  intros Hsorted. revert st st' evs r.
  induction Hsorted as [|v l Hsorted IH Hv]; intros st st' evs r; simpl.
  - intros [= <- <- <-]. split_and!; [constructor| |].
    + intros v Hin. by apply elem_of_nil in Hin.
    + intros _ v Hin. by apply elem_of_nil in Hin.
  - intros [(e & Hstep & ->)|(st1 & evs1 & [] & evs2 & Hstep & Hrest & ->)]%bind_run.
    + apply bringUpToDate_run in Hstep
        as [(_ & _ & _ & [=])|[(Hnone & -> & Hsent & _)|(_ & _ & _ & [=])]].
      rewrite Hsent. split_and!; [constructor| |done].
      intros w Hin. by apply elem_of_nil in Hin.
    + apply IH in Hrest as (Hs2 & Hin2 & Hall2).
      rewrite sent_app.
      apply bringUpToDate_run in Hstep
        as [(Hsome & -> & -> & _)|[(_ & _ & _ & err & [=])|(Hnone & -> & -> & _)]]; simpl.
      * split_and!; [done| |].
        -- intros w Hw. destruct (Hin2 w Hw). split; [by right|done].
        -- intros Hr w [->|Hw]%elem_of_cons Hnone; [|by apply Hall2].
           rewrite Hnone in Hsome. by destruct Hsome.
      * split_and!.
        -- constructor; [done|]. rewrite Forall_forall. intros w Hw.
           destruct (Hin2 w Hw) as [Hwl Hwn].
           rewrite Forall_forall in Hv. specialize (Hv w Hwl).
           assert (w ≠ v); [|lia]. intros ->. by rewrite lookup_insert_eq in Hwn.
        -- intros w [->|Hw]%elem_of_cons; [split; [left|done]|].
           destruct (Hin2 w Hw) as [Hwl Hwn]. split; [by right|].
           destruct (decide (w = v)) as [->|Hne];
             [by rewrite lookup_insert_eq in Hwn|by rewrite lookup_insert_ne in Hwn].
        -- intros Hr w [->|Hw]%elem_of_cons Hnone'; [left|].
           destruct (decide (w = v)) as [->|Hne]; [left|right].
           apply Hall2; [done|done|by rewrite lookup_insert_ne].
Qed.

Lemma expire_loop roles (l : list (Z * ServerRole.t)) (st st' : gmap Z ServerRole.t) evs r :
  forEff (expire rangeOver removeShard roles) l st = (st', evs, r) → st' = st ∧ sent evs = [].
Proof.
  revert st' evs r. induction l as [|[v role] l IH]; intros st' evs r; simpl.
  - by intros [= <- <- <-].
  - assert (Hstep : ∀ st1 evs1 r1, expire rangeOver removeShard roles (v, role) st = (st1, evs1, r1) →
                                   st1 = st ∧ sent evs1 = []).
    { intros st1 evs1 r1. unfold expire.
      destruct (roles !! v); [by intros [= <- <- <-]|].
      rewrite fanOut_run. intros [= <- <- <-]. by rewrite sent_fmap_RemoveShard. }
    intros [(e & Hs & ->)|(st1 & evs1 & [] & evs2 & Hs & Hrest & ->)]%bind_run.
    + by apply Hstep in Hs.
    + apply Hstep in Hs as [-> Hs]. apply IH in Hrest as [-> Hrest].
      by rewrite sent_app, Hs, Hrest.
Qed.

Lemma dom_retained roles (l : list Z) (acc : gmap Z ServerRole.t) :
  dom (foldl (λ oldRoles version, <[version := roleAt roles version]> oldRoles) acc l)
  = dom acc ∪ list_to_set l.
Proof.
  revert acc. induction l as [|v l IH]; intros acc; simpl; [set_solver|].
  rewrite IH, dom_insert_L. set_solver.
Qed.

Lemma decodeRoles_versions (l : list (string * string)) roles0 versions0 roles versions :
  decodeRoles decodeServerRole roles0 versions0 l = inr (roles, versions) →
  ∃ added, versions = versions0 ++ added ∧ length added = length l
    ∧ ∀ v, v ∈ added ↔ ∃ k e role, (k, e) ∈ l ∧ decodeServerRole e = inr role
                                   ∧ ServerRole.Version role = v.
Proof.
  revert roles0 versions0. induction l as [|[k e] l IH]; intros roles0 versions0; simpl.
  - intros [= <- <-]. exists []. rewrite app_nil_r. split_and!; [done|done|].
    intros v. split; [by intros ?%elem_of_nil|].
    by intros (? & ? & ? & ?%elem_of_nil & _).
  - destruct (decodeServerRole e) as [err|role] eqn:He; [done|].
    intros (added & -> & Hlen & Hadded)%IH.
    exists (ServerRole.Version role :: added).
    rewrite <- app_assoc. simpl. split_and!; [done|by rewrite Hlen|].
    intros v. rewrite elem_of_cons, Hadded. split.
    + intros [->|(k' & e' & role' & Hin & Hdec & Hv)].
      * exists k, e, role. split_and!; [left|done|done].
      * exists k', e', role'. split_and!; [by right|done|done].
    + intros (k' & e' & role' & [[= -> ->]|Hin]%elem_of_cons & Hdec & Hv).
      * left. rewrite He in Hdec. by injection Hdec as <-.
      * right. eauto 10.
Qed.

Lemma bringUpToDate_loop_exit roles (l : list Z) (st st' : gmap Z ServerRole.t) evs e :
  forEff (bringUpToDate rangeOver addShard roles) l st = (st', evs, inl e) → e ≠ None.
Proof.
  revert st evs. induction l as [|v l IH]; intros st evs; simpl; [done|].
  intros [(e' & Hs & [= <-])|(st1 & evs1 & [] & evs2 & Hs & Hrest & ->)]%bind_run.
  - apply bringUpToDate_run in Hs
      as [(_ & _ & _ & [=])|[(_ & _ & _ & err & [= ->])|(_ & _ & _ & [=])]]. done.
  - by eapply IH.
Qed.

Lemma expire_loop_exit roles (l : list (Z * ServerRole.t)) (st st' : gmap Z ServerRole.t)
    evs e :
  forEff (expire rangeOver removeShard roles) l st = (st', evs, inl e) → e ≠ None.
Proof.
  revert st evs. induction l as [|[v role] l IH]; intros st evs; simpl; [done|].
  intros [(e' & Hs & [= <-])|(st1 & evs1 & [] & evs2 & Hs & Hrest & ->)]%bind_run.
  - unfold expire in Hs. destruct (roles !! v); [done|].
    rewrite fanOut_run in Hs. destruct (firstError _); [|done]. by injection Hs as <- <- <-.
  - by eapply IH.
Qed.

(** The callback, split at its first loop. *)
Lemma fillRolesCallback_run (encodedServerRoles : gmap string string)
    (oldRoles oldRoles' : gmap Z ServerRole.t) roles versions evs r :
  decodeRoles decodeServerRole ∅ []
    (rangeAt rangeOver FollowerRoles encodedServerRoles) = inr (roles, versions) →
  fillRolesCallback rangeOver decodeServerRole addShard removeShard
    encodedServerRoles oldRoles = (oldRoles', evs, r) →
  ∃ st2 evs2 r2,
    forEff (bringUpToDate rangeOver addShard roles) (window versions) oldRoles
    = (st2, evs2, r2)
    ∧ sent evs = sent evs2
    ∧ (r = inl None →
       r2 = inr tt
       ∧ oldRoles' = foldl (λ oldRoles version, <[version := roleAt roles version]> oldRoles)
                           ∅ (window versions)).
Proof.
  intros Hdec. unfold fillRolesCallback. rewrite Hdec.
  destruct (forEff (bringUpToDate rangeOver addShard roles) (window versions) oldRoles)
    as [[st2 evs2] r2] eqn:Hloop.
  intros Hrun. exists st2, evs2, r2. split; [done|].
  apply bind_run in Hrun
    as [(e & [=] & _)|(st1 & evs1 & [roles1 vs1] & evs3 & [= <- <- <- <-] & Hrun & ->)].
  cbv beta iota in Hrun.
  apply bind_run in Hrun
    as [(e & Hl & ->)|(st3 & evs4 & [] & evs5 & Hl & Hrun & ->)];
    rewrite Hloop in Hl; injection Hl as <- <- <-.
  { split; [done|]. intros [= ->]. by apply bringUpToDate_loop_exit in Hloop. }
  apply bind_run in Hrun
    as [(e & [=] & _)|(st4 & evs6 & x & evs7 & [= <- <- <-] & Hrun & ->)].
  apply bind_run in Hrun
    as [(e & Hexp & ->)|(st5 & evs8 & [] & evs9 & Hexp & Hrun & ->)].
  { pose proof (expire_loop _ _ _ _ _ _ Hexp) as [_ Hsent]. simpl.
    rewrite sent_app, Hsent, app_nil_r. split; [done|].
    intros [= ->]. by apply expire_loop_exit in Hexp. }
  pose proof (expire_loop _ _ _ _ _ _ Hexp) as [_ Hsent].
  injection Hrun as <- <- <-. simpl.
  rewrite !sent_app, Hsent. simpl. rewrite !app_nil_r. done.
Qed.

(** C1, as the code has it.  When the role records of a snapshot all decode,
    the follower sorts their versions and keeps the two lowest: whatever is
    dropped is at least as high as whatever is kept.  The kept versions it
    did not hold yet are sent, each once and in ascending order, and when the
    callback returns nil the follower holds exactly the kept versions. *)
Theorem fillRoles_keeps_two_lowest (encodedServerRoles : gmap string string)
    (oldRoles oldRoles' : gmap Z ServerRole.t) roles versions evs r :
  decodeRoles decodeServerRole ∅ []
    (rangeAt rangeOver FollowerRoles encodedServerRoles) = inr (roles, versions) →
  fillRolesCallback rangeOver decodeServerRole addShard removeShard
    encodedServerRoles oldRoles = (oldRoles', evs, r) →
  (∀ v, v ∈ versions ↔ ∃ k e role, encodedServerRoles !! k = Some e
                                   ∧ decodeServerRole e = inr role
                                   ∧ ServerRole.Version role = v)
  ∧ length versions = size encodedServerRoles
  ∧ (∃ dropped, sortVersions versions = window versions ++ dropped
                ∧ (length (window versions) ≤ 2)%nat
                ∧ (dropped ≠ [] → length (window versions) = 2%nat)
                ∧ ∀ v w, v ∈ window versions → w ∈ dropped → (v ≤ w)%Z)
  ∧ StronglySorted Z.le (window versions)
  ∧ StronglySorted Z.lt (sent evs)
  ∧ (∀ v, v ∈ sent evs → v ∈ window versions ∧ oldRoles !! v = None)
  ∧ (r = inl None →
     (∀ v, v ∈ window versions → oldRoles !! v = None → v ∈ sent evs)
     ∧ dom oldRoles' = list_to_set (window versions)).
Proof.
  intros Hdec Hrun.
  destruct (window_split versions) as (dropped & Hsplit & Hlen & Hfull).
  pose proof (sortVersions_sorted versions) as Hsorted. rewrite Hsplit in Hsorted.
  pose proof (StronglySorted_app_l _ _ Hsorted) as Hkept.
  destruct (decodeRoles_versions _ _ _ _ _ Hdec) as (added & Heq & Hlen' & Hadded).
  simpl in Heq. subst versions.
  destruct (fillRolesCallback_run _ _ _ _ _ _ _ Hdec Hrun)
    as (st2 & evs2 & r2 & Hloop & Hsent & Hret).
  apply bringUpToDate_loop in Hloop as (Hs & Hin & Hall); [|done].
  rewrite Hsent. split_and!; [| | |done|done|done|].
  - intros v. rewrite Hadded. split.
    + intros (k & e & role & Hk & ?). exists k, e, role.
      split; [|done]. by apply elem_of_rangeAt in Hk.
    + intros (k & e & role & Hk & ?). exists k, e, role.
      split; [|done]. by apply elem_of_rangeAt.
  - by rewrite Hlen', length_rangeAt.
  - exists dropped. split_and!; [done|done|done|].
    intros v w. by apply StronglySorted_app_le.
  - intros Hr. destruct (Hret Hr) as [-> ->]. split; [by apply Hall|].
    rewrite dom_retained. set_solver.
Qed.
End fillRolesProperties.

(** With the records of versions 0, 1 and 2 before it, a follower that holds
    nothing keeps 0 and 1 and drops 2, which is the newest. *)
Lemma fillRoles_drops_newest :
  let '(held, evs, r) :=
    fillRolesCallback rangeCanonical sampleRoleDecoder planeAccepts planeAccepts
      sampleRoleRecords ∅ in
  r = inl None
  ∧ sent evs = [0; 1]%Z
  ∧ is_Some (held !! 0%Z) ∧ is_Some (held !! 1%Z) ∧ held !! 2%Z = None
  ∧ window [0; 1; 2]%Z = [0; 1]%Z
  ∧ newestTwo [0; 1; 2]%Z = [1; 2]%Z.
Proof. vm_compute. split_and!; eauto. Qed.

Lemma fillRoles_keeps_two_lowest_witness :
  let '(held, evs, r) :=
    fillRolesCallback rangeCanonical sampleRoleDecoder planeAccepts planeAccepts
      sampleRoleRecords ∅ in
  StronglySorted Z.lt (sent evs) ∧ ∀ v, v ∈ sent evs → (∅ : gmap Z ServerRole.t) !! v = None.
Proof.
  destruct (fillRolesCallback _ _ _ _ _ _) as [[held evs] r] eqn:Hrun.
  destruct (decodeRoles sampleRoleDecoder ∅ []
              (rangeAt rangeCanonical FollowerRoles sampleRoleRecords))
    as [err|[roles versions]] eqn:Hdec; [by vm_compute in Hdec|].
  destruct (fillRoles_keeps_two_lowest rangeCanonical rangeCanonical_sound
              sampleRoleDecoder planeAccepts planeAccepts sampleRoleRecords ∅
              held roles versions evs r Hdec Hrun) as (_ & _ & _ & _ & Hsorted & Hsent & _).
  split; [done|]. intros v Hv. by destruct (Hsent v Hv).
Defined.

(** ** Sums of loads *)

Lemma total_empty : total ∅ = 0.
Proof. apply map_fold_empty. Qed.

Lemma total_delete (loads : gmap string N) id n :
  loads !! id = Some n → total loads = n + total (delete id loads).
Proof.
  intros Hid. unfold total.
  rewrite (map_fold_delete_L _ _ id n loads); [done| |done].
  intros. lia.
Qed.

Lemma total_insert_fresh (loads : gmap string N) id n :
  loads !! id = None → total (<[id := n]> loads) = n + total loads.
Proof.
  intros Hid. rewrite (total_delete _ id n) by apply lookup_insert_eq.
  by rewrite delete_insert_eq, delete_id.
Qed.

Lemma total_insert (loads : gmap string N) id n n' :
  loads !! id = Some n → total (<[id := n']> loads) + n = total loads + n'.
Proof.
  intros Hid. rewrite (total_delete loads id n) by done.
  rewrite (total_delete _ id n') by apply lookup_insert_eq.
  rewrite delete_insert_eq. lia.
Qed.

Lemma total_le_size (loads : gmap string N) c :
  (∀ id n, loads !! id = Some n → n ≤ c) → total loads ≤ c * N.of_nat (size loads).
Proof.
  induction loads as [|id n loads Hid IH] using map_ind; intros Hle.
  - rewrite total_empty. lia.
  - rewrite total_insert_fresh, map_size_insert_None by done.
    assert (n ≤ c) by (apply (Hle id); apply lookup_insert_eq).
    assert (total loads ≤ c * N.of_nat (size loads)); [|lia].
    apply IH. intros id' n' Hid'. apply (Hle id').
    rewrite lookup_insert_ne; [done|]. intros ->. congruence.
Qed.

Lemma total_lt_size (loads : gmap string N) c id n :
  loads !! id = Some n → n < c → (∀ id n, loads !! id = Some n → n ≤ c) →
  total loads < c * N.of_nat (size loads).
Proof.
  intros Hid Hlt Hle. rewrite (total_delete loads id n) by done.
  assert (total (delete id loads) ≤ c * N.of_nat (size (delete id loads))) as Hrest.
  { apply total_le_size. intros id' n' [_ Hid']%lookup_delete_Some. by eapply Hle. }
  rewrite map_size_delete_Some in Hrest by eauto.
  assert (size loads ≠ O) by (apply map_size_ne_0_lookup; eauto).
  nia.
Qed.

Lemma total_member (loads : gmap string N) id n :
  loads !! id = Some n → n ≤ total loads.
Proof. intros Hid. rewrite (total_delete loads id n) by done. lia. Qed.

Lemma total_split {A : Type} (f g : A → N) (m : gmap string A) :
  total ((λ x, f x + g x) <$> m) = total (f <$> m) + total (g <$> m).
Proof.
  induction m as [|id x m Hid IH] using map_ind.
  - rewrite !fmap_empty, total_empty. lia.
  - rewrite !fmap_insert, !total_insert_fresh by (by rewrite lookup_fmap, Hid).
    rewrite IH. lia.
Qed.

Lemma total_fmap_insert {A : Type} (f : A → N) (m : gmap string A) id x x' :
  m !! id = Some x →
  total (f <$> <[id := x']> m) + f x = total (f <$> m) + f x'.
Proof.
  intros Hid. rewrite fmap_insert. apply total_insert. by rewrite lookup_fmap, Hid.
Qed.

Lemma size_two {A : Type} (m : gmap string A) i j x y :
  i ≠ j → m !! i = Some x → m !! j = Some y → (2 ≤ size m)%nat.
Proof.
  intros Hne Hi Hj.
  assert (size (delete i m) ≠ O).
  { apply map_size_ne_0_lookup. exists j. rewrite lookup_delete_ne by done. eauto. }
  rewrite map_size_delete_Some in * by eauto. lia.
Qed.

(** Ceiling of a quotient, as the code splits it. *)
Lemma ceiling_quota (n s : N) :
  s ≠ 0 → (n + s - 1) / s = n / s + (if n mod s =? 0 then 0 else 1).
Proof.
  intros Hs. pose proof (N.div_mod n s Hs) as Hdiv.
  pose proof (N.mod_lt n s Hs) as Hlt.
  remember (n / s) as q eqn:Hq. remember (n mod s) as r eqn:Hr.
  clear Hq Hr.
  destruct (N.eqb_spec r 0) as [H0|H0].
  - rewrite N.add_0_r. symmetry. apply (N.div_unique _ _ _ (s - 1)); [lia|].
    remember (s * q) as sq. lia.
  - symmetry. apply (N.div_unique _ _ _ (r - 1)); [lia|].
    rewrite N.mul_add_distr_l. remember (s * q) as sq. lia.
Qed.

(** When the loads add up to the whole budget, every server holds the floor
    or the ceiling of its share. *)
Lemma quota_balanced (held : gmap string (gmap N bool)) perServer initial remainder servers :
  Quota perServer initial held remainder →
  total (len <$> held) = perServer * servers + initial →
  N.of_nat (size held) ≤ servers →
  ∀ id shards, held !! id = Some shards →
    perServer ≤ len shards ≤ perServer + (if initial =? 0 then 0 else 1).
Proof.
  intros [Hmax Hpaid] Htotal Hsize id shards Hid.
  assert (Hsplit : total (len <$> held)
                   = total ((λ shards, N.min (len shards) perServer) <$> held)
                     + total ((λ shards, len shards - perServer) <$> held)).
  { rewrite <- total_split. f_equal. apply map_fmap_ext. intros. lia. }
  assert (Hcap : total ((λ shards, N.min (len shards) perServer) <$> held)
                 ≤ perServer * N.of_nat (size held)).
  { rewrite <- (map_size_fmap (λ shards, N.min (len shards) perServer) held).
    apply total_le_size. intros id' n. rewrite lookup_fmap.
    destruct (held !! id'); intros [= <-]. lia. }
  split.
  - destruct (N.le_gt_cases perServer (len shards)) as [|Hlt]; [done|].
    assert (total ((λ shards, N.min (len shards) perServer) <$> held)
            < perServer * N.of_nat (size (((λ shards, N.min (len shards) perServer) <$> held)))).
    { apply (total_lt_size _ _ id (N.min (len shards) perServer)).
      - by rewrite lookup_fmap, Hid.
      - lia.
      - intros id' n. rewrite lookup_fmap. destruct (held !! id'); intros [= <-]. lia. }
    rewrite map_size_fmap in *. nia.
  - pose proof (Hmax _ _ Hid).
    destruct (N.eqb_spec initial 0) as [->|]; [|lia].
    assert (len shards - perServer ≤ total ((λ shards, len shards - perServer) <$> held)).
    { apply (total_member _ id). by rewrite lookup_fmap, Hid. }
    lia.
Qed.

(** ** The assignment helpers, case by case *)

Lemma hasShard_false serverRole shard :
  hasShard serverRole shard = false ↔
  index (ServerRole.Masters serverRole) shard = false
  ∧ index (ServerRole.Replicas serverRole) shard = false.
Proof. unfold hasShard. apply orb_false_iff. Qed.

Lemma index_insert (m : gmap N bool) (k k' : N) :
  index (<[k := true]> m) k' = if decide (k = k') then true else index m k'.
Proof. unfold index. rewrite lookup_insert. by case_decide. Qed.

Lemma index_delete (m : gmap N bool) (k k' : N) :
  index (delete k m) k' = if decide (k = k') then false else index m k'.
Proof. unfold index. rewrite lookup_delete. by case_decide. Qed.

Lemma assignMaster_inv p id shard perServer remainder p' remainder' :
  assignMaster p id shard perServer remainder = Some (p', remainder') →
  ∃ serverRole,
    serverRoles p !! id = Some serverRole
    ∧ (len (ServerRole.Masters serverRole) < perServer
       ∨ (len (ServerRole.Masters serverRole) = perServer ∧ 0 < remainder))
    ∧ hasShard serverRole shard = false
    ∧ p' = mkPlan (<[id := addMaster serverRole shard]> (serverRoles p))
                  (<[shard := id]> (masters p)) (replicas p)
    ∧ remainder' = (if len (ServerRole.Masters serverRole) =? perServer
                    then remainder - 1 else remainder).
Proof.
  unfold assignMaster. destruct (serverRoles p !! id) as [serverRole|]; [|done].
  cbv zeta. destruct (N.ltb_spec perServer (len (ServerRole.Masters serverRole))); [done|].
  destruct (N.eqb_spec (len (ServerRole.Masters serverRole)) perServer) as [Heq|Hne];
    destruct (N.eqb_spec remainder 0); cbn [andb]; try done;
    destruct (hasShard serverRole shard) eqn:Hhas; try done;
    intros [= <- <-]; exists serverRole;
    (split_and!; [done|lia|done|done|]);
    destruct (N.eqb_spec (len (ServerRole.Masters serverRole)) perServer);
    destruct (N.ltb_spec 0 remainder); lia.
Qed.

Lemma assignMaster_budget p id shard perServer remainder serverRole :
  serverRoles p !! id = Some serverRole →
  len (ServerRole.Masters serverRole) < perServer
  ∨ (len (ServerRole.Masters serverRole) = perServer ∧ 0 < remainder) →
  hasShard serverRole shard = false →
  assignMaster p id shard perServer remainder
  = Some (mkPlan (<[id := addMaster serverRole shard]> (serverRoles p))
                 (<[shard := id]> (masters p)) (replicas p),
          if len (ServerRole.Masters serverRole) =? perServer
          then remainder - 1 else remainder).
Proof.
  intros Hid Hbudget Hhas. unfold assignMaster. rewrite Hid. cbv zeta.
  destruct (N.ltb_spec perServer (len (ServerRole.Masters serverRole))); [lia|].
  rewrite Hhas.
  destruct (N.eqb_spec (len (ServerRole.Masters serverRole)) perServer);
    destruct (N.eqb_spec remainder 0); cbn [andb]; try lia; try done.
  destruct (N.ltb_spec 0 remainder); [done|lia].
Qed.

Lemma assignReplica_inv p id shard perServer remainder p' remainder' :
  assignReplica p id shard perServer remainder = Some (p', remainder') →
  ∃ serverRole,
    serverRoles p !! id = Some serverRole
    ∧ (len (ServerRole.Replicas serverRole) < perServer
       ∨ (len (ServerRole.Replicas serverRole) = perServer ∧ 0 < remainder))
    ∧ hasShard serverRole shard = false
    ∧ p' = mkPlan (<[id := addReplica serverRole shard]> (serverRoles p))
                  (masters p)
                  (<[shard := slice (replicas p) shard ++ [id]]> (replicas p))
    ∧ remainder' = (if len (ServerRole.Replicas serverRole) =? perServer
                    then remainder - 1 else remainder).
Proof.
  unfold assignReplica. destruct (serverRoles p !! id) as [serverRole|]; [|done].
  cbv zeta. destruct (N.ltb_spec perServer (len (ServerRole.Replicas serverRole))); [done|].
  destruct (N.eqb_spec (len (ServerRole.Replicas serverRole)) perServer) as [Heq|Hne];
    destruct (N.eqb_spec remainder 0); cbn [andb]; try done;
    destruct (hasShard serverRole shard) eqn:Hhas; try done;
    intros [= <- <-]; exists serverRole;
    (split_and!; [done|lia|done|done|]);
    destruct (N.eqb_spec (len (ServerRole.Replicas serverRole)) perServer);
    destruct (N.ltb_spec 0 remainder); lia.
Qed.

Lemma assignReplica_budget p id shard perServer remainder serverRole :
  serverRoles p !! id = Some serverRole →
  len (ServerRole.Replicas serverRole) < perServer
  ∨ (len (ServerRole.Replicas serverRole) = perServer ∧ 0 < remainder) →
  hasShard serverRole shard = false →
  assignReplica p id shard perServer remainder
  = Some (mkPlan (<[id := addReplica serverRole shard]> (serverRoles p))
                 (masters p)
                 (<[shard := slice (replicas p) shard ++ [id]]> (replicas p)),
          if len (ServerRole.Replicas serverRole) =? perServer
          then remainder - 1 else remainder).
Proof.
  intros Hid Hbudget Hhas. unfold assignReplica. rewrite Hid. cbv zeta.
  destruct (N.ltb_spec perServer (len (ServerRole.Replicas serverRole))); [lia|].
  rewrite Hhas.
  destruct (N.eqb_spec (len (ServerRole.Replicas serverRole)) perServer);
    destruct (N.eqb_spec remainder 0); cbn [andb]; try lia; try done.
  destruct (N.ltb_spec 0 remainder); [done|lia].
Qed.

Lemma findSwapShard_inv serverRole swapServerRole shard l swapShard :
  findSwapShard serverRole swapServerRole shard l = Some swapShard →
  swapShard ∈ l.*1
  ∧ hasShard serverRole swapShard = false
  ∧ hasShard swapServerRole shard = false.
Proof.
  induction l as [|[s b] l IH]; simpl; [done|].
  destruct (hasShard serverRole s) eqn:H1.
  { intros (? & ? & ?)%IH. split_and!; [by right|done|done]. }
  destruct (hasShard swapServerRole shard) eqn:H2.
  { intros (? & ? & ?)%IH. split_and!; [by right|done|done]. }
  intros [= <-]. split_and!; [left|done|done].
Qed.

Lemma findSwap_inv replicasOrder serverRole id shard l swapID swapServerRole swapShard :
  findSwap replicasOrder serverRole id shard l = Some (swapID, swapServerRole, swapShard) →
  (swapID, swapServerRole) ∈ l
  ∧ swapID ≠ id
  ∧ swapShard ∈ (replicasOrder swapID (ServerRole.Replicas swapServerRole)).*1
  ∧ hasShard serverRole swapShard = false
  ∧ hasShard swapServerRole shard = false.
Proof.
  induction l as [|[i r] l IH]; simpl; [done|].
  destruct (decide (i = id)) as [->|Hne].
  { intros (? & ? & ? & ? & ?)%IH. split_and!; [by right|done..]. }
  destruct (findSwapShard _ _ _ _) as [s|] eqn:Hfind.
  - intros [= <- <- <-]. apply findSwapShard_inv in Hfind as (? & ? & ?).
    split_and!; [left|done..].
  - intros (? & ? & ? & ? & ?)%IH. split_and!; [by right|done..].
Qed.

Lemma swapReplica_inv (rangeOver : RangeOrder) (sound : RangeSound rangeOver)
    site sites p id shard perServer p' :
  swapReplica (rangeAt rangeOver site) (λ swapID, rangeAt rangeOver (sites swapID))
    p id shard perServer = Some p' →
  ∃ serverRole swapID swapServerRole swapShard,
    serverRoles p !! id = Some serverRole
    ∧ len (ServerRole.Replicas serverRole) < perServer
    ∧ swapID ≠ id
    ∧ serverRoles p !! swapID = Some swapServerRole
    ∧ is_Some (ServerRole.Replicas swapServerRole !! swapShard)
    ∧ hasShard serverRole swapShard = false
    ∧ hasShard swapServerRole shard = false
    ∧ p' = applySwap p id shard perServer swapID swapServerRole swapShard.
Proof.
  unfold swapReplica. destruct (serverRoles p !! id) as [serverRole|]; [|done].
  destruct (N.leb_spec perServer (len (ServerRole.Replicas serverRole))); [done|].
  destruct (findSwap _ _ _ _ _) as [[[swapID swapServerRole] swapShard]|] eqn:Hfind; [|done].
  intros [= <-]. apply findSwap_inv in Hfind as (Hin & Hne & Hshard & H1 & H2).
  exists serverRole, swapID, swapServerRole, swapShard.
  split_and!; try done.
  - by apply elem_of_rangeAt in Hin.
  - by apply elem_of_rangeAt_keys in Hshard.
Qed.

(** ** Budgets *)

Lemma len_insert_fresh (m : gmap N bool) k b :
  m !! k = None → len (<[k := b]> m) = len m + 1.
Proof. intros Hk. unfold len. rewrite map_size_insert_None by done. lia. Qed.

Lemma len_delete (m : gmap N bool) k :
  is_Some (m !! k) → len (delete k m) + 1 = len m.
Proof.
  intros Hk. unfold len. rewrite map_size_delete_Some by done.
  assert (size m ≠ O) by (apply map_size_ne_0_lookup; eauto). lia.
Qed.

Lemma AllTrue_index_false (held : gmap string (gmap N bool)) id shards s :
  AllTrue held → held !! id = Some shards → index shards s = false → shards !! s = None.
Proof.
  intros Htrue Hid Hidx. destruct (shards !! s) as [b|] eqn:Hs; [|done].
  rewrite (Htrue _ _ _ _ Hid Hs) in Hs. unfold index in Hidx. by rewrite Hs in Hidx.
Qed.

Lemma AllTrue_insert (held : gmap string (gmap N bool)) id shards :
  AllTrue held → (∀ s b, shards !! s = Some b → b = true) → AllTrue (<[id := shards]> held).
Proof.
  intros Htrue Hnew id' shards' s b. rewrite lookup_insert. case_decide.
  - intros [= <-]. apply Hnew.
  - apply Htrue.
Qed.

Lemma Quota_grow perServer initial held remainder id shards shards' :
  Quota perServer initial held remainder →
  held !! id = Some shards →
  len shards' = len shards + 1 →
  len shards < perServer ∨ (len shards = perServer ∧ 0 < remainder) →
  Quota perServer initial (<[id := shards']> held)
        (if len shards =? perServer then remainder - 1 else remainder).
Proof.
  intros [Hmax Hpaid] Hid Hlen Hbudget. split.
  - intros id' s'. rewrite lookup_insert. case_decide; [|by apply Hmax].
    intros [= <-]. lia.
  - pose proof (total_fmap_insert (λ shards, len shards - perServer) held id
                  shards shards' Hid) as Hins.
    cbv beta in Hins. destruct (N.eqb_spec (len shards) perServer); lia.
Qed.

Lemma Quota_keep perServer initial held remainder id shards shards' :
  Quota perServer initial held remainder →
  held !! id = Some shards →
  len shards' = len shards →
  Quota perServer initial (<[id := shards']> held) remainder.
Proof.
  intros [Hmax Hpaid] Hid Hlen. split.
  - intros id' s'. rewrite lookup_insert. case_decide; [|by apply Hmax].
    intros [= <-]. rewrite Hlen. by eapply Hmax.
  - pose proof (total_fmap_insert (λ shards, len shards - perServer) held id
                  shards shards' Hid) as Hins.
    cbv beta in Hins. lia.
Qed.

Lemma Quota_capacity perServer initial held remainder :
  Quota perServer initial held remainder →
  total (len <$> held) ≤ perServer * N.of_nat (size held) + initial.
Proof.
  intros [Hmax Hpaid].
  assert (Hsplit : total (len <$> held)
                   = total ((λ shards, N.min (len shards) perServer) <$> held)
                     + total ((λ shards, len shards - perServer) <$> held)).
  { rewrite <- total_split. f_equal. apply map_fmap_ext. intros. lia. }
  assert (Hcap : total ((λ shards, N.min (len shards) perServer) <$> held)
                 ≤ perServer * N.of_nat (size held)).
  { rewrite <- (map_size_fmap (λ shards, N.min (len shards) perServer) held).
    apply total_le_size. intros id' n. rewrite lookup_fmap.
    destruct (held !! id'); intros [= <-]. lia. }
  lia.
Qed.

Lemma Quota_fits perServer initial held remainder id shards :
  Quota perServer initial held remainder →
  perServer * N.of_nat (size held) + initial ≤ MaxUint64 →
  held !! id = Some shards → len shards ≤ MaxUint64.
Proof.
  intros Hquota Hcap Hid. pose proof (Quota_capacity _ _ _ _ Hquota).
  assert (len shards ≤ total (len <$> held)); [|lia].
  apply (total_member _ id). by rewrite lookup_fmap, Hid.
Qed.

(** ** The corrective move *)

Lemma applySwap_roles p id shard perServer swapID swapServerRole swapShard serverRole :
  swapID ≠ id →
  serverRoles p !! id = Some serverRole →
  serverRoles p !! swapID = Some swapServerRole →
  is_Some (ServerRole.Replicas swapServerRole !! swapShard) →
  hasShard serverRole swapShard = false →
  hasShard swapServerRole shard = false →
  len (ServerRole.Replicas serverRole) < perServer →
  len (ServerRole.Replicas swapServerRole) ≤ MaxUint64 →
  serverRoles (applySwap p id shard perServer swapID swapServerRole swapShard)
  = <[id := addReplica serverRole swapShard]>
      (<[swapID := addReplica (dropReplica swapServerRole swapShard) shard]> (serverRoles p))
  ∧ masters (applySwap p id shard perServer swapID swapServerRole swapShard) = masters p.
Proof.
  intros Hne Hid Hswap Hheld Hfree Hfree' Hbelow Hfits. unfold applySwap.
  pose proof (len_delete _ _ Hheld) as Hdrop.
  erewrite (assignReplica_budget _ swapID shard MaxUint64 0
              (dropReplica swapServerRole swapShard)); simpl.
  - erewrite (assignReplica_budget _ id swapShard perServer _ serverRole); simpl.
    + by rewrite insert_insert_eq.
    + by rewrite !lookup_insert_ne.
    + by left.
    + done.
  - apply lookup_insert_eq.
  - left. simpl. lia.
  - apply hasShard_false in Hfree' as [Hm Hr]. apply hasShard_false. simpl.
    split; [done|]. rewrite index_delete. by case_decide.
Qed.

(** ** One placement keeps the invariants *)

Lemma Disjoint_insert roles id serverRole :
  Disjoint roles →
  (∀ shard, index (ServerRole.Masters serverRole) shard = true →
            index (ServerRole.Replicas serverRole) shard = true → False) →
  Disjoint (<[id := serverRole]> roles).
Proof.
  intros Hdis Hnew id' serverRole' shard. rewrite lookup_insert. case_decide.
  - intros [= <-]. apply Hnew.
  - apply Hdis.
Qed.

Lemma mastersOf_insert roles id serverRole :
  mastersOf (<[id := serverRole]> roles)
  = <[id := ServerRole.Masters serverRole]> (mastersOf roles).
Proof. apply fmap_insert. Qed.

Lemma replicasOf_insert roles id serverRole :
  replicasOf (<[id := serverRole]> roles)
  = <[id := ServerRole.Replicas serverRole]> (replicasOf roles).
Proof. apply fmap_insert. Qed.

Lemma mastersOf_lookup roles id serverRole :
  roles !! id = Some serverRole →
  mastersOf roles !! id = Some (ServerRole.Masters serverRole).
Proof. intros Hid. unfold mastersOf. by rewrite lookup_fmap, Hid. Qed.

Lemma replicasOf_lookup roles id serverRole :
  roles !! id = Some serverRole →
  replicasOf roles !! id = Some (ServerRole.Replicas serverRole).
Proof. intros Hid. unfold replicasOf. by rewrite lookup_fmap, Hid. Qed.

Lemma mastersOf_insert_same roles id serverRole serverRole' :
  roles !! id = Some serverRole →
  ServerRole.Masters serverRole' = ServerRole.Masters serverRole →
  mastersOf (<[id := serverRole']> roles) = mastersOf roles.
Proof.
  intros Hid Heq. rewrite mastersOf_insert, Heq.
  apply insert_id. by apply mastersOf_lookup.
Qed.

Lemma assignMaster_MasterInv perServer initial ids done p remainder id st' :
  MasterInv perServer initial ids done (p, remainder) →
  assignMaster p id done perServer remainder = Some st' →
  MasterInv perServer initial ids (done + 1) st'.
Proof.
  intros (Hdom & Hempty & Htrue & (Hheld & Howner & Hdone) & Hquota & Htotal).
  destruct st' as [p' remainder'].
  intros (serverRole & Hid & Hbudget & Hfree & -> & ->)%assignMaster_inv.
  simpl in *.
  apply hasShard_false in Hfree as [Hfree _].
  pose proof (mastersOf_lookup _ _ _ Hid) as Hview.
  pose proof (AllTrue_index_false _ _ _ _ Htrue Hview Hfree) as Hnone.
  unfold MasterInv. simpl. rewrite mastersOf_insert. simpl. split_and!.
  - rewrite dom_insert_lookup_L by eauto. done.
  - intros id' serverRole'. rewrite lookup_insert. case_decide; [|by apply Hempty].
    intros [= <-]. simpl. by eapply Hempty.
  - apply AllTrue_insert; [done|]. intros s b. rewrite lookup_insert. case_decide.
    + by intros [= <-].
    + by eapply Htrue.
  - split_and!.
    + intros id' shards s. rewrite lookup_insert. case_decide as Hcase.
      * subst id'. intros [= <-]. rewrite !lookup_insert. case_decide; [done|].
        by apply Hheld.
      * intros Hid' Hs. pose proof (Hheld _ _ _ Hid' Hs) as Hm.
        rewrite lookup_insert_ne; [done|]. intros <-.
        assert (done < done); [|lia]. apply Hdone. eauto.
    + intros s id'. rewrite lookup_insert. case_decide as Hcase.
      * subst s. intros [= <-]. eexists. rewrite !lookup_insert_eq. done.
      * intros (shards & Hshards & Hs)%Howner.
        destruct (decide (id' = id)) as [->|Hne].
        -- rewrite Hview in Hshards. injection Hshards as <-.
           eexists. rewrite lookup_insert_eq. split; [done|].
           by rewrite lookup_insert_ne.
        -- exists shards. by rewrite lookup_insert_ne.
    + intros s. rewrite lookup_insert. case_decide as Hcase.
      * subst s. split; [lia|eauto].
      * rewrite Hdone. lia.
  - apply (Quota_grow _ _ _ _ _ (ServerRole.Masters serverRole)); try done.
    by apply len_insert_fresh.
  - pose proof (total_fmap_insert len _ id _ (<[done := true]> (ServerRole.Masters serverRole))
                  Hview) as Hins.
    rewrite len_insert_fresh in Hins by done. lia.
Qed.

Lemma assignReplica_ReplicaInv perServer initial heldMasters placed count p remainder
    id shard st' :
  ReplicaInv perServer initial heldMasters placed count (p, remainder) →
  assignReplica p id shard perServer remainder = Some st' →
  ReplicaInv perServer initial heldMasters placed (count + 1) st'.
Proof.
  intros (Hmasters & Hplaced & Htrue & Hdis & Hquota & Htotal).
  destruct st' as [p' remainder'].
  intros (serverRole & Hid & Hbudget & Hfree & -> & ->)%assignReplica_inv.
  simpl in *.
  apply hasShard_false in Hfree as [Hfree Hfree'].
  pose proof (replicasOf_lookup _ _ _ Hid) as Hview.
  pose proof (AllTrue_index_false _ _ _ _ Htrue Hview Hfree') as Hnone.
  unfold ReplicaInv. simpl. rewrite replicasOf_insert. simpl. split_and!.
  - by rewrite (mastersOf_insert_same _ _ serverRole).
  - done.
  - apply AllTrue_insert; [done|]. intros s b. rewrite lookup_insert. case_decide.
    + by intros [= <-].
    + by eapply Htrue.
  - apply Disjoint_insert; [done|]. simpl. intros s Hm. rewrite index_insert.
    case_decide; [subst s; congruence|]. by eapply Hdis.
  - apply (Quota_grow _ _ _ _ _ (ServerRole.Replicas serverRole)); try done.
    by apply len_insert_fresh.
  - pose proof (total_fmap_insert len _ id _ (<[shard := true]> (ServerRole.Replicas serverRole))
                  Hview) as Hins.
    rewrite len_insert_fresh in Hins by done. lia.
Qed.

Lemma swapReplica_ReplicaInv (rangeOver : RangeOrder) (sound : RangeSound rangeOver)
    site sites perServer initial heldMasters placed count p remainder id shard p' :
  ReplicaInv perServer initial heldMasters placed count (p, remainder) →
  perServer * N.of_nat (size heldMasters) + initial ≤ MaxUint64 →
  swapReplica (rangeAt rangeOver site) (λ swapID, rangeAt rangeOver (sites swapID))
    p id shard perServer = Some p' →
  ReplicaInv perServer initial heldMasters placed (count + 1) (p', remainder).
Proof.
  intros (Hmasters & Hplaced & Htrue & Hdis & Hquota & Htotal) Hcap.
  intros (serverRole & swapID & swapServerRole & swapShard & Hid & Hbelow & Hne & Hswap
          & Hheld & Hfree & Hfree' & ->)%swapReplica_inv; [|done].
  simpl in *.
  pose proof (replicasOf_lookup _ _ _ Hid) as Hview.
  pose proof (replicasOf_lookup _ _ _ Hswap) as Hview'.
  assert (Hfits : len (ServerRole.Replicas swapServerRole) ≤ MaxUint64).
  { eapply Quota_fits; [done| |done].
    unfold replicasOf. rewrite map_size_fmap.
    rewrite <- Hmasters in Hcap. unfold mastersOf in Hcap.
    by rewrite map_size_fmap in Hcap. }
  destruct (applySwap_roles p id shard perServer swapID swapServerRole swapShard serverRole)
    as [Hroles Hsame]; try done.
  apply hasShard_false in Hfree as [Hfree1 Hfree2].
  apply hasShard_false in Hfree' as [Hfree1' Hfree2'].
  pose proof (AllTrue_index_false _ _ _ _ Htrue Hview Hfree2) as Hnone.
  pose proof (AllTrue_index_false _ _ _ _ Htrue Hview' Hfree2') as Hnone'.
  set (kept := <[shard := true]> (delete swapShard (ServerRole.Replicas swapServerRole))).
  assert (Hkept : len kept = len (ServerRole.Replicas swapServerRole)).
  { unfold kept. rewrite len_insert_fresh.
    - by apply len_delete.
    - rewrite lookup_delete. by case_decide. }
  assert (Hquota1 : Quota perServer initial
                      (<[swapID := kept]> (replicasOf (serverRoles p))) remainder).
  { by eapply Quota_keep. }
  assert (Hview1 : <[swapID := kept]> (replicasOf (serverRoles p)) !! id
                   = Some (ServerRole.Replicas serverRole)).
  { by rewrite lookup_insert_ne. }
  unfold ReplicaInv. simpl. rewrite Hroles, Hsame, !replicasOf_insert. simpl.
  fold kept. split_and!.
  - rewrite (mastersOf_insert_same _ _ serverRole); [| |done].
    + by rewrite (mastersOf_insert_same _ _ swapServerRole).
    + by rewrite lookup_insert_ne.
  - done.
  - apply AllTrue_insert; [apply AllTrue_insert; [done|]|].
    + intros s b. unfold kept. rewrite lookup_insert. case_decide; [by intros [= <-]|].
      rewrite lookup_delete. case_decide; [done|]. by eapply Htrue.
    + intros s b. rewrite lookup_insert. case_decide; [by intros [= <-]|].
      by eapply Htrue.
  - apply Disjoint_insert; [apply Disjoint_insert; [done|]|]; simpl.
    + intros s Hm. rewrite index_insert. case_decide; [subst s; congruence|].
      rewrite index_delete. case_decide; [done|]. by eapply Hdis.
    + intros s Hm. rewrite index_insert. case_decide; [subst s; congruence|].
      by eapply Hdis.
  - pose proof (Quota_grow _ _ _ _ id _ (<[swapShard := true]> (ServerRole.Replicas serverRole))
                  Hquota1 Hview1) as Hgrow.
    destruct (N.eqb_spec (len (ServerRole.Replicas serverRole)) perServer); [lia|].
    apply Hgrow; [by apply len_insert_fresh|by left].
  - pose proof (total_fmap_insert len _ swapID _ kept Hview') as Hins1.
    pose proof (total_fmap_insert len _ id _
                  (<[swapShard := true]> (ServerRole.Replicas serverRole)) Hview1) as Hins2.
    rewrite len_insert_fresh in Hins2 by done. lia.
Qed.

(** ** Loops *)

Lemma firstSuccess_Some {S A : Type} (f : S → A → option S) st l st' :
  firstSuccess f st l = Some st' → ∃ x, x ∈ l ∧ f st x = Some st'.
Proof.
  induction l as [|x l IH]; simpl; [done|].
  destruct (f st x) as [st1|] eqn:Hx.
  - intros [= <-]. exists x. split; [left|done].
  - intros (y & ? & ?)%IH. exists y. split; [by right|done].
Qed.

Lemma firstSuccess_None {S A : Type} (f : S → A → option S) st l :
  firstSuccess f st l = None ↔ ∀ x, x ∈ l → f st x = None.
Proof.
  induction l as [|x l IH]; simpl.
  - split; [|done]. intros _ x Hx. by apply elem_of_nil in Hx.
  - destruct (f st x) as [st1|] eqn:Hx.
    + split; [done|]. intros Hall. rewrite Hall in Hx; [done|left].
    + rewrite IH. split.
      * intros Hall y [->|Hy]%elem_of_cons; [done|by apply Hall].
      * intros Hall y Hy. apply Hall. by right.
Qed.

Lemma forEach_invariant {S A : Type} (f : S → A → option S) (I : nat → S → Prop) l :
  ∀ n st st',
    I n st →
    (∀ i x st st', l !! i = Some x → I (n + i)%nat st → f st x = Some st' →
                   I (n + Datatypes.S i)%nat st') →
    forEach f st l = Some st' →
    I (n + length l)%nat st'.
Proof.
  induction l as [|x l IH]; intros n st st' Hinit Hstep; simpl.
  - intros [= <-]. by rewrite Nat.add_0_r.
  - destruct (f st x) as [st1|] eqn:Hx; [|done]. intros Hrest.
    replace (n + Datatypes.S (length l))%nat with (Datatypes.S n + length l)%nat by lia.
    apply (IH (Datatypes.S n) st1); [| |done].
    + replace (Datatypes.S n) with (n + 1)%nat by lia.
      apply (Hstep O x st); [done|by rewrite Nat.add_0_r|done].
    + intros i y st2 st3 Hi Hinv Hy.
      replace (Datatypes.S n + Datatypes.S i)%nat with (n + Datatypes.S (Datatypes.S i))%nat by lia.
      apply (Hstep (Datatypes.S i) y st2); [done| |done].
      by replace (n + Datatypes.S i)%nat with (Datatypes.S n + i)%nat by lia.
Qed.

Lemma upTo_lookup n i x : upTo n !! i = Some x → x = N.of_nat i ∧ x < n.
Proof.
  unfold upTo. rewrite list_lookup_fmap.
  destruct (seq 0 (N.to_nat n) !! i) as [j|] eqn:Hj; [|done].
  apply lookup_seq in Hj as [-> Hlt]. intros [= <-]. simpl. lia.
Qed.

Lemma length_upTo n : length (upTo n) = N.to_nat n.
Proof. unfold upTo. by rewrite length_fmap, length_seq. Qed.

Lemma elem_of_upTo n x : x ∈ upTo n ↔ x < n.
Proof.
  unfold upTo. rewrite list_elem_of_fmap. split.
  - intros (i & -> & Hi). apply elem_of_seq in Hi. lia.
  - intros Hlt. exists (N.to_nat x). split; [lia|]. apply elem_of_seq. lia.
Qed.

Lemma total_zero (loads : gmap string N) :
  (∀ id n, loads !! id = Some n → n = 0) → total loads = 0.
Proof.
  intros Hzero. assert (total loads ≤ 0 * N.of_nat (size loads)); [|lia].
  apply total_le_size. intros id n Hid. rewrite (Hzero _ _ Hid). lia.
Qed.

(** ** The passes keep the invariants *)

Section PassProperties.
Context (rangeOver : RangeOrder) (sound : RangeSound rangeOver).
Context (numShards numReplicas : N).
Context (oldMasters : gmap N string) (oldReplicas shardLocations : gmap N (list string)).
Context (newServerStates : gmap string ServerState.t).

Lemma masterStep_MasterInv perServer initial ids done st st' :
  MasterInv perServer initial ids done st →
  masterStep rangeOver oldMasters oldReplicas shardLocations newServerStates
    perServer st done = Some st' →
  MasterInv perServer initial ids (done + 1) st'.
Proof.
  intros Hinv (id & _ & Hassign)%firstSuccess_Some. destruct st as [p remainder].
  by eapply assignMaster_MasterInv.
Qed.

Lemma masterPass_MasterInv perServer initial ids st st' :
  MasterInv perServer initial ids 0 st →
  masterPass rangeOver numShards oldMasters oldReplicas shardLocations newServerStates
    perServer st = Some st' →
  MasterInv perServer initial ids numShards st'.
Proof.
  intros Hinit Hpass.
  pose proof (forEach_invariant
                (masterStep rangeOver oldMasters oldReplicas shardLocations
                   newServerStates perServer)
                (λ i, MasterInv perServer initial ids (N.of_nat i))
                (upTo numShards) O st st' Hinit) as Hloop.
  rewrite length_upTo in Hloop. simpl in Hloop. rewrite N2Nat.id in Hloop.
  apply Hloop; [|done].
  intros i shard st1 st2 [-> _]%upTo_lookup Hinv Hstep. simpl in *.
  replace (N.of_nat (Datatypes.S i)) with (N.of_nat i + 1) by lia.
  by eapply masterStep_MasterInv.
Qed.

Lemma replicaStep_ReplicaInv perServer initial heldMasters placed count replica shard st st' :
  ReplicaInv perServer initial heldMasters placed count st →
  perServer * N.of_nat (size heldMasters) + initial ≤ MaxUint64 →
  replicaStep rangeOver oldMasters oldReplicas shardLocations newServerStates
    perServer replica st shard = Some st' →
  ReplicaInv perServer initial heldMasters placed (count + 1) st'.
Proof.
  intros Hinv Hcap. unfold replicaStep. destruct st as [p remainder].
  destruct (firstSuccess _ _ (preferred _ _ _ _ ++ _)) as [st1|] eqn:Hfirst.
  - intros [= <-]. apply firstSuccess_Some in Hfirst as (id & _ & Hassign).
    by eapply assignReplica_ReplicaInv.
  - intros (id & _ & Hswap)%firstSuccess_Some.
    destruct (swapReplica _ _ _ _ _ _) as [p'|] eqn:Hp'; [|done].
    simpl in Hswap. injection Hswap as <-.
    by eapply swapReplica_ReplicaInv.
Qed.

Lemma replicaPass_ReplicaInv perServer initial heldMasters placed count st st' :
  ReplicaInv perServer initial heldMasters placed count st →
  perServer * N.of_nat (size heldMasters) + initial ≤ MaxUint64 →
  replicaPass rangeOver numShards numReplicas oldMasters oldReplicas shardLocations
    newServerStates perServer st = Some st' →
  ReplicaInv perServer initial heldMasters placed (count + numReplicas * numShards) st'.
Proof.
  intros Hinit Hcap Hpass.
  pose proof (forEach_invariant
                (λ st replica,
                   forEach (replicaStep rangeOver oldMasters oldReplicas shardLocations
                              newServerStates perServer replica) st (upTo numShards))
                (λ j, ReplicaInv perServer initial heldMasters placed
                        (count + N.of_nat j * numShards))
                (upTo numReplicas) O st st') as Hloop.
  rewrite length_upTo in Hloop. simpl in Hloop. rewrite N2Nat.id in Hloop.
  apply Hloop; [by rewrite N.add_0_r|clear Hloop|done].
  intros j replica st1 st2 _ Hinv Houter. simpl in *.
  pose proof (forEach_invariant
                (replicaStep rangeOver oldMasters oldReplicas shardLocations
                   newServerStates perServer replica)
                (λ i, ReplicaInv perServer initial heldMasters placed
                        (count + N.of_nat j * numShards + N.of_nat i))
                (upTo numShards) O st1 st2) as Hinner.
  rewrite length_upTo in Hinner. simpl in Hinner. rewrite N2Nat.id in Hinner.
  replace (count + N.of_nat (Datatypes.S j) * numShards)
    with (count + N.of_nat j * numShards + numShards) by lia.
  apply Hinner; [by rewrite N.add_0_r|clear Hinner|done].
  intros i shard st3 st4 _ Hinv' Hstep. simpl in *.
  replace (count + N.of_nat j * numShards + N.of_nat (Datatypes.S i))
    with (count + N.of_nat j * numShards + N.of_nat i + 1) by lia.
  by eapply replicaStep_ReplicaInv.
Qed.

(** Both passes, from the empty roles built while decoding. *)
Lemma passes_WellAssigned (roles0 : gmap string ServerRole.t)
    masterRolesPerServer masterRolesRemainder replicaRolesPerServer replicaRolesRemainder
    p1 left1 p2 left2 :
  (∀ id serverRole, roles0 !! id = Some serverRole →
     ServerRole.Masters serverRole = ∅ ∧ ServerRole.Replicas serverRole = ∅) →
  replicaRolesPerServer * N.of_nat (size roles0) + replicaRolesRemainder ≤ MaxUint64 →
  masterPass rangeOver numShards oldMasters oldReplicas shardLocations newServerStates
    masterRolesPerServer (mkPlan roles0 ∅ ∅, masterRolesRemainder) = Some (p1, left1) →
  replicaPass rangeOver numShards numReplicas oldMasters oldReplicas shardLocations
    newServerStates replicaRolesPerServer (p1, replicaRolesRemainder) = Some (p2, left2) →
  WellAssigned numShards numReplicas masterRolesPerServer masterRolesRemainder
    replicaRolesPerServer replicaRolesRemainder (dom roles0) p2.
Proof.
  intros Hempty Hcap Hmaster Hreplica.
  apply (masterPass_MasterInv _ masterRolesRemainder (dom roles0)) in Hmaster
    as (Hdom & Hnone & Htrue & Htracked & Hquota & Htotal).
  2:{ unfold MasterInv. simpl. split_and!.
      - done.
      - intros id r Hid. by destruct (Hempty _ _ Hid).
      - intros id shards s b. unfold mastersOf. rewrite lookup_fmap.
        destruct (roles0 !! id) as [r|] eqn:Hid; [|done]. intros [= <-].
        destruct (Hempty _ _ Hid) as [-> _]. done.
      - split_and!.
        + intros id shards s. unfold mastersOf. rewrite lookup_fmap.
          destruct (roles0 !! id) as [r|] eqn:Hid; [|done]. intros [= <-].
          destruct (Hempty _ _ Hid) as [-> _]. rewrite lookup_empty. by intros [].
        + intros s id. by rewrite lookup_empty.
        + intros s. rewrite lookup_empty. split; [by intros []|lia].
      - split.
        + intros id shards. unfold mastersOf. rewrite lookup_fmap.
          destruct (roles0 !! id) as [r|] eqn:Hid; [|done]. intros [= <-].
          destruct (Hempty _ _ Hid) as [-> _]. unfold len. rewrite map_size_empty. lia.
        + rewrite total_zero; [lia|]. intros id n. unfold mastersOf.
          rewrite !lookup_fmap. destruct (roles0 !! id) as [r|] eqn:Hid; [|done].
          intros [= <-]. destruct (Hempty _ _ Hid) as [-> _].
          unfold len. rewrite map_size_empty. lia.
      - apply total_zero. intros id n. unfold mastersOf.
        rewrite !lookup_fmap. destruct (roles0 !! id) as [r|] eqn:Hid; [|done].
        intros [= <-]. destruct (Hempty _ _ Hid) as [-> _].
        unfold len. by rewrite map_size_empty. }
  simpl in *.
  assert (Hsize : size (mastersOf (serverRoles p1)) = size roles0).
  { unfold mastersOf. rewrite map_size_fmap, <- !size_dom. by rewrite Hdom. }
  apply (replicaPass_ReplicaInv _ replicaRolesRemainder (mastersOf (serverRoles p1))
           (masters p1) 0) in Hreplica
    as (Hmasters & Hplaced & Htrue' & Hdis & Hquota' & Htotal').
  3:{ by rewrite Hsize. }
  2:{ unfold ReplicaInv. simpl. split_and!; [done|done| | | |].
      - intros id shards s b. unfold replicasOf. rewrite lookup_fmap.
        destruct (serverRoles p1 !! id) as [r|] eqn:Hid; [|done]. intros [= <-].
        by rewrite (Hnone _ _ Hid).
      - intros id r s Hid _. by rewrite (Hnone _ _ Hid).
      - split.
        + intros id shards. unfold replicasOf. rewrite lookup_fmap.
          destruct (serverRoles p1 !! id) as [r|] eqn:Hid; [|done]. intros [= <-].
          rewrite (Hnone _ _ Hid). unfold len. rewrite map_size_empty. lia.
        + rewrite total_zero; [lia|]. intros id n. unfold replicasOf.
          rewrite !lookup_fmap. destruct (serverRoles p1 !! id) as [r|] eqn:Hid; [|done].
          intros [= <-]. rewrite (Hnone _ _ Hid).
          unfold len. rewrite map_size_empty. lia.
      - apply total_zero. intros id n. unfold replicasOf.
        rewrite !lookup_fmap. destruct (serverRoles p1 !! id) as [r|] eqn:Hid; [|done].
        intros [= <-]. rewrite (Hnone _ _ Hid).
        unfold len. by rewrite map_size_empty. }
  simpl in *. unfold WellAssigned. rewrite Hmasters, Hplaced. split_and!; try done.
  - rewrite <- Hdom. apply (f_equal dom) in Hmasters. unfold mastersOf in Hmasters.
    by rewrite !dom_fmap_L in Hmasters.
  - eauto.
  - eauto.
Qed.
End PassProperties.

(** ** Publication *)

Section PublicationProperties.
Context (rangeOver : RangeOrder) (sound : RangeSound rangeOver).
Context (numShards : N).

Lemma setMaster_loop address (keys : list N) (addresses : gmap N ShardAddresses.t)
    (st st' : Assigner) evs r :
  foldEff (setMaster address) addresses keys st = (st', evs, r) →
  st' = st ∧ evs = []
  ∧ (∀ e, r = inl e → e ≠ None)
  ∧ ∀ addresses', r = inr addresses' →
      ∀ s, addresses' !! s
           = if decide (s ∈ keys)
             then (λ entry, ShardAddresses.mk address (ShardAddresses.Replicas entry))
                    <$> addresses !! s
             else addresses !! s.
Proof.
  revert st' addresses evs r.
  induction keys as [|k keys IH]; intros st' addresses evs r; simpl.
  - unfold mret, Eff_ret. intros [= <- <- <-]. split_and!; [done|done|by intros ? [=]|].
    by intros ? [= <-] s.
  - intros [(e & Hstep & ->)|(st1 & evs1 & a1 & evs2 & Hstep & Hrest & ->)]%bind_run;
      unfold setMaster in Hstep; destruct (addresses !! k) as [entry|] eqn:Hk;
      try done; injection Hstep as <- <- <-.
    + split_and!; [done|done|by intros ? [= <-]|]. by intros ? [=].
    + apply IH in Hrest as (-> & -> & Hexit & Hrest). split_and!; [done|done|done|].
      intros addresses' Hr s. rewrite (Hrest _ Hr s).
      destruct (decide (s = k)) as [->|Hne].
      * rewrite lookup_insert_eq, Hk. simpl.
        case_decide; rewrite decide_True by left; done.
      * rewrite lookup_insert_ne by done.
        case_decide as Hin.
        -- rewrite decide_True; [done|by right].
        -- rewrite decide_False; [done|]. by intros [?|?]%elem_of_cons.
Qed.

Lemma addReplicaAddress_loop address (keys : list N) (addresses : gmap N ShardAddresses.t)
    (st st' : Assigner) evs r :
  foldEff (addReplicaAddress address) addresses keys st = (st', evs, r) →
  st' = st ∧ evs = []
  ∧ (∀ e, r = inl e → e ≠ None)
  ∧ ∀ addresses', r = inr addresses' →
      ∀ s, addresses' !! s
           = if decide (s ∈ keys)
             then (λ entry, ShardAddresses.mk (ShardAddresses.Master entry)
                              (<[address := true]> (ShardAddresses.Replicas entry)))
                    <$> addresses !! s
             else addresses !! s.
Proof.
  revert st' addresses evs r.
  induction keys as [|k keys IH]; intros st' addresses evs r; simpl.
  - unfold mret, Eff_ret. intros [= <- <- <-]. split_and!; [done|done|by intros ? [=]|].
    by intros ? [= <-] s.
  - intros [(e & Hstep & ->)|(st1 & evs1 & a1 & evs2 & Hstep & Hrest & ->)]%bind_run;
      unfold addReplicaAddress in Hstep; destruct (addresses !! k) as [entry|] eqn:Hk;
      try done; injection Hstep as <- <- <-.
    + split_and!; [done|done|by intros ? [= <-]|]. by intros ? [=].
    + apply IH in Hrest as (-> & -> & Hexit & Hrest). split_and!; [done|done|done|].
      intros addresses' Hr s. rewrite (Hrest _ Hr s).
      destruct (decide (s = k)) as [->|Hne].
      * rewrite lookup_insert_eq, Hk. simpl.
        case_decide; rewrite decide_True by left; simpl; [|done].
        by rewrite insert_insert_eq.
      * rewrite lookup_insert_ne by done.
        case_decide as Hin.
        -- rewrite decide_True; [done|by right].
        -- rewrite decide_False; [done|]. by intros [?|?]%elem_of_cons.
Qed.

(** [store] makes at most the one [Set] it is asked for. *)
Lemma store_run (w : World) key value (st st' : Assigner) evs r :
  store w key value st = (st', evs, r) →
  st' = st
  ∧ ((evs = [] ∧ ∃ err, r = inl (Some err))
     ∨ (evs = [StoreSet key value 0] ∧ ((∃ err, r = inl (Some err)) ∨ r = inr tt))).
Proof.
  unfold store, check. destruct (marshalResult w value) as [err|].
  { intros [= <- <- <-]. split; [done|]. left. eauto. }
  unfold mbind, Eff_bind. simpl. destruct (setResult w key) as [err|]; simpl.
  - intros [= <- <- <-]. split; [done|]. right. eauto.
  - intros [= <- <- <-]. split; [done|]. right. eauto.
Qed.

Lemma publishRole_run (w : World) v (d : Decoded) (addresses : gmap N ShardAddresses.t)
    id serverRole (st st' : Assigner) evs r :
  publishRole rangeOver w v d addresses (id, serverRole) st = (st', evs, r) →
  st' = st
  ∧ (evs = [] ∨ evs = [StoreSet (ServerRoleKey id v) (RoleValue serverRole) 0])
  ∧ (∀ e, r = inl e → e ≠ None)
  ∧ ∀ addresses', r = inr addresses' →
      evs = [StoreSet (ServerRoleKey id v) (RoleValue serverRole) 0]
      ∧ is_Some (newServerStates d !! id)
      ∧ ∀ s, addresses' !! s
             = entryAfter (newServerStates d) [(id, serverRole)] s <$> addresses !! s.
Proof.
  unfold publishRole.
  intros [(e & Hstore & ->)|(st1 & evs1 & [] & evs2 & Hstore & Hrun & ->)]%bind_run;
    apply store_run in Hstore as [-> Hstore].
  { destruct Hstore as [(-> & err & [= ->])|(-> & [(err & [= ->])|[=]])];
      (split_and!; [done|eauto|by intros ? [= <-]|by intros ? [=]]). }
  destruct Hstore as [(-> & err & [=])|(-> & [(err & [=])|_])].
  destruct (newServerStates d !! id) as [serverState|] eqn:Hstate.
  2:{ injection Hrun as <- <- <-.
      split_and!; [done|eauto|by intros ? [= <-]|by intros ? [=]]. }
  apply bind_run in Hrun
    as [(e & Hm & ->)|(st2 & evs3 & addresses1 & evs4 & Hm & Hr & ->)];
    apply setMaster_loop in Hm as (-> & -> & Hexit & Hm).
  { split_and!; [done|eauto| |by intros ? [=]].
    intros e' [= <-]. by apply Hexit. }
  apply addReplicaAddress_loop in Hr as (-> & -> & Hexit' & Hr).
  split_and!; [done|eauto| |].
  { intros e' ->. by apply Hexit'. }
  intros addresses' ->. split_and!; [done|done|].
  intros s. rewrite (Hr _ eq_refl s), (Hm _ eq_refl s).
  unfold entryAfter, addressOf. simpl. rewrite Hstate. simpl.
  destruct (addresses !! s) as [entry|]; simpl.
  - destruct (decide (s ∈ (rangeAt rangeOver (PublishReplicas id)
                            (ServerRole.Replicas serverRole)).*1)) as [Hin|Hin];
      destruct (decide (s ∈ (rangeAt rangeOver (PublishMasters id)
                              (ServerRole.Masters serverRole)).*1)) as [Hin'|Hin'];
      rewrite elem_of_rangeAt_keys in Hin by done;
      rewrite elem_of_rangeAt_keys in Hin' by done;
      simpl; repeat case_decide; try done; by destruct entry.
  - by repeat case_decide.
Qed.

(** The loop that writes the roles: it writes them in the order of the
    [range], one [Set] each, and fills in the addresses. *)
Lemma publishRoles_loop (w : World) v (d : Decoded) (l : list (string * ServerRole.t))
    (addresses : gmap N ShardAddresses.t) (st st' : Assigner) evs r :
  foldEff (publishRole rangeOver w v d) addresses l st = (st', evs, r) →
  st' = st
  ∧ deleted evs = [] ∧ addressesWritten evs = []
  ∧ (∃ l', l' `prefix_of` l
           ∧ rolesWritten evs = (λ entry, (entry.1, v, entry.2)) <$> l')
  ∧ (∀ e, r = inl e → e ≠ None)
  ∧ ∀ addresses', r = inr addresses' →
      rolesWritten evs = (λ entry, (entry.1, v, entry.2)) <$> l
      ∧ (∀ id serverRole, (id, serverRole) ∈ l → is_Some (newServerStates d !! id))
      ∧ ∀ s, addresses' !! s = entryAfter (newServerStates d) l s <$> addresses !! s.
Proof.
  revert st' addresses evs r.
  induction l as [|[id serverRole] l IH]; intros st' addresses evs r; simpl.
  - unfold mret, Eff_ret. intros [= <- <- <-].
    split_and!; [done|done|done|by exists []|by intros ? [=]|].
    intros ? [= <-]. split_and!; [done| |].
    + intros ?? Hin. by apply elem_of_nil in Hin.
    + intros s. unfold entryAfter. simpl. by destruct (addresses !! s).
  - intros [(e & Hstep & ->)|(st1 & evs1 & addresses1 & evs2 & Hstep & Hrest & ->)]%bind_run;
      apply publishRole_run in Hstep as (-> & Hevs & Hexit & Hstep).
    + split_and!; [done| | | |done|by intros ? [=]].
      * by destruct Hevs as [-> | ->].
      * by destruct Hevs as [-> | ->].
      * destruct Hevs as [-> | ->].
        -- exists []. split; [apply prefix_nil|done].
        -- exists [(id, serverRole)]. split; [|done].
           by apply prefix_cons, prefix_nil.
    + destruct (Hstep _ eq_refl) as (-> & Hstate & Hentry).
      apply IH in Hrest as (-> & Hdel & Haddr & (l' & Hprefix & Hroles) & Hexit' & Hrest).
      split_and!; [done|done|done| |done|].
      * exists ((id, serverRole) :: l'). split; [by apply prefix_cons|].
        simpl. by rewrite Hroles.
      * intros addresses' ->. destruct (Hrest _ eq_refl) as (Hroles' & Hstates & Hfinal).
        split_and!.
        -- simpl. by rewrite Hroles'.
        -- intros id' role' [[= -> ->]|Hin]%elem_of_cons; [done|by eapply Hstates].
        -- intros s. rewrite Hfinal, Hentry. unfold entryAfter. simpl.
           by destruct (addresses !! s).
Qed.
End PublicationProperties.

(** ** Deleting old roles *)

Lemma deleted_app evs1 evs2 : deleted (evs1 ++ evs2) = deleted evs1 ++ deleted evs2.
Proof. apply omap_app. Qed.

Lemma rolesWritten_app evs1 evs2 :
  rolesWritten (evs1 ++ evs2) = rolesWritten evs1 ++ rolesWritten evs2.
Proof. apply omap_app. Qed.

Lemma addressesWritten_app evs1 evs2 :
  addressesWritten (evs1 ++ evs2) = addressesWritten evs1 ++ addressesWritten evs2.
Proof. apply omap_app. Qed.

Lemma only_deletes evs :
  Forall (λ ev, ∃ key, ev = StoreDelete key) evs →
  rolesWritten evs = [] ∧ addressesWritten evs = [].
Proof.
  induction 1 as [|ev evs [key ->] _ [IH1 IH2]]; [done|].
  split; simpl; [apply IH1|apply IH2].
Qed.

Section CollectProperties.
Context (rangeOver : RangeOrder) (sound : RangeSound rangeOver).
Context (decodeServerRole : string → error + ServerRole.t).
Context (decodeFrontendState : string → error + FrontendState.t).

Lemma frontendsReached_complete minVersion (l : list (string * string)) :
  (∀ e, decodeFrontendState e ≠ inl errComplete) →
  frontendsReached decodeFrontendState minVersion l = Some errComplete →
  ∀ k e, (k, e) ∈ l →
    ∃ frontendState, decodeFrontendState e = inr frontendState
                     ∧ (minVersion ≤ FrontendState.Version frontendState)%Z.
Proof.
  intros Hdec. induction l as [|[k e] l IH]; simpl.
  - intros _ ?? Hin. by apply elem_of_nil in Hin.
  - destruct (decodeFrontendState e) as [err|frontendState] eqn:He.
    { intros [= ->]. by destruct (Hdec e). }
    destruct (Z.ltb_spec (FrontendState.Version frontendState) minVersion); [done|].
    intros Hrest k' e' [[= -> ->]|Hin]%elem_of_cons; [eauto|by eapply IH].
Qed.

(** The wait returns COMPLETE only on a snapshot in which every frontend
    state decodes and has reached [minVersion]. *)
Lemma waitForFrontends_complete (w : World) minVersion :
  (∀ e, decodeFrontendState e ≠ inl errComplete) →
  frontendWatchEnd w ≠ errComplete →
  waitForFrontends rangeOver decodeFrontendState w minVersion = errComplete →
  ∃ delivery encodedFrontendStates,
    frontendDeliveries w !! delivery = Some encodedFrontendStates
    ∧ ∀ k e, encodedFrontendStates !! k = Some e →
        ∃ frontendState, decodeFrontendState e = inr frontendState
                         ∧ (minVersion ≤ FrontendState.Version frontendState)%Z.
Proof.
  intros Hdec Hend. unfold waitForFrontends.
  assert (Hgen : ∀ l n,
    (WatchAll (λ delivery (_ : unit) encodedFrontendStates,
                 (tt, [], frontendsReached decodeFrontendState minVersion
                            (rangeAt rangeOver (FrontendStates delivery)
                               encodedFrontendStates)))
              n tt l (frontendWatchEnd w)).2 = errComplete →
    ∃ i encodedFrontendStates,
      l !! i = Some encodedFrontendStates
      ∧ ∀ k e, encodedFrontendStates !! k = Some e →
          ∃ frontendState, decodeFrontendState e = inr frontendState
                           ∧ (minVersion ≤ FrontendState.Version frontendState)%Z).
  { induction l as [|snapshot l IH]; intros n; simpl; [done|].
    destruct (frontendsReached _ _ _) as [err|] eqn:Hreached; simpl.
    - intros ->. exists O, snapshot. split; [done|].
      intros k e Hk. eapply frontendsReached_complete; [done|done|].
      by apply elem_of_rangeAt.
    - destruct (WatchAll _ _ _ _ _) as [[[] evs] err] eqn:Hrest. simpl. intros ->.
      destruct (IH (S n)) as (i & snapshot' & Hi & Hall); [by rewrite Hrest|].
      exists (S i), snapshot'. eauto. }
  apply Hgen.
Qed.

Lemma deleteOldRole_loop (w : World) minVersion (l : list (string * string))
    (st st' : Assigner) evs r :
  forEff (deleteOldRole decodeServerRole w minVersion) l st = (st', evs, r) →
  st' = st
  ∧ (∀ e, r = inl e → e ≠ None)
  ∧ Forall (λ ev, ∃ key, ev = StoreDelete key) evs
  ∧ ∀ key, key ∈ deleted evs →
      ∃ encoded serverRole,
        (key, encoded) ∈ l ∧ decodeServerRole encoded = inr serverRole
        ∧ (ServerRole.Version serverRole < minVersion)%Z.
Proof.
  revert st' evs r. induction l as [|[key enc] l IH]; intros st' evs r; simpl.
  - unfold mret, Eff_ret. intros [= <- <- <-].
    split_and!; [done|by intros ? [=]|constructor|].
    intros ? Hin. by apply elem_of_nil in Hin.
  - assert (Hstep : ∀ st1 evs1 r1,
      deleteOldRole decodeServerRole w minVersion (key, enc) st = (st1, evs1, r1) →
      st1 = st ∧ (∀ e, r1 = inl e → e ≠ None)
      ∧ (evs1 = []
         ∨ (evs1 = [StoreDelete key]
            ∧ ∃ serverRole, decodeServerRole enc = inr serverRole
                            ∧ (ServerRole.Version serverRole < minVersion)%Z))).
    { intros st1 evs1 r1. unfold deleteOldRole. simpl.
      destruct (decodeServerRole enc) as [err|serverRole]; simpl.
      { intros [= <- <- <-]. split_and!; [done|by intros ? [= <-]|by left]. }
      unfold mbind, Eff_bind. simpl.
      destruct (Z.ltb_spec (ServerRole.Version serverRole) minVersion); simpl.
      - destruct (deleteResult w key); simpl; intros [= <- <- <-];
          (split_and!; [done| |right; eauto]); [by intros ? [= <-]|by intros ? [=]].
      - intros [= <- <- <-]. split_and!; [done|by intros ? [=]|by left]. }
    intros [(e & Hs & ->)|(st1 & evs1 & [] & evs2 & Hs & Hrest & ->)]%bind_run;
      apply Hstep in Hs as (-> & Hexit & Hevs).
    + split_and!; [done|done| |].
      * destruct Hevs as [->|[-> _]]; repeat constructor. by exists key.
      * destruct Hevs as [->|[-> (serverRole & ? & ?)]]; simpl.
        -- intros ? Hin. by apply elem_of_nil in Hin.
        -- intros ? ->%list_elem_of_singleton. exists enc, serverRole.
           split_and!; [left|done|done].
    + apply IH in Hrest as (-> & Hexit' & Hall & Hdel).
      split_and!; [done|done| |].
      * apply Forall_app. split; [|done].
        destruct Hevs as [->|[-> _]]; repeat constructor. by exists key.
      * intros key'. rewrite deleted_app, elem_of_app. intros [Hin|Hin].
        -- destruct Hevs as [->|[-> (serverRole & ? & ?)]]; simpl in Hin.
           ++ by apply elem_of_nil in Hin.
           ++ apply list_elem_of_singleton in Hin as ->. exists enc, serverRole.
              split_and!; [left|done|done].
        -- destruct (Hdel _ Hin) as (enc' & serverRole & ? & ? & ?).
           exists enc', serverRole. split_and!; [by right|done|done].
Qed.

(** The step that deletes old roles touches nothing but [oldMinVersion],
    makes no call but [Delete], and deletes only below [minVersion] and only
    once the wait has returned COMPLETE. *)
Lemma collectRoles_run (w : World) minVersion (st st' : Assigner) evs r :
  collectRoles rangeOver decodeServerRole decodeFrontendState w minVersion st
  = (st', evs, r) →
  version st' = version st ∧ oldServers st' = oldServers st
  ∧ oldRoles st' = oldRoles st ∧ oldMasters st' = oldMasters st
  ∧ oldReplicas st' = oldReplicas st
  ∧ (∀ e, r = inl e → e ≠ None)
  ∧ Forall (λ ev, ∃ key, ev = StoreDelete key) evs
  ∧ ∀ key, key ∈ deleted evs →
      (oldMinVersion st < minVersion)%Z
      ∧ waitForFrontends rangeOver decodeFrontendState w minVersion = errComplete
      ∧ ∃ serverRoles encoded serverRole,
          roleRecords w = inr serverRoles
          ∧ serverRoles !! key = Some encoded
          ∧ decodeServerRole encoded = inr serverRole
          ∧ (ServerRole.Version serverRole < minVersion)%Z.
Proof.
  unfold collectRoles. intros Hrun.
  apply bind_run in Hrun
    as [(e & [=] & _)|(st1 & evs1 & x & evs2 & [= <- <- <-] & Hrun & ->)].
  cbv beta in Hrun.
  destruct (Z.ltb_spec (oldMinVersion st) minVersion) as [Hlt|Hge].
  2:{ injection Hrun as <- <- <-.
      split_and!; [done|done|done|done|done|by intros ? [=]|constructor|].
      intros ? Hin. by apply elem_of_nil in Hin. }
  apply bind_run in Hrun
    as [(e & [=] & _)|(st2 & evs3 & [] & evs4 & [= <- <-] & Hrun & ->)].
  apply bind_run in Hrun
    as [(e & Hwait & ->)|(st3 & evs5 & [] & evs6 & Hwait & Hrun & ->)];
    cbv zeta in Hwait;
    destruct (decide (waitForFrontends rangeOver decodeFrontendState w minVersion
                      = errComplete)) as [Hcomplete|Hother];
    unfold mret, Eff_ret, leave in Hwait; simplify_eq.
  { split_and!; [done|done|done|done|done|by intros ? [= <-]|constructor|].
    intros ? Hin. by apply elem_of_nil in Hin. }
  apply bind_run in Hrun
    as [(e & Hget & ->)|(st4 & evs7 & serverRoles & evs8 & Hget & Hrun & ->)];
    destruct (roleRecords w) as [err|serverRoles'] eqn:Hrecords;
    unfold try, mret, Eff_ret, leave in Hget; simplify_eq.
  { split_and!; [done|done|done|done|done|by intros ? [= <-]|constructor|].
    intros ? Hin. by apply elem_of_nil in Hin. }
  apply deleteOldRole_loop in Hrun as (-> & Hexit & Hall & Hdel). simpl.
  split_and!; [done|done|done|done|done|done|done|].
  intros key Hin. split_and!; [done|done|].
  destruct (Hdel _ Hin) as (enc & serverRole & Hk & ? & ?).
  apply elem_of_rangeAt in Hk; [|done]. eauto 10.
Qed.
End CollectProperties.

(** ** The assigner callback, step by step *)

Section CallbackProperties.
Context (rangeOver : RangeOrder) (sound : RangeSound rangeOver).
Context (numShards numReplicas : N).
Context (decodeServerState : string → error + ServerState.t).
Context (decodeServerRole : string → error + ServerRole.t).
Context (decodeFrontendState : string → error + FrontendState.t).

Lemma decodeStates_run v (d0 d : Decoded) (l : list (string * string)) :
  decodeStates rangeOver decodeServerState v d0 l = inr d →
  (∀ id, is_Some (newRoles d !! id) ↔
         is_Some (newRoles d0 !! id)
         ∨ ∃ k e s, (k, e) ∈ l ∧ decodeServerState e = inr s ∧ ServerState.Id s = id)
  ∧ (dom (newServerStates d0) = dom (newRoles d0) →
     dom (newServerStates d) = dom (newRoles d))
  ∧ (∀ id r, newRoles d !! id = Some r →
             newRoles d0 !! id = Some r ∨ r = ServerRole.mk id v ∅ ∅)
  ∧ (size (newRoles d) ≤ size (newRoles d0) + length l)%nat
  ∧ (∀ id s, newServerStates d !! id = Some s →
             newServerStates d0 !! id = Some s
             ∨ ∃ k e, (k, e) ∈ l ∧ decodeServerState e = inr s ∧ ServerState.Id s = id)
  ∧ (∀ k e, (k, e) ∈ l → ∃ s, decodeServerState e = inr s).
Proof.
  revert d0. induction l as [|[k e] l IH]; intros d0; simpl.
  - intros [= <-]. split_and!; [|done|by left|lia|by left|].
    + intros id. split; [by left|]. intros [?|(? & ? & ? & ?%elem_of_nil & _)]; done.
    + intros ?? Hin. by apply elem_of_nil in Hin.
  - destruct (decodeServerState e) as [err|s] eqn:He; [done|].
    intros (Hdom & Hsame & Hroles & Hsize & Hstates & Hdecoded)%IH. simpl in *.
    split_and!; [| | | | |intros k' e' [[= -> ->]|Hin]%elem_of_cons; eauto].
    + intros id. rewrite Hdom, lookup_insert. split.
      * intros [Hsome|(k' & e' & s' & Hin & ? & ?)].
        -- case_decide as Hid; [|by left]. right. exists k, e, s.
           split_and!; [left|done|done].
        -- right. exists k', e', s'. split_and!; [by right|done|done].
      * intros [Hsome|(k' & e' & s' & [[= -> ->]|Hin]%elem_of_cons & Hdec & Hid)].
        -- left. case_decide; [eauto|done].
        -- left. rewrite He in Hdec. injection Hdec as <-. rewrite decide_True; eauto.
        -- right. eauto 10.
    + intros Hd0. apply Hsame. rewrite !dom_insert_L. by rewrite Hd0.
    + intros id r Hr. destruct (Hroles _ _ Hr) as [Hold| ->]; [|by right].
      rewrite lookup_insert in Hold. case_decide as Hid; [|by left].
      right. injection Hold as <-. by rewrite Hid.
    + etrans; [apply Hsize|]. rewrite map_size_insert.
      destruct (newRoles d0 !! ServerState.Id s); simpl; lia.
    + intros id s' Hs'. destruct (Hstates _ _ Hs') as [Hold|(k' & e' & ? & ? & ?)].
      * rewrite lookup_insert in Hold. case_decide as Hid; [|by left].
        right. injection Hold as <-. exists k, e. split_and!; [left|done|done].
      * right. exists k', e'. split_and!; [by right|done|done].
Qed.

(** The planning step either produces a plan silently or reports the
    failure and returns nil. *)
Lemma planRoles_run (st st1 st2 : Assigner) (d : Decoded) servers evs r :
  planRoles rangeOver numShards numReplicas st d servers st1 = (st2, evs, r) →
  st2 = st1
  ∧ ((∃ p p1 left1 left2,
        r = inr p ∧ evs = []
        ∧ masterPass rangeOver numShards (oldMasters st) (oldReplicas st)
            (shardLocations d) (newServerStates d) (numShards / servers)
            (mkPlan (newRoles d) ∅ ∅, numShards mod servers) = Some (p1, left1)
        ∧ replicaPass rangeOver numShards numReplicas (oldMasters st) (oldReplicas st)
            (shardLocations d) (newServerStates d)
            (mul64 numShards numReplicas / servers)
            (p1, mul64 numShards numReplicas mod servers) = Some (p, left2))
     ∨ (r = inl None
        ∧ evs = [FailedToAssignRoles (newServerStates d) numShards numReplicas]
        ∧ (masterPass rangeOver numShards (oldMasters st) (oldReplicas st)
             (shardLocations d) (newServerStates d) (numShards / servers)
             (mkPlan (newRoles d) ∅ ∅, numShards mod servers) = None
           ∨ ∃ p1 left1,
               masterPass rangeOver numShards (oldMasters st) (oldReplicas st)
                 (shardLocations d) (newServerStates d) (numShards / servers)
                 (mkPlan (newRoles d) ∅ ∅, numShards mod servers) = Some (p1, left1)
               ∧ replicaPass rangeOver numShards numReplicas (oldMasters st)
                   (oldReplicas st) (shardLocations d) (newServerStates d)
                   (mul64 numShards numReplicas / servers)
                   (p1, mul64 numShards numReplicas mod servers) = None))).
Proof.
  unfold planRoles. cbv zeta.
  destruct (masterPass _ _ _ _ _ _ _ _) as [[p1 left1]|] eqn:Hmaster.
  2:{ intros [= <- <- <-]. split; [done|]. right. split_and!; [done|done|by left]. }
  destruct (replicaPass _ _ _ _ _ _ _ _ _) as [[p left2]|] eqn:Hreplica.
  - intros [= <- <- <-]. split; [done|]. left. exists p, p1, left1, left2. done.
  - intros [= <- <- <-]. split; [done|]. right. split_and!; [done|done|].
    right. eauto.
Qed.

(** Publication: the roles in the order of the [range], then the
    addresses; the assigner's variables move on only when all of it
    succeeded. *)
Lemma publish_run (w : World) (d : Decoded) (p : Plan) (st st' : Assigner) evs r :
  publish rangeOver numShards w d p st = (st', evs, r) →
  deleted evs = []
  ∧ (∃ l', l' `prefix_of` rangeAt rangeOver PublishRoles (serverRoles p)
           ∧ rolesWritten evs = (λ entry, (entry.1, version st, entry.2)) <$> l')
  ∧ (∀ e, r = inl e → e ≠ None ∧ st' = st)
  ∧ (r = inr tt →
     st' = mkAssigner (wrap64 (version st + 1)) ((λ _, true) <$> newServerStates d)
                      (serverRoles p) (masters p) (replicas p) (oldMinVersion st))
  ∧ (addressesWritten evs = []
     ∨ ∃ addresses,
         addressesWritten evs = [Addresses.mk (version st) addresses]
         ∧ rolesWritten evs
           = (λ entry, (entry.1, version st, entry.2))
               <$> rangeAt rangeOver PublishRoles (serverRoles p)
         ∧ (∀ id serverRole, serverRoles p !! id = Some serverRole →
                             is_Some (newServerStates d !! id))
         ∧ ∀ s, addresses !! s
                = entryAfter (newServerStates d)
                    (rangeAt rangeOver PublishRoles (serverRoles p)) s
                    <$> emptyAddresses numShards !! s).
Proof.
  unfold publish. intros Hrun.
  apply bind_run in Hrun
    as [(e & [=] & _)|(st1 & evs1 & x & evs2 & [= <- <- <-] & Hrun & ->)].
  cbv beta in Hrun.
  apply bind_run in Hrun
    as [(e & Hloop & ->)|(st2 & evs3 & addresses & evs4 & Hloop & Hrun & ->)];
    apply publishRoles_loop in Hloop
      as (-> & Hdel & Haddr & Hprefix & Hexit & Hloop); [| done | | done].
  { simpl. split_and!; [done|done| |done|by left].
    intros e' [= <-]. split; [by apply Hexit|done]. }
  destruct (Hloop _ eq_refl) as (Hroles & Hstates & Hentries).
  apply bind_run in Hrun
    as [(e & Hstore & ->)|(st3 & evs5 & [] & evs6 & Hstore & Hrun & ->)];
    apply store_run in Hstore as [-> Hstore].
  { simpl. destruct Hstore as [(-> & err & [= ->])|(-> & [(err & [= ->])|[=]])].
    - rewrite app_nil_r. split_and!; [done|done|by intros ? [= <-]|done|by left].
    - rewrite deleted_app, rolesWritten_app, addressesWritten_app, Hdel, Haddr, Hroles.
      simpl. rewrite app_nil_r.
      split_and!; [done|by exists (rangeAt rangeOver PublishRoles (serverRoles p))
                  |by intros ? [= <-]|done|].
      right. exists addresses. split_and!; [done|done| |done].
      intros id serverRole Hid. eapply Hstates. by apply elem_of_rangeAt. }
  destruct Hstore as [(-> & err & [=])|(-> & [(err & [=])|_])].
  unfold mbind, Eff_bind, get, put in Hrun. simpl in Hrun. injection Hrun as <- <- <-.
  simpl. rewrite !deleted_app, !rolesWritten_app, !addressesWritten_app, Hdel, Haddr, Hroles.
  simpl. rewrite app_nil_r.
  split_and!; [done|by exists (rangeAt rangeOver PublishRoles (serverRoles p))
              |by intros ? [=]|done|].
  right. exists addresses. split_and!; [done|done| |done].
  intros id serverRole Hid. eapply Hstates. by apply elem_of_rangeAt.
Qed.

(** The ways the callback can go. *)
Lemma assignCallback_run (w : World) (encodedServerStates : gmap string string)
    (st st' : Assigner) evs r :
  assignCallback rangeOver numShards numReplicas decodeServerState decodeServerRole
    decodeFrontendState w encodedServerStates st = (st', evs, r) →
  (size encodedServerStates = O ∧ st' = st ∧ evs = [] ∧ r = inl None)
  ∨ (size encodedServerStates ≠ O
     ∧ ∃ err, decodeStates rangeOver decodeServerState (version st) (mkDecoded ∅ ∅ ∅)
                (rangeAt rangeOver DecodeStates encodedServerStates) = inl err
              ∧ st' = st ∧ evs = [] ∧ r = inl (Some err))
  ∨ (size encodedServerStates ≠ O
     ∧ ∃ d st1 evs1 r1,
         decodeStates rangeOver decodeServerState (version st) (mkDecoded ∅ ∅ ∅)
           (rangeAt rangeOver DecodeStates encodedServerStates) = inr d
         ∧ collectRoles rangeOver decodeServerRole decodeFrontendState w
             (minVersionOf (newServerStates d)) st = (st1, evs1, r1)
         ∧ ((∃ e, r1 = inl e ∧ st' = st1 ∧ evs = evs1 ∧ r = inl e)
            ∨ (r1 = inr tt
               ∧ sameServers (oldServers st1) (newServerStates d) = true
               ∧ st' = st1 ∧ evs = evs1 ∧ r = inl None)
            ∨ (r1 = inr tt
               ∧ sameServers (oldServers st1) (newServerStates d) = false
               ∧ ∃ evs2 r2,
                   planRoles rangeOver numShards numReplicas st1 d
                     (len encodedServerStates) st1 = (st1, evs2, r2)
                   ∧ ((r2 = inl None ∧ st' = st1 ∧ evs = evs1 ++ evs2 ∧ r = inl None)
                      ∨ ∃ p evs3 r3,
                          r2 = inr p ∧ evs2 = []
                          ∧ publish rangeOver numShards w d p st1 = (st', evs3, r3)
                          ∧ evs = evs1 ++ evs3
                          ∧ r = inl (match r3 with inl e => e | inr _ => None end))))).
Proof.
  unfold assignCallback. destruct (decide (size encodedServerStates = O)) as [Hsize|Hsize].
  { intros [= <- <- <-]. by left. }
  intros Hrun. right.
  apply bind_run in Hrun
    as [(e & [=] & _)|(st0 & evs0 & x & evsA & [= <- <- <-] & Hrun & ->)].
  cbv beta in Hrun. simpl.
  destruct (decodeStates _ _ _ _ _) as [err|d] eqn:Hdec.
  { left. injection Hrun as <- <- <-. split; [done|]. by exists err. }
  right. split; [done|].
  apply bind_run in Hrun
    as [(e & [=] & _)|(st0 & evs0 & x & evsB & [= <- <- <-] & Hrun & ->)].
  simpl.
  apply bind_run in Hrun
    as [(e & Hc & ->)|(st1 & evs1 & [] & evsC & Hc & Hrun & ->)].
  { exists d, st', evsB, (inl e). split_and!; [done|done|]. left. by exists e. }
  exists d, st1, evs1, (inr tt). split_and!; [done|done|]. right.
  apply bind_run in Hrun
    as [(e & [=] & _)|(st0 & evs0 & x & evsD & [= <- <- <-] & Hrun & ->)].
  cbv beta in Hrun. simpl.
  destruct (sameServers (oldServers st1) (newServerStates d)) eqn:Hsame.
  { left. injection Hrun as <- <- <-. rewrite app_nil_r. done. }
  right. split_and!; [done|done|].
  apply bind_run in Hrun
    as [(e & Hp & ->)|(st3 & evs4 & p & evs5 & Hp & Hrun & ->)];
    pose proof (planRoles_run _ _ _ _ _ _ _ Hp) as [-> Hcases].
  { exists evsD, (inl e). split; [done|]. left.
    destruct Hcases as [(? & ? & ? & ? & [=] & _)|([= <-] & -> & _)]. done. }
  exists evs4, (inr p). split; [done|]. right.
  destruct Hcases as [(? & ? & ? & ? & _ & -> & _)|([=] & _)].
  apply bind_run in Hrun
    as [(e & Hpub & ->)|(st4 & evs6 & [] & evs7 & Hpub & Hrun & ->)].
  - exists p, evs5, (inl e). done.
  - injection Hrun as <- <- <-. exists p, evs6, (inr tt).
    rewrite app_nil_r. done.
Qed.
End CallbackProperties.

(** ** What the helpers leave alone *)

Lemma headersOf_insert_same roles id serverRole serverRole' :
  roles !! id = Some serverRole →
  ServerRole.Id serverRole' = ServerRole.Id serverRole →
  ServerRole.Version serverRole' = ServerRole.Version serverRole →
  headersOf (<[id := serverRole']> roles) = headersOf roles.
Proof.
  intros Hid Heq Heq'. unfold headersOf. rewrite fmap_insert, Heq, Heq'.
  apply insert_id. by rewrite lookup_fmap, Hid.
Qed.

Lemma assignMaster_headers p id shard perServer remainder p' remainder' :
  assignMaster p id shard perServer remainder = Some (p', remainder') →
  headersOf (serverRoles p') = headersOf (serverRoles p).
Proof.
  intros (serverRole & Hid & _ & _ & -> & _)%assignMaster_inv. simpl.
  by apply (headersOf_insert_same _ _ serverRole).
Qed.

Lemma assignReplica_headers p id shard perServer remainder p' remainder' :
  assignReplica p id shard perServer remainder = Some (p', remainder') →
  headersOf (serverRoles p') = headersOf (serverRoles p).
Proof.
  intros (serverRole & Hid & _ & _ & -> & _)%assignReplica_inv. simpl.
  by apply (headersOf_insert_same _ _ serverRole).
Qed.

Lemma assignMaster_Disjoint p id shard perServer remainder p' remainder' :
  Disjoint (serverRoles p) →
  assignMaster p id shard perServer remainder = Some (p', remainder') →
  Disjoint (serverRoles p').
Proof.
  intros Hdis (serverRole & Hid & _ & Hfree & -> & _)%assignMaster_inv. simpl.
  apply hasShard_false in Hfree as [_ Hfree].
  apply Disjoint_insert; [done|]. simpl. intros s. rewrite index_insert.
  case_decide; [subst s; congruence|]. by eapply Hdis.
Qed.

Lemma assignReplica_Disjoint p id shard perServer remainder p' remainder' :
  Disjoint (serverRoles p) →
  assignReplica p id shard perServer remainder = Some (p', remainder') →
  Disjoint (serverRoles p').
Proof.
  intros Hdis (serverRole & Hid & _ & Hfree & -> & _)%assignReplica_inv. simpl.
  apply hasShard_false in Hfree as [Hfree _].
  apply Disjoint_insert; [done|]. simpl. intros s Hm. rewrite index_insert.
  case_decide; [subst s; congruence|]. by eapply Hdis.
Qed.

(** The corrective move, whatever its two inner calls answer. *)
Lemma applySwap_keeps p id shard perServer swapID swapServerRole swapShard :
  serverRoles p !! swapID = Some swapServerRole →
  headersOf (serverRoles (applySwap p id shard perServer swapID swapServerRole swapShard))
  = headersOf (serverRoles p)
  ∧ (Disjoint (serverRoles p) →
     Disjoint (serverRoles (applySwap p id shard perServer swapID swapServerRole swapShard))).
Proof.
  intros Hswap. unfold applySwap.
  set (p1 := mkPlan _ _ _).
  assert (H1 : headersOf (serverRoles p1) = headersOf (serverRoles p)
               ∧ (Disjoint (serverRoles p) → Disjoint (serverRoles p1))).
  { split.
    - by apply (headersOf_insert_same _ _ swapServerRole).
    - intros Hdis. apply Disjoint_insert; [done|]. simpl. intros s Hm.
      rewrite index_delete. case_decide; [done|]. by eapply Hdis. }
  destruct H1 as [Hh1 Hd1].
  destruct (assignReplica p1 swapID shard MaxUint64 0) as [[p2 r2]|] eqn:Hfirst; simpl.
  - pose proof (assignReplica_headers _ _ _ _ _ _ _ Hfirst) as Hh2.
    destruct (assignReplica p2 id swapShard perServer r2) as [[p3 r3]|] eqn:Hsecond; simpl.
    + pose proof (assignReplica_headers _ _ _ _ _ _ _ Hsecond) as Hh3.
      split; [congruence|]. intros Hdis.
      eapply assignReplica_Disjoint; [|done].
      eapply assignReplica_Disjoint; [|done]. by apply Hd1.
    + split; [congruence|]. intros Hdis.
      eapply assignReplica_Disjoint; [|done]. by apply Hd1.
  - destruct (assignReplica p1 id swapShard perServer 0) as [[p3 r3]|] eqn:Hsecond; simpl.
    + pose proof (assignReplica_headers _ _ _ _ _ _ _ Hsecond) as Hh3.
      split; [congruence|]. intros Hdis.
      eapply assignReplica_Disjoint; [|done]. by apply Hd1.
    + done.
Qed.

Lemma swapReplica_headers (rangeOver : RangeOrder) (sound : RangeSound rangeOver)
    site sites p id shard perServer p' :
  swapReplica (rangeAt rangeOver site) (λ swapID, rangeAt rangeOver (sites swapID))
    p id shard perServer = Some p' →
  headersOf (serverRoles p') = headersOf (serverRoles p).
Proof.
  intros (serverRole & swapID & swapServerRole & swapShard & _ & _ & _ & Hswap
          & _ & _ & _ & ->)%swapReplica_inv; [|done].
  by apply applySwap_keeps.
Qed.

Lemma swapReplica_Disjoint (rangeOver : RangeOrder) (sound : RangeSound rangeOver)
    site sites p id shard perServer p' :
  Disjoint (serverRoles p) →
  swapReplica (rangeAt rangeOver site) (λ swapID, rangeAt rangeOver (sites swapID))
    p id shard perServer = Some p' →
  Disjoint (serverRoles p').
Proof.
  intros Hdis (serverRole & swapID & swapServerRole & swapShard & _ & _ & _ & Hswap
               & _ & _ & _ & ->)%swapReplica_inv; [|done].
  by apply applySwap_keeps.
Qed.

Section HeaderProperties.
Context (rangeOver : RangeOrder) (sound : RangeSound rangeOver).
Context (numShards numReplicas : N).
Context (oldMasters : gmap N string) (oldReplicas shardLocations : gmap N (list string)).
Context (newServerStates : gmap string ServerState.t).

Lemma masterPass_headers perServer headers st st' :
  headersOf (serverRoles st.1) = headers →
  masterPass rangeOver numShards oldMasters oldReplicas shardLocations newServerStates
    perServer st = Some st' →
  headersOf (serverRoles st'.1) = headers.
Proof.
  intros Hinit Hpass.
  apply (forEach_invariant
           (masterStep rangeOver oldMasters oldReplicas shardLocations
              newServerStates perServer)
           (λ _ st, headersOf (serverRoles st.1) = headers)
           (upTo numShards) O st st' Hinit); [|done].
  intros i shard [p remainder] [p' remainder'] _ Hinv (id & _ & Hassign)%firstSuccess_Some.
  simpl in *. by rewrite (assignMaster_headers _ _ _ _ _ _ _ Hassign).
Qed.

Lemma replicaPass_headers perServer headers st st' :
  headersOf (serverRoles st.1) = headers →
  replicaPass rangeOver numShards numReplicas oldMasters oldReplicas shardLocations
    newServerStates perServer st = Some st' →
  headersOf (serverRoles st'.1) = headers.
Proof.
  intros Hinit Hpass.
  apply (forEach_invariant
           (λ st replica,
              forEach (replicaStep rangeOver oldMasters oldReplicas shardLocations
                         newServerStates perServer replica) st (upTo numShards))
           (λ _ st, headersOf (serverRoles st.1) = headers)
           (upTo numReplicas) O st st' Hinit); [|done].
  intros j replica st1 st2 _ Hinv Hinner.
  apply (forEach_invariant
           (replicaStep rangeOver oldMasters oldReplicas shardLocations
              newServerStates perServer replica)
           (λ _ st, headersOf (serverRoles st.1) = headers)
           (upTo numShards) O st1 st2 Hinv); [|done].
  intros i shard [p remainder] [p' remainder'] _ Hinv'. unfold replicaStep.
  destruct (firstSuccess _ _ (preferred _ _ _ _ ++ _)) as [st3|] eqn:Hfirst.
  - intros [= ->]. apply firstSuccess_Some in Hfirst as (id & _ & Hassign).
    simpl in *. by rewrite (assignReplica_headers _ _ _ _ _ _ _ Hassign).
  - intros (id & _ & Hswap)%firstSuccess_Some.
    destruct (swapReplica _ _ _ _ _ _) as [p3|] eqn:Hp3; [|done].
    simpl in Hswap. injection Hswap as <- <-. simpl in *.
    by rewrite (swapReplica_headers _ sound _ _ _ _ _ _ _ Hp3).
Qed.
End HeaderProperties.

(** ** Publications *)

Section AssignerProperties.
Context (rangeOver : RangeOrder) (sound : RangeSound rangeOver).
Context (numShards numReplicas : N).
Context (decodeServerState : string → error + ServerState.t).
Context (decodeServerRole : string → error + ServerRole.t).
Context (decodeFrontendState : string → error + FrontendState.t).

Lemma mul64_split servers :
  servers ≠ 0 →
  mul64 numShards numReplicas / servers * servers + mul64 numShards numReplicas mod servers
  = mul64 numShards numReplicas
  ∧ mul64 numShards numReplicas ≤ MaxUint64
  ∧ mul64 numShards numReplicas ≤ numReplicas * numShards.
Proof.
  intros Hs. split_and!.
  - pose proof (N.div_mod (mul64 numShards numReplicas) servers Hs). lia.
  - unfold mul64, MaxUint64.
    pose proof (N.mod_lt (numShards * numReplicas) (2 ^ 64)). lia.
  - unfold mul64. rewrite (N.mul_comm numReplicas). apply N.Div0.mod_le.
Qed.

(** A callback that writes anything has decoded the snapshot, completed
    both passes and entered the publication step. *)
Lemma assignCallback_publishes (w : World) (encodedServerStates : gmap string string)
    (st st' : Assigner) evs r :
  assignCallback rangeOver numShards numReplicas decodeServerState decodeServerRole
    decodeFrontendState w encodedServerStates st = (st', evs, r) →
  rolesWritten evs ≠ [] ∨ addressesWritten evs ≠ [] →
  ∃ d p st1 evs1 evs3 r3,
    size encodedServerStates ≠ O
    ∧ decodeStates rangeOver decodeServerState (version st) (mkDecoded ∅ ∅ ∅)
        (rangeAt rangeOver DecodeStates encodedServerStates) = inr d
    ∧ WellAssigned numShards numReplicas
        (numShards / len encodedServerStates) (numShards mod len encodedServerStates)
        (mul64 numShards numReplicas / len encodedServerStates)
        (mul64 numShards numReplicas mod len encodedServerStates)
        (dom (newRoles d)) p
    ∧ (∀ id serverRole, serverRoles p !! id = Some serverRole →
         ServerRole.Id serverRole = id ∧ ServerRole.Version serverRole = version st)
    ∧ version st1 = version st
    ∧ publish rangeOver numShards w d p st1 = (st', evs3, r3)
    ∧ evs = evs1 ++ evs3
    ∧ Forall (λ ev, ∃ key, ev = StoreDelete key) evs1.
Proof.
  intros Hrun Hwritten.
  apply assignCallback_run in Hrun
    as [(_ & _ & -> & _)|[(_ & err & _ & _ & -> & _)
       |(Hsize & d & st1 & evs1 & r1 & Hdec & Hcollect & Hcases)]];
    [by destruct Hwritten|by destruct Hwritten|].
  pose proof Hcollect as Hcollect'.
  apply collectRoles_run in Hcollect'
    as (Hversion & _ & _ & Hmasters & Hreplicas & _ & Hdeletes & _); [|done].
  destruct (only_deletes _ Hdeletes) as [Hnoroles Hnoaddresses].
  destruct Hcases as [(e & _ & _ & -> & _)|[(_ & _ & _ & -> & _)
                     |(_ & _ & evs2 & r2 & Hplan & Hcases)]];
    [by destruct Hwritten|by destruct Hwritten|].
  pose proof Hplan as Hplan'.
  apply planRoles_run in Hplan' as [_ Hpasses].
  destruct Hcases as [(-> & _ & -> & _)|(p & evs3 & r3 & -> & -> & Hpublish & -> & _)].
  { destruct Hpasses as [(? & ? & ? & ? & [=] & _)|(_ & -> & _)].
    rewrite rolesWritten_app, addressesWritten_app, Hnoroles, Hnoaddresses in Hwritten.
    by destruct Hwritten. }
  destruct Hpasses as [(p' & p1 & left1 & left2 & [= <-] & _ & Hmaster & Hreplica)
                      |([=] & _)].
  pose proof Hdec as Hdec'.
  apply decodeStates_run in Hdec' as (_ & _ & Hfresh & Hcount & _).
  simpl in Hcount. rewrite map_size_empty, length_rangeAt in Hcount by done.
  assert (Hempty : ∀ id serverRole, newRoles d !! id = Some serverRole →
            ServerRole.Masters serverRole = ∅ ∧ ServerRole.Replicas serverRole = ∅).
  { intros id serverRole Hid. destruct (Hfresh _ _ Hid) as [Hold| ->]; [|done].
    simpl in Hold. by rewrite lookup_empty in Hold. }
  assert (Hservers : len encodedServerStates ≠ 0) by (unfold len; lia).
  destruct (mul64_split _ Hservers) as (Hsplit & Hmax & _).
  exists d, p, st1, evs1, evs3, r3. split_and!; try done.
  - eapply passes_WellAssigned; [done|done| |done|done].
    etrans; [|exact Hmax]. rewrite <- Hsplit at 3.
    apply N.add_le_mono_r, N.mul_le_mono_l. unfold len. lia.
  - assert (Hheaders : headersOf (serverRoles (p, left2).1) = headersOf (newRoles d)).
    { eapply replicaPass_headers; [done| |done].
      change (headersOf (serverRoles (p1, left1).1) = headersOf (newRoles d)).
      eapply masterPass_headers; [|done]. done. }
    intros id serverRole Hid. simpl in Hheaders.
    apply (f_equal (.!! id)) in Hheaders. unfold headersOf in Hheaders.
    rewrite !lookup_fmap, Hid in Hheaders. simpl in Hheaders.
    destruct (newRoles d !! id) as [fresh|] eqn:Hfreshid; [|done].
    destruct (Hfresh _ _ Hfreshid) as [Hold| ->].
    { simpl in Hold. by rewrite lookup_empty in Hold. }
    simpl in Hheaders. by injection Hheaders as -> ->.
Qed.

(** A callback that writes the addresses has written every role of the plan
    before. *)
Lemma assignCallback_published (w : World) (encodedServerStates : gmap string string)
    (st st' : Assigner) evs r :
  assignCallback rangeOver numShards numReplicas decodeServerState decodeServerRole
    decodeFrontendState w encodedServerStates st = (st', evs, r) →
  addressesWritten evs ≠ [] →
  ∃ d p addresses,
    size encodedServerStates ≠ O
    ∧ decodeStates rangeOver decodeServerState (version st) (mkDecoded ∅ ∅ ∅)
        (rangeAt rangeOver DecodeStates encodedServerStates) = inr d
    ∧ WellAssigned numShards numReplicas
        (numShards / len encodedServerStates) (numShards mod len encodedServerStates)
        (mul64 numShards numReplicas / len encodedServerStates)
        (mul64 numShards numReplicas mod len encodedServerStates)
        (dom (newRoles d)) p
    ∧ (∀ id serverRole, serverRoles p !! id = Some serverRole →
         ServerRole.Id serverRole = id ∧ ServerRole.Version serverRole = version st)
    ∧ (∀ id v serverRole,
         (id, v, serverRole) ∈ rolesWritten evs ↔
         v = version st ∧ serverRoles p !! id = Some serverRole)
    ∧ NoDup (rolesWritten evs).*1.*1
    ∧ addressesWritten evs = [Addresses.mk (version st) addresses]
    ∧ (∀ id serverRole, serverRoles p !! id = Some serverRole →
                        is_Some (newServerStates d !! id))
    ∧ ∀ s, addresses !! s
           = entryAfter (newServerStates d)
               (rangeAt rangeOver PublishRoles (serverRoles p)) s
               <$> emptyAddresses numShards !! s.
Proof.
  intros Hrun Hwritten.
  apply assignCallback_publishes in Hrun
    as (d & p & st1 & evs1 & evs3 & r3 & Hsize & Hdec & Hwell & Hheaders & Hversion
        & Hpublish & -> & Hdeletes); [|by right].
  destruct (only_deletes _ Hdeletes) as [Hnoroles Hnoaddresses].
  rewrite rolesWritten_app, addressesWritten_app, Hnoroles, Hnoaddresses in *.
  simpl in *.
  apply publish_run in Hpublish
    as (_ & _ & _ & _ & [Hnone|(addresses & Haddresses & Hroles & Hstates & Hentries)]);
    [done| |done].
  rewrite Hversion in *.
  exists d, p, addresses. split_and!; try done.
  - intros id v serverRole. rewrite Hroles, list_elem_of_fmap. split.
    + intros ([id' serverRole'] & [= -> -> ->] & Hin). simpl.
      split; [done|]. by apply elem_of_rangeAt in Hin.
    + intros [-> Hid]. exists (id, serverRole). split; [done|].
      by apply elem_of_rangeAt.
  - rewrite Hroles, <- !list_fmap_compose.
    rewrite (list_fmap_ext _ fst (rangeAt rangeOver PublishRoles (serverRoles p)))
      by done.
    by apply NoDup_rangeAt_keys.
Qed.

(** C2.  After a publication, every shard below [numShards] is held as
    master by exactly one of the role records written, and that record
    carries the new version. *)
Theorem published_one_master_per_shard (w : World)
    (encodedServerStates : gmap string string) (st st' : Assigner) evs r shard :
  assignCallback rangeOver numShards numReplicas decodeServerState decodeServerRole
    decodeFrontendState w encodedServerStates st = (st', evs, r) →
  addressesWritten evs ≠ [] →
  shard < numShards →
  ∃ id serverRole,
    (id, version st, serverRole) ∈ rolesWritten evs
    ∧ ServerRole.Version serverRole = version st
    ∧ ServerRole.Masters serverRole !! shard = Some true
    ∧ ∀ id' v' serverRole',
        (id', v', serverRole') ∈ rolesWritten evs →
        is_Some (ServerRole.Masters serverRole' !! shard) →
        id' = id ∧ v' = version st ∧ serverRole' = serverRole.
Proof.
  intros Hrun Hwritten Hshard.
  apply assignCallback_published in Hrun
    as (d & p & addresses & _ & _ & Hwell & Hheaders & Hroles & _); [|done].
  destruct Hwell as (_ & _ & _ & _ & (Hheld & Howner & Hdone) & _).
  destruct (proj2 (Hdone shard) Hshard) as [id Hid].
  destruct (Howner _ _ Hid) as (shards & Hshards & Htrue).
  unfold mastersOf in Hshards. rewrite lookup_fmap in Hshards.
  destruct (serverRoles p !! id) as [serverRole|] eqn:Hrole; [|done].
  injection Hshards as <-.
  exists id, serverRole. split_and!.
  - by apply Hroles.
  - by destruct (Hheaders _ _ Hrole).
  - done.
  - intros id' v' serverRole' [-> Hrole']%Hroles Hsome.
    assert (id' = id) as ->.
    { assert (masters p !! shard = Some id') as Hid'; [|congruence].
      eapply Hheld; [|done]. by apply mastersOf_lookup. }
    split_and!; [done|done|congruence].
Qed.

(** C3.  After a publication over a snapshot of S server states, every role
    record written holds the floor or the ceiling of N/S shards as master
    and the floor or the ceiling of NR/S shards as replica. *)
Theorem published_loads_balanced (w : World)
    (encodedServerStates : gmap string string) (st st' : Assigner) evs r
    id v serverRole :
  assignCallback rangeOver numShards numReplicas decodeServerState decodeServerRole
    decodeFrontendState w encodedServerStates st = (st', evs, r) →
  addressesWritten evs ≠ [] →
  (id, v, serverRole) ∈ rolesWritten evs →
  let servers := len encodedServerStates in
  (len (ServerRole.Masters serverRole) = numShards / servers
   ∨ len (ServerRole.Masters serverRole) = (numShards + servers - 1) / servers)
  ∧ (len (ServerRole.Replicas serverRole) = numShards * numReplicas / servers
     ∨ len (ServerRole.Replicas serverRole)
       = (numShards * numReplicas + servers - 1) / servers).
Proof.
  intros Hrun Hwritten Hin servers.
  apply assignCallback_published in Hrun
    as (d & p & addresses & Hsize & Hdec & Hwell & _ & Hroles & _); [|done].
  apply Hroles in Hin as [-> Hrole].
  destruct Hwell as (Hdom & _ & _ & _ & _ & (left1 & Hquota) & Htotal
                     & (left2 & Hquota') & Htotal').
  apply decodeStates_run in Hdec as (_ & _ & _ & Hcount & _).
  simpl in Hcount. rewrite map_size_empty, length_rangeAt in Hcount by done.
  assert (Hservers : servers ≠ 0) by (unfold servers, len; lia).
  assert (Hfew : N.of_nat (size (serverRoles p)) ≤ servers).
  { rewrite <- size_dom, Hdom, size_dom. unfold servers, len. lia. }
  split.
  - rewrite ceiling_quota by done.
    assert (Hsum : total (len <$> mastersOf (serverRoles p))
                   = numShards / servers * servers + numShards mod servers).
    { rewrite Htotal. pose proof (N.div_mod numShards servers Hservers). lia. }
    assert (Hsz : N.of_nat (size (mastersOf (serverRoles p))) ≤ servers).
    { unfold mastersOf. by rewrite map_size_fmap. }
    destruct (quota_balanced _ _ _ _ servers Hquota Hsum Hsz _ _
                (mastersOf_lookup _ _ _ Hrole)) as [Hlow Hhigh].
    fold servers in Hlow, Hhigh.
    destruct (numShards mod servers =? 0); lia.
  - destruct (mul64_split servers Hservers) as (Hsplit & _ & Hle).
    pose proof (Quota_capacity _ _ _ _ Hquota') as Hcap.
    unfold replicasOf in Hcap at 2. rewrite map_size_fmap in Hcap.
    fold servers in Hcap.
    assert (Hexact : mul64 numShards numReplicas = numShards * numReplicas).
    { assert (mul64 numShards numReplicas / servers * N.of_nat (size (serverRoles p))
              ≤ mul64 numShards numReplicas / servers * servers)
        by (by apply N.mul_le_mono_l).
      lia. }
    rewrite <- Hexact. rewrite ceiling_quota by done.
    assert (Hsum : total (len <$> replicasOf (serverRoles p))
                   = mul64 numShards numReplicas / servers * servers
                     + mul64 numShards numReplicas mod servers).
    { rewrite Htotal'. lia. }
    assert (Hsz : N.of_nat (size (replicasOf (serverRoles p))) ≤ servers).
    { unfold replicasOf. by rewrite map_size_fmap. }
    destruct (quota_balanced _ _ _ _ servers Hquota' Hsum Hsz _ _
                (replicasOf_lookup _ _ _ Hrole)) as [Hlow Hhigh].
    fold servers in Hlow, Hhigh.
    destruct (mul64 numShards numReplicas mod servers =? 0); lia.
Qed.

(** Every role record written, also by a publication that fails half way,
    is a role of the completed plan. *)
Lemma written_role_planned (w : World) (encodedServerStates : gmap string string)
    (st st' : Assigner) evs r id v serverRole :
  assignCallback rangeOver numShards numReplicas decodeServerState decodeServerRole
    decodeFrontendState w encodedServerStates st = (st', evs, r) →
  (id, v, serverRole) ∈ rolesWritten evs →
  ∃ d p,
    decodeStates rangeOver decodeServerState (version st) (mkDecoded ∅ ∅ ∅)
      (rangeAt rangeOver DecodeStates encodedServerStates) = inr d
    ∧ WellAssigned numShards numReplicas
        (numShards / len encodedServerStates) (numShards mod len encodedServerStates)
        (mul64 numShards numReplicas / len encodedServerStates)
        (mul64 numShards numReplicas mod len encodedServerStates)
        (dom (newRoles d)) p
    ∧ v = version st
    ∧ serverRoles p !! id = Some serverRole
    ∧ ServerRole.Id serverRole = id
    ∧ ServerRole.Version serverRole = version st.
Proof.
  intros Hrun Hin.
  apply assignCallback_publishes in Hrun
    as (d & p & st1 & evs1 & evs3 & r3 & Hsize & Hdec & Hwell & Hheaders & Hversion
        & Hpublish & -> & Hdeletes).
  2:{ left. intros Hnil. rewrite Hnil in Hin. by apply elem_of_nil in Hin. }
  destruct (only_deletes _ Hdeletes) as [Hnoroles _].
  rewrite rolesWritten_app, Hnoroles in Hin. simpl in Hin.
  apply publish_run in Hpublish as (_ & (l' & Hprefix & Hroles) & _); [|done].
  rewrite Hroles, list_elem_of_fmap in Hin.
  destruct Hin as ([id' serverRole'] & [= -> -> ->] & Hin). simpl.
  assert (Hrole : serverRoles p !! id' = Some serverRole').
  { destruct Hprefix as [rest Hrest].
    apply (elem_of_rangeAt rangeOver sound PublishRoles). rewrite Hrest.
    apply elem_of_app. by left. }
  exists d, p. destruct (Hheaders _ _ Hrole). done.
Qed.
End AssignerProperties.

(** ** Disjoint roles *)

Section DisjointProperties.
Context (rangeOver : RangeOrder) (sound : RangeSound rangeOver).
Context (numShards numReplicas : N).
Context (oldMasters : gmap N string) (oldReplicas shardLocations : gmap N (list string)).
Context (newServerStates : gmap string ServerState.t).

Lemma masterPass_Disjoint perServer st st' :
  Disjoint (serverRoles st.1) →
  masterPass rangeOver numShards oldMasters oldReplicas shardLocations newServerStates
    perServer st = Some st' →
  Disjoint (serverRoles st'.1).
Proof.
  intros Hinit Hpass.
  apply (forEach_invariant
           (masterStep rangeOver oldMasters oldReplicas shardLocations
              newServerStates perServer)
           (λ _ st, Disjoint (serverRoles st.1))
           (upTo numShards) O st st' Hinit); [|done].
  intros i shard [p remainder] [p' remainder'] _ Hinv (id & _ & Hassign)%firstSuccess_Some.
  simpl in *. by eapply assignMaster_Disjoint.
Qed.

Lemma replicaPass_Disjoint perServer st st' :
  Disjoint (serverRoles st.1) →
  replicaPass rangeOver numShards numReplicas oldMasters oldReplicas shardLocations
    newServerStates perServer st = Some st' →
  Disjoint (serverRoles st'.1).
Proof.
  intros Hinit Hpass.
  apply (forEach_invariant
           (λ st replica,
              forEach (replicaStep rangeOver oldMasters oldReplicas shardLocations
                         newServerStates perServer replica) st (upTo numShards))
           (λ _ st, Disjoint (serverRoles st.1))
           (upTo numReplicas) O st st' Hinit); [|done].
  intros j replica st1 st2 _ Hinv Hinner.
  apply (forEach_invariant
           (replicaStep rangeOver oldMasters oldReplicas shardLocations
              newServerStates perServer replica)
           (λ _ st, Disjoint (serverRoles st.1))
           (upTo numShards) O st1 st2 Hinv); [|done].
  intros i shard [p remainder] [p' remainder'] _ Hinv'. unfold replicaStep.
  destruct (firstSuccess _ _ (preferred _ _ _ _ ++ _)) as [st3|] eqn:Hfirst.
  - intros [= ->]. apply firstSuccess_Some in Hfirst as (id & _ & Hassign).
    simpl in *. by eapply assignReplica_Disjoint.
  - intros (id & _ & Hswap)%firstSuccess_Some.
    destruct (swapReplica _ _ _ _ _ _) as [p3|] eqn:Hp3; [|done].
    simpl in Hswap. injection Hswap as <- <-. simpl in *.
    by eapply swapReplica_Disjoint.
Qed.
End DisjointProperties.

(** C4.  No server holds a shard as master and as replica: [assignMaster],
    [assignReplica] and [swapReplica] each keep it so, hence so do the two
    passes, and it holds of every role record the assigner writes. *)
Theorem roles_stay_disjoint (rangeOver : RangeOrder) (sound : RangeSound rangeOver) :
  (∀ p id shard perServer remainder p' remainder',
     Disjoint (serverRoles p) →
     assignMaster p id shard perServer remainder = Some (p', remainder') →
     Disjoint (serverRoles p'))
  ∧ (∀ p id shard perServer remainder p' remainder',
       Disjoint (serverRoles p) →
       assignReplica p id shard perServer remainder = Some (p', remainder') →
       Disjoint (serverRoles p'))
  ∧ (∀ site sites p id shard perServer p',
       Disjoint (serverRoles p) →
       swapReplica (rangeAt rangeOver site) (λ swapID, rangeAt rangeOver (sites swapID))
         p id shard perServer = Some p' →
       Disjoint (serverRoles p'))
  ∧ (∀ numShards oldMasters oldReplicas shardLocations newServerStates perServer st st',
       Disjoint (serverRoles st.1) →
       masterPass rangeOver numShards oldMasters oldReplicas shardLocations
         newServerStates perServer st = Some st' →
       Disjoint (serverRoles st'.1))
  ∧ (∀ numShards numReplicas oldMasters oldReplicas shardLocations newServerStates
       perServer st st',
       Disjoint (serverRoles st.1) →
       replicaPass rangeOver numShards numReplicas oldMasters oldReplicas shardLocations
         newServerStates perServer st = Some st' →
       Disjoint (serverRoles st'.1))
  ∧ (∀ numShards numReplicas decodeServerState decodeServerRole decodeFrontendState
       w encodedServerStates st st' evs r id v serverRole shard,
       assignCallback rangeOver numShards numReplicas decodeServerState decodeServerRole
         decodeFrontendState w encodedServerStates st = (st', evs, r) →
       (id, v, serverRole) ∈ rolesWritten evs →
       ¬ (index (ServerRole.Masters serverRole) shard = true
          ∧ index (ServerRole.Replicas serverRole) shard = true)).
Proof.
  split_and!.
  - intros. by eapply assignMaster_Disjoint.
  - intros. by eapply assignReplica_Disjoint.
  - intros. by eapply swapReplica_Disjoint.
  - intros. by eapply masterPass_Disjoint.
  - intros. by eapply replicaPass_Disjoint.
  - intros ??????????? id v serverRole shard Hrun Hin [Hm Hr].
    destruct (written_role_planned rangeOver sound _ _ _ _ _ _ _ _ _ _ _ _ _ _ Hrun Hin)
      as (d & p & _ & Hwell & _ & Hrole & _).
    destruct Hwell as (_ & _ & _ & Hdis & _). by eapply Hdis.
Qed.


(** C10.  The helpers refuse a server id that is not a key of the map built
    from the snapshot and never add a key, so every role record written
    belongs to a server of the snapshot, and a publication writes exactly one
    record for every server of the snapshot. *)
Theorem roles_only_for_live_servers (rangeOver : RangeOrder)
    (sound : RangeSound rangeOver) :
  (∀ p id shard perServer remainder,
     serverRoles p !! id = None →
     assignMaster p id shard perServer remainder = None
     ∧ assignReplica p id shard perServer remainder = None
     ∧ ∀ rolesOrder replicasOrder,
         swapReplica rolesOrder replicasOrder p id shard perServer = None)
  ∧ (∀ p id shard perServer remainder p' remainder',
       assignMaster p id shard perServer remainder = Some (p', remainder')
       ∨ assignReplica p id shard perServer remainder = Some (p', remainder') →
       is_Some (serverRoles p !! id) ∧ dom (serverRoles p') = dom (serverRoles p))
  ∧ (∀ site sites p id shard perServer p',
       swapReplica (rangeAt rangeOver site) (λ swapID, rangeAt rangeOver (sites swapID))
         p id shard perServer = Some p' →
       is_Some (serverRoles p !! id) ∧ dom (serverRoles p') = dom (serverRoles p))
  ∧ (∀ numShards numReplicas decodeServerState decodeServerRole decodeFrontendState
       w encodedServerStates st st' evs r,
       assignCallback rangeOver numShards numReplicas decodeServerState decodeServerRole
         decodeFrontendState w encodedServerStates st = (st', evs, r) →
       (∀ id v serverRole,
          (id, v, serverRole) ∈ rolesWritten evs →
          v = version st ∧ ServerRole.Id serverRole = id
          ∧ ∃ key encoded serverState,
              encodedServerStates !! key = Some encoded
              ∧ decodeServerState encoded = inr serverState
              ∧ ServerState.Id serverState = id)
       ∧ (addressesWritten evs ≠ [] →
          NoDup (rolesWritten evs).*1.*1
          ∧ ∀ key encoded serverState,
              encodedServerStates !! key = Some encoded →
              decodeServerState encoded = inr serverState →
              ∃ serverRole,
                (ServerState.Id serverState, version st, serverRole) ∈ rolesWritten evs)).
Proof.
  split_and!.
  - intros p id shard perServer remainder Hid. unfold assignMaster, assignReplica, swapReplica.
    by rewrite Hid.
  - intros p id shard perServer remainder p' remainder' [Hassign|Hassign].
    + pose proof (assignMaster_headers _ _ _ _ _ _ _ Hassign) as Hheaders.
      apply assignMaster_inv in Hassign as (serverRole & Hid & _).
      split; [eauto|]. apply (f_equal dom) in Hheaders.
      unfold headersOf in Hheaders. by rewrite !dom_fmap_L in Hheaders.
    + pose proof (assignReplica_headers _ _ _ _ _ _ _ Hassign) as Hheaders.
      apply assignReplica_inv in Hassign as (serverRole & Hid & _).
      split; [eauto|]. apply (f_equal dom) in Hheaders.
      unfold headersOf in Hheaders. by rewrite !dom_fmap_L in Hheaders.
  - intros site sites p id shard perServer p' Hswap.
    pose proof (swapReplica_headers _ sound _ _ _ _ _ _ _ Hswap) as Hheaders.
    apply swapReplica_inv in Hswap as (serverRole & ? & ? & ? & Hid & _); [|done].
    split; [eauto|]. apply (f_equal dom) in Hheaders.
    unfold headersOf in Hheaders. by rewrite !dom_fmap_L in Hheaders.
  - intros numShards numReplicas decodeServerState decodeServerRole decodeFrontendState
      w encodedServerStates st st' evs r Hrun. split.
    + intros id v serverRole Hin.
      destruct (written_role_planned rangeOver sound _ _ _ _ _ _ _ _ _ _ _ _ _ _ Hrun Hin)
        as (d & p & Hdec & Hwell & -> & Hrole & Hid & _).
      split_and!; [done|done|].
      destruct Hwell as (Hdom & _).
      apply decodeStates_run in Hdec as (Hlive & _).
      assert (is_Some (newRoles d !! id)) as Hsome.
      { apply elem_of_dom. rewrite <- Hdom. apply elem_of_dom. eauto. }
      apply Hlive in Hsome as [Hsome|(key & encoded & serverState & Hkey & ? & ?)].
      { simpl in Hsome. rewrite lookup_empty in Hsome. by destruct Hsome. }
      exists key, encoded, serverState. split_and!; [|done|done].
      by apply elem_of_rangeAt in Hkey.
    + intros Hwritten.
      destruct (assignCallback_published rangeOver sound _ _ _ _ _ _ _ _ _ _ _
                  Hrun Hwritten)
        as (d & p & addresses & _ & Hdec & Hwell & _ & Hroles & Hnodup & _).
      split; [done|]. intros key encoded serverState Hkey Hstate.
      destruct Hwell as (Hdom & _).
      apply decodeStates_run in Hdec as (Hlive & _).
      assert (is_Some (serverRoles p !! ServerState.Id serverState)) as [serverRole Hrole].
      { apply elem_of_dom. rewrite Hdom. apply elem_of_dom, Hlive. right.
        exists key, encoded, serverState. split_and!; [|done|done].
        by apply elem_of_rangeAt. }
      exists serverRole. by apply Hroles.
Qed.

(** ** The addresses snapshot *)

Lemma emptyAddresses_lookup numShards shard :
  emptyAddresses numShards !! shard
  = if decide (shard < numShards) then Some (ShardAddresses.mk "" ∅) else None.
Proof.
  unfold emptyAddresses. case_decide as Hlt.
  - apply elem_of_list_to_map_1.
    + rewrite <- list_fmap_compose. simpl. rewrite list_fmap_id.
      unfold upTo. apply NoDup_fmap; [intros ???; lia|apply NoDup_seq].
    + apply list_elem_of_fmap. exists shard. split; [done|]. by apply elem_of_upTo.
  - apply not_elem_of_list_to_map_1. rewrite <- list_fmap_compose. simpl.
    rewrite list_fmap_id. by rewrite elem_of_upTo.
Qed.

Lemma entryAfter_snoc states l id serverRole shard entry :
  entryAfter states (l ++ [(id, serverRole)]) shard entry
  = ShardAddresses.mk
      (if decide (is_Some (ServerRole.Masters serverRole !! shard))
       then addressOf states id
       else ShardAddresses.Master (entryAfter states l shard entry))
      (if decide (is_Some (ServerRole.Replicas serverRole !! shard))
       then <[addressOf states id := true]>
              (ShardAddresses.Replicas (entryAfter states l shard entry))
       else ShardAddresses.Replicas (entryAfter states l shard entry)).
Proof. unfold entryAfter. by rewrite foldl_app. Qed.

(** The master field is the address of the one server that holds the shard
    as master. *)
Lemma entryAfter_master states (l : list (string * ServerRole.t)) shard entry id :
  (∃ serverRole, (id, serverRole) ∈ l ∧ is_Some (ServerRole.Masters serverRole !! shard)) →
  (∀ id' serverRole', (id', serverRole') ∈ l →
                      is_Some (ServerRole.Masters serverRole' !! shard) → id' = id) →
  ShardAddresses.Master (entryAfter states l shard entry) = addressOf states id.
Proof.
  induction l as [|[id' serverRole'] l IH] using rev_ind.
  - by intros (? & ?%elem_of_nil & _).
  - intros (serverRole & Hin & Hsome) Hunique. rewrite entryAfter_snoc. simpl.
    case_decide as Hlast.
    + f_equal. apply (Hunique _ serverRole'); [|done]. apply elem_of_app. right. left.
    + apply IH.
      * apply elem_of_app in Hin as [Hin|Hin%list_elem_of_singleton]; [eauto|].
        injection Hin as -> ->. done.
      * intros id'' serverRole'' Hin'. apply Hunique, elem_of_app. by left.
Qed.

(** The replicas field is the set of the addresses of the servers that hold
    the shard as replica. *)
Lemma entryAfter_replicas states (l : list (string * ServerRole.t)) shard entry
    address b :
  ShardAddresses.Replicas entry = ∅ →
  ShardAddresses.Replicas (entryAfter states l shard entry) !! address = Some b ↔
  b = true
  ∧ ∃ id serverRole, (id, serverRole) ∈ l
                     ∧ is_Some (ServerRole.Replicas serverRole !! shard)
                     ∧ addressOf states id = address.
Proof.
  intros Hempty. induction l as [|[id' serverRole'] l IH] using rev_ind.
  - unfold entryAfter. simpl. rewrite Hempty, lookup_empty. split; [done|].
    by intros (_ & ? & ? & ?%elem_of_nil & _).
  - rewrite entryAfter_snoc. simpl. case_decide as Hlast.
    + rewrite lookup_insert. case_decide as Haddress.
      * split.
        -- intros [= <-]. split; [done|]. exists id', serverRole'.
           split_and!; [|done|done]. apply elem_of_app. right. left.
        -- by intros [-> _].
      * rewrite IH. split.
        -- intros (-> & id & serverRole & Hin & ? & ?). split; [done|].
           exists id, serverRole. split_and!; [|done|done]. apply elem_of_app. by left.
        -- intros (-> & id & serverRole & Hin & Hsome & Heq). split; [done|].
           apply elem_of_app in Hin as [Hin|Hin%list_elem_of_singleton]; [eauto|].
           injection Hin as -> ->. done.
    + rewrite IH. split.
      * intros (-> & id & serverRole & Hin & ? & ?). split; [done|].
        exists id, serverRole. split_and!; [|done|done]. apply elem_of_app. by left.
      * intros (-> & id & serverRole & Hin & Hsome & Heq). split; [done|].
        apply elem_of_app in Hin as [Hin|Hin%list_elem_of_singleton]; [eauto|].
        injection Hin as -> ->. done.
Qed.

(** C9.  The addresses snapshot of a publication has an entry for exactly the
    shards below [numShards]; the master of an entry is the address of the
    server whose new role holds the shard as master, and its replicas are
    exactly the addresses of the servers whose new roles hold the shard as
    replica. *)
Theorem published_addresses_follow_roles (rangeOver : RangeOrder)
    (sound : RangeSound rangeOver) (numShards numReplicas : N)
    (decodeServerState : string → error + ServerState.t)
    (decodeServerRole : string → error + ServerRole.t)
    (decodeFrontendState : string → error + FrontendState.t)
    (w : World) (encodedServerStates : gmap string string) (st st' : Assigner)
    evs r d addresses :
  assignCallback rangeOver numShards numReplicas decodeServerState decodeServerRole
    decodeFrontendState w encodedServerStates st = (st', evs, r) →
  decodeStates rangeOver decodeServerState (version st) (mkDecoded ∅ ∅ ∅)
    (rangeAt rangeOver DecodeStates encodedServerStates) = inr d →
  addresses ∈ addressesWritten evs →
  Addresses.Version addresses = version st
  ∧ (∀ shard, is_Some (Addresses.Addresses addresses !! shard) ↔ shard < numShards)
  ∧ ∀ shard entry,
      Addresses.Addresses addresses !! shard = Some entry →
      (∃ id serverRole serverState,
         (id, version st, serverRole) ∈ rolesWritten evs
         ∧ ServerRole.Masters serverRole !! shard = Some true
         ∧ newServerStates d !! id = Some serverState
         ∧ ShardAddresses.Master entry = ServerState.Address serverState)
      ∧ (∀ address,
           ShardAddresses.Replicas entry !! address = Some true ↔
           ∃ id serverRole serverState,
             (id, version st, serverRole) ∈ rolesWritten evs
             ∧ ServerRole.Replicas serverRole !! shard = Some true
             ∧ newServerStates d !! id = Some serverState
             ∧ ServerState.Address serverState = address)
      ∧ (∀ address b, ShardAddresses.Replicas entry !! address = Some b → b = true).
Proof.
  intros Hrun Hdec Hwritten.
  assert (Hsome : addressesWritten evs ≠ []).
  { intros Hnil. rewrite Hnil in Hwritten. by apply elem_of_nil in Hwritten. }
  destruct (assignCallback_published rangeOver sound _ _ _ _ _ _ _ _ _ _ _ Hrun Hsome)
    as (d' & p & entries & _ & Hdec' & Hwell & _ & Hroles & _ & Haddresses & Hstates
        & Hentries).
  rewrite Hdec in Hdec'. injection Hdec' as <-.
  rewrite Haddresses in Hwritten. apply list_elem_of_singleton in Hwritten as ->.
  simpl.
  destruct Hwell as (_ & Htrue & Htrue' & _ & (Hheld & Howner & Hdone) & _).
  split_and!; [done| |].
  - intros shard. rewrite Hentries, emptyAddresses_lookup. case_decide; simpl.
    + split; [done|eauto].
    + split; [by intros []|done].
  - intros shard entry. rewrite Hentries, emptyAddresses_lookup.
    case_decide as Hshard; simpl; [|done]. intros [= <-].
    destruct (proj2 (Hdone shard) Hshard) as [id Hid].
    destruct (Howner _ _ Hid) as (shards & Hshards & Hmaster).
    unfold mastersOf in Hshards. rewrite lookup_fmap in Hshards.
    destruct (serverRoles p !! id) as [serverRole|] eqn:Hrole; [|done].
    injection Hshards as <-.
    destruct (Hstates _ _ Hrole) as [serverState Hstate].
    split_and!.
    + exists id, serverRole, serverState. split_and!; [by apply Hroles|done|done|].
      rewrite (entryAfter_master _ _ _ _ id).
      * unfold addressOf. by rewrite Hstate.
      * exists serverRole. split; [by apply elem_of_rangeAt|eauto].
      * intros id' serverRole' Hin Hsome'. apply elem_of_rangeAt in Hin; [|done].
        assert (masters p !! shard = Some id') as Hid'; [|congruence].
        eapply Hheld; [|done]. by apply mastersOf_lookup.
    + intros address. rewrite entryAfter_replicas by done. split.
      * intros (_ & id' & serverRole' & Hin & [b Hb] & Haddress).
        apply elem_of_rangeAt in Hin; [|done].
        destruct (Hstates _ _ Hin) as [serverState' Hstate'].
        exists id', serverRole', serverState'. split_and!; [by apply Hroles| |done|].
        -- rewrite Hb. f_equal. eapply Htrue'; [|done]. by apply replicasOf_lookup.
        -- unfold addressOf in Haddress. by rewrite Hstate' in Haddress.
      * intros (id' & serverRole' & serverState' & [_ Hin]%Hroles & Hb & Hstate' & <-).
        split; [done|]. exists id', serverRole'.
        split_and!; [by apply elem_of_rangeAt|eauto|].
        unfold addressOf. by rewrite Hstate'.
    + intros address b Hb. by apply entryAfter_replicas in Hb as [-> _].
Qed.

(** ** Stickiness *)

Lemma forEach_app {S A : Type} (f : S → A → option S) st l1 l2 :
  forEach f st (l1 ++ l2) = forEach f st l1 ≫= λ st1, forEach f st1 l2.
Proof.
  revert st. induction l1 as [|x l1 IH]; intros st; simpl; [done|].
  destruct (f st x); [apply IH|done].
Qed.

Lemma upTo_split n shard :
  shard < n →
  ∃ rest, upTo n = upTo shard ++ shard :: rest ∧ ∀ s, s ∈ rest → s ≠ shard.
Proof.
  intros Hlt. exists (N.of_nat <$> seq (S (N.to_nat shard)) (N.to_nat n - S (N.to_nat shard))).
  split.
  - unfold upTo.
    replace (N.to_nat n)
      with (N.to_nat shard + S (N.to_nat n - S (N.to_nat shard)))%nat at 1 by lia.
    rewrite seq_app, fmap_app. simpl. by rewrite N2Nat.id.
  - intros s (i & -> & Hi%elem_of_seq)%list_elem_of_fmap. lia.
Qed.

Lemma assignReplica_masters p id shard perServer remainder p' remainder' :
  assignReplica p id shard perServer remainder = Some (p', remainder') →
  mastersOf (serverRoles p') = mastersOf (serverRoles p) ∧ masters p' = masters p.
Proof.
  intros (serverRole & Hid & _ & _ & -> & _)%assignReplica_inv. simpl.
  split; [|done]. by apply (mastersOf_insert_same _ _ serverRole).
Qed.

Lemma applySwap_masters p id shard perServer swapID swapServerRole swapShard :
  serverRoles p !! swapID = Some swapServerRole →
  mastersOf (serverRoles (applySwap p id shard perServer swapID swapServerRole swapShard))
  = mastersOf (serverRoles p)
  ∧ masters (applySwap p id shard perServer swapID swapServerRole swapShard) = masters p.
Proof.
  intros Hswap. unfold applySwap.
  set (p1 := mkPlan _ _ _).
  assert (H1 : mastersOf (serverRoles p1) = mastersOf (serverRoles p)
               ∧ masters p1 = masters p).
  { split; [|done]. by apply (mastersOf_insert_same _ _ swapServerRole). }
  destruct H1 as [Hm1 Hp1].
  destruct (assignReplica p1 swapID shard MaxUint64 0) as [[p2 r2]|] eqn:Hfirst; simpl.
  - destruct (assignReplica_masters _ _ _ _ _ _ _ Hfirst) as [Hm2 Hp2].
    destruct (assignReplica p2 id swapShard perServer r2) as [[p3 r3]|] eqn:Hsecond; simpl.
    + destruct (assignReplica_masters _ _ _ _ _ _ _ Hsecond) as [Hm3 Hp3].
      split; congruence.
    + split; congruence.
  - destruct (assignReplica p1 id swapShard perServer 0) as [[p3 r3]|] eqn:Hsecond; simpl.
    + destruct (assignReplica_masters _ _ _ _ _ _ _ Hsecond) as [Hm3 Hp3].
      split; congruence.
    + done.
Qed.

Section StickyProperties.
Context (rangeOver : RangeOrder) (sound : RangeSound rangeOver).
Context (numShards numReplicas : N).
Context (oldMasters : gmap N string) (oldReplicas shardLocations : gmap N (list string)).
Context (newServerStates : gmap string ServerState.t).

Lemma replicaPass_masters perServer st st' :
  replicaPass rangeOver numShards numReplicas oldMasters oldReplicas shardLocations
    newServerStates perServer st = Some st' →
  mastersOf (serverRoles st'.1) = mastersOf (serverRoles st.1)
  ∧ masters st'.1 = masters st.1.
Proof.
  intros Hpass.
  apply (forEach_invariant
           (λ st replica,
              forEach (replicaStep rangeOver oldMasters oldReplicas shardLocations
                         newServerStates perServer replica) st (upTo numShards))
           (λ _ st1, mastersOf (serverRoles st1.1) = mastersOf (serverRoles st.1)
                     ∧ masters st1.1 = masters st.1)
           (upTo numReplicas) O st st'); [done| |done].
  intros j replica st1 st2 _ Hinv Hinner.
  apply (forEach_invariant
           (replicaStep rangeOver oldMasters oldReplicas shardLocations
              newServerStates perServer replica)
           (λ _ st1, mastersOf (serverRoles st1.1) = mastersOf (serverRoles st.1)
                     ∧ masters st1.1 = masters st.1)
           (upTo numShards) O st1 st2 Hinv); [|done].
  intros i shard [p remainder] [p' remainder'] _ [Hm Hp]. unfold replicaStep.
  destruct (firstSuccess _ _ (preferred _ _ _ _ ++ _)) as [st3|] eqn:Hfirst.
  - intros [= ->]. apply firstSuccess_Some in Hfirst as (id & _ & Hassign).
    destruct (assignReplica_masters _ _ _ _ _ _ _ Hassign). simpl in *.
    split; congruence.
  - intros (id & _ & Hswap)%firstSuccess_Some.
    destruct (swapReplica _ _ _ _ _ _) as [p3|] eqn:Hp3; [|done].
    simpl in Hswap. injection Hswap as <- <-.
    apply swapReplica_inv in Hp3
      as (? & swapID & swapServerRole & swapShard & _ & _ & _ & Hswap & _ & _ & _ & ->);
      [|done].
    destruct (applySwap_masters p id shard perServer swapID swapServerRole swapShard Hswap).
    simpl in *. split; congruence.
Qed.

(** The shards after [shard] leave its master alone. *)
Lemma masterSteps_keep perServer shard id (rest : list N) st st' :
  (∀ s, s ∈ rest → s ≠ shard) →
  masters st.1 !! shard = Some id →
  (∃ serverRole, serverRoles st.1 !! id = Some serverRole
                 ∧ ServerRole.Masters serverRole !! shard = Some true) →
  forEach (masterStep rangeOver oldMasters oldReplicas shardLocations newServerStates
             perServer) st rest = Some st' →
  masters st'.1 !! shard = Some id
  ∧ ∃ serverRole, serverRoles st'.1 !! id = Some serverRole
                  ∧ ServerRole.Masters serverRole !! shard = Some true.
Proof.
  intros Hrest Hmaster Hrole Hpass.
  apply (forEach_invariant
           (masterStep rangeOver oldMasters oldReplicas shardLocations
              newServerStates perServer)
           (λ _ st1, masters st1.1 !! shard = Some id
                     ∧ ∃ serverRole, serverRoles st1.1 !! id = Some serverRole
                                     ∧ ServerRole.Masters serverRole !! shard = Some true)
           rest O st st'); [done| |done].
  intros i s [p remainder] [p' remainder'] Hs [Hm (serverRole & Hid & Hheld)]
         (id' & _ & Hassign)%firstSuccess_Some.
  apply assignMaster_inv in Hassign as (serverRole' & Hid' & _ & _ & -> & _).
  simpl in *.
  assert (s ≠ shard) as Hne by (eapply Hrest, list_elem_of_lookup_2; done).
  split; [by rewrite lookup_insert_ne|].
  destruct (decide (id' = id)) as [->|Hneq].
  - rewrite Hid in Hid'. injection Hid' as <-. eexists.
    rewrite lookup_insert_eq. split; [done|]. simpl. by rewrite lookup_insert_ne.
  - exists serverRole. by rewrite lookup_insert_ne.
Qed.

(** C5.  When the master pass reaches a shard whose previous master is a
    server of the snapshot that is within its budget and does not hold the
    shard yet, the shard goes to that server, and it is still that server's
    when both passes are done. *)
Theorem master_sticks (masterRolesPerServer replicaRolesPerServer : N)
    (st0 : Plan * N) (shard : N) (id : string) (p : Plan) (remainder : N)
    (serverRole : ServerRole.t) :
  shard < numShards →
  forEach (masterStep rangeOver oldMasters oldReplicas shardLocations newServerStates
             masterRolesPerServer) st0 (upTo shard) = Some (p, remainder) →
  oldMasters !! shard = Some id →
  serverRoles p !! id = Some serverRole →
  len (ServerRole.Masters serverRole) < masterRolesPerServer
  ∨ (len (ServerRole.Masters serverRole) = masterRolesPerServer ∧ 0 < remainder) →
  hasShard serverRole shard = false →
  masterStep rangeOver oldMasters oldReplicas shardLocations newServerStates
    masterRolesPerServer (p, remainder) shard
  = Some (mkPlan (<[id := addMaster serverRole shard]> (serverRoles p))
                 (<[shard := id]> (masters p)) (replicas p),
          if len (ServerRole.Masters serverRole) =? masterRolesPerServer
          then remainder - 1 else remainder)
  ∧ ∀ pm leftm,
      masterPass rangeOver numShards oldMasters oldReplicas shardLocations
        newServerStates masterRolesPerServer st0 = Some (pm, leftm) →
      (masters pm !! shard = Some id
       ∧ ∃ serverRole', serverRoles pm !! id = Some serverRole'
                        ∧ ServerRole.Masters serverRole' !! shard = Some true)
      ∧ ∀ replicaRolesRemainder pf leftf,
          replicaPass rangeOver numShards numReplicas oldMasters oldReplicas
            shardLocations newServerStates replicaRolesPerServer
            (pm, replicaRolesRemainder) = Some (pf, leftf) →
          masters pf !! shard = Some id
          ∧ ∃ serverRole', serverRoles pf !! id = Some serverRole'
                           ∧ ServerRole.Masters serverRole' !! shard = Some true.
Proof.
  intros Hshard Hreach Hold Hid Hbudget Hfree.
  assert (Hstep : masterStep rangeOver oldMasters oldReplicas shardLocations
                    newServerStates masterRolesPerServer (p, remainder) shard
                  = Some (mkPlan (<[id := addMaster serverRole shard]> (serverRoles p))
                            (<[shard := id]> (masters p)) (replicas p),
                          if len (ServerRole.Masters serverRole) =? masterRolesPerServer
                          then remainder - 1 else remainder)).
  { unfold masterStep, preferred. rewrite Hold. simpl.
    by rewrite (assignMaster_budget _ _ _ _ _ serverRole). }
  split; [done|]. intros pm leftm Hpass.
  destruct (upTo_split numShards shard Hshard) as (rest & Hsplit & Hrest).
  unfold masterPass in Hpass. rewrite Hsplit, forEach_app, Hreach in Hpass.
  simpl in Hpass. rewrite Hstep in Hpass.
  apply (masterSteps_keep _ shard id) in Hpass as [Hm Hrole]; [|done|..].
  2:{ simpl. apply lookup_insert_eq. }
  2:{ simpl. eexists. rewrite lookup_insert_eq. split; [done|]. simpl.
      apply lookup_insert_eq. }
  simpl in *. split; [done|].
  intros replicaRolesRemainder pf leftf Hreplica.
  apply replicaPass_masters in Hreplica as [Hsame Hsame']. simpl in *.
  rewrite Hsame'. split; [done|].
  destruct Hrole as (serverRole' & Hid' & Hheld).
  apply (f_equal (.!! id)) in Hsame. unfold mastersOf in Hsame.
  rewrite !lookup_fmap, Hid' in Hsame.
  destruct (serverRoles pf !! id) as [serverRole''|]; [|done].
  exists serverRole''. split; [done|]. simpl in Hsame. by injection Hsame as ->.
Qed.
End StickyProperties.

(** ** Deleting old role records *)

Lemma minVersionOf_min (states : gmap string ServerState.t) :
  (minVersionOf states ≤ MaxInt64)%Z
  ∧ (∀ id s, states !! id = Some s → (minVersionOf states ≤ ServerState.Version s)%Z)
  ∧ (minVersionOf states = MaxInt64
     ∨ ∃ id s, states !! id = Some s ∧ ServerState.Version s = minVersionOf states).
Proof.
  unfold minVersionOf.
  apply (map_fold_weak_ind
           (λ m (states : gmap string ServerState.t),
              (m ≤ MaxInt64)%Z
              ∧ (∀ id s, states !! id = Some s → (m ≤ ServerState.Version s)%Z)
              ∧ (m = MaxInt64
                 ∨ ∃ id s, states !! id = Some s ∧ ServerState.Version s = m))).
  - split_and!; [lia| |by left]. intros id s. by rewrite lookup_empty.
  - intros id s m acc Hfresh (Hmax & Hall & Hatt).
    destruct (Z.ltb_spec (ServerState.Version s) acc) as [Hlt|Hge].
    + split_and!; [lia| |].
      * intros id' s'. rewrite lookup_insert. case_decide.
        -- intros [= <-]. lia.
        -- intros Hid'. specialize (Hall _ _ Hid'). lia.
      * right. exists id, s. by rewrite lookup_insert_eq.
    + split_and!; [done| |].
      * intros id' s'. rewrite lookup_insert. case_decide.
        -- intros [= <-]. lia.
        -- apply Hall.
      * destruct Hatt as [->|(id' & s' & Hid' & Hv)]; [by left|].
        right. exists id', s'. split; [|done].
        rewrite lookup_insert_ne; [done|]. intros ->. congruence.
Qed.

(** C6.  A role record is deleted only when its version is below the
    minimum of the versions the servers of the snapshot acknowledge, and
    only once the wait on the frontend states has returned on a snapshot in
    which every frontend state decodes and has reached that minimum; a
    record at or above the minimum is not deleted. *)
Theorem deletes_only_below_acknowledged (rangeOver : RangeOrder)
    (sound : RangeSound rangeOver) (numShards numReplicas : N)
    (decodeServerState : string → error + ServerState.t)
    (decodeServerRole : string → error + ServerRole.t)
    (decodeFrontendState : string → error + FrontendState.t)
    (w : World) (encodedServerStates : gmap string string) (st st' : Assigner) evs r :
  (∀ e, decodeFrontendState e ≠ inl errComplete) →
  frontendWatchEnd w ≠ errComplete →
  assignCallback rangeOver numShards numReplicas decodeServerState decodeServerRole
    decodeFrontendState w encodedServerStates st = (st', evs, r) →
  deleted evs ≠ [] →
  ∃ d minVersion serverRoles,
    decodeStates rangeOver decodeServerState (version st) (mkDecoded ∅ ∅ ∅)
      (rangeAt rangeOver DecodeStates encodedServerStates) = inr d
    ∧ minVersion = minVersionOf (newServerStates d)
    ∧ (∀ id s, newServerStates d !! id = Some s → (minVersion ≤ ServerState.Version s)%Z)
    ∧ ((∀ id s, newServerStates d !! id = Some s → (ServerState.Version s ≤ MaxInt64)%Z) →
       ∃ id s, newServerStates d !! id = Some s ∧ ServerState.Version s = minVersion)
    ∧ (oldMinVersion st < minVersion)%Z
    ∧ roleRecords w = inr serverRoles
    ∧ (∃ delivery encodedFrontendStates,
         frontendDeliveries w !! delivery = Some encodedFrontendStates
         ∧ ∀ k e, encodedFrontendStates !! k = Some e →
             ∃ frontendState, decodeFrontendState e = inr frontendState
                              ∧ (minVersion ≤ FrontendState.Version frontendState)%Z)
    ∧ (∀ key, key ∈ deleted evs →
         ∃ encoded serverRole,
           serverRoles !! key = Some encoded
           ∧ decodeServerRole encoded = inr serverRole
           ∧ (ServerRole.Version serverRole < minVersion)%Z)
    ∧ (∀ key encoded serverRole,
         serverRoles !! key = Some encoded →
         decodeServerRole encoded = inr serverRole →
         (minVersion ≤ ServerRole.Version serverRole)%Z →
         key ∉ deleted evs).
Proof.
  intros Hdecode Hend Hrun Hdeleted.
  apply assignCallback_run in Hrun
    as [(_ & _ & -> & _)|[(_ & err & _ & _ & -> & _)
       |(Hsize & d & st1 & evs1 & r1 & Hdec & Hcollect & Hcases)]];
    [done|done|].
  assert (Hsame : deleted evs = deleted evs1).
  { destruct Hcases as [(e & _ & _ & -> & _)|[(_ & _ & _ & -> & _)
                       |(_ & _ & evs2 & r2 & Hplan & Hcases)]]; [done|done|].
    apply planRoles_run in Hplan as [_ Hpasses].
    destruct Hcases as [(-> & _ & -> & _)|(p & evs3 & r3 & -> & -> & Hpublish & -> & _)].
    - destruct Hpasses as [(? & ? & ? & ? & [=] & _)|(_ & -> & _)].
      rewrite deleted_app. simpl. by rewrite app_nil_r.
    - apply publish_run in Hpublish as (Hnone & _); [|done].
      by rewrite deleted_app, Hnone, app_nil_r. }
  rewrite Hsame in *.
  apply collectRoles_run in Hcollect as (_ & _ & _ & _ & _ & _ & _ & Hdel); [|done].
  destruct (deleted evs1) as [|key0 keys] eqn:Hkeys; [done|].
  destruct (Hdel key0) as (Hlt & Hwait & serverRoles & _ & _ & Hrecords & _); [left|].
  destruct (minVersionOf_min (newServerStates d)) as (Hmax & Hall & Hatt).
  exists d, (minVersionOf (newServerStates d)), serverRoles.
  split_and!; [done|done|done| |done|done| | |].
  - intros Hfit. destruct Hatt as [Hatt|Hatt]; [|done].
    apply decodeStates_run in Hdec as (Hlive & Hdom & _ & _ & _ & Hdecoded).
    destruct (map_choose encodedServerStates) as (k & e & Hk).
    { intros ->. by rewrite map_size_empty in Hsize. }
    apply (elem_of_rangeAt rangeOver sound DecodeStates) in Hk.
    destruct (Hdecoded _ _ Hk) as [s0 Hs0].
    assert (is_Some (newServerStates d !! ServerState.Id s0)) as [s Hid].
    { apply elem_of_dom. rewrite Hdom by done. apply elem_of_dom, Hlive. right. eauto 10. }
    exists (ServerState.Id s0), s. split; [done|].
    specialize (Hall _ _ Hid). specialize (Hfit _ _ Hid). lia.
  - by eapply waitForFrontends_complete.
  - intros key Hin. destruct (Hdel key Hin) as (_ & _ & serverRoles' & encoded & serverRole
                                                 & Hrecords' & ? & ? & ?).
    rewrite Hrecords in Hrecords'. injection Hrecords' as <-. eauto.
  - intros key encoded serverRole Hkey Hrole Hge Hin.
    destruct (Hdel key Hin) as (_ & _ & serverRoles' & encoded' & serverRole'
                                & Hrecords' & Hkey' & Hrole' & Hlt').
    rewrite Hrecords in Hrecords'. injection Hrecords' as <-.
    rewrite Hkey in Hkey'. injection Hkey' as <-.
    rewrite Hrole in Hrole'. injection Hrole' as <-. lia.
Qed.

(** ** Failed assignments *)

Lemma forEach_None {S A : Type} (f : S → A → option S) st l :
  forEach f st l = None ↔
  ∃ l1 x l2 st1, l = l1 ++ x :: l2 ∧ forEach f st l1 = Some st1 ∧ f st1 x = None.
Proof.
  split.
  - revert st. induction l as [|x l IH]; intros st; simpl; [done|].
    destruct (f st x) as [st1|] eqn:Hx.
    + intros (l1 & y & l2 & st2 & -> & Hl1 & Hy)%IH.
      exists (x :: l1), y, l2, st2. simpl. by rewrite Hx.
    + intros _. by exists [], x, l, st.
  - intros (l1 & x & l2 & st1 & -> & Hl1 & Hx).
    rewrite forEach_app, Hl1. simpl. by rewrite Hx.
Qed.

Lemma upTo_prefix n l1 x l2 :
  upTo n = l1 ++ x :: l2 → x < n ∧ l1 = upTo x.
Proof.
  intros Hsplit.
  assert (Hx : upTo n !! length l1 = Some x).
  { rewrite Hsplit. by rewrite list_lookup_middle. }
  apply upTo_lookup in Hx as [-> Hlt]. split; [done|].
  assert (Htake : take (length l1) (upTo n) = l1).
  { rewrite Hsplit. by rewrite take_app_length. }
  rewrite <- Htake at 1. unfold upTo. rewrite <- fmap_take, take_seq.
  rewrite Nat2N.id. f_equal. f_equal. lia.
Qed.

Lemma WatchAll_delivery {St Snap : Type}
    (callback : St → Snap → St * list Event * option error) n m st l ending :
  WatchAll (λ _, callback) n st l ending = WatchAll (λ _, callback) m st l ending.
Proof.
  revert n m st. induction l as [|x l IH]; intros n m st; simpl; [done|].
  destruct (callback st x) as [[st1 evs1] [err|]]; [done|].
  by rewrite (IH (S n) (S m)).
Qed.

Section FailureProperties.
Context (rangeOver : RangeOrder) (sound : RangeSound rangeOver).
Context (numShards numReplicas : N).
Context (oldMasters : gmap N string) (oldReplicas shardLocations : gmap N (list string)).
Context (newServerStates : gmap string ServerState.t).

Lemma masterSteps_headers perServer headers (l : list N) st st' :
  headersOf (serverRoles st.1) = headers →
  forEach (masterStep rangeOver oldMasters oldReplicas shardLocations newServerStates
             perServer) st l = Some st' →
  headersOf (serverRoles st'.1) = headers.
Proof.
  intros Hinit Hpass.
  apply (forEach_invariant
           (masterStep rangeOver oldMasters oldReplicas shardLocations
              newServerStates perServer)
           (λ _ st, headersOf (serverRoles st.1) = headers)
           l O st st' Hinit); [|done].
  intros i shard [p remainder] [p' remainder'] _ Hinv (id & _ & Hassign)%firstSuccess_Some.
  simpl in *. by rewrite (assignMaster_headers _ _ _ _ _ _ _ Hassign).
Qed.

Lemma replicaSteps_headers perServer headers replica (l : list N) st st' :
  headersOf (serverRoles st.1) = headers →
  forEach (replicaStep rangeOver oldMasters oldReplicas shardLocations newServerStates
             perServer replica) st l = Some st' →
  headersOf (serverRoles st'.1) = headers.
Proof.
  intros Hinit Hpass.
  apply (forEach_invariant
           (replicaStep rangeOver oldMasters oldReplicas shardLocations
              newServerStates perServer replica)
           (λ _ st, headersOf (serverRoles st.1) = headers)
           l O st st' Hinit); [|done].
  intros i shard [p remainder] [p' remainder'] _ Hinv'. unfold replicaStep.
  destruct (firstSuccess _ _ (preferred _ _ _ _ ++ _)) as [st3|] eqn:Hfirst.
  - intros [= ->]. apply firstSuccess_Some in Hfirst as (id & _ & Hassign).
    simpl in *. by rewrite (assignReplica_headers _ _ _ _ _ _ _ Hassign).
  - intros (id & _ & Hswap)%firstSuccess_Some.
    destruct (swapReplica _ _ _ _ _ _) as [p3|] eqn:Hp3; [|done].
    simpl in Hswap. injection Hswap as <- <-. simpl in *.
    by rewrite (swapReplica_headers _ sound _ _ _ _ _ _ _ Hp3).
Qed.

Lemma replicaRounds_headers perServer headers (l : list N) st st' :
  headersOf (serverRoles st.1) = headers →
  forEach (λ st replica,
             forEach (replicaStep rangeOver oldMasters oldReplicas shardLocations
                        newServerStates perServer replica) st (upTo numShards))
          st l = Some st' →
  headersOf (serverRoles st'.1) = headers.
Proof.
  intros Hinit Hpass.
  apply (forEach_invariant
           (λ st replica,
              forEach (replicaStep rangeOver oldMasters oldReplicas shardLocations
                         newServerStates perServer replica) st (upTo numShards))
           (λ _ st, headersOf (serverRoles st.1) = headers)
           l O st st' Hinit); [|done].
  intros j replica st1 st2 _ Hinv Hinner. by eapply replicaSteps_headers.
Qed.

(** Who is not a key of the roles is refused by all three helpers. *)
Lemma strangers_refused (p : Plan) id :
  dom (serverRoles p) = dom newServerStates →
  ¬ is_Some (newServerStates !! id) →
  serverRoles p !! id = None.
Proof.
  intros Hdom Hnot. apply not_elem_of_dom. rewrite Hdom. by rewrite elem_of_dom.
Qed.

Lemma masterPass_unplaceable perServer st :
  dom (serverRoles st.1) = dom newServerStates →
  masterPass rangeOver numShards oldMasters oldReplicas shardLocations newServerStates
    perServer st = None ↔
  MasterUnplaceable rangeOver numShards oldMasters oldReplicas shardLocations
    newServerStates perServer st.
Proof.
  intros Hdom. unfold masterPass, MasterUnplaceable. rewrite forEach_None. split.
  - intros (l1 & shard & l2 & [p remainder] & Hsplit & Hreach & Hstep).
    apply upTo_prefix in Hsplit as [Hlt ->].
    exists shard, p, remainder. split_and!; [done|done|].
    intros id Hlive. unfold masterStep in Hstep.
    rewrite firstSuccess_None in Hstep. apply (Hstep id).
    apply elem_of_app. right. by apply elem_of_rangeAt_keys.
  - intros (shard & p & remainder & Hlt & Hreach & Hnone).
    destruct (upTo_split numShards shard Hlt) as (rest & Hsplit & _).
    exists (upTo shard), shard, rest, (p, remainder). split_and!; [done|done|].
    unfold masterStep. apply firstSuccess_None. intros id _.
    destruct (decide (is_Some (newServerStates !! id))) as [Hlive|Hdead]; [by apply Hnone|].
    unfold assignMaster. rewrite (strangers_refused p id); [done| |done].
    pose proof (masterSteps_headers perServer _ _ _ _ eq_refl Hreach) as Hheaders.
    apply (f_equal dom) in Hheaders. unfold headersOf in Hheaders.
    rewrite !dom_fmap_L in Hheaders. simpl in Hheaders. by rewrite Hheaders.
Qed.

Lemma replicaPass_unplaceable perServer st :
  dom (serverRoles st.1) = dom newServerStates →
  replicaPass rangeOver numShards numReplicas oldMasters oldReplicas shardLocations
    newServerStates perServer st = None ↔
  ReplicaUnplaceable rangeOver numShards numReplicas oldMasters oldReplicas
    shardLocations newServerStates perServer st.
Proof.
  intros Hdom. unfold replicaPass, ReplicaUnplaceable. rewrite forEach_None. split.
  - intros (l1 & replica & l2 & round & Hsplit & Hreach & Hround).
    apply upTo_prefix in Hsplit as [Hlt ->].
    apply forEach_None in Hround
      as (l1' & shard & l2' & [p remainder] & Hsplit' & Hreach' & Hstep).
    apply upTo_prefix in Hsplit' as [Hlt' ->].
    exists replica, shard, round, p, remainder. split_and!; [done|done|done|done|].
    intros id Hlive. unfold replicaStep in Hstep.
    destruct (firstSuccess _ _ (preferred _ _ _ _ ++ _)) as [st3|] eqn:Hfirst; [done|].
    rewrite firstSuccess_None in Hfirst. rewrite firstSuccess_None in Hstep. split.
    + apply (Hfirst id). apply elem_of_app. right. by apply elem_of_rangeAt_keys.
    + specialize (Hstep id). simpl in Hstep.
      destruct (swapReplica _ _ _ _ _ _); [|done].
      discriminate Hstep. by apply elem_of_rangeAt_keys.
  - intros (replica & shard & round & p & remainder & Hlt & Hlt' & Hreach & Hreach'
            & Hnone).
    destruct (upTo_split numReplicas replica Hlt) as (rest & Hsplit & _).
    exists (upTo replica), replica, rest, round. split_and!; [done|done|].
    apply forEach_None.
    destruct (upTo_split numShards shard Hlt') as (rest' & Hsplit' & _).
    exists (upTo shard), shard, rest', (p, remainder). split_and!; [done|done|].
    assert (Hkeys : dom (serverRoles p) = dom newServerStates).
    { pose proof (replicaRounds_headers perServer _ _ _ _ eq_refl Hreach) as Hh.
      pose proof (replicaSteps_headers perServer _ _ _ _ _ eq_refl Hreach') as Hh'.
      rewrite Hh in Hh'. apply (f_equal dom) in Hh'. unfold headersOf in Hh'.
      rewrite !dom_fmap_L in Hh'. simpl in Hh'. by rewrite Hh'. }
    unfold replicaStep.
    assert (Hfirst : ∀ l,
      firstSuccess
        (λ '(p, remainder) id, assignReplica p id shard perServer remainder)
        (p, remainder) l = None).
    { intros l. apply firstSuccess_None. intros id _.
      destruct (decide (is_Some (newServerStates !! id))) as [Hlive|Hdead];
        [by apply Hnone|].
      unfold assignReplica. by rewrite (strangers_refused p id). }
    rewrite Hfirst. apply firstSuccess_None. intros id Hid.
    apply elem_of_rangeAt_keys in Hid; [|done]. simpl.
    by destruct (Hnone id Hid) as [_ ->].
Qed.
End FailureProperties.

(** C8.  When, on a non-empty snapshot that changes the set of servers, the
    master pass or the replica pass reaches a shard that no server of the
    snapshot accepts (for a replica: not even by a swap), the callback
    reports the failure and returns nil: it writes no role record and no
    addresses, leaves the assigner's record of the previous assignment as it
    was, and the watch goes on with the next snapshot. *)
Theorem unplaceable_shard_is_not_fatal (rangeOver : RangeOrder)
    (sound : RangeSound rangeOver) (numShards numReplicas : N)
    (decodeServerState : string → error + ServerState.t)
    (decodeServerRole : string → error + ServerRole.t)
    (decodeFrontendState : string → error + FrontendState.t)
    (w : World) (encodedServerStates : gmap string string) (st st' st1 : Assigner)
    evs evs1 r d :
  size encodedServerStates ≠ O →
  assignCallback rangeOver numShards numReplicas decodeServerState decodeServerRole
    decodeFrontendState w encodedServerStates st = (st', evs, r) →
  decodeStates rangeOver decodeServerState (version st) (mkDecoded ∅ ∅ ∅)
    (rangeAt rangeOver DecodeStates encodedServerStates) = inr d →
  collectRoles rangeOver decodeServerRole decodeFrontendState w
    (minVersionOf (newServerStates d)) st = (st1, evs1, inr tt) →
  sameServers (oldServers st) (newServerStates d) = false →
  MasterUnplaceable rangeOver numShards (oldMasters st) (oldReplicas st)
    (shardLocations d) (newServerStates d)
    (numShards / len encodedServerStates)
    (mkPlan (newRoles d) ∅ ∅, numShards mod len encodedServerStates)
  ∨ (∃ p1 left1,
       masterPass rangeOver numShards (oldMasters st) (oldReplicas st)
         (shardLocations d) (newServerStates d)
         (numShards / len encodedServerStates)
         (mkPlan (newRoles d) ∅ ∅, numShards mod len encodedServerStates)
       = Some (p1, left1)
       ∧ ReplicaUnplaceable rangeOver numShards numReplicas (oldMasters st)
           (oldReplicas st) (shardLocations d) (newServerStates d)
           (mul64 numShards numReplicas / len encodedServerStates)
           (p1, mul64 numShards numReplicas mod len encodedServerStates)) →
  r = inl None
  ∧ evs = evs1 ++ [FailedToAssignRoles (newServerStates d) numShards numReplicas]
  ∧ rolesWritten evs = [] ∧ addressesWritten evs = []
  ∧ version st' = version st ∧ oldServers st' = oldServers st
  ∧ oldRoles st' = oldRoles st ∧ oldMasters st' = oldMasters st
  ∧ oldReplicas st' = oldReplicas st
  ∧ ∀ rest ending,
      AssignRoles rangeOver numShards numReplicas decodeServerState decodeServerRole
        decodeFrontendState st ((w, encodedServerStates) :: rest) ending
      = (let '(st'', evs', err) :=
           AssignRoles rangeOver numShards numReplicas decodeServerState
             decodeServerRole decodeFrontendState st' rest ending in
         (st'', evs ++ evs', err)).
Proof.
  intros Hsize Hrun Hdec Hcollect Hchanged Hfail.
  pose proof Hcollect as Hkept.
  apply collectRoles_run in Hkept
    as (Hversion & Hservers & Hroles & Hmasters & Hreplicas & _ & Hdeletes & _); [|done].
  destruct (only_deletes _ Hdeletes) as [Hnoroles Hnoaddresses].
  pose proof Hdec as Hkeys.
  apply decodeStates_run in Hkeys as (_ & Hkeys & _). specialize (Hkeys eq_refl).
  assert (Hnone :
    masterPass rangeOver numShards (oldMasters st1) (oldReplicas st1)
      (shardLocations d) (newServerStates d) (numShards / len encodedServerStates)
      (mkPlan (newRoles d) ∅ ∅, numShards mod len encodedServerStates) = None
    ∨ ∃ p1 left1,
        masterPass rangeOver numShards (oldMasters st1) (oldReplicas st1)
          (shardLocations d) (newServerStates d) (numShards / len encodedServerStates)
          (mkPlan (newRoles d) ∅ ∅, numShards mod len encodedServerStates)
        = Some (p1, left1)
        ∧ replicaPass rangeOver numShards numReplicas (oldMasters st1) (oldReplicas st1)
            (shardLocations d) (newServerStates d)
            (mul64 numShards numReplicas / len encodedServerStates)
            (p1, mul64 numShards numReplicas mod len encodedServerStates) = None).
  { rewrite Hmasters, Hreplicas.
    destruct Hfail as [Hfail|(p1 & left1 & Hmaster & Hfail)].
    - left. by apply (masterPass_unplaceable rangeOver sound).
    - right. exists p1, left1. split; [done|].
      apply (replicaPass_unplaceable rangeOver sound); [|done]. simpl.
      pose proof (masterPass_headers rangeOver numShards _ _ _ _ _ _ _ _ eq_refl Hmaster)
        as Hheaders.
      apply (f_equal dom) in Hheaders. unfold headersOf in Hheaders.
      rewrite !dom_fmap_L in Hheaders. simpl in Hheaders. by rewrite Hheaders. }
  assert (Hresult : r = inl None
                    ∧ evs = evs1 ++ [FailedToAssignRoles (newServerStates d)
                                       numShards numReplicas]
                    ∧ st' = st1).
  { apply assignCallback_run in Hrun
      as [(? & _)|[(_ & err & Hdec' & _)
         |(_ & d' & st1' & evs1' & r1 & Hdec' & Hcollect' & Hcases)]];
      [done|congruence|].
    rewrite Hdec in Hdec'. injection Hdec' as <-.
    rewrite Hcollect in Hcollect'. injection Hcollect' as <- <- <-.
    destruct Hcases as [(e & [=] & _)|[(_ & Hsame & _)
                       |(_ & _ & evs2 & r2 & Hplan & Hcases)]].
    { rewrite Hservers in Hsame. congruence. }
    apply planRoles_run in Hplan as [_ Hpasses].
    destruct Hpasses as [(p & p1 & left1 & left2 & -> & -> & Hmaster & Hreplica)
                        |(-> & -> & _)].
    { destruct Hnone as [Hnone|(p1' & left1' & Hmaster' & Hnone)]; congruence. }
    destruct Hcases as [(_ & -> & -> & ->)|(? & ? & ? & [=] & _)]. done. }
  destruct Hresult as (-> & -> & ->).
  rewrite rolesWritten_app, addressesWritten_app, Hnoroles, Hnoaddresses. simpl.
  split_and!; try done.
  intros rest ending. unfold AssignRoles. simpl. rewrite Hrun. simpl.
  rewrite (WatchAll_delivery _ 1 0).
  by destruct (WatchAll _ _ _ _ _) as [[st'' evs'] err].
Qed.

(** * Sample runs *)

Lemma run_eta {A B C : Type} (x : A * B * C) : x = (x.1.1, x.1.2, x.2).
Proof. by destruct x as [[? ?] ?]. Qed.

Lemma samplePublication_written : addressesWritten samplePublication.1.2 ≠ [].
Proof. vm_compute. discriminate. Qed.

Lemma sampleDecoded_run encodedServerStates :
  sampleDecoded encodedServerStates ≠ mkDecoded ∅ ∅ ∅ →
  decodeStates rangeCanonical sampleStateDecoder 3 (mkDecoded ∅ ∅ ∅)
    (rangeAt rangeCanonical DecodeStates encodedServerStates)
  = inr (sampleDecoded encodedServerStates).
Proof. unfold sampleDecoded. by destruct (decodeStates _ _ _ _ _). Qed.

(** On servers A and B with four shards, shard 2 has one master among the
    records written. *)
Lemma published_one_master_per_shard_witness :
  addressesWritten samplePublication.1.2 ≠ []
  ∧ ∃ id serverRole,
      (id, 3%Z, serverRole) ∈ rolesWritten samplePublication.1.2
      ∧ ServerRole.Masters serverRole !! 2 = Some true
      ∧ ∀ id' v' serverRole',
          (id', v', serverRole') ∈ rolesWritten samplePublication.1.2 →
          is_Some (ServerRole.Masters serverRole' !! 2) →
          id' = id ∧ v' = 3%Z ∧ serverRole' = serverRole.
Proof.
  split; [exact samplePublication_written|].
  destruct (published_one_master_per_shard rangeCanonical rangeCanonical_sound 4 1
              sampleStateDecoder sampleRoleDecoder sampleFrontendDecoder sampleWorld
              sampleServers sampleAssigner _ _ _ 2 (run_eta samplePublication)
              samplePublication_written)
    as (id & serverRole & Hin & _ & Hmaster & Hone); [lia|].
  exists id, serverRole. split_and!; [exact Hin|exact Hmaster|exact Hone].
Defined.

(** On servers A and B with four shards and one replica, each record written
    holds two masters and two replicas. *)
Lemma published_loads_balanced_witness :
  Forall (λ written,
            (len (ServerRole.Masters written.2) = 4 / 2
             ∨ len (ServerRole.Masters written.2) = (4 + 2 - 1) / 2)
            ∧ (len (ServerRole.Replicas written.2) = 4 * 1 / 2
               ∨ len (ServerRole.Replicas written.2) = (4 * 1 + 2 - 1) / 2))
         (rolesWritten samplePublication.1.2).
Proof.
  apply Forall_forall. intros [[id v] serverRole] Hin.
  exact (published_loads_balanced rangeCanonical rangeCanonical_sound 4 1
           sampleStateDecoder sampleRoleDecoder sampleFrontendDecoder sampleWorld
           sampleServers sampleAssigner _ _ _ id v serverRole
           (run_eta samplePublication) samplePublication_written Hin).
Defined.

(** No record written for servers A and B holds a shard in both maps, and
    the helpers keep the canonical plan disjoint. *)
Lemma roles_stay_disjoint_witness :
  Forall (λ written,
            ∀ shard, ¬ (index (ServerRole.Masters written.2) shard = true
                        ∧ index (ServerRole.Replicas written.2) shard = true))
         (rolesWritten samplePublication.1.2)
  ∧ ∀ p' remainder',
      assignMaster (mkPlan (newRoles (sampleDecoded sampleServers)) ∅ ∅) "A" 0 2 0
      = Some (p', remainder') →
      Disjoint (serverRoles p').
Proof.
  destruct (roles_stay_disjoint rangeCanonical rangeCanonical_sound)
    as (Hmaster & _ & _ & _ & _ & Hwritten).
  split.
  - apply Forall_forall. intros [[id v] serverRole] Hin shard.
    exact (Hwritten 4 1 sampleStateDecoder sampleRoleDecoder sampleFrontendDecoder
             sampleWorld sampleServers sampleAssigner _ _ _ id v serverRole shard
             (run_eta samplePublication) Hin).
  - intros p' remainder'. apply Hmaster.
    intros id serverRole shard Hid Hm Hr. vm_compute in Hid.
    repeat (case_match; simplify_eq); vm_compute in Hr; discriminate.
Defined.

(** Every record written for the snapshot of A and B belongs to A or B, and
    there is one for each. *)
Lemma roles_only_for_live_servers_witness :
  Forall (λ written,
            written.1.2 = 3%Z ∧ ServerRole.Id written.2 = written.1.1
            ∧ ∃ key encoded serverState,
                sampleServers !! key = Some encoded
                ∧ sampleStateDecoder encoded = inr serverState
                ∧ ServerState.Id serverState = written.1.1)
         (rolesWritten samplePublication.1.2)
  ∧ NoDup (rolesWritten samplePublication.1.2).*1.*1
  ∧ assignMaster (mkPlan (newRoles (sampleDecoded sampleServers)) ∅ ∅) "C" 0 2 0 = None.
Proof.
  destruct (roles_only_for_live_servers rangeCanonical rangeCanonical_sound)
    as (Hrefused & _ & _ & Hwritten).
  destruct (Hwritten 4 1 sampleStateDecoder sampleRoleDecoder sampleFrontendDecoder
              sampleWorld sampleServers sampleAssigner _ _ _
              (run_eta samplePublication)) as [Hlive Hall].
  split_and!.
  - apply Forall_forall. intros [[id v] serverRole] Hin. exact (Hlive id v serverRole Hin).
  - exact (proj1 (Hall samplePublication_written)).
  - apply Hrefused. vm_compute. reflexivity.
Defined.

(** The addresses written for A and B carry version 3 and one entry for
    each of the four shards. *)
Lemma published_addresses_follow_roles_witness :
  Forall (λ addresses,
            Addresses.Version addresses = 3%Z
            ∧ ∀ shard, is_Some (Addresses.Addresses addresses !! shard) ↔ shard < 4)
         (addressesWritten samplePublication.1.2)
  ∧ length (addressesWritten samplePublication.1.2) = 1%nat.
Proof.
  split; [|vm_compute; reflexivity].
  apply Forall_forall. intros addresses Hin.
  destruct (published_addresses_follow_roles rangeCanonical rangeCanonical_sound 4 1
              sampleStateDecoder sampleRoleDecoder sampleFrontendDecoder sampleWorld
              sampleServers sampleAssigner _ _ _ (sampleDecoded sampleServers) addresses
              (run_eta samplePublication)) as (Hversion & Hshards & _).
  - apply sampleDecoded_run. vm_compute. discriminate.
  - exact Hin.
  - split; [exact Hversion|exact Hshards].
Defined.

(** Shard 0 was A's, A is in the snapshot with no shard yet: it goes to A. *)
Lemma master_sticks_witness :
  masterStep rangeCanonical {[ 0 := "A" ]} ∅ (shardLocations (sampleDecoded sampleServers))
    (newServerStates (sampleDecoded sampleServers)) 2
    (mkPlan (newRoles (sampleDecoded sampleServers)) ∅ ∅, 0) 0
  = Some (mkPlan (<["A" := addMaster (ServerRole.mk "A" 3 ∅ ∅) 0]>
                    (newRoles (sampleDecoded sampleServers)))
                 (<[0 := "A"]> ∅) ∅, 0).
Proof.
  exact (proj1 (master_sticks rangeCanonical rangeCanonical_sound 4 1 {[ 0 := "A" ]} ∅
                  (shardLocations (sampleDecoded sampleServers))
                  (newServerStates (sampleDecoded sampleServers)) 2 2
                  (mkPlan (newRoles (sampleDecoded sampleServers)) ∅ ∅, 0)
                  0 "A" (mkPlan (newRoles (sampleDecoded sampleServers)) ∅ ∅) 0
                  (ServerRole.mk "A" 3 ∅ ∅)
                  ltac:(lia) ltac:(reflexivity) ltac:(reflexivity)
                  ltac:(vm_compute; reflexivity)
                  ltac:(left; vm_compute; reflexivity) ltac:(reflexivity))).
Defined.

(** With A alone at version 1 and the frontend at version 1, the one record
    deleted is A's record of version 0. *)
Lemma deletes_only_below_acknowledged_witness :
  deleted sampleFailure.1.2 = ["role/A/0"]
  ∧ ∃ minVersion serverRoles,
      (oldMinVersion sampleAssigner < minVersion)%Z
      ∧ roleRecords sampleWorld = inr serverRoles
      ∧ ∀ key, key ∈ deleted sampleFailure.1.2 →
          ∃ encoded serverRole,
            serverRoles !! key = Some encoded
            ∧ sampleRoleDecoder encoded = inr serverRole
            ∧ (ServerRole.Version serverRole < minVersion)%Z.
Proof.
  split; [vm_compute; reflexivity|].
  destruct (deletes_only_below_acknowledged rangeCanonical rangeCanonical_sound 4 1
              sampleStateDecoder sampleRoleDecoder sampleFrontendDecoder sampleWorld
              sampleLoneServer sampleAssigner _ _ _
              ltac:(intros e; discriminate) ltac:(discriminate)
              (run_eta sampleFailure) ltac:(vm_compute; discriminate))
    as (d & minVersion & serverRoles & _ & _ & _ & _ & Hlt & Hrecords & _ & Hdeleted & _).
  exists minVersion, serverRoles. split_and!; [exact Hlt|exact Hrecords|exact Hdeleted].
Defined.

(** With A alone, four shards and one replica, the masters are placed and
    no replica can be: the callback returns nil and writes nothing. *)
Lemma unplaceable_shard_is_not_fatal_witness :
  sampleFailure.2 = inl None
  ∧ rolesWritten sampleFailure.1.2 = [] ∧ addressesWritten sampleFailure.1.2 = []
  ∧ version sampleFailure.1.1 = version sampleAssigner
  ∧ oldMasters sampleFailure.1.1 = oldMasters sampleAssigner.
Proof.
  pose (d := sampleDecoded sampleLoneServer).
  pose (placed := default (mkPlan ∅ ∅ ∅, 0)
                    (masterPass rangeCanonical 4 (oldMasters sampleAssigner)
                       (oldReplicas sampleAssigner) (shardLocations d) (newServerStates d)
                       (4 / len sampleLoneServer)
                       (mkPlan (newRoles d) ∅ ∅, 4 mod len sampleLoneServer))).
  destruct (unplaceable_shard_is_not_fatal rangeCanonical rangeCanonical_sound 4 1
              sampleStateDecoder sampleRoleDecoder sampleFrontendDecoder sampleWorld
              sampleLoneServer sampleAssigner sampleFailure.1.1
              (mkAssigner 3 ∅ ∅ {[ 0 := "A" ]} ∅ 1)
              sampleFailure.1.2 [StoreDelete "role/A/0"] sampleFailure.2 d)
    as (Hnil & _ & Hroles & Haddresses & Hversion & _ & _ & Hmasters & _).
  - vm_compute. discriminate.
  - exact (run_eta sampleFailure).
  - apply sampleDecoded_run. vm_compute. discriminate.
  - vm_compute. reflexivity.
  - vm_compute. reflexivity.
  - right. exists placed.1, placed.2. split; [vm_compute; reflexivity|].
    apply (replicaPass_unplaceable rangeCanonical rangeCanonical_sound);
      vm_compute; reflexivity.
  - split_and!; [exact Hnil|exact Hroles|exact Haddresses|exact Hversion|exact Hmasters].
Defined.

(** * Further properties *)


(** * Further properties *)

(** ** Membership *)

(** X1.  [sameServers] holds exactly when the servers remembered and the servers
    of the snapshot are the same set of ids. *)
Theorem sameServers_same_ids (oldServers : gmap string bool)
    (newServerStates : gmap string ServerState.t) :
  sameServers oldServers newServerStates = true
  ↔ dom oldServers = dom newServerStates.
Proof.
  unfold sameServers. case_decide as Hsize.
  - split; [done|]. intros Hdom. destruct Hsize.
    by rewrite <- !size_dom, Hdom.
  - rewrite bool_decide_eq_true. split.
    + intros Hall. apply set_subseteq_size_eq.
      * intros id [b Hid]%elem_of_dom. apply elem_of_dom. by eapply Hall.
      * rewrite !size_dom. lia.
    + intros Hdom id b Hid. apply elem_of_dom. rewrite <- Hdom. apply elem_of_dom. eauto.
Qed.


(** ** What a callback of the assigner leaves behind *)

Section OutcomeProperties.
Context (rangeOver : RangeOrder) (sound : RangeSound rangeOver).
Context (numShards numReplicas : N).
Context (decodeServerState : string → error + ServerState.t).
Context (decodeServerRole : string → error + ServerRole.t).
Context (decodeFrontendState : string → error + FrontendState.t).

(** A publication that runs to its end has written the addresses. *)
Lemma publish_done (w : World) (d : Decoded) (p : Plan) (st st' : Assigner) evs :
  publish rangeOver numShards w d p st = (st', evs, inr tt) →
  addressesWritten evs ≠ [].
Proof.
  unfold publish. intros Hrun.
  apply bind_run in Hrun
    as [(e & [=] & _)|(st1 & evs1 & x & evs2 & [= <- <- <-] & Hrun & ->)].
  cbv beta in Hrun.
  apply bind_run in Hrun
    as [(e & _ & [=])|(st2 & evs3 & addresses & evs4 & _ & Hrun & ->)].
  apply bind_run in Hrun
    as [(e & _ & [=])|(st3 & evs5 & [] & evs6 & Hstore & Hrun & ->)].
  apply store_run in Hstore as [-> [(-> & err & [=])|(-> & _)]].
  simpl. rewrite !addressesWritten_app. simpl. by destruct (addressesWritten evs3).
Qed.

(** A plan that both passes complete is well assigned and keeps the headers
    of the roles. *)
Lemma planRoles_well (encodedServerStates : gmap string string) (st st1 : Assigner)
    (d : Decoded) evs p :
  size encodedServerStates ≠ O →
  decodeStates rangeOver decodeServerState (version st) (mkDecoded ∅ ∅ ∅)
    (rangeAt rangeOver DecodeStates encodedServerStates) = inr d →
  planRoles rangeOver numShards numReplicas st1 d (len encodedServerStates) st1
  = (st1, evs, inr p) →
  WellAssigned numShards numReplicas
    (numShards / len encodedServerStates) (numShards mod len encodedServerStates)
    (mul64 numShards numReplicas / len encodedServerStates)
    (mul64 numShards numReplicas mod len encodedServerStates)
    (dom (newRoles d)) p
  ∧ (∀ id serverRole, serverRoles p !! id = Some serverRole →
       ServerRole.Id serverRole = id ∧ ServerRole.Version serverRole = version st)
  ∧ ∃ p1 left1 left2,
      masterPass rangeOver numShards (oldMasters st1) (oldReplicas st1)
        (shardLocations d) (newServerStates d) (numShards / len encodedServerStates)
        (mkPlan (newRoles d) ∅ ∅, numShards mod len encodedServerStates)
      = Some (p1, left1)
      ∧ replicaPass rangeOver numShards numReplicas (oldMasters st1) (oldReplicas st1)
          (shardLocations d) (newServerStates d)
          (mul64 numShards numReplicas / len encodedServerStates)
          (p1, mul64 numShards numReplicas mod len encodedServerStates)
        = Some (p, left2).
Proof.
  intros Hsize Hdec Hplan.
  apply planRoles_run in Hplan as [_ Hpasses].
  destruct Hpasses as [(p' & p1 & left1 & left2 & [= <-] & _ & Hmaster & Hreplica)
                      |([=] & _)].
  pose proof Hdec as Hdec'.
  apply decodeStates_run in Hdec' as (_ & _ & Hfresh & Hcount & _).
  simpl in Hcount. rewrite map_size_empty, length_rangeAt in Hcount by done.
  assert (Hempty : ∀ id serverRole, newRoles d !! id = Some serverRole →
            ServerRole.Masters serverRole = ∅ ∧ ServerRole.Replicas serverRole = ∅).
  { intros id serverRole Hid. destruct (Hfresh _ _ Hid) as [Hold| ->]; [|done].
    simpl in Hold. by rewrite lookup_empty in Hold. }
  assert (Hservers : len encodedServerStates ≠ 0) by (unfold len; lia).
  pose proof (N.div_mod (mul64 numShards numReplicas) (len encodedServerStates) Hservers)
    as Hsplit.
  assert (Hmax : mul64 numShards numReplicas ≤ MaxUint64).
  { unfold mul64, MaxUint64.
    pose proof (N.mod_upper_bound (numShards * numReplicas) (2 ^ 64)). lia. }
  split_and!.
  - eapply passes_WellAssigned; [done|done| |done|done].
    remember (mul64 numShards numReplicas / len encodedServerStates) as q.
    remember (mul64 numShards numReplicas mod len encodedServerStates) as m.
    assert (q * N.of_nat (size (newRoles d)) ≤ q * len encodedServerStates)
      by (apply N.mul_le_mono_l; unfold len; lia).
    lia.
  - assert (Hheaders : headersOf (serverRoles (p, left2).1) = headersOf (newRoles d)).
    { eapply replicaPass_headers; [done| |done].
      change (headersOf (serverRoles (p1, left1).1) = headersOf (newRoles d)).
      eapply masterPass_headers; [|done]. done. }
    intros id serverRole Hid. simpl in Hheaders.
    apply (f_equal (.!! id)) in Hheaders. unfold headersOf in Hheaders.
    rewrite !lookup_fmap, Hid in Hheaders. simpl in Hheaders.
    destruct (newRoles d !! id) as [fresh|] eqn:Hfreshid; [|done].
    destruct (Hfresh _ _ Hfreshid) as [Hold| ->].
    { simpl in Hold. by rewrite lookup_empty in Hold. }
    simpl in Hheaders. by injection Hheaders as -> ->.
  - by exists p1, left1, left2.
Qed.

(** Either the callback leaves the assignment in force as it was and writes
    nothing, or it has planned the roles and run [publish]. *)
Lemma assignCallback_outcomes (w : World) (encodedServerStates : gmap string string)
    (st st' : Assigner) evs r :
  assignCallback rangeOver numShards numReplicas decodeServerState decodeServerRole
    decodeFrontendState w encodedServerStates st = (st', evs, r) →
  ((version st' = version st ∧ oldServers st' = oldServers st ∧ oldRoles st' = oldRoles st
    ∧ oldMasters st' = oldMasters st ∧ oldReplicas st' = oldReplicas st)
   ∧ rolesWritten evs = [] ∧ addressesWritten evs = [])
  ∨ ∃ d st1 p evs1 evs3 r3,
      size encodedServerStates ≠ O
      ∧ decodeStates rangeOver decodeServerState (version st) (mkDecoded ∅ ∅ ∅)
          (rangeAt rangeOver DecodeStates encodedServerStates) = inr d
      ∧ (version st1 = version st ∧ oldServers st1 = oldServers st
         ∧ oldRoles st1 = oldRoles st ∧ oldMasters st1 = oldMasters st
         ∧ oldReplicas st1 = oldReplicas st)
      ∧ sameServers (oldServers st) (newServerStates d) = false
      ∧ planRoles rangeOver numShards numReplicas st1 d (len encodedServerStates) st1
        = (st1, [], inr p)
      ∧ publish rangeOver numShards w d p st1 = (st', evs3, r3)
      ∧ evs = evs1 ++ evs3
      ∧ Forall (λ ev, ∃ key, ev = StoreDelete key) evs1
      ∧ r = inl (match r3 with inl e => e | inr _ => None end).
Proof.
  intros Hrun.
  apply assignCallback_run in Hrun
    as [(_ & -> & -> & _)|[(_ & err & _ & -> & -> & _)
       |(Hsize & d & st1 & evs1 & r1 & Hdec & Hcollect & Hcases)]];
    [by left|by left|].
  pose proof Hcollect as Hkept.
  apply collectRoles_run in Hkept
    as (Hversion & Hservers & Hroles & Hmasters & Hreplicas & _ & Hdeletes & _); [|done].
  destruct (only_deletes _ Hdeletes) as [Hnoroles Hnoaddresses].
  destruct Hcases as [(e & _ & -> & -> & _)|[(_ & _ & -> & -> & _)
                     |(_ & Hsame & evs2 & r2 & Hplan & Hcases)]];
    [by left|by left|].
  destruct Hcases as [(-> & -> & -> & _)|(p & evs3 & r3 & -> & -> & Hpublish & -> & ->)].
  { left. apply planRoles_run in Hplan as [_ Hpasses].
    destruct Hpasses as [(? & ? & ? & ? & [=] & _)|(_ & -> & _)].
    rewrite rolesWritten_app, addressesWritten_app, Hnoroles, Hnoaddresses. done. }
  right. exists d, st1, p, evs1, evs3, r3. rewrite <- Hservers. done.
Qed.


Lemma sameServers_of_dom (oldServers : gmap string bool)
    (newServerStates : gmap string ServerState.t) :
  dom oldServers = dom newServerStates →
  sameServers oldServers newServerStates = true.
Proof.
  intros Hdom. unfold sameServers. case_decide as Hsize.
  - destruct Hsize. by rewrite <- !size_dom, Hdom.
  - apply bool_decide_eq_true. intros id b Hid.
    apply elem_of_dom. rewrite <- Hdom. apply elem_of_dom. eauto.
Qed.

(** The versions a callback writes. *)
Lemma assignCallback_versions (w : World) (encodedServerStates : gmap string string)
    (st st' : Assigner) evs r :
  assignCallback rangeOver numShards numReplicas decodeServerState decodeServerRole
    decodeFrontendState w encodedServerStates st = (st', evs, r) →
  (∃ e, r = inl e)
  ∧ (∀ id v serverRole, (id, v, serverRole) ∈ rolesWritten evs → v = version st)
  ∧ ((addressesWritten evs = [] ∧ version st' = version st)
     ∨ (∃ addresses, addressesWritten evs = [Addresses.mk (version st) addresses])
       ∧ (r = inl None → version st' = nextVersion (version st))).
Proof.
  intros Hrun.
  assert (Hleaves : ∃ e, r = inl e).
  { apply assignCallback_run in Hrun
      as [(_ & _ & _ & ->)|[(_ & err & _ & _ & _ & ->)
         |(_ & d & st1 & evs1 & r1 & _ & _ & Hcases)]]; [by eexists|by eexists|].
    destruct Hcases as [(e & _ & _ & _ & ->)|[(_ & _ & _ & _ & ->)
                       |(_ & _ & evs2 & r2 & _ & Hcases)]]; [by eexists|by eexists|].
    destruct Hcases as [(_ & _ & _ & ->)|(p & evs3 & r3 & _ & _ & _ & _ & ->)];
      by eexists. }
  split; [done|].
  apply assignCallback_outcomes in Hrun
    as [((Hversion & _) & -> & ->)
       |(d & st1 & p & evs1 & evs3 & r3 & _ & _ & (Hversion & _) & _ & _ & Hpublish
         & -> & Hdeletes & ->)].
  { split; [by intros ??? ?%elem_of_nil|by left]. }
  destruct (only_deletes _ Hdeletes) as [Hnoroles Hnoaddresses].
  rewrite rolesWritten_app, addressesWritten_app, Hnoroles, Hnoaddresses. simpl.
  pose proof Hpublish as Hdone.
  apply publish_run in Hpublish
    as (_ & (l' & _ & Hroles) & Hexit & Hend & Haddresses); [|done].
  rewrite Hversion in *. split.
  - intros id v serverRole. rewrite Hroles, list_elem_of_fmap.
    by intros (entry & [= _ -> _] & _).
  - destruct Haddresses as [Hnone|(addresses & Haddresses & _)].
    + left. split; [done|]. destruct r3 as [e|[]].
      * destruct (Hexit _ eq_refl) as [_ ->]. done.
      * by apply publish_done in Hdone.
    + right. split; [by exists addresses|]. destruct r3 as [e|[]].
      * intros [= ->]. by destruct (Hexit _ eq_refl).
      * intros _. by rewrite (Hend eq_refl).
Qed.

(** X2.  Once the servers of a snapshot are those the assigner remembers, the
    callback writes no role and no addresses and reports no failure, whatever
    else the snapshot says of them; the assignment in force stays. *)
Theorem same_servers_publish_nothing (w : World)
    (encodedServerStates : gmap string string) (st st' : Assigner) evs r d :
  assignCallback rangeOver numShards numReplicas decodeServerState decodeServerRole
    decodeFrontendState w encodedServerStates st = (st', evs, r) →
  decodeStates rangeOver decodeServerState (version st) (mkDecoded ∅ ∅ ∅)
    (rangeAt rangeOver DecodeStates encodedServerStates) = inr d →
  dom (oldServers st) = dom (newServerStates d) →
  rolesWritten evs = [] ∧ addressesWritten evs = []
  ∧ Forall (λ ev, ∃ key, ev = StoreDelete key) evs
  ∧ version st' = version st ∧ oldServers st' = oldServers st
  ∧ oldRoles st' = oldRoles st ∧ oldMasters st' = oldMasters st
  ∧ oldReplicas st' = oldReplicas st.
Proof.
  intros Hrun Hdec Hdom.
  apply assignCallback_run in Hrun
    as [(_ & -> & -> & _)|[(_ & err & Hdec' & _)
       |(Hsize & d' & st1 & evs1 & r1 & Hdec' & Hcollect & Hcases)]];
    [done|congruence|].
  rewrite Hdec in Hdec'. injection Hdec' as <-.
  apply collectRoles_run in Hcollect
    as (Hversion & Hservers & Hroles & Hmasters & Hreplicas & _ & Hdeletes & _); [|done].
  destruct (only_deletes _ Hdeletes) as [Hnoroles Hnoaddresses].
  destruct Hcases as [(e & _ & -> & -> & _)|[(_ & _ & -> & -> & _)
                     |(_ & Hsame & _)]]; [done|done|].
  rewrite Hservers, sameServers_of_dom in Hsame by done. done.
Qed.

(** X3.  A callback changes the assignment in force only by a publication that
    runs to its end: it then returns nil, the version goes up by one, and
    what is remembered is what was written; a callback that returns nil
    otherwise has written nothing. *)
Theorem memory_follows_publication (w : World)
    (encodedServerStates : gmap string string) (st st' : Assigner) evs r :
  assignCallback rangeOver numShards numReplicas decodeServerState decodeServerRole
    decodeFrontendState w encodedServerStates st = (st', evs, r) →
  (version st' = version st ∧ oldServers st' = oldServers st ∧ oldRoles st' = oldRoles st
   ∧ oldMasters st' = oldMasters st ∧ oldReplicas st' = oldReplicas st
   ∧ (r = inl None → rolesWritten evs = [] ∧ addressesWritten evs = []))
  ∨ (r = inl None
     ∧ version st' = nextVersion (version st)
     ∧ (∃ addresses, addressesWritten evs = [Addresses.mk (version st) addresses])
     ∧ (∃ d, decodeStates rangeOver decodeServerState (version st) (mkDecoded ∅ ∅ ∅)
               (rangeAt rangeOver DecodeStates encodedServerStates) = inr d
             ∧ oldServers st' = (λ _, true) <$> newServerStates d)
     ∧ (∀ id v serverRole,
          (id, v, serverRole) ∈ rolesWritten evs ↔
          v = version st ∧ oldRoles st' !! id = Some serverRole)
     ∧ (∀ shard id,
          oldMasters st' !! shard = Some id ↔
          ∃ serverRole, oldRoles st' !! id = Some serverRole
                        ∧ ServerRole.Masters serverRole !! shard = Some true)).
Proof.
  intros Hrun.
  apply assignCallback_outcomes in Hrun
    as [(Hkept & -> & ->)
       |(d & st1 & p & evs1 & evs3 & r3 & Hsize & Hdec & Hkept & _ & Hplan & Hpublish
         & -> & Hdeletes & ->)].
  { left. destruct Hkept as (? & ? & ? & ? & ?). done. }
  destruct Hkept as (Hversion & Hservers & Hroles & Hmasters & Hreplicas).
  destruct (only_deletes _ Hdeletes) as [Hnoroles Hnoaddresses].
  pose proof Hpublish as Hdone.
  apply publish_run in Hpublish as (_ & _ & Hexit & Hend & Haddresses); [|done].
  destruct r3 as [e|[]].
  { left. destruct (Hexit _ eq_refl) as [He ->]. split_and!; try done.
    intros [= ->]. done. }
  right. apply publish_done in Hdone.
  destruct Haddresses as [Hnone|(addresses & Haddresses & Hwritten & _)]; [done|].
  rewrite (Hend eq_refl). simpl.
  rewrite rolesWritten_app, addressesWritten_app, Hnoroles, Hnoaddresses. simpl.
  rewrite Hversion in *.
  destruct (planRoles_well _ _ _ _ _ _ Hsize Hdec Hplan) as (Hwell & _).
  destruct Hwell as (_ & _ & _ & _ & (Hheld & Howner & _) & _).
  split_and!; [done|done|by exists addresses|by exists d| |].
  - intros id v serverRole. rewrite Hwritten, list_elem_of_fmap. split.
    + intros ([id' serverRole'] & [= -> -> ->] & Hin). simpl.
      split; [done|]. by apply elem_of_rangeAt in Hin.
    + intros [-> Hid]. exists (id, serverRole). split; [done|].
      by apply elem_of_rangeAt.
  - intros shard id. split.
    + intros Hid. destruct (Howner _ _ Hid) as (shards & Hshards & Htrue).
      unfold mastersOf in Hshards. rewrite lookup_fmap in Hshards.
      destruct (serverRoles p !! id) as [serverRole|]; [|done].
      injection Hshards as <-. by exists serverRole.
    + intros (serverRole & Hid & Htrue). eapply Hheld; [|by eexists].
      by apply mastersOf_lookup.
Qed.

Lemma watch_versions (deliveries : list (World * gmap string string)) (ending : error)
    (delivery : nat) (st st' : Assigner) evs err :
  WatchAll (λ _ st '(w, encodedServerStates),
              returned (assignCallback rangeOver numShards numReplicas decodeServerState
                          decodeServerRole decodeFrontendState w encodedServerStates st))
           delivery st deliveries ending = (st', evs, err) →
  Addresses.Version <$> addressesWritten evs
  = (λ k, Nat.iter k nextVersion (version st)) <$> seq 0 (length (addressesWritten evs))
  ∧ ∀ id v serverRole,
      (id, v, serverRole) ∈ rolesWritten evs →
      ∃ k, (k ≤ length (addressesWritten evs))%nat
           ∧ v = Nat.iter k nextVersion (version st).
Proof.
  revert delivery st evs.
  induction deliveries as [|[w encodedServerStates] rest IH]; intros delivery st evs.
  { intros [= <- <- <-]. split; [done|]. by intros ??? ?%elem_of_nil. }
  simpl.
  destruct (assignCallback _ _ _ _ _ _ _ _ _) as [[st1 evs1] r1] eqn:Hrun.
  apply assignCallback_versions in Hrun as ([e0 ->] & Hroles & Hcases).
  assert (Hfirst : ∀ id v serverRole,
            (id, v, serverRole) ∈ rolesWritten evs1 →
            ∃ k, (k ≤ 0)%nat ∧ v = Nat.iter k nextVersion (version st)).
  { intros id v serverRole Hin. exists O. split; [done|]. by eapply Hroles. }
  destruct e0 as [e|]; simpl.
  - intros [= <- <- <-].
    destruct Hcases as [[-> _]|[[addresses ->] _]]; simpl.
    + split; [done|]. done.
    + split; [done|]. intros id v serverRole Hin.
      destruct (Hfirst _ _ _ Hin) as (k & ? & ->). exists k. split; [lia|done].
  - destruct (WatchAll _ _ _ _ _) as [[st2 evs2] err2] eqn:Hrest.
    intros [= <- <- <-]. apply IH in Hrest as [Hversions Hlater].
    rewrite rolesWritten_app, addressesWritten_app.
    destruct Hcases as [[-> Hsame]|[[addresses ->] Hnext]]; simpl.
    + rewrite Hsame in *. split; [done|].
      intros id v serverRole [Hin|Hin]%elem_of_app; [|by eapply Hlater].
      destruct (Hfirst _ _ _ Hin) as (k & ? & ->). exists k. split; [lia|done].
    + rewrite (Hnext eq_refl) in *. split.
      * f_equal. etrans; [exact Hversions|].
        change (list_fmap nat Z ?f ?l) with (f <$> l).
        rewrite <- fmap_S_seq, <- list_fmap_compose.
        apply list_fmap_ext. intros i k _. symmetry. apply Nat.iter_succ_r.
      * intros id v serverRole [Hin|Hin]%elem_of_app.
        -- destruct (Hfirst _ _ _ Hin) as (k & ? & ->). exists k. split; [lia|done].
        -- destruct (Hlater _ _ _ Hin) as (k & ? & ->). exists (S k).
           split; [lia|]. by rewrite Nat.iter_succ_r.
Qed.

(** X4.  Over a run of the assigner the addresses are written with consecutive
    versions, starting from the version the run starts with, and every role
    record written carries one of these versions or the one that follows. *)
Theorem published_versions_are_consecutive
    (deliveries : list (World * gmap string string)) (ending : error)
    (st st' : Assigner) evs err :
  AssignRoles rangeOver numShards numReplicas decodeServerState decodeServerRole
    decodeFrontendState st deliveries ending = (st', evs, err) →
  Addresses.Version <$> addressesWritten evs
  = (λ k, Nat.iter k nextVersion (version st)) <$> seq 0 (length (addressesWritten evs))
  ∧ ∀ id v serverRole,
      (id, v, serverRole) ∈ rolesWritten evs →
      ∃ k, (k ≤ length (addressesWritten evs))%nat
           ∧ v = Nat.iter k nextVersion (version st).
Proof.
  unfold AssignRoles.
  destruct (WatchAll _ _ _ _ _) as [[st1 evs1] err1] eqn:Hwatch.
  intros [= <- <- <-]. by eapply watch_versions.
Qed.
End OutcomeProperties.

(** The snapshot names the two servers the assigner remembers. *)
Lemma same_servers_publish_nothing_witness :
  rolesWritten sampleQuiet.1.2 = [] ∧ addressesWritten sampleQuiet.1.2 = []
  ∧ version sampleQuiet.1.1 = 4%Z.
Proof.
  destruct (same_servers_publish_nothing rangeCanonical rangeCanonical_sound 4 1
              sampleStateDecoder sampleRoleDecoder sampleFrontendDecoder sampleWorld
              sampleServers sampleSettled _ _ _
              (default (mkDecoded ∅ ∅ ∅)
                 (match decodeStates rangeCanonical sampleStateDecoder 4 (mkDecoded ∅ ∅ ∅)
                          (rangeAt rangeCanonical DecodeStates sampleServers) with
                  | inr d => Some d | inl _ => None end))
              (run_eta sampleQuiet))
    as (Hroles & Haddresses & _ & Hversion & _).
  - vm_compute. reflexivity.
  - vm_compute. reflexivity.
  - split_and!; [exact Hroles|exact Haddresses|exact Hversion].
Defined.

(** The publication for A and B moves the version from 3 to 4 and remembers
    what it wrote. *)
Lemma memory_follows_publication_witness :
  version samplePublication.1.1 = 4%Z
  ∧ ∀ id v serverRole,
      (id, v, serverRole) ∈ rolesWritten samplePublication.1.2 ↔
      v = 3%Z ∧ oldRoles samplePublication.1.1 !! id = Some serverRole.
Proof.
  destruct (memory_follows_publication rangeCanonical rangeCanonical_sound 4 1
              sampleStateDecoder sampleRoleDecoder sampleFrontendDecoder sampleWorld
              sampleServers sampleAssigner _ _ _ (run_eta samplePublication))
    as [(Hversion & _)|(_ & Hversion & _ & _ & Hroles & _)].
  - vm_compute in Hversion. discriminate.
  - split; [vm_compute; reflexivity|exact Hroles].
Defined.

(** Two servers, then three: the addresses are written at versions 3 and 4. *)
Lemma published_versions_are_consecutive_witness :
  Addresses.Version <$> addressesWritten sampleRun.1.2 = [3; 4]%Z.
Proof.
  etrans.
  - exact (proj1 (published_versions_are_consecutive rangeCanonical rangeCanonical_sound
                    4 1 sampleStateDecoder sampleRoleDecoder sampleFrontendDecoder
                    _ _ sampleAssigner _ _ _ (run_eta sampleRun))).
  - vm_compute. reflexivity.
Defined.


(** ** The replicas of a shard *)

Lemma slice_insert (m : gmap N (list string)) (k k' : N) l :
  slice (<[k := l]> m) k' = if decide (k = k') then l else slice m k'.
Proof. unfold slice. rewrite lookup_insert. by case_decide. Qed.

Lemma filter_absent (l : list string) (x : string) :
  x ∉ l → filter (λ y, x ≠ y) l = l.
Proof.
  induction l as [|y l IH]; [done|]. intros Hx. rewrite filter_cons.
  rewrite decide_True.
  - f_equal. apply IH. intros Hin. apply Hx. by right.
  - intros ->. apply Hx. left.
Qed.

Lemma length_filter_remove (l : list string) (x : string) :
  NoDup l → x ∈ l → (length (filter (λ y, x ≠ y) l) + 1 = length l)%nat.
Proof.
  induction 1 as [|y l Hy Hl IH]; [by intros ?%elem_of_nil|].
  rewrite filter_cons. intros [->|Hin]%elem_of_cons.
  - rewrite decide_False by (by intros ?). rewrite filter_absent by done. simpl. lia.
  - rewrite decide_True by (intros ->; done). simpl. specialize (IH Hin). lia.
Qed.

Lemma applySwap_replicas p id shard perServer swapID swapServerRole swapShard serverRole :
  swapID ≠ id →
  serverRoles p !! id = Some serverRole →
  serverRoles p !! swapID = Some swapServerRole →
  is_Some (ServerRole.Replicas swapServerRole !! swapShard) →
  hasShard serverRole swapShard = false →
  hasShard swapServerRole shard = false →
  len (ServerRole.Replicas serverRole) < perServer →
  len (ServerRole.Replicas swapServerRole) ≤ MaxUint64 →
  replicas (applySwap p id shard perServer swapID swapServerRole swapShard)
  = (let removed := removeReplica (replicas p) swapShard swapID in
     let moved := <[shard := slice removed shard ++ [swapID]]> removed in
     <[swapShard := slice moved swapShard ++ [id]]> moved).
Proof.
  intros Hne Hid Hswap Hheld Hfree Hfree' Hbelow Hfits. unfold applySwap.
  pose proof (len_delete _ _ Hheld) as Hdrop.
  erewrite (assignReplica_budget _ swapID shard MaxUint64 0
              (dropReplica swapServerRole swapShard)); simpl.
  - erewrite (assignReplica_budget _ id swapShard perServer _ serverRole); simpl.
    + done.
    + by rewrite !lookup_insert_ne.
    + by left.
    + done.
  - apply lookup_insert_eq.
  - left. simpl. lia.
  - apply hasShard_false in Hfree' as [Hm Hr]. apply hasShard_false. simpl.
    split; [done|]. rewrite index_delete. by case_decide.
Qed.

Lemma assignReplica_ReplicasTracked p id shard perServer remainder p' remainder' :
  ReplicasTracked (serverRoles p) (replicas p) →
  assignReplica p id shard perServer remainder = Some (p', remainder') →
  ReplicasTracked (serverRoles p') (replicas p')
  ∧ ∀ s, length (slice (replicas p') s)
         = (length (slice (replicas p) s) + (if decide (s = shard) then 1 else 0))%nat.
Proof.
  intros Htracked (serverRole & Hid & _ & Hfree & -> & _)%assignReplica_inv. simpl.
  apply hasShard_false in Hfree as [_ Hfree].
  assert (Hfresh : id ∉ slice (replicas p) shard).
  { intros (serverRole' & Hid' & Hheld)%(proj2 (Htracked shard)). congruence. }
  split.
  - intros s. rewrite slice_insert. destruct (Htracked s) as [Hnodup Hmembers].
    case_decide as Hs; [subst s|].
    + split.
      * apply NoDup_app. split_and!; [done| |apply NoDup_singleton].
        intros x Hx ->%list_elem_of_singleton. done.
      * intros id'. rewrite elem_of_app, list_elem_of_singleton, Hmembers. split.
        -- intros [(serverRole' & Hid' & Hheld)| ->].
           ++ destruct (decide (id' = id)) as [->|Hne]; [congruence|].
              exists serverRole'. by rewrite lookup_insert_ne.
           ++ exists (addReplica serverRole shard). rewrite lookup_insert_eq.
              split; [done|]. simpl. rewrite index_insert. by case_decide.
        -- intros (serverRole' & Hid' & Hheld). rewrite lookup_insert in Hid'.
           case_decide; [by right|]. left. eauto.
    + split; [done|]. intros id'. rewrite Hmembers. split.
      * intros (serverRole' & Hid' & Hheld).
        destruct (decide (id' = id)) as [->|Hne].
        -- exists (addReplica serverRole shard). rewrite lookup_insert_eq.
           split; [done|]. simpl. rewrite index_insert. case_decide; [done|]. congruence.
        -- exists serverRole'. by rewrite lookup_insert_ne.
      * intros (serverRole' & Hid' & Hheld). rewrite lookup_insert in Hid'.
        case_decide as Hsame.
        -- subst id'. injection Hid' as <-. simpl in Hheld. rewrite index_insert in Hheld.
           case_decide; [done|]. eauto.
        -- eauto.
  - intros s. rewrite slice_insert.
    case_decide; case_decide; subst; try done; rewrite ?length_app; simpl; lia.
Qed.


Lemma swapped_holds (roles : gmap string ServerRole.t) id swapID serverRole swapServerRole
    shard swapShard id' s :
  swapID ≠ id →
  roles !! id = Some serverRole →
  roles !! swapID = Some swapServerRole →
  (∃ serverRole',
     <[id := addReplica serverRole swapShard]>
       (<[swapID := addReplica (dropReplica swapServerRole swapShard) shard]> roles) !! id'
     = Some serverRole'
     ∧ index (ServerRole.Replicas serverRole') s = true)
  ↔ (id' = id ∧ (s = swapShard ∨ index (ServerRole.Replicas serverRole) s = true))
    ∨ (id' = swapID
       ∧ (s = shard ∨ (s ≠ swapShard ∧ index (ServerRole.Replicas swapServerRole) s = true)))
    ∨ (id' ≠ id ∧ id' ≠ swapID
       ∧ ∃ serverRole', roles !! id' = Some serverRole'
                        ∧ index (ServerRole.Replicas serverRole') s = true).
Proof.
  intros Hne Hid Hswap. rewrite lookup_insert. case_decide as H1.
  { subst id'. split.
    - intros (r & [= <-] & Hheld). simpl in Hheld. rewrite index_insert in Hheld.
      left. split; [done|]. case_decide; [by left|by right].
    - intros [[_ Hheld]|[[-> _]|(? & _)]]; [|done|done].
      eexists. split; [done|]. simpl. rewrite index_insert.
      case_decide; [done|]. by destruct Hheld. }
  rewrite lookup_insert. case_decide as H2.
  { subst id'. split.
    - intros (r & [= <-] & Hheld). simpl in Hheld.
      rewrite index_insert, index_delete in Hheld. right. left. split; [done|].
      case_decide; [by left|]. case_decide; [done|]. right. split; [congruence|done].
    - intros [[? _]|[[_ Hheld]|(_ & ? & _)]]; [done| |done].
      eexists. split; [done|]. simpl. rewrite index_insert, index_delete.
      case_decide; [done|]. case_decide; [|by destruct Hheld as [|[]]].
      by destruct Hheld as [|[]]. }
  split.
  - intros Hheld. right. right. split_and!; [congruence|congruence|done].
  - by intros [[? _]|[[? _]|(_ & _ & ?)]].
Qed.

Lemma swapReplica_ReplicasTracked (rangeOver : RangeOrder) (sound : RangeSound rangeOver)
    site sites perServer initial heldMasters placed count p remainder id shard p' :
  ReplicaInv perServer initial heldMasters placed count (p, remainder) →
  perServer * N.of_nat (size heldMasters) + initial ≤ MaxUint64 →
  ReplicasTracked (serverRoles p) (replicas p) →
  swapReplica (rangeAt rangeOver site) (λ swapID, rangeAt rangeOver (sites swapID))
    p id shard perServer = Some p' →
  ReplicasTracked (serverRoles p') (replicas p')
  ∧ ∀ s, length (slice (replicas p') s)
         = (length (slice (replicas p) s) + (if decide (s = shard) then 1 else 0))%nat.
Proof.
  intros (Hmasters & _ & Htrue & _ & Hquota & _) Hcap Htracked.
  intros (serverRole & swapID & swapServerRole & swapShard & Hid & Hbelow & Hne & Hswap
          & Hheld & Hfree & Hfree' & ->)%swapReplica_inv; [|done].
  simpl in *.
  pose proof (replicasOf_lookup _ _ _ Hid) as Hview.
  pose proof (replicasOf_lookup _ _ _ Hswap) as Hview'.
  assert (Hfits : len (ServerRole.Replicas swapServerRole) ≤ MaxUint64).
  { eapply Quota_fits; [done| |done].
    unfold replicasOf. rewrite map_size_fmap.
    rewrite <- Hmasters in Hcap. unfold mastersOf in Hcap.
    by rewrite map_size_fmap in Hcap. }
  destruct (applySwap_roles p id shard perServer swapID swapServerRole swapShard serverRole)
    as [Hroles _]; try done.
  rewrite Hroles,
    (applySwap_replicas p id shard perServer swapID swapServerRole swapShard serverRole)
    by done.
  cbv zeta. unfold removeReplica.
  apply hasShard_false in Hfree as [_ Hfree].
  apply hasShard_false in Hfree' as [_ Hfree'].
  assert (Hstolen : index (ServerRole.Replicas swapServerRole) swapShard = true).
  { destruct Hheld as [b Hb]. unfold index. rewrite Hb. simpl.
    by eapply Htrue. }
  assert (Hdiff : swapShard ≠ shard) by congruence.
  assert (Hthere : swapID ∈ slice (replicas p) swapShard).
  { apply (Htracked swapShard). eauto. }
  assert (Hfresh : id ∉ slice (replicas p) swapShard).
  { intros (r & Hr & Hh)%(proj2 (Htracked swapShard)). congruence. }
  assert (Hfresh' : swapID ∉ slice (replicas p) shard).
  { intros (r & Hr & Hh)%(proj2 (Htracked shard)). congruence. }
  set (final := <[swapShard := _]> _).
  assert (Hslices : ∀ s,
    slice final s
    = if decide (s = swapShard)
      then filter (λ replicaID, swapID ≠ replicaID) (slice (replicas p) swapShard) ++ [id]
      else if decide (s = shard) then slice (replicas p) shard ++ [swapID]
      else slice (replicas p) s).
  { intros s. unfold final. rewrite !slice_insert.
    repeat case_decide; simplify_eq; done. }
  clearbody final.
  split.
  - intros s. destruct (Htracked s) as [Hnodup Hmembers]. rewrite Hslices. split.
    + destruct (decide (s = swapShard)) as [->|?]; [|destruct (decide (s = shard)) as [->|?]].
      * apply NoDup_app. split_and!; [by apply NoDup_filter| |apply NoDup_singleton].
        intros x [_ Hx]%list_elem_of_filter ->%list_elem_of_singleton. done.
      * apply NoDup_app. split_and!; [done| |apply NoDup_singleton].
        intros x Hx ->%list_elem_of_singleton. done.
      * done.
    + intros id'. rewrite (swapped_holds _ _ _ _ _ _ _ _ _ Hne Hid Hswap).
      destruct (decide (s = swapShard)) as [->|?]; [|destruct (decide (s = shard)) as [->|?]].
      * rewrite elem_of_app, list_elem_of_filter, list_elem_of_singleton, Hmembers.
        split.
        -- intros [[Hnot Hold]| ->]; [|left; split; [done|by left]].
           destruct (decide (id' = id)) as [->|?]; [left; split; [done|by left]|].
           right. right. split_and!; [done|congruence|done].
        -- intros [[-> _]|[[-> [?|[? _]]]|(? & ? & ?)]]; [by right|done|done|].
           left. split; [congruence|done].
      * rewrite elem_of_app, list_elem_of_singleton, Hmembers. split.
        -- intros [(r & Hr & Hh)| ->]; [|right; left; split; [done|by left]].
           destruct (decide (id' = id)) as [->|?].
           { left. split; [done|]. right. congruence. }
           destruct (decide (id' = swapID)) as [->|?].
           { right. left. split; [done|by left]. }
           right. right. eauto.
        -- intros [[-> [?|?]]|[[-> _]|(_ & _ & ?)]]; [done|left; eauto|by right|by left].
      * rewrite Hmembers. split.
        -- intros (r & Hr & Hh).
           destruct (decide (id' = id)) as [->|?].
           { left. split; [done|]. right. congruence. }
           destruct (decide (id' = swapID)) as [->|?].
           { right. left. split; [done|]. right. split; [done|congruence]. }
           right. right. eauto.
        -- intros [[-> [?|?]]|[[-> [?|[_ ?]]]|(_ & _ & ?)]]; try done; eauto.
  - intros s. rewrite Hslices.
    destruct (decide (s = swapShard)) as [->|?]; [|destruct (decide (s = shard)) as [->|?]].
    + rewrite decide_False by done. rewrite length_app. simpl.
      pose proof (length_filter_remove _ _ (proj1 (Htracked swapShard)) Hthere). lia.
    + rewrite length_app. simpl. lia.
    + lia.
Qed.


Section ReplicaProperties.
Context (rangeOver : RangeOrder) (sound : RangeSound rangeOver).
Context (numShards numReplicas : N).
Context (oldMasters : gmap N string) (oldReplicas shardLocations : gmap N (list string)).
Context (newServerStates : gmap string ServerState.t).

Lemma replicaStep_ReplicasTracked perServer initial heldMasters placed count replica shard
    st st' :
  ReplicaInv perServer initial heldMasters placed count st →
  perServer * N.of_nat (size heldMasters) + initial ≤ MaxUint64 →
  ReplicasTracked (serverRoles st.1) (replicas st.1) →
  replicaStep rangeOver oldMasters oldReplicas shardLocations newServerStates
    perServer replica st shard = Some st' →
  ReplicasTracked (serverRoles st'.1) (replicas st'.1)
  ∧ ∀ s, length (slice (replicas st'.1) s)
         = (length (slice (replicas st.1) s) + (if decide (s = shard) then 1 else 0))%nat.
Proof.
  intros Hinv Hcap Htracked. unfold replicaStep. destruct st as [p remainder].
  destruct (firstSuccess _ _ (preferred _ _ _ _ ++ _)) as [st1|] eqn:Hfirst.
  - intros [= <-]. apply firstSuccess_Some in Hfirst as (id & _ & Hassign).
    destruct st1 as [p1 remainder1]. by eapply assignReplica_ReplicasTracked.
  - intros (id & _ & Hswap)%firstSuccess_Some.
    destruct (swapReplica _ _ _ _ _ _) as [p1|] eqn:Hp1; [|done].
    simpl in Hswap. injection Hswap as <-.
    by eapply swapReplica_ReplicasTracked.
Qed.

(** One round over the shards gives every shard one more replica. *)
Lemma replicaRound_ReplicasTracked perServer initial heldMasters placed replica round
    st st' :
  (∃ count, ReplicaInv perServer initial heldMasters placed count st) →
  perServer * N.of_nat (size heldMasters) + initial ≤ MaxUint64 →
  ReplicasTracked (serverRoles st.1) (replicas st.1) →
  ReplicaCount numShards (replicas st.1) round 0 →
  forEach (replicaStep rangeOver oldMasters oldReplicas shardLocations newServerStates
             perServer replica) st (upTo numShards) = Some st' →
  (∃ count, ReplicaInv perServer initial heldMasters placed count st')
  ∧ ReplicasTracked (serverRoles st'.1) (replicas st'.1)
  ∧ ReplicaCount numShards (replicas st'.1) (S round) 0.
Proof.
  intros Hinv Hcap Htracked Hcount Hround.
  pose proof (forEach_invariant
                (replicaStep rangeOver oldMasters oldReplicas shardLocations
                   newServerStates perServer replica)
                (λ i st,
                   (∃ count, ReplicaInv perServer initial heldMasters placed count st)
                   ∧ ReplicasTracked (serverRoles st.1) (replicas st.1)
                   ∧ ReplicaCount numShards (replicas st.1) round (N.of_nat i))
                (upTo numShards) O st st') as Hloop.
  rewrite length_upTo in Hloop. simpl in Hloop. rewrite N2Nat.id in Hloop.
  destruct Hloop as (Hinv' & Htracked' & Hcount'); [done| |done|].
  - intros i shard st1 st2 [-> Hshard]%upTo_lookup ([count Hinv1] & Htracked1 & Hcount1) Hstep.
    destruct (replicaStep_ReplicasTracked _ _ _ _ _ _ _ _ _ Hinv1 Hcap Htracked1 Hstep)
      as [Htracked2 Hlengths].
    split_and!; [|done|].
    + exists (count + 1). by eapply replicaStep_ReplicaInv.
    + intros s Hs. rewrite Hlengths, (Hcount1 s Hs).
      repeat case_decide; lia.
  - split_and!; [done|done|].
    intros s Hs. rewrite (Hcount' s Hs). repeat case_decide; lia.
Qed.

Lemma replicaPass_ReplicasTracked perServer initial heldMasters placed count st st' :
  ReplicaInv perServer initial heldMasters placed count st →
  perServer * N.of_nat (size heldMasters) + initial ≤ MaxUint64 →
  ReplicasTracked (serverRoles st.1) (replicas st.1) →
  ReplicaCount numShards (replicas st.1) 0 0 →
  replicaPass rangeOver numShards numReplicas oldMasters oldReplicas shardLocations
    newServerStates perServer st = Some st' →
  ReplicasTracked (serverRoles st'.1) (replicas st'.1)
  ∧ ReplicaCount numShards (replicas st'.1) (N.to_nat numReplicas) 0.
Proof.
  intros Hinv Hcap Htracked Hcount Hpass.
  pose proof (forEach_invariant
                (λ st replica,
                   forEach (replicaStep rangeOver oldMasters oldReplicas shardLocations
                              newServerStates perServer replica) st (upTo numShards))
                (λ j st,
                   (∃ count, ReplicaInv perServer initial heldMasters placed count st)
                   ∧ ReplicasTracked (serverRoles st.1) (replicas st.1)
                   ∧ ReplicaCount numShards (replicas st.1) j 0)
                (upTo numReplicas) O st st') as Hloop.
  rewrite length_upTo in Hloop. simpl in Hloop.
  destruct Hloop as (_ & Htracked' & Hcount'); [by eauto| |done|done].
  intros j replica st1 st2 _ (Hinv1 & Htracked1 & Hcount1) Hround.
  by eapply replicaRound_ReplicasTracked.
Qed.

Lemma masterSteps_replicas perServer (l : list N) st st' :
  forEach (masterStep rangeOver oldMasters oldReplicas shardLocations newServerStates
             perServer) st l = Some st' →
  replicas st'.1 = replicas st.1.
Proof.
  revert st. induction l as [|shard l IH]; intros st; simpl; [by intros [= <-]|].
  destruct (masterStep _ _ _ _ _ _ _ _) as [st1|] eqn:Hstep; [|done].
  intros Hrest. rewrite (IH _ Hrest).
  apply firstSuccess_Some in Hstep as (id & _ & Hassign).
  destruct st as [p remainder], st1 as [p1 remainder1].
  apply assignMaster_inv in Hassign as (serverRole & _ & _ & _ & -> & _). done.
Qed.

(** Both passes, from the empty roles built while decoding: every shard has
    [numReplicas] replicas, and [replicas] lists them. *)
Lemma passes_ReplicasTracked (roles0 : gmap string ServerRole.t)
    masterRolesPerServer masterRolesRemainder replicaRolesPerServer replicaRolesRemainder
    p1 left1 p2 left2 :
  (∀ id serverRole, roles0 !! id = Some serverRole →
     ServerRole.Masters serverRole = ∅ ∧ ServerRole.Replicas serverRole = ∅) →
  replicaRolesPerServer * N.of_nat (size roles0) + replicaRolesRemainder ≤ MaxUint64 →
  masterPass rangeOver numShards oldMasters oldReplicas shardLocations newServerStates
    masterRolesPerServer (mkPlan roles0 ∅ ∅, masterRolesRemainder) = Some (p1, left1) →
  replicaPass rangeOver numShards numReplicas oldMasters oldReplicas shardLocations
    newServerStates replicaRolesPerServer (p1, replicaRolesRemainder) = Some (p2, left2) →
  ReplicasTracked (serverRoles p2) (replicas p2)
  ∧ ReplicaCount numShards (replicas p2) (N.to_nat numReplicas) 0.
Proof.
  intros Hempty Hcap Hmaster Hreplica.
  pose proof (masterSteps_replicas _ _ _ _ Hmaster) as Hnone'. simpl in Hnone'.
  assert (Hinit : MasterInv masterRolesPerServer masterRolesRemainder (dom roles0) 0
                    (mkPlan roles0 ∅ ∅, masterRolesRemainder)).
  { unfold MasterInv. simpl. split_and!.
      - done.
      - intros id r Hid. by destruct (Hempty _ _ Hid).
      - intros id shards s b. unfold mastersOf. rewrite lookup_fmap.
        destruct (roles0 !! id) as [r|] eqn:Hid; [|done]. intros [= <-].
        destruct (Hempty _ _ Hid) as [-> _]. done.
      - split_and!.
        + intros id shards s. unfold mastersOf. rewrite lookup_fmap.
          destruct (roles0 !! id) as [r|] eqn:Hid; [|done]. intros [= <-].
          destruct (Hempty _ _ Hid) as [-> _]. rewrite lookup_empty. by intros [].
        + intros s id. by rewrite lookup_empty.
        + intros s. rewrite lookup_empty. split; [by intros []|lia].
      - split.
        + intros id shards. unfold mastersOf. rewrite lookup_fmap.
          destruct (roles0 !! id) as [r|] eqn:Hid; [|done]. intros [= <-].
          destruct (Hempty _ _ Hid) as [-> _]. unfold len. rewrite map_size_empty. lia.
        + rewrite total_zero; [lia|]. intros id n. unfold mastersOf.
          rewrite !lookup_fmap. destruct (roles0 !! id) as [r|] eqn:Hid; [|done].
          intros [= <-]. destruct (Hempty _ _ Hid) as [-> _].
          unfold len. rewrite map_size_empty. lia.
      - apply total_zero. intros id n. unfold mastersOf.
        rewrite !lookup_fmap. destruct (roles0 !! id) as [r|] eqn:Hid; [|done].
        intros [= <-]. destruct (Hempty _ _ Hid) as [-> _].
        unfold len. by rewrite map_size_empty. }
  eapply masterPass_MasterInv in Hmaster; [|exact Hinit].
  destruct Hmaster as (Hdom & Hnone & Htrue & Htracked & Hquota & Htotal).
  simpl in *.
  assert (Hsize : size (mastersOf (serverRoles p1)) = size roles0).
  { unfold mastersOf. rewrite map_size_fmap, <- !size_dom. by rewrite Hdom. }
  apply (replicaPass_ReplicasTracked _ replicaRolesRemainder (mastersOf (serverRoles p1))
           (masters p1) 0) in Hreplica; [done| |by rewrite Hsize| |].
  - unfold ReplicaInv. simpl. split_and!; [done|done| | | |].
    + intros id shards s b. unfold replicasOf. rewrite lookup_fmap.
      destruct (serverRoles p1 !! id) as [r|] eqn:Hid; [|done]. intros [= <-].
      by rewrite (Hnone _ _ Hid).
    + intros id r s Hid _. by rewrite (Hnone _ _ Hid).
    + split.
      * intros id shards. unfold replicasOf. rewrite lookup_fmap.
        destruct (serverRoles p1 !! id) as [r|] eqn:Hid; [|done]. intros [= <-].
        rewrite (Hnone _ _ Hid). unfold len. rewrite map_size_empty. lia.
      * rewrite total_zero; [lia|]. intros id n. unfold replicasOf.
        rewrite !lookup_fmap. destruct (serverRoles p1 !! id) as [r|] eqn:Hid; [|done].
        intros [= <-]. rewrite (Hnone _ _ Hid).
        unfold len. rewrite map_size_empty. lia.
    + apply total_zero. intros id n. unfold replicasOf.
      rewrite !lookup_fmap. destruct (serverRoles p1 !! id) as [r|] eqn:Hid; [|done].
      intros [= <-]. rewrite (Hnone _ _ Hid).
      unfold len. by rewrite map_size_empty.
  - simpl. rewrite Hnone'. intros shard. unfold slice. rewrite lookup_empty. simpl.
    split; [apply NoDup_nil_2|]. intros id. split; [by intros ?%elem_of_nil|].
    intros (r & Hid & Hheld). rewrite (Hnone _ _ Hid) in Hheld. done.
  - simpl. rewrite Hnone'. intros shard _. unfold slice. rewrite lookup_empty. simpl.
    by rewrite decide_False by lia.
Qed.
End ReplicaProperties.


Section ReplicaPublication.
Context (rangeOver : RangeOrder) (sound : RangeSound rangeOver).
Context (numShards numReplicas : N).
Context (decodeServerState : string → error + ServerState.t).
Context (decodeServerRole : string → error + ServerRole.t).
Context (decodeFrontendState : string → error + FrontendState.t).

Lemma planRoles_replicas (encodedServerStates : gmap string string) (st st1 : Assigner)
    (d : Decoded) evs p :
  size encodedServerStates ≠ O →
  decodeStates rangeOver decodeServerState (version st) (mkDecoded ∅ ∅ ∅)
    (rangeAt rangeOver DecodeStates encodedServerStates) = inr d →
  planRoles rangeOver numShards numReplicas st1 d (len encodedServerStates) st1
  = (st1, evs, inr p) →
  ReplicasTracked (serverRoles p) (replicas p)
  ∧ ReplicaCount numShards (replicas p) (N.to_nat numReplicas) 0.
Proof.
  intros Hsize Hdec Hplan.
  apply planRoles_run in Hplan as [_ Hpasses].
  destruct Hpasses as [(p' & p1 & left1 & left2 & [= <-] & _ & Hmaster & Hreplica)
                      |([=] & _)].
  apply decodeStates_run in Hdec as (_ & _ & Hfresh & Hcount & _).
  simpl in Hcount. rewrite map_size_empty, length_rangeAt in Hcount by done.
  assert (Hservers : len encodedServerStates ≠ 0) by (unfold len; lia).
  pose proof (N.div_mod (mul64 numShards numReplicas) (len encodedServerStates) Hservers)
    as Hsplit.
  assert (Hmax : mul64 numShards numReplicas ≤ MaxUint64).
  { unfold mul64, MaxUint64.
    pose proof (N.mod_upper_bound (numShards * numReplicas) (2 ^ 64)). lia. }
  eapply passes_ReplicasTracked; [done| | |done|done].
  - intros id serverRole Hid. destruct (Hfresh _ _ Hid) as [Hold| ->]; [|done].
    simpl in Hold. by rewrite lookup_empty in Hold.
  - remember (mul64 numShards numReplicas / len encodedServerStates) as q.
    remember (mul64 numShards numReplicas mod len encodedServerStates) as m.
    assert (q * N.of_nat (size (newRoles d)) ≤ q * len encodedServerStates)
      by (apply N.mul_le_mono_l; unfold len; lia).
    lia.
Qed.

(** X5.  Once the addresses are written, every shard below [numShards] is held as
    replica by exactly [numReplicas] of the role records written, and when
    the callback returns nil these are the servers the assigner remembers as
    the replicas of the shard. *)
Theorem published_replicas_per_shard (w : World)
    (encodedServerStates : gmap string string) (st st' : Assigner) evs r shard :
  assignCallback rangeOver numShards numReplicas decodeServerState decodeServerRole
    decodeFrontendState w encodedServerStates st = (st', evs, r) →
  addressesWritten evs ≠ [] →
  shard < numShards →
  let holders :=
    filter (λ written, index (ServerRole.Replicas written.2) shard = true)
           (rolesWritten evs) in
  length holders = N.to_nat numReplicas
  ∧ NoDup holders.*1.*1
  ∧ (r = inl None → holders.*1.*1 ≡ₚ slice (oldReplicas st') shard).
Proof.
  intros Hrun Hwritten Hshard holders.
  apply assignCallback_outcomes in Hrun
    as [(_ & _ & Hnone)
       |(d & st1 & p & evs1 & evs3 & r3 & Hsize & Hdec & _ & _ & Hplan & Hpublish
         & -> & Hdeletes & ->)]; [done| |done].
  destruct (only_deletes _ Hdeletes) as [Hnoroles Hnoaddresses].
  destruct (planRoles_replicas _ _ _ _ _ _ Hsize Hdec Hplan) as [Htracked Hcount].
  destruct (Htracked shard) as [Hnodup Hmembers].
  specialize (Hcount shard Hshard). rewrite decide_False in Hcount by lia.
  apply publish_run in Hpublish as (_ & _ & Hexit & Hend & Haddresses); [|done].
  rewrite addressesWritten_app, Hnoaddresses in Hwritten. simpl in Hwritten.
  destruct Haddresses as [Hnone|(addresses & _ & Hroles & _)]; [done|].
  assert (Hall : rolesWritten (evs1 ++ evs3)
                 = (λ entry, (entry.1, version st1, entry.2))
                     <$> rangeAt rangeOver PublishRoles (serverRoles p)).
  { by rewrite rolesWritten_app, Hnoroles. }
  assert (Hunique : NoDup holders.*1.*1).
  { apply (sublist_NoDup _ (rolesWritten (evs1 ++ evs3)).*1.*1).
    - rewrite Hall, <- !list_fmap_compose.
      rewrite (list_fmap_ext _ fst (rangeAt rangeOver PublishRoles (serverRoles p)))
        by done.
      by apply NoDup_rangeAt_keys.
    - unfold holders. do 2 apply fmap_sublist. apply sublist_filter. }
  assert (Hsame : holders.*1.*1 ≡ₚ slice (replicas p) shard).
  { apply NoDup_Permutation; [done|done|]. intros id. rewrite Hmembers.
    unfold holders. rewrite Hall. split.
    - intros ([id' v] & -> & ([[id'' v'] serverRole] & [= -> ->] & Hin)%list_elem_of_fmap)
        %list_elem_of_fmap.
      apply list_elem_of_filter in Hin as [Hheld Hin].
      apply list_elem_of_fmap in Hin as ([id' serverRole'] & [= -> -> ->] & Hin).
      apply elem_of_rangeAt in Hin; [|done]. simpl in *. eauto.
    - intros (serverRole & Hid & Hheld).
      apply list_elem_of_fmap. exists (id, version st1). split; [done|].
      apply list_elem_of_fmap. exists (id, version st1, serverRole). split; [done|].
      apply list_elem_of_filter. split; [done|].
      apply list_elem_of_fmap. exists (id, serverRole). split; [done|].
      by apply elem_of_rangeAt. }
  split_and!; [|done|].
  - apply Permutation_length in Hsame. rewrite !length_fmap in Hsame. lia.
  - destruct r3 as [e|[]]; [|intros _; by rewrite (Hend eq_refl)].
    intros [= ->]. by destruct (Hexit _ eq_refl).
Qed.
End ReplicaPublication.

(** The publication for A and B with one replica: shard 2 has one holder. *)
Lemma published_replicas_per_shard_witness :
  length (filter (λ written, index (ServerRole.Replicas written.2) 2 = true)
                 (rolesWritten samplePublication.1.2)) = 1%nat.
Proof.
  exact (proj1 (published_replicas_per_shard rangeCanonical rangeCanonical_sound 4 1
                  sampleStateDecoder sampleRoleDecoder sampleFrontendDecoder sampleWorld
                  sampleServers sampleAssigner _ _ _ 2 (run_eta samplePublication)
                  samplePublication_written ltac:(lia))).
Defined.


(** ** The frontend follower over a whole watch *)

Lemma applied_app evs1 evs2 : applied (evs1 ++ evs2) = applied evs1 ++ applied evs2.
Proof. apply omap_app. Qed.

Section FollowerRun.
Context (rangeOver : RangeOrder).
Context (decodeServerState : string → error + ServerState.t).
Context (frontendVersion : Z → option error).

(** The three ways a callback of the follower can go. *)
Lemma runFrontendCallback_run (encodedServerStates : gmap string string)
    (version version' : Z) evs r :
  runFrontendCallback rangeOver decodeServerState frontendVersion encodedServerStates
    version = (version', evs, r) →
  (version' = version ∧ evs = [] ∧ ∃ e, r = inl e)
  ∨ (∃ minVersion,
       (version < minVersion)%Z ∧ frontendVersion minVersion = None
       ∧ version' = minVersion
       ∧ evs = [FrontendVersion minVersion; Send minVersion] ∧ r = inl None)
  ∨ (∃ minVersion err,
       (version < minVersion)%Z ∧ frontendVersion minVersion = Some err
       ∧ version' = version
       ∧ evs = [FrontendVersion minVersion] ∧ r = inl (Some err)).
Proof.
  unfold runFrontendCallback. destruct (decide _) as [|_].
  { intros [= <- <- <-]. left. eauto. }
  destruct (minAcknowledged _ _ _) as [err|minVersion]; unfold mbind, Eff_bind; simpl.
  { intros [= <- <- <-]. left. eauto. }
  destruct (Z.ltb_spec version minVersion); simpl.
  - destruct (frontendVersion minVersion) as [err|] eqn:Hcall; simpl.
    + intros [= <- <- <-]. right. right. by exists minVersion, err.
    + intros [= <- <- <-]. right. left. by exists minVersion.
  - intros [= <- <- <-]. left. eauto.
Qed.

Lemma followerWatch_run (deliveries : list (gmap string string)) (ending : error)
    (delivery : nat) (version version' : Z) evs err :
  WatchAll (λ _ version encodedServerStates,
              returned (runFrontendCallback rangeOver decodeServerState frontendVersion
                          encodedServerStates version))
           delivery version deliveries ending = (version', evs, err) →
  StronglySorted Z.lt (version :: sent evs)
  ∧ version' = default version (last (sent evs))
  ∧ Forall (λ v, frontendVersion v = None) (sent evs)
  ∧ (applied evs = sent evs
     ∨ ∃ minVersion, applied evs = sent evs ++ [minVersion]
                     ∧ frontendVersion minVersion = Some err
                     ∧ (version' < minVersion)%Z).
Proof.
  revert delivery version evs.
  induction deliveries as [|encodedServerStates rest IH]; intros delivery version evs.
  { intros [= <- <- <-]. simpl. split_and!; [|done|done|by left].
    repeat constructor. }
  simpl.
  destruct (runFrontendCallback _ _ _ _ _) as [[version1 evs1] r1] eqn:Hrun.
  apply runFrontendCallback_run in Hrun
    as [(-> & -> & e & ->)|[(m & Hlt & Hcall & -> & -> & ->)
       |(m & err' & Hlt & Hcall & -> & -> & ->)]]; simpl.
  - destruct e as [e|].
    + intros [= <- <- <-]. simpl. split_and!; [|done|done|by left]. repeat constructor.
    + destruct (WatchAll _ _ _ _ _) as [[version2 evs2] err2] eqn:Hrest.
      intros [= <- <- <-]. simpl. by eapply IH.
  - destruct (WatchAll _ _ _ _ _) as [[version2 evs2] err2] eqn:Hrest.
    intros [= <- <- <-]. simpl.
    apply IH in Hrest as (Hsorted & -> & Hcalls & Happlied).
    split_and!.
    + constructor; [done|]. constructor; [done|].
      apply StronglySorted_inv in Hsorted as [_ Hall].
      eapply Forall_impl; [exact Hall|]. intros v Hv. simpl in Hv. lia.
    + rewrite last_cons. by destruct (last (sent evs2)).
    + by constructor.
    + destruct Happlied as [->|(m' & -> & ? & ?)]; [by left|].
      right. by exists m'.
  - intros [= <- <- <-]. simpl. split_and!; [|done|done|].
    + repeat constructor.
    + right. by exists m.
Qed.

(** X6.  Over a whole watch the follower hands the frontend strictly increasing
    versions, all above [InvalidVersion]; it sends a version on the version
    channel once the frontend has accepted it, in the same order, and ends
    with the last version sent as its own; a version the frontend refuses is
    the last one handed over and is returned as the error of the watch. *)
Theorem runFrontend_versions_increase (deliveries : list (gmap string string))
    (ending : error) (version' : Z) evs err :
  runFrontend rangeOver decodeServerState frontendVersion deliveries ending
  = (version', evs, err) →
  StronglySorted Z.lt (InvalidVersion :: sent evs)
  ∧ version' = default InvalidVersion (last (sent evs))
  ∧ Forall (λ v, frontendVersion v = None) (sent evs)
  ∧ (applied evs = sent evs
     ∨ ∃ minVersion, applied evs = sent evs ++ [minVersion]
                     ∧ frontendVersion minVersion = Some err
                     ∧ (version' < minVersion)%Z).
Proof. unfold runFrontend. apply followerWatch_run. Qed.
End FollowerRun.

(** A and B, then A alone: the frontend is moved to version 0, then to 1. *)
Lemma runFrontend_versions_increase_witness :
  sent sampleFollow.1.2 = [0; 1]%Z
  ∧ StronglySorted Z.lt (InvalidVersion :: sent sampleFollow.1.2)
  ∧ sampleFollow.1.1 = default InvalidVersion (last (sent sampleFollow.1.2)).
Proof.
  destruct (runFrontend_versions_increase rangeCanonical sampleStateDecoder frontendAccepts
              _ _ _ _ _ (run_eta sampleFollow)) as (Hsorted & Hlast & _).
  split_and!; [vm_compute; reflexivity|exact Hsorted|exact Hlast].
Defined.


(** ** The role follower: calls to the data plane *)

Lemma added_app evs1 evs2 : added (evs1 ++ evs2) = added evs1 ++ added evs2.
Proof. apply omap_app. Qed.

Lemma removed_app evs1 evs2 : removed (evs1 ++ evs2) = removed evs1 ++ removed evs2.
Proof. apply omap_app. Qed.

Lemma added_fmap_AddShard (l : list N) from :
  added ((λ shard, AddShard shard from) <$> l) = (λ shard, (shard, from)) <$> l.
Proof. induction l as [|x l IH]; [done|]. simpl. by f_equal. Qed.

Lemma added_fmap_RemoveShard (l : list N) from :
  added ((λ shard, RemoveShard shard from) <$> l) = [].
Proof. by induction l. Qed.

Lemma removed_fmap_AddShard (l : list N) from :
  removed ((λ shard, AddShard shard from) <$> l) = [].
Proof. by induction l. Qed.

Lemma removed_fmap_RemoveShard (l : list N) from :
  removed ((λ shard, RemoveShard shard from) <$> l) = (λ shard, (shard, from)) <$> l.
Proof. induction l as [|x l IH]; [done|]. simpl. by f_equal. Qed.

Lemma containsShard_mono (roles roles' : gmap Z ServerRole.t) shard :
  roles ⊆ roles' → containsShard roles' shard = false → containsShard roles shard = false.
Proof.
  unfold containsShard. rewrite !bool_decide_eq_false. intros Hsub Hnot Hex.
  apply Hnot. destruct Hex as (v & role & Hv & Hheld). exists v, role. split; [|done].
  by eapply lookup_weaken.
Qed.

Lemma window_elem versions v : v ∈ window versions → v ∈ versions.
Proof.
  intros Hv. destruct (window_split versions) as (dropped & Hsplit & _).
  rewrite <- (sortVersions_perm versions), Hsplit. apply elem_of_app. by left.
Qed.

Section FollowerCalls.
Context (rangeOver : RangeOrder) (sound : RangeSound rangeOver).
Context (decodeServerRole : string → error + ServerRole.t).
Context (addShard removeShard : N → Z → option error).

Lemma decodeRoles_keys (l : list (string * string)) roles0 versions0 roles versions :
  decodeRoles decodeServerRole roles0 versions0 l = inr (roles, versions) →
  (∀ v, v ∈ versions0 → is_Some (roles0 !! v)) →
  ∀ v, v ∈ versions → is_Some (roles !! v).
Proof.
  revert roles0 versions0. induction l as [|[k e] l IH]; intros roles0 versions0; simpl.
  - by intros [= <- <-].
  - destruct (decodeServerRole e) as [err|role]; [done|].
    intros Hrest Hkeys. eapply IH; [done|].
    intros v [Hv| ->%list_elem_of_singleton]%elem_of_app.
    + rewrite lookup_insert. case_decide; [done|]. by apply Hkeys.
    + by rewrite lookup_insert_eq.
Qed.

(** A shard is a key of one of the two maps of the role. *)
Lemma elem_of_shards version serverRole shard :
  shard ∈ shards rangeOver version serverRole ↔
  is_Some (ServerRole.Masters serverRole !! shard)
  ∨ is_Some (ServerRole.Replicas serverRole !! shard).
Proof. unfold shards. by rewrite elem_of_app, !elem_of_rangeAt_keys. Qed.

Lemma bringUpToDate_calls roles v (st st' : gmap Z ServerRole.t) evs r :
  bringUpToDate rangeOver addShard roles v st = (st', evs, r) →
  st ⊆ st'
  ∧ removed evs = []
  ∧ ∀ shard from, (shard, from) ∈ added evs →
      st !! v = None ∧ from = wrap64 (v - 1)
      ∧ containsShard st shard = false
      ∧ shard ∈ shards rangeOver v (roleAt roles v).
Proof.
  unfold bringUpToDate. unfold mbind at 1, Eff_bind at 1. simpl.
  destruct (st !! v) as [role|] eqn:Hv; simpl.
  { intros [= <- <- <-]. split_and!; [done|done|]. by intros ?? ?%elem_of_nil. }
  unfold mbind at 1, Eff_bind at 1. rewrite fanOut_run.
  assert (Hcalls : ∀ shard from,
            (shard, from)
            ∈ (λ shard, (shard, wrap64 (v - 1)))
                <$> filter (λ shard, containsShard st shard = false)
                           (shards rangeOver v (roleAt roles v)) →
            (None : option ServerRole.t) = None ∧ from = wrap64 (v - 1)
            ∧ containsShard st shard = false
            ∧ shard ∈ shards rangeOver v (roleAt roles v)).
  { intros shard from (s & [= -> ->] & [? ?]%list_elem_of_filter)%list_elem_of_fmap. done. }
  destruct (firstError _) as [err|]; simpl.
  - intros [= <- <- <-]. rewrite removed_fmap_AddShard, added_fmap_AddShard. done.
  - intros [= <- <- <-].
    rewrite removed_app, added_app, removed_fmap_AddShard, added_fmap_AddShard. simpl.
    rewrite app_nil_r. split_and!; [by apply insert_subseteq|done|done].
Qed.

Lemma bringUpToDate_loop_calls roles (l : list Z) (st st' : gmap Z ServerRole.t) evs r :
  forEff (bringUpToDate rangeOver addShard roles) l st = (st', evs, r) →
  st ⊆ st'
  ∧ (∀ v role, st' !! v = Some role → st !! v = Some role ∨ (v ∈ l ∧ st !! v = None))
  ∧ removed evs = []
  ∧ ∀ shard from, (shard, from) ∈ added evs →
      containsShard st shard = false
      ∧ ∃ v, v ∈ l ∧ st !! v = None ∧ from = wrap64 (v - 1)
             ∧ shard ∈ shards rangeOver v (roleAt roles v).
Proof.
  revert st st' evs r. induction l as [|v l IH]; intros st st' evs r; simpl.
  { intros [= <- <- <-]. split_and!; [done|by left|done|]. by intros ?? ?%elem_of_nil. }
  intros [(e & Hstep & ->)|(st1 & evs1 & [] & evs2 & Hstep & Hrest & ->)]%bind_run.
  - pose proof Hstep as Hshape.
    apply bringUpToDate_run in Hshape
      as [(_ & _ & _ & [=])|[(_ & -> & _)|(_ & _ & _ & [=])]].
    apply bringUpToDate_calls in Hstep as (Hsub & Hremoved & Hadded).
    split_and!; [done|by left|done|].
    intros shard from Hin. destruct (Hadded _ _ Hin) as (? & ? & ? & ?).
    split; [done|]. exists v. split_and!; [left|done..].
  - pose proof Hstep as Hshape.
    apply bringUpToDate_run in Hshape
      as [(_ & Hsame & _)|[(_ & _ & _ & ? & [=])|(Hnone & Hgrown & _)]];
      apply bringUpToDate_calls in Hstep as (Hsub & Hremoved & Hadded);
      apply IH in Hrest as (Hsub' & Hkeys' & Hremoved' & Hadded');
      rewrite removed_app, added_app, Hremoved, Hremoved'.
    + subst st1. split_and!; [done| |done|].
      * intros w role Hw. destruct (Hkeys' _ _ Hw) as [?|[? ?]]; [by left|].
        right. split; [by right|done].
      * intros shard from [Hin|Hin]%elem_of_app.
        -- destruct (Hadded _ _ Hin) as (? & ? & ? & ?).
           split; [done|]. exists v. split_and!; [left|done..].
        -- destruct (Hadded' _ _ Hin) as (? & w & ? & ? & ? & ?).
           split; [done|]. exists w. split_and!; [by right|done..].
    + subst st1. split_and!; [by etrans| |done|].
      * intros w role Hw. destruct (Hkeys' _ _ Hw) as [Hold|[Hin Hold]].
        -- rewrite lookup_insert in Hold. case_decide as Heq; [|by left].
           subst w. right. split; [left|done].
        -- rewrite lookup_insert in Hold. case_decide; [done|].
           right. split; [by right|done].
      * intros shard from [Hin|Hin]%elem_of_app.
        -- destruct (Hadded _ _ Hin) as (? & ? & ? & ?).
           split; [done|]. exists v. split_and!; [left|done..].
        -- destruct (Hadded' _ _ Hin) as (Hfree & w & ? & Hw & ? & ?).
           split; [by eapply containsShard_mono|].
           exists w. rewrite lookup_insert in Hw. case_decide; [done|].
           split_and!; [by right|done..].
Qed.

Lemma expire_loop_calls roles (l : list (Z * ServerRole.t)) (st st' : gmap Z ServerRole.t)
    evs r :
  forEff (expire rangeOver removeShard roles) l st = (st', evs, r) →
  added evs = []
  ∧ ∀ shard from, (shard, from) ∈ removed evs →
      containsShard roles shard = false
      ∧ ∃ v role, (v, role) ∈ l ∧ roles !! v = None ∧ from = wrap64 (v - 1)
                  ∧ shard ∈ shards rangeOver v role.
Proof.
  revert st st' evs r. induction l as [|[v role] l IH]; intros st st' evs r; simpl.
  { intros [= <- <- <-]. split; [done|]. by intros ?? ?%elem_of_nil. }
  assert (Hstep : ∀ st1 evs1 r1,
            expire rangeOver removeShard roles (v, role) st = (st1, evs1, r1) →
            added evs1 = []
            ∧ ∀ shard from, (shard, from) ∈ removed evs1 →
                containsShard roles shard = false
                ∧ roles !! v = None ∧ from = wrap64 (v - 1)
                ∧ shard ∈ shards rangeOver v role).
  { intros st1 evs1 r1. unfold expire.
    destruct (roles !! v) eqn:Hv.
    { intros [= <- <- <-]. split; [done|]. by intros ?? ?%elem_of_nil. }
    rewrite fanOut_run. intros [= <- <- <-].
    rewrite added_fmap_RemoveShard, removed_fmap_RemoveShard. split; [done|].
    intros shard from (s & [= -> ->] & [? ?]%list_elem_of_filter)%list_elem_of_fmap.
    done. }
  intros [(e & Hs & ->)|(st1 & evs1 & [] & evs2 & Hs & Hrest & ->)]%bind_run.
  - apply Hstep in Hs as [Hadded Hremoved]. split; [done|].
    intros shard from Hin. destruct (Hremoved _ _ Hin) as (? & ? & ? & ?).
    split; [done|]. exists v, role. split_and!; [left|done..].
  - apply Hstep in Hs as [Hadded Hremoved].
    apply IH in Hrest as [Hadded' Hremoved'].
    rewrite added_app, removed_app, Hadded, Hadded'. split; [done|].
    intros shard from [Hin|Hin]%elem_of_app.
    + destruct (Hremoved _ _ Hin) as (? & ? & ? & ?).
      split; [done|]. exists v, role. split_and!; [left|done..].
    + destruct (Hremoved' _ _ Hin) as (? & w & role' & ? & ? & ? & ?).
      split; [done|]. exists w, role'. split_and!; [by right|done..].
Qed.


(** X7.  The follower hands a shard to [AddShard] only for a version of the
    window it did not hold, with the version before it, and only when no role
    it held on entry has the shard; it hands a shard to [RemoveShard] only
    for a role it held whose version is gone from the snapshot, and never
    while some role record of the snapshot, kept or not, has the shard. *)
Theorem fillRoles_calls_are_guarded (encodedServerRoles : gmap string string)
    (oldRoles oldRoles' : gmap Z ServerRole.t) roles versions evs r :
  decodeRoles decodeServerRole ∅ []
    (rangeAt rangeOver FollowerRoles encodedServerRoles) = inr (roles, versions) →
  fillRolesCallback rangeOver decodeServerRole addShard removeShard
    encodedServerRoles oldRoles = (oldRoles', evs, r) →
  (∀ shard from, (shard, from) ∈ added evs →
     containsShard oldRoles shard = false
     ∧ ∃ version,
         version ∈ window versions ∧ oldRoles !! version = None
         ∧ from = wrap64 (version - 1)
         ∧ (is_Some (ServerRole.Masters (roleAt roles version) !! shard)
            ∨ is_Some (ServerRole.Replicas (roleAt roles version) !! shard)))
  ∧ (∀ shard from, (shard, from) ∈ removed evs →
       containsShard roles shard = false
       ∧ ∃ version serverRole,
           oldRoles !! version = Some serverRole ∧ roles !! version = None
           ∧ from = wrap64 (version - 1)
           ∧ (is_Some (ServerRole.Masters serverRole !! shard)
              ∨ is_Some (ServerRole.Replicas serverRole !! shard))).
Proof.
  intros Hdec. unfold fillRolesCallback. rewrite Hdec. intros Hrun.
  apply bind_run in Hrun
    as [(e & [=] & _)|(st1 & evs1 & [roles1 vs1] & evs3 & [= <- <- <- <-] & Hrun & ->)].
  cbv beta iota in Hrun.
  assert (Hguard : ∀ st2 evs2 r2,
            forEff (bringUpToDate rangeOver addShard roles) (window versions) oldRoles
            = (st2, evs2, r2) →
            (∀ v role, st2 !! v = Some role → roles !! v = None → oldRoles !! v = Some role)
            ∧ removed evs2 = []
            ∧ ∀ shard from, (shard, from) ∈ added evs2 →
                containsShard oldRoles shard = false
                ∧ ∃ version,
                    version ∈ window versions ∧ oldRoles !! version = None
                    ∧ from = wrap64 (version - 1)
                    ∧ (is_Some (ServerRole.Masters (roleAt roles version) !! shard)
                       ∨ is_Some (ServerRole.Replicas (roleAt roles version) !! shard))).
  { intros st2 evs2 r2 (_ & Hkeys & Hremoved & Hadded)%bringUpToDate_loop_calls.
    split_and!; [|done|].
    - intros v role Hv Hgone. destruct (Hkeys _ _ Hv) as [?|[Hin _]]; [done|].
      apply window_elem in Hin.
      destruct (decodeRoles_keys _ _ _ _ _ Hdec (λ v (H : v ∈ []), False_ind _ (not_elem_of_nil _ H)) _ Hin)
        as [? ?]. congruence.
    - intros shard from Hin. destruct (Hadded _ _ Hin) as (? & v & ? & ? & ? & Hs).
      split; [done|]. exists v. split_and!; [done..|]. by apply elem_of_shards in Hs. }
  simpl.
  apply bind_run in Hrun
    as [(e & Hl & ->)|(st3 & evs4 & [] & evs5 & Hl & Hrun & ->)];
    destruct (Hguard _ _ _ Hl) as (Hkeys & Hremoved & Hadded).
  { rewrite Hremoved. split; [done|]. by intros ?? ?%elem_of_nil. }
  apply bind_run in Hrun
    as [(e & [=] & _)|(st4 & evs6 & x & evs7 & [= <- <- <-] & Hrun & ->)].
  assert (Hexpired : ∀ st5 evs8 r5,
            forEff (expire rangeOver removeShard roles)
                   (rangeAt rangeOver FollowerExpired st3) st3 = (st5, evs8, r5) →
            added evs8 = []
            ∧ ∀ shard from, (shard, from) ∈ removed evs8 →
                containsShard roles shard = false
                ∧ ∃ version serverRole,
                    oldRoles !! version = Some serverRole ∧ roles !! version = None
                    ∧ from = wrap64 (version - 1)
                    ∧ (is_Some (ServerRole.Masters serverRole !! shard)
                       ∨ is_Some (ServerRole.Replicas serverRole !! shard))).
  { intros st5 evs8 r5 [Hnone Hcalls]%expire_loop_calls. split; [done|].
    intros shard from Hin. destruct (Hcalls _ _ Hin) as (? & v & role & Hv & ? & ? & Hs).
    split; [done|]. exists v, role. apply elem_of_rangeAt in Hv; [|done].
    split_and!; [by apply Hkeys|done|done|by apply elem_of_shards in Hs]. }
  apply bind_run in Hrun
    as [(e & Hexp & ->)|(st5 & evs8 & [] & evs9 & Hexp & Hrun & ->)];
    destruct (Hexpired _ _ _ Hexp) as [Hnone Hcalls].
  { simpl. rewrite added_app, removed_app, Hremoved, Hnone, app_nil_r. done. }
  injection Hrun as <- <- <-. simpl.
  rewrite !added_app, !removed_app, Hremoved, Hnone. simpl. rewrite !app_nil_r. done.
Qed.



End FollowerCalls.

(** A follower that holds nothing and sees the records of versions 0, 1 and
    2 adds shard 0 for version 0 and shard 1 for version 1. *)
Lemma fillRoles_calls_are_guarded_witness :
  added sampleFollowerStart.1.2 = [(0, (-1)%Z); (1, 0%Z)]
  ∧ ∀ shard from, (shard, from) ∈ added sampleFollowerStart.1.2 →
      containsShard (∅ : gmap Z ServerRole.t) shard = false.
Proof.
  split; [vm_compute; reflexivity|].
  intros shard from Hin.
  destruct (decodeRoles sampleRoleDecoder ∅ []
              (rangeAt rangeCanonical FollowerRoles sampleRoleRecords))
    as [err|[roles versions]] eqn:Hdec; [by vm_compute in Hdec|].
  destruct (fillRoles_calls_are_guarded rangeCanonical rangeCanonical_sound
              sampleRoleDecoder planeAccepts planeAccepts sampleRoleRecords ∅
              _ roles versions _ _ Hdec (run_eta sampleFollowerStart)) as [Hadded _].
  by destruct (Hadded _ _ Hin).
Defined.



(** ** Ranging over a map, continued *)

Section Loops.
Context (loopOver : LoopOrder) (sound : LoopSound loopOver).
Context `{Countable K} {V : Type}.
Implicit Types (loop : Loop) (m : gmap K V).

Lemma loopAt_perm loop m : loopAt loopOver loop m ≡ₚ map_to_list m.
Proof. apply sound. Qed.

Lemma elem_of_loopAt loop m k v : (k, v) ∈ loopAt loopOver loop m ↔ m !! k = Some v.
Proof. rewrite loopAt_perm. apply elem_of_map_to_list. Qed.

Lemma elem_of_loopAt_keys loop m k : k ∈ (loopAt loopOver loop m).*1 ↔ is_Some (m !! k).
Proof.
  rewrite list_elem_of_fmap. split.
  - intros [[k' v] [-> Hin]]. apply elem_of_loopAt in Hin. by exists v.
  - intros [v Hv]. exists (k, v). split; [done|]. by apply elem_of_loopAt.
Qed.

Lemma NoDup_loopAt_keys loop m : NoDup (loopAt loopOver loop m).*1.
Proof. rewrite loopAt_perm. apply NoDup_fst_map_to_list. Qed.

Lemma NoDup_loopAt loop m : NoDup (loopAt loopOver loop m).
Proof. rewrite loopAt_perm. apply NoDup_map_to_list. Qed.

Lemma length_loopAt loop m : length (loopAt loopOver loop m) = size m.
Proof. rewrite loopAt_perm. by rewrite length_map_to_list. Qed.
End Loops.

Lemma loopCanonical_sound : LoopSound loopCanonical.
Proof. intros K ? ? V loop m. reflexivity. Qed.

(** ** The state of a previous run *)

Section ReconstructProperties.
Context (loopOver : LoopOrder) (sound : LoopSound loopOver).
Context (decodeServerRole : string → error + ServerRole.t).

(** The roles decoded, in the order of the loop. *)
Lemma reconstructRoles_run (l : list (string * string)) (st0 st : Assigner) :
  reconstructRoles decodeServerRole st0 l = inr st →
  ∃ roles, Forall2 (λ entry serverRole, decodeServerRole entry.2 = inr serverRole) l roles
           ∧ st = foldl rememberRole st0 roles.
Proof.
  revert st0. induction l as [|[k e] l IH]; intros st0; simpl.
  - intros [= <-]. exists []. by split.
  - destruct (decodeServerRole e) as [err|serverRole] eqn:He; [done|].
    intros (roles & Hall & ->)%IH. exists (serverRole :: roles). split; [|done].
    by constructor.
Qed.

Lemma reconstructRoles_fails (l : list (string * string)) (st0 : Assigner) err :
  reconstructRoles decodeServerRole st0 l = inl err →
  ∃ k e, (k, e) ∈ l ∧ decodeServerRole e = inl err.
Proof.
  revert st0. induction l as [|[k e] l IH]; intros st0; simpl; [done|].
  destruct (decodeServerRole e) as [err'|serverRole] eqn:He.
  - intros [= ->]. exists k, e. split; [left|done].
  - intros (k' & e' & Hin & He')%IH. exists k', e'. split; [by right|done].
Qed.

Lemma rememberRole_Gathered seen st serverRole :
  Gathered seen st → Gathered (seen ++ [serverRole]) (rememberRole st serverRole).
Proof.
  intros (Hpos & Habove & Hattained & Hnewest & Hall & Hservers & Hm & Hr & Hmin).
  unfold rememberRole, Gathered. simpl.
  set (next := nextVersion (ServerRole.Version serverRole)).
  split_and!; [| | | | | |done..].
  - destruct (Z.ltb_spec (version st) next); lia.
  - intros r [Hr'| ->%list_elem_of_singleton]%elem_of_app.
    + specialize (Habove r Hr'). destruct (Z.ltb_spec (version st) next); lia.
    + fold next. destruct (Z.ltb_spec (version st) next); lia.
  - destruct (Z.ltb_spec (version st) next).
    + right. exists serverRole. split; [|done]. apply elem_of_app. right. left.
    + destruct Hattained as [?|(r & ? & ?)]; [by left|].
      right. exists r. split; [|done]. apply elem_of_app. by left.
  - intros id r.
    destruct (oldRoles st !! ServerRole.Id serverRole) as [old|] eqn:Hold.
    + destruct (Hnewest _ _ Hold) as (Hseen & Hid & Hmax).
      destruct (Z.ltb_spec (ServerRole.Version old) (ServerRole.Version serverRole)).
      * rewrite lookup_insert. case_decide as Heq.
        -- intros [= <-]. split_and!; [apply elem_of_app; right; left|done|].
           intros r' [Hr'| ->%list_elem_of_singleton]%elem_of_app Hid'; [|lia].
           specialize (Hmax r' Hr'). rewrite Heq in Hmax. specialize (Hmax Hid'). lia.
        -- intros Hr'. destruct (Hnewest _ _ Hr') as (? & ? & Hmax').
           split_and!; [apply elem_of_app; by left|done|].
           intros r' [Hin| ->%list_elem_of_singleton]%elem_of_app Hid'; [by apply Hmax'|].
           congruence.
      * intros Hr'. destruct (Hnewest _ _ Hr') as (? & <- & Hmax').
        split_and!; [apply elem_of_app; by left|done|].
        intros r' [Hin| ->%list_elem_of_singleton]%elem_of_app Hid'; [by apply Hmax'|].
        rewrite Hid' in Hold. rewrite Hold in Hr'. injection Hr' as <-. lia.
    + rewrite lookup_insert. case_decide as Heq.
      * intros [= <-]. split_and!; [apply elem_of_app; right; left|done|].
        intros r' [Hr'| ->%list_elem_of_singleton]%elem_of_app Hid'; [|lia].
        destruct (Hall _ Hr') as [? Hsome]. rewrite Heq in Hold. congruence.
      * intros Hr'. destruct (Hnewest _ _ Hr') as (? & ? & Hmax').
        split_and!; [apply elem_of_app; by left|done|].
        intros r' [Hin| ->%list_elem_of_singleton]%elem_of_app Hid'; [by apply Hmax'|].
        congruence.
  - intros r [Hr'| ->%list_elem_of_singleton]%elem_of_app.
    + specialize (Hall _ Hr'). destruct (oldRoles st !! ServerRole.Id serverRole) as [old|];
        [destruct (_ <? _)%Z|]; [|done|]; rewrite lookup_insert; by case_decide.
    + destruct (oldRoles st !! ServerRole.Id serverRole) as [old|] eqn:Hold;
        [destruct (_ <? _)%Z|]; [|by rewrite Hold|]; by rewrite lookup_insert_eq.
  - destruct (oldRoles st !! ServerRole.Id serverRole) as [old|];
      [destruct (_ <? _)%Z|]; [|done|]; by rewrite fmap_insert, Hservers.
Qed.

Lemma rememberRoles_Gathered seen st roles :
  Gathered seen st → Gathered (seen ++ roles) (foldl rememberRole st roles).
Proof.
  revert seen st. induction roles as [|serverRole roles IH]; intros seen st Hst; simpl.
  - by rewrite app_nil_r.
  - rewrite (assoc_L _ seen [serverRole] roles : seen ++ serverRole :: roles = _).
    by apply IH, rememberRole_Gathered.
Qed.


Lemma rememberMasters_fold (l : list (N * bool)) (id : string) (m0 : gmap N string) shard :
  foldl (λ oldMasters '(shard, _), <[shard := id]> oldMasters) m0 l !! shard
  = if decide (shard ∈ l.*1) then Some id else m0 !! shard.
Proof.
  revert m0. induction l as [|[s b] l IH]; intros m0.
  - case_decide as Hin; [by apply elem_of_nil in Hin|done].
  - cbn [foldl]. rewrite IH, fmap_cons. cbn [fst].
    destruct (decide (shard ∈ l.*1)) as [Hin|Hout].
    + rewrite decide_True; [done|]. by right.
    + rewrite lookup_insert. case_decide as Heq.
      * subst s. rewrite decide_True; [done|]. left.
      * rewrite decide_False; [done|]. intros [?|?]%elem_of_cons; congruence.
Qed.

Lemma rememberReplicas_fold (l : list (N * bool)) (id : string)
    (m0 : gmap N (list string)) s :
  NoDup l.*1 →
  slice (foldl (λ oldReplicas '(shard, _),
                  <[shard := slice oldReplicas shard ++ [id]]> oldReplicas) m0 l) s
  = slice m0 s ++ (if decide (s ∈ l.*1) then [id] else []).
Proof.
  revert m0. induction l as [|[s' b] l IH]; intros m0.
  - intros _. case_decide as Hin; [by apply elem_of_nil in Hin|]. by rewrite app_nil_r.
  - rewrite fmap_cons. cbn [fst foldl].
    intros [Hfresh Hnodup]%NoDup_cons. rewrite IH by done. rewrite slice_insert.
    destruct (decide (s' = s)) as [->|Hne].
    + rewrite (decide_False (P := s ∈ l.*1)) by done.
      rewrite decide_True by left. by rewrite app_nil_r.
    + destruct (decide (s ∈ l.*1)) as [Hin|Hout].
      * rewrite decide_True; [done|]. by right.
      * rewrite decide_False; [done|]. intros [?|?]%elem_of_cons; congruence.
Qed.

Lemma rememberShards_fold (entries : list (string * ServerRole.t)) (st : Assigner) :
  let st' := foldl (rememberShards loopOver) st entries in
  version st' = version st ∧ oldServers st' = oldServers st ∧ oldRoles st' = oldRoles st
  ∧ oldMinVersion st' = oldMinVersion st
  ∧ (∀ shard id,
       oldMasters st' !! shard = Some id →
       oldMasters st !! shard = Some id
       ∨ ∃ entry, entry ∈ entries ∧ id = ServerRole.Id entry.2
                  ∧ is_Some (ServerRole.Masters entry.2 !! shard))
  ∧ (∀ shard,
       is_Some (oldMasters st !! shard)
       ∨ (∃ entry, entry ∈ entries ∧ is_Some (ServerRole.Masters entry.2 !! shard)) →
       is_Some (oldMasters st' !! shard))
  ∧ ∀ shard,
      slice (oldReplicas st') shard
      = slice (oldReplicas st) shard
        ++ ((λ entry, ServerRole.Id entry.2)
              <$> filter (λ entry, is_Some (ServerRole.Replicas entry.2 !! shard)) entries).
Proof.
  revert st. induction entries as [|entry entries IH]; intros st; simpl.
  { split_and!; try done.
    - intros shard id ?. by left.
    - intros shard [?|(? & ?%elem_of_nil & _)]; done.
    - intros shard. by rewrite app_nil_r. }
  destruct (IH (rememberShards loopOver st entry))
    as (Hversion & Hservers & Hroles & Hmin & Hmasters & Hsome & Hreplicas).
  simpl in *. split_and!; try done.
  - intros shard id Hid. destruct (Hmasters _ _ Hid) as [Hstep|(e & Hin & ? & ?)].
    + rewrite rememberMasters_fold in Hstep. case_decide as Hkey; [|by left].
      injection Hstep as <-. right. exists entry. split_and!; [left|done|].
      by apply (elem_of_loopAt_keys loopOver sound) in Hkey.
    + right. exists e. split_and!; [by right|done|done].
  - intros shard Hcases. apply Hsome. rewrite rememberMasters_fold.
    destruct Hcases as [Hold|(e & [->|Hin]%elem_of_cons & Hheld)].
    + left. by case_decide.
    + left. rewrite decide_True; [done|].
      by apply (elem_of_loopAt_keys loopOver sound).
    + right. by exists e.
  - intros shard. rewrite Hreplicas, rememberReplicas_fold
      by apply (NoDup_loopAt_keys loopOver sound).
    rewrite <- app_assoc. f_equal. rewrite filter_cons.
    destruct (decide (is_Some (ServerRole.Replicas entry.2 !! shard))) as [Hheld|Hnot].
    + rewrite decide_True; [done|]. by apply (elem_of_loopAt_keys loopOver sound).
    + rewrite decide_False; [done|].
      intros Hkey. by apply (elem_of_loopAt_keys loopOver sound) in Hkey.
Qed.

(** What [reconstruct] returns, in terms of the roles decoded. *)
Lemma reconstruct_run (serverRoles : gmap string string) (st : Assigner) :
  reconstruct loopOver decodeServerRole (inr serverRoles) = inr st →
  ∃ roles st1,
    Forall2 (λ entry serverRole, decodeServerRole entry.2 = inr serverRole)
            (loopAt loopOver ReconstructRecords serverRoles) roles
    ∧ Gathered roles st1
    ∧ st = foldl (rememberShards loopOver) st1
                 (loopAt loopOver ReconstructRoles (oldRoles st1)).
Proof.
  unfold reconstruct.
  destruct (reconstructRoles _ _ _) as [err|st1] eqn:Hroles; [done|].
  intros [= <-]. apply reconstructRoles_run in Hroles as (roles & Hall & ->).
  exists roles, (foldl rememberRole (mkAssigner 0 ∅ ∅ ∅ ∅ 0) roles).
  split_and!; [done| |done].
  apply (rememberRoles_Gathered []). unfold Gathered. simpl.
  split_and!; try done.
  - intros ? ?%elem_of_nil. done.
  - by left.
  - intros ? ?%elem_of_nil. done.
Qed.

(** The roles decoded are those of the records in the store. *)
Lemma decoded_records (serverRoles : gmap string string) (roles : list ServerRole.t) :
  Forall2 (λ entry serverRole, decodeServerRole entry.2 = inr serverRole)
          (loopAt loopOver ReconstructRecords serverRoles) roles →
  ∀ serverRole,
    serverRole ∈ roles ↔
    ∃ k e, serverRoles !! k = Some e ∧ decodeServerRole e = inr serverRole.
Proof.
  intros Hall serverRole. split.
  - intros Hin. apply list_elem_of_lookup in Hin as [i Hi].
    destruct (Forall2_lookup_r _ _ _ _ _ Hall Hi) as ([k e] & Hentry & Hdec).
    exists k, e. split; [|done].
    apply (elem_of_loopAt loopOver sound ReconstructRecords).
    by eapply list_elem_of_lookup_2.
  - intros (k & e & Hk & Hdec).
    apply (elem_of_loopAt loopOver sound ReconstructRecords) in Hk.
    apply list_elem_of_lookup in Hk as [i Hi].
    destruct (Forall2_lookup_l _ _ _ _ _ Hall Hi) as (r & Hr & Hdec').
    simpl in Hdec'. rewrite Hdec in Hdec'. injection Hdec' as <-.
    by eapply list_elem_of_lookup_2.
Qed.

(** X9.  An assigner that starts over takes a version that no role record of the
    store carries: the highest version found plus one, or 0 when there is no
    record. *)
Theorem reconstruct_version_is_fresh (serverRoles : gmap string string) (st : Assigner) :
  reconstruct loopOver decodeServerRole (inr serverRoles) = inr st →
  (0 ≤ version st)%Z
  ∧ (∀ k e serverRole,
       serverRoles !! k = Some e → decodeServerRole e = inr serverRole →
       (nextVersion (ServerRole.Version serverRole) ≤ version st)%Z
       ∧ ((- 2 ^ 63 ≤ ServerRole.Version serverRole < MaxInt64)%Z →
          (ServerRole.Version serverRole < version st)%Z))
  ∧ (version st = 0%Z
     ∨ ∃ k e serverRole,
         serverRoles !! k = Some e ∧ decodeServerRole e = inr serverRole
         ∧ version st = nextVersion (ServerRole.Version serverRole)).
Proof.
  intros (roles & st1 & Hall & Hgathered & ->)%reconstruct_run.
  destruct (rememberShards_fold (loopAt loopOver ReconstructRoles (oldRoles st1)) st1)
    as (-> & _).
  destruct Hgathered as (Hpos & Habove & Hattained & _).
  pose proof (decoded_records _ _ Hall) as Hrecords.
  split_and!; [done| |].
  - intros k e serverRole Hk He.
    assert (Hin : serverRole ∈ roles) by (apply Hrecords; eauto).
    specialize (Habove _ Hin). split; [done|].
    intros Hrange. unfold nextVersion, wrap64, MaxInt64 in *.
    rewrite Z.mod_small in Habove by lia. lia.
  - destruct Hattained as [?|(serverRole & Hin & ?)]; [by left|].
    apply Hrecords in Hin as (k & e & ? & ?). right. by exists k, e, serverRole.
Qed.

(** X10.  Of every server that has role records in the store, an assigner that
    starts over remembers the record of the highest version, and it
    remembers no other server. *)
Theorem reconstruct_remembers_newest_roles (serverRoles : gmap string string)
    (st : Assigner) :
  reconstruct loopOver decodeServerRole (inr serverRoles) = inr st →
  (∀ id serverRole,
     oldRoles st !! id = Some serverRole →
     ServerRole.Id serverRole = id
     ∧ (∃ k e, serverRoles !! k = Some e ∧ decodeServerRole e = inr serverRole)
     ∧ ∀ k e serverRole',
         serverRoles !! k = Some e → decodeServerRole e = inr serverRole' →
         ServerRole.Id serverRole' = id →
         (ServerRole.Version serverRole' ≤ ServerRole.Version serverRole)%Z)
  ∧ (∀ k e serverRole,
       serverRoles !! k = Some e → decodeServerRole e = inr serverRole →
       is_Some (oldRoles st !! ServerRole.Id serverRole))
  ∧ oldServers st = (λ _, true) <$> oldRoles st
  ∧ oldMinVersion st = 0%Z.
Proof.
  intros (roles & st1 & Hall & Hgathered & ->)%reconstruct_run.
  destruct (rememberShards_fold (loopAt loopOver ReconstructRoles (oldRoles st1)) st1)
    as (_ & -> & -> & -> & _).
  destruct Hgathered as (_ & _ & _ & Hnewest & Hkeys & Hservers & _ & _ & Hmin).
  pose proof (decoded_records _ _ Hall) as Hrecords.
  split_and!; [| |done|done].
  - intros id serverRole Hid. destruct (Hnewest _ _ Hid) as (Hin & ? & Hmax).
    split_and!; [done|by apply Hrecords|].
    intros k e serverRole' Hk He. apply Hmax, Hrecords. eauto.
  - intros k e serverRole Hk He. apply Hkeys, Hrecords. eauto.
Qed.

Lemma rememberShards_tracked (roles : list ServerRole.t) (st1 : Assigner) :
  Gathered roles st1 →
  let st := foldl (rememberShards loopOver) st1
                  (loopAt loopOver ReconstructRoles (oldRoles st1)) in
  (∀ shard id,
     oldMasters st !! shard = Some id →
     ∃ serverRole, oldRoles st1 !! id = Some serverRole
                   ∧ is_Some (ServerRole.Masters serverRole !! shard))
  ∧ (∀ shard,
       is_Some (oldMasters st !! shard) ↔
       ∃ id serverRole, oldRoles st1 !! id = Some serverRole
                        ∧ is_Some (ServerRole.Masters serverRole !! shard))
  ∧ ∀ shard,
      NoDup (slice (oldReplicas st) shard)
      ∧ ∀ id, id ∈ slice (oldReplicas st) shard ↔
              ∃ serverRole, oldRoles st1 !! id = Some serverRole
                            ∧ is_Some (ServerRole.Replicas serverRole !! shard).
Proof.
  intros Hgathered st. subst st.
  destruct (rememberShards_fold (loopAt loopOver ReconstructRoles (oldRoles st1)) st1)
    as (_ & _ & _ & _ & Hmasters & Hsome & Hreplicas).
  destruct Hgathered as (_ & _ & _ & Hnewest & _ & _ & Hm & Hr & _).
  rewrite Hm in Hmasters, Hsome. rewrite Hr in Hreplicas.
  assert (Hfound : ∀ shard id,
            oldMasters (foldl (rememberShards loopOver) st1
                          (loopAt loopOver ReconstructRoles (oldRoles st1))) !! shard
            = Some id →
            ∃ serverRole, oldRoles st1 !! id = Some serverRole
                          ∧ is_Some (ServerRole.Masters serverRole !! shard)).
  { intros shard id Hid.
    destruct (Hmasters _ _ Hid) as [Hold|([k r] & Hin & -> & Hheld)]; [done|].
    apply (elem_of_loopAt loopOver sound) in Hin. simpl in *.
    destruct (Hnewest _ _ Hin) as (_ & -> & _). eauto. }
  split_and!; [done| |].
  - intros shard. split.
    + intros [id Hid]. destruct (Hfound _ _ Hid) as (r & ? & ?). by exists id, r.
    + intros (id & r & Hid & Hheld). apply Hsome. right. exists (id, r).
      split; [|done]. by apply (elem_of_loopAt loopOver sound).
  - intros shard. rewrite Hreplicas.
    replace (slice (∅ : gmap N (list string)) shard) with ([] : list string)
      by (unfold slice; by rewrite lookup_empty).
    cbn [app].
    assert (Hids : (λ entry : string * ServerRole.t, ServerRole.Id entry.2)
                     <$> filter (λ entry, is_Some (ServerRole.Replicas entry.2 !! shard))
                                (loopAt loopOver ReconstructRoles (oldRoles st1))
                   = (filter (λ entry, is_Some (ServerRole.Replicas entry.2 !! shard))
                             (loopAt loopOver ReconstructRoles (oldRoles st1))).*1).
    { apply Forall_fmap_ext_1, Forall_forall. intros [k r] [_ Hin]%list_elem_of_filter.
      apply (elem_of_loopAt loopOver sound) in Hin. simpl.
      by destruct (Hnewest _ _ Hin) as (_ & -> & _). }
    rewrite Hids. split.
    + apply (sublist_NoDup _ (loopAt loopOver ReconstructRoles (oldRoles st1)).*1).
      * by apply NoDup_loopAt_keys.
      * apply fmap_sublist, sublist_filter.
    + intros id. rewrite list_elem_of_fmap. split.
      * intros ([k r] & -> & [Hheld Hin]%list_elem_of_filter).
        apply (elem_of_loopAt loopOver sound) in Hin. simpl in *. eauto.
      * intros (r & Hid & Hheld). exists (id, r). split; [done|].
        apply list_elem_of_filter. split; [done|].
        by apply (elem_of_loopAt loopOver sound).
Qed.

(** X11.  The masters and replicas an assigner that starts over remembers are
    read off the roles it remembers: the master of a shard is a server whose
    role has the shard among its masters, and the replicas of a shard are
    the servers whose roles have it among their replicas, each once. *)
Theorem reconstruct_shards_follow_roles (serverRoles : gmap string string)
    (st : Assigner) :
  reconstruct loopOver decodeServerRole (inr serverRoles) = inr st →
  (∀ shard id,
     oldMasters st !! shard = Some id →
     ∃ serverRole, oldRoles st !! id = Some serverRole
                   ∧ is_Some (ServerRole.Masters serverRole !! shard))
  ∧ (∀ shard,
       is_Some (oldMasters st !! shard) ↔
       ∃ id serverRole, oldRoles st !! id = Some serverRole
                        ∧ is_Some (ServerRole.Masters serverRole !! shard))
  ∧ ∀ shard,
      NoDup (slice (oldReplicas st) shard)
      ∧ ∀ id, id ∈ slice (oldReplicas st) shard ↔
              ∃ serverRole, oldRoles st !! id = Some serverRole
                            ∧ is_Some (ServerRole.Replicas serverRole !! shard).
Proof.
  intros (roles & st1 & Hall & Hgathered & ->)%reconstruct_run.
  destruct (rememberShards_fold (loopAt loopOver ReconstructRoles (oldRoles st1)) st1)
    as (_ & _ & -> & _).
  by apply (rememberShards_tracked roles).
Qed.
End ReconstructProperties.

(** The three role records of A: the assigner starts over at version 3 and
    remembers the record of version 2. *)
Lemma reconstruct_version_is_fresh_witness :
  ∃ st, reconstruct loopCanonical sampleRoleDecoder (inr sampleRoleRecords) = inr st
        ∧ version st = 3%Z
        ∧ ∀ k e serverRole,
            sampleRoleRecords !! k = Some e → sampleRoleDecoder e = inr serverRole →
            (nextVersion (ServerRole.Version serverRole) ≤ version st)%Z.
Proof.
  eexists. split_and!; [vm_compute; reflexivity|vm_compute; reflexivity|].
  intros k e serverRole Hk He.
  refine (proj1 (proj1 (proj2 (reconstruct_version_is_fresh loopCanonical loopCanonical_sound
                                 sampleRoleDecoder sampleRoleRecords _ _)) k e serverRole Hk He)).
  vm_compute. reflexivity.
Defined.

Lemma reconstruct_remembers_newest_roles_witness :
  ∃ st, reconstruct loopCanonical sampleRoleDecoder (inr sampleRoleRecords) = inr st
        ∧ oldRoles st !! "A" = Some (ServerRole.mk "A" 2 {[1 := true]} ∅)
        ∧ oldServers st = (λ _, true) <$> oldRoles st.
Proof.
  eexists. split_and!; [vm_compute; reflexivity|vm_compute; reflexivity|].
  refine (proj1 (proj2 (proj2 (reconstruct_remembers_newest_roles loopCanonical
                                 loopCanonical_sound sampleRoleDecoder sampleRoleRecords
                                 _ _)))).
  vm_compute. reflexivity.
Defined.

Lemma reconstruct_shards_follow_roles_witness :
  ∃ st, reconstruct loopCanonical sampleRoleDecoder (inr sampleRoleRecords) = inr st
        ∧ oldMasters st !! 1 = Some "A"
        ∧ ∀ shard id,
            oldMasters st !! shard = Some id →
            ∃ serverRole, oldRoles st !! id = Some serverRole
                          ∧ is_Some (ServerRole.Masters serverRole !! shard).
Proof.
  eexists. split_and!; [vm_compute; reflexivity|vm_compute; reflexivity|].
  refine (proj1 (reconstruct_shards_follow_roles loopCanonical loopCanonical_sound
                   sampleRoleDecoder sampleRoleRecords _ _)).
  vm_compute. reflexivity.
Defined.


(** ** Starting over after a publication *)

Section Restart.
Context (rangeOver : RangeOrder) (sound : RangeSound rangeOver).
Context (loopOver : LoopOrder) (loopSound : LoopSound loopOver).
Context (numShards numReplicas : N).
Context (decodeServerState : string → error + ServerState.t).
Context (decodeServerRole : string → error + ServerRole.t).
Context (decodeFrontendState : string → error + FrontendState.t).

(** X12.  When the store holds the role records of a publication, and besides
    them only records of lower versions of the same servers, an assigner
    that starts over reconstructs what the assigner that published
    remembers: the same version, servers, roles and masters, and the same
    replicas of every shard up to their order. *)
Theorem reconstruct_after_publication (w : World)
    (encodedServerStates stored : gmap string string) (st st' : Assigner) evs :
  assignCallback rangeOver numShards numReplicas decodeServerState decodeServerRole
    decodeFrontendState w encodedServerStates st = (st', evs, inl None) →
  addressesWritten evs ≠ [] →
  (0 ≤ version st < MaxInt64)%Z →
  (∀ id v serverRole,
     (id, v, serverRole) ∈ rolesWritten evs →
     ∃ k e, stored !! k = Some e ∧ decodeServerRole e = inr serverRole) →
  (∀ k e, stored !! k = Some e →
     ∃ serverRole,
       decodeServerRole e = inr serverRole
       ∧ ((∃ id v, (id, v, serverRole) ∈ rolesWritten evs)
          ∨ ((- 2 ^ 63 ≤ ServerRole.Version serverRole < version st)%Z
             ∧ ∃ v serverRole',
                 (ServerRole.Id serverRole, v, serverRole') ∈ rolesWritten evs))) →
  ∃ st'',
    reconstruct loopOver decodeServerRole (inr stored) = inr st''
    ∧ version st'' = version st'
    ∧ oldServers st'' = oldServers st'
    ∧ oldRoles st'' = oldRoles st'
    ∧ oldMasters st'' = oldMasters st'
    ∧ ∀ shard, slice (oldReplicas st'') shard ≡ₚ slice (oldReplicas st') shard.
Proof.
  intros Hrun Hwritten Hversion Hstored Hstore.
  (* The publication. *)
  apply assignCallback_outcomes in Hrun
    as [(_ & _ & Hnone)
       |(d & st1 & p & evs1 & evs3 & r3 & Hsize & Hdec & (Hsame & _) & _ & Hplan & Hpublish
         & -> & Hdeletes & Hr)]; [done| |done].
  destruct (only_deletes _ Hdeletes) as [Hnoroles Hnoaddresses].
  rewrite rolesWritten_app, Hnoroles in Hstored, Hstore. simpl in Hstored, Hstore.
  rewrite addressesWritten_app, Hnoaddresses in Hwritten. simpl in Hwritten.
  destruct (planRoles_well _ sound _ _ _ _ _ _ _ _ _ Hsize Hdec Hplan)
    as ((Hdom & _ & Htrue & _ & (Hheld & Howner & _) & _) & Hheaders & _).
  destruct (planRoles_replicas _ sound _ _ _ _ _ _ _ _ _ Hsize Hdec Hplan)
    as [Htracked _].
  apply publish_run in Hpublish as (_ & _ & Hexit & Hend & Haddresses); [|done].
  destruct r3 as [e|[]]; [injection Hr as <-; by destruct (Hexit _ eq_refl)|].
  rewrite (Hend eq_refl). simpl. rewrite Hsame. clear Hend Hexit.
  destruct Haddresses as [?|(_ & _ & Hroles & _)]; [done|].
  assert (Hrecords : ∀ id v serverRole,
            (id, v, serverRole) ∈ rolesWritten evs3 ↔
            v = version st ∧ serverRoles p !! id = Some serverRole).
  { intros id v serverRole. rewrite Hroles, Hsame, list_elem_of_fmap. split.
    - intros ([id' serverRole'] & [= -> -> ->] & Hin). simpl.
      split; [done|]. by apply elem_of_rangeAt in Hin.
    - intros [-> Hid]. exists (id, serverRole). split; [done|].
      by apply elem_of_rangeAt. }
  (* The reconstruction. *)
  destruct (reconstruct loopOver decodeServerRole (inr stored)) as [err|st''] eqn:Hre.
  { exfalso. unfold reconstruct in Hre.
    destruct (reconstructRoles _ _ _) as [err'|?] eqn:Hfail; [|done].
    apply reconstructRoles_fails in Hfail as (k & e & Hin & He).
    apply (elem_of_loopAt loopOver loopSound) in Hin.
    destruct (Hstore _ _ Hin) as (r & Hr' & _). congruence. }
  exists st''. split; [done|].
  apply reconstruct_run in Hre as (roles & st1' & Hall & Hgathered & ->).
  pose proof (decoded_records loopOver loopSound _ _ _ Hall) as Hin_roles.
  destruct (rememberShards_fold loopOver loopSound
              (loopAt loopOver ReconstructRoles (oldRoles st1')) st1')
    as (-> & -> & -> & _).
  destruct (rememberShards_tracked loopOver loopSound _ _ Hgathered) as (Hfound & Hsome & Hlisted).
  destruct Hgathered as (Hpos & Habove & Hattained & Hnewest & Hkeys & Hservers & _).
  (* Every record of the store is of the version published or older. *)
  assert (Hold : ∀ serverRole, serverRole ∈ roles →
            (serverRoles p !! ServerRole.Id serverRole = Some serverRole
             ∧ ServerRole.Version serverRole = version st)
            ∨ ((- 2 ^ 63 ≤ ServerRole.Version serverRole < version st)%Z
               ∧ is_Some (serverRoles p !! ServerRole.Id serverRole))).
  { intros serverRole (k & e & Hk & He)%Hin_roles.
    destruct (Hstore _ _ Hk) as (r & Hr' & Hcases).
    rewrite He in Hr'. injection Hr' as <-.
    destruct Hcases as [(id & v & [-> Hid]%Hrecords)|(Hlow & v & r' & [_ Hid]%Hrecords)].
    - left. destruct (Hheaders _ _ Hid) as [-> ?]. done.
    - right. eauto. }
  assert (Hroles_eq : oldRoles st1' = serverRoles p).
  { apply map_eq. intros id.
    destruct (serverRoles p !! id) as [serverRole|] eqn:Hid.
    - destruct (Hheaders _ _ Hid) as [Hident Hv].
      destruct (Hstored id (version st) serverRole) as (k & e & Hk & He);
        [by apply Hrecords|].
      assert (Hin : serverRole ∈ roles) by (apply Hin_roles; eauto).
      destruct (Hkeys _ Hin) as [r2 Hr2]. rewrite Hident in Hr2. rewrite Hr2.
      destruct (Hnewest _ _ Hr2) as (Hin2 & Hid2 & Hmax).
      specialize (Hmax _ Hin Hident).
      destruct (Hold _ Hin2) as [[Hp _]|[Hlow _]]; [|lia].
      rewrite Hid2, Hid in Hp. done.
    - destruct (oldRoles st1' !! id) as [r2|] eqn:Hr2; [|done].
      destruct (Hnewest _ _ Hr2) as (Hin2 & Hid2 & _).
      destruct (Hold _ Hin2) as [[Hp _]|[_ [? Hp]]]; rewrite Hid2 in Hp; congruence. }
  rewrite Hroles_eq in *.
  assert (Hdoms : dom (newServerStates d) = dom (serverRoles p)).
  { rewrite Hdom. apply decodeStates_run in Hdec as (_ & Heq & _). by apply Heq. }
  split_and!.
  - (* version *)
    unfold nextVersion in *.
    destruct (map_choose encodedServerStates) as (k0 & e0 & Hk0).
    { intros ->. by rewrite map_size_empty in Hsize. }
    pose proof Hdec as Hdec'.
    apply decodeStates_run in Hdec' as (Hids & _ & _ & _ & _ & Hdecoded).
    apply (elem_of_rangeAt rangeOver sound DecodeStates) in Hk0.
    destruct (Hdecoded _ _ Hk0) as [s0 Hs0].
    assert (is_Some (serverRoles p !! ServerState.Id s0)) as [r0 Hr0].
    { apply elem_of_dom. rewrite Hdom. apply elem_of_dom, Hids. right. eauto 10. }
    destruct (Hheaders _ _ Hr0) as [_ Hv0].
    destruct (Hstored (ServerState.Id s0) (version st) r0) as (k & e & Hk & He);
      [by apply Hrecords|].
    assert (Hin0 : r0 ∈ roles) by (apply Hin_roles; eauto).
    specialize (Habove _ Hin0). rewrite Hv0 in Habove.
    assert (Hnext : wrap64 (version st + 1) = (version st + 1)%Z).
    { unfold wrap64, MaxInt64 in *. rewrite Z.mod_small by lia. lia. }
    rewrite Hnext in *.
    destruct Hattained as [Hzero|(r & Hin & Hatt)]; [lia|].
    destruct (Hold _ Hin) as [[_ Hv]|[Hlow _]].
    + by rewrite Hatt, Hv.
    + rewrite Hatt in Habove. unfold wrap64, MaxInt64 in *.
      rewrite Z.mod_small in Habove by lia. lia.
  - (* servers *)
    rewrite Hservers. apply map_eq. intros id. rewrite !lookup_fmap.
    assert (is_Some (serverRoles p !! id) ↔ is_Some (newServerStates d !! id)) as Hiff
      by (by rewrite <- !elem_of_dom, Hdoms).
    destruct (serverRoles p !! id), (newServerStates d !! id); try done.
    + by destruct (proj1 Hiff).
    + by destruct (proj2 Hiff).
  - done.
  - (* masters *)
    apply map_eq. intros shard.
    destruct (masters p !! shard) as [id|] eqn:Hid.
    + destruct (Howner _ _ Hid) as (shards & Hshards & Hth).
      unfold mastersOf in Hshards. rewrite lookup_fmap in Hshards.
      destruct (serverRoles p !! id) as [r|] eqn:Hr'; [|done]. injection Hshards as <-.
      destruct (proj2 (Hsome shard)) as [id' Hid']; [by exists id, r|].
      rewrite Hid'. destruct (Hfound _ _ Hid') as (r2 & Hr2 & Hh2). f_equal.
      assert (masters p !! shard = Some id') as Hagain; [|congruence].
      eapply Hheld; [|done]. by apply mastersOf_lookup.
    + destruct (oldMasters _ !! shard) as [id'|] eqn:Hid'; [|done].
      destruct (Hfound _ _ Hid') as (r2 & Hr2 & Hh2).
      assert (masters p !! shard = Some id') as Hagain; [|congruence].
      eapply Hheld; [|done]. by apply mastersOf_lookup.
  - (* replicas *)
    intros shard. destruct (Hlisted shard) as [Hnodup Hmembers].
    destruct (Htracked shard) as [Hnodup' Hmembers'].
    apply NoDup_Permutation; [done|done|]. intros id.
    rewrite Hmembers, Hmembers'. split.
    + intros (r & Hr' & [b Hb]). exists r. split; [done|].
      unfold index. rewrite Hb. simpl. eapply Htrue; [|done]. by apply replicasOf_lookup.
    + intros (r & Hr' & Hidx). exists r. split; [done|].
      unfold index in Hidx. by destruct (ServerRole.Replicas r !! shard).
Qed.
End Restart.

(** The assigner publishes for A and B at version 3 and is started over on
    the two records it wrote. *)
Lemma reconstruct_after_publication_witness :
  ∃ st'',
    reconstruct loopCanonical sampleStoredDecoder (inr sampleStored) = inr st''
    ∧ version st'' = 4%Z
    ∧ oldRoles st'' = oldRoles sampleStoredPublication.1.1
    ∧ oldMasters st'' = oldMasters sampleStoredPublication.1.1.
Proof.
  destruct (reconstruct_after_publication rangeCanonical rangeCanonical_sound
              loopCanonical loopCanonical_sound 4 1 sampleStateDecoder sampleStoredDecoder
              sampleFrontendDecoder sampleWorld sampleServers sampleStored sampleAssigner
              sampleStoredPublication.1.1 sampleStoredPublication.1.2)
    as (st'' & Hre & Hversion & _ & Hroles & Hmasters & _).
  - vm_compute. reflexivity.
  - vm_compute. discriminate.
  - vm_compute. split; [discriminate|reflexivity].
  - intros id v serverRole Hin. vm_compute in Hin.
    apply elem_of_cons in Hin as [[= -> -> ->]|Hin];
      [|apply elem_of_cons in Hin as [[= -> -> ->]|Hin]; [|by apply elem_of_nil in Hin]].
    + exists "role/A/3", "A". split; vm_compute; reflexivity.
    + exists "role/B/3", "B". split; vm_compute; reflexivity.
  - intros k e Hk. apply elem_of_map_to_list in Hk. vm_compute in Hk.
    apply elem_of_cons in Hk as [[= -> ->]|Hk];
      [|apply elem_of_cons in Hk as [[= -> ->]|Hk]; [|by apply elem_of_nil in Hk]].
    + eexists. split; [vm_compute; reflexivity|]. left. exists "A", 3%Z.
      vm_compute. left.
    + eexists. split; [vm_compute; reflexivity|]. left. exists "B", 3%Z.
      vm_compute. right. left.
  - exists st''. split_and!; [exact Hre| |exact Hroles|exact Hmasters].
    rewrite Hversion. vm_compute. reflexivity.
Defined.


(** ** Reading the addresses *)

Lemma getAddresses_run get unmarshalAddresses version cache cache' keys r :
  getAddresses get unmarshalAddresses version cache = (cache', keys, r) →
  (version = InvalidVersion ∧ cache' = cache ∧ keys = []
   ∧ r = inl (Failure "invalid version"))
  ∨ (version ≠ InvalidVersion ∧ cache' = cache ∧ keys = []
     ∧ ∃ addresses, cache !! version = Some addresses ∧ r = inr addresses)
  ∨ (version ≠ InvalidVersion ∧ cache !! version = None ∧ cache' = cache
     ∧ keys = [AddressesKey version]
     ∧ ∃ err, r = inl err
              ∧ (get (AddressesKey version) = inl err
                 ∨ ∃ encoded, get (AddressesKey version) = inr encoded
                              ∧ unmarshalAddresses encoded = inl err))
  ∨ (version ≠ InvalidVersion ∧ cache !! version = None
     ∧ keys = [AddressesKey version]
     ∧ ∃ encoded addresses,
         get (AddressesKey version) = inr encoded
         ∧ unmarshalAddresses encoded = inr addresses
         ∧ cache' = <[version := addresses]> cache ∧ r = inr addresses).
Proof.
  unfold getAddresses. case_decide as Hv.
  { intros [= <- <- <-]. by left. }
  destruct (cache !! version) as [addresses|] eqn:Hhit.
  { intros [= <- <- <-]. right. left. eauto 10. }
  destruct (get _) as [err|encoded] eqn:Hget.
  { intros [= <- <- <-]. right. right. left. eauto 10. }
  destruct (unmarshalAddresses encoded) as [err|addresses] eqn:Hum.
  - intros [= <- <- <-]. right. right. left. split_and!; try done.
    exists err. split; [done|]. right. eauto.
  - intros [= <- <- <-]. right. right. right. eauto 10.
Qed.

Lemma getAddresses_hit get unmarshalAddresses version cache addresses :
  version ≠ InvalidVersion →
  cache !! version = Some addresses →
  getAddresses get unmarshalAddresses version cache = (cache, [], inr addresses).
Proof. intros Hv Hhit. unfold getAddresses. rewrite decide_False by done. by rewrite Hhit. Qed.

(** X13.  The cache only grows, a failure leaves it as it was, and once the
    addresses of a version have been read they are returned for that version
    ever after without asking the store, whatever the store holds by then. *)
Theorem addresses_are_read_once get unmarshalAddresses version cache cache' keys r :
  getAddresses get unmarshalAddresses version cache = (cache', keys, r) →
  cache ⊆ cache'
  ∧ (∀ err, r = inl err → cache' = cache)
  ∧ ∀ addresses, r = inr addresses →
      ∀ get' unmarshalAddresses' later,
        cache' ⊆ later →
        getAddresses get' unmarshalAddresses' version later = (later, [], inr addresses).
Proof.
  intros [(-> & -> & -> & ->)|[(Hv & -> & -> & addresses & Hhit & ->)
         |[(Hv & Hmiss & -> & -> & err & -> & _)
         |(Hv & Hmiss & -> & encoded & addresses & _ & _ & -> & ->)]]]%getAddresses_run.
  - split_and!; [done|done|]. by intros ? [=].
  - split_and!; [done|by intros ? [=]|]. intros ? [= <-] get' um' later Hsub.
    apply getAddresses_hit; [done|]. by eapply lookup_weaken.
  - split_and!; [done|done|]. by intros ? [=].
  - split_and!; [by apply insert_subseteq|by intros ? [=]|].
    intros ? [= <-] get' um' later Hsub.
    apply getAddresses_hit; [done|]. eapply lookup_weaken; [|done].
    apply lookup_insert_eq.
Qed.

Section ReaderProperties.
Context (loopOver : LoopOrder) (sound : LoopSound loopOver).

Lemma collect_fold {V W : Type} (f : V → W) (l : list (N * V)) (result : gmap N W) k :
  NoDup l.*1 →
  foldl (λ result '(shard, v), <[shard := f v]> result) result l !! k
  = match list_to_map (M := gmap N V) l !! k with
    | Some v => Some (f v)
    | None => result !! k
    end.
Proof.
  revert result. induction l as [|[k0 v0] l IH]; intros result; [done|].
  rewrite fmap_cons. cbn [fst foldl].
  intros [Hfresh Hnodup]%NoDup_cons. rewrite IH by done.
  rewrite list_to_map_cons. destruct (decide (k0 = k)) as [->|Hne].
  - rewrite (not_elem_of_list_to_map_1 (M := gmap N) l k) by done.
    by rewrite !lookup_insert_eq.
  - by rewrite !lookup_insert_ne by done.
Qed.

Lemma collect_loop {V W : Type} (f : V → W) loop (m : gmap N V) :
  foldl (λ result '(shard, v), <[shard := f v]> result) ∅ (loopAt loopOver loop m)
  = f <$> m.
Proof.
  apply map_eq. intros k.
  rewrite collect_fold by (by apply NoDup_loopAt_keys).
  rewrite lookup_fmap, lookup_empty.
  assert (list_to_map (M := gmap N V) (loopAt loopOver loop m) = m) as ->; [|by destruct (m !! k)].
  rewrite <- (list_to_map_to_list m) at 2.
  apply list_to_map_proper; [by apply NoDup_loopAt_keys|by apply loopAt_perm].
Qed.

(** X14.  Once [GetShardToMasterAddress] has answered for a version, the other
    three readers answer for that version from the cache alone, and they
    agree with it shard by shard: [GetMasterAddress] reports the master it
    lists and reports [ok = false], without an error, for a shard it does not
    list, [GetShardToReplicaAddresses] lists the same shards, and
    [GetReplicaAddresses] fails with "shard not found" for the others. *)
Theorem readers_agree get unmarshalAddresses version cache cache' keys result :
  GetShardToMasterAddress loopOver get unmarshalAddresses version cache
  = (cache', keys, inr result) →
  ∀ get' unmarshalAddresses',
    (∀ shard,
       GetMasterAddress get' unmarshalAddresses' shard version cache'
       = (cache', [],
          (default "" (result !! shard), bool_decide (is_Some (result !! shard)), None)))
    ∧ ∃ replicas,
        GetShardToReplicaAddresses loopOver get' unmarshalAddresses' version cache'
        = (cache', [], inr replicas)
        ∧ dom replicas = dom result
        ∧ ∀ shard,
            GetReplicaAddresses get' unmarshalAddresses' shard version cache'
            = (cache', [],
               match replicas !! shard with
               | Some shardReplicas => inr shardReplicas
               | None => inl (shardNotFound shard)
               end).
Proof.
  unfold GetShardToMasterAddress.
  destruct (getAddresses _ _ _ _) as [[cache1 keys1] [err|addresses]] eqn:Hget; [done|].
  intros [= <- <- <-] get' um'.
  assert (Hv : version ≠ InvalidVersion).
  { apply getAddresses_run in Hget as [(_ & _ & _ & [=])|[(? & _)|[(? & _)|(? & _)]]]; done. }
  assert (Hhit : cache1 !! version = Some addresses).
  { apply getAddresses_run in Hget
      as [(_ & _ & _ & [=])|[(_ & -> & _ & a & ? & [= <-])
         |[(_ & _ & _ & _ & ? & [=] & _)|(_ & _ & _ & ? & a & _ & _ & -> & [= <-])]]];
      [done|apply lookup_insert_eq]. }
  rewrite collect_loop. split.
  - intros shard. unfold GetMasterAddress. rewrite (getAddresses_hit _ _ _ _ _ Hv Hhit).
    rewrite lookup_fmap. by destruct (Addresses.Addresses addresses !! shard).
  - exists (ShardAddresses.Replicas <$> Addresses.Addresses addresses). split_and!.
    + unfold GetShardToReplicaAddresses. rewrite (getAddresses_hit _ _ _ _ _ Hv Hhit).
      by rewrite collect_loop.
    + by rewrite !dom_fmap_L.
    + intros shard. unfold GetReplicaAddresses.
      rewrite (getAddresses_hit _ _ _ _ _ Hv Hhit), lookup_fmap.
      by destruct (Addresses.Addresses addresses !! shard).
Qed.
End ReaderProperties.

(** The addresses of version 3 are read from the store once; the store may
    lose them afterwards. *)
Lemma addresses_are_read_once_witness :
  getAddresses sampleGone sampleUnmarshal 3
    (getAddresses sampleGet sampleUnmarshal 3 ∅).1.1
  = ((getAddresses sampleGet sampleUnmarshal 3 ∅).1.1, [],
     inr (Addresses.mk 3 {[ 0 := ShardAddresses.mk "host-A" {[ "host-B" := true ]} ]})).
Proof.
  destruct (addresses_are_read_once sampleGet sampleUnmarshal 3 ∅ _ _ _
              (run_eta (getAddresses sampleGet sampleUnmarshal 3 ∅))) as (_ & _ & Honce).
  apply Honce; [vm_compute; reflexivity|done].
Defined.

Lemma readers_agree_witness :
  GetMasterAddress sampleGone sampleUnmarshal 0 3
    (GetShardToMasterAddress loopCanonical sampleGet sampleUnmarshal 3 ∅).1.1
  = ((GetShardToMasterAddress loopCanonical sampleGet sampleUnmarshal 3 ∅).1.1, [],
     ("host-A", true, None))
  ∧ GetMasterAddress sampleGone sampleUnmarshal 1 3
      (GetShardToMasterAddress loopCanonical sampleGet sampleUnmarshal 3 ∅).1.1
    = ((GetShardToMasterAddress loopCanonical sampleGet sampleUnmarshal 3 ∅).1.1, [],
       ("", false, None)).
Proof.
  assert (Hrun : GetShardToMasterAddress loopCanonical sampleGet sampleUnmarshal 3 ∅
                 = ((GetShardToMasterAddress loopCanonical sampleGet sampleUnmarshal 3 ∅).1.1,
                    [AddressesKey 3], inr {[ 0 := "host-A" ]}))
    by (vm_compute; reflexivity).
  destruct (readers_agree loopCanonical loopCanonical_sound _ _ _ _ _ _ _ Hrun
              sampleGone sampleUnmarshal) as [Hmaster _].
  split.
  - exact (Hmaster 0).
  - exact (Hmaster 1).
Defined.


Section PublishedReaders.
Context (rangeOver : RangeOrder) (sound : RangeSound rangeOver).
Context (numShards numReplicas : N).
Context (decodeServerState : string → error + ServerState.t).
Context (decodeServerRole : string → error + ServerRole.t).
Context (decodeFrontendState : string → error + FrontendState.t).

(** X15.  A sharder that has not read the version yet and finds in the store the
    addresses an assigner wrote for it resolves every shard below
    [numShards] to a master and to replicas, with one read of the store; for
    any other shard [GetMasterAddress] reports [ok = false] and
    [GetReplicaAddresses] fails with "shard not found". *)
Theorem published_addresses_resolve (w : World)
    (encodedServerStates : gmap string string) (st st' : Assigner) evs r addresses
    (get : Key → error + string) (unmarshalAddresses : string → error + Addresses.t)
    (cache : gmap Z Addresses.t) encoded shard :
  assignCallback rangeOver numShards numReplicas decodeServerState decodeServerRole
    decodeFrontendState w encodedServerStates st = (st', evs, r) →
  addresses ∈ addressesWritten evs →
  version st ≠ InvalidVersion →
  cache !! version st = None →
  get (AddressesKey (version st)) = inr encoded →
  unmarshalAddresses encoded = inr addresses →
  let cache' := <[version st := addresses]> cache in
  let keys := [AddressesKey (version st)] in
  (shard < numShards →
   ∃ entry,
     Addresses.Addresses addresses !! shard = Some entry
     ∧ GetMasterAddress get unmarshalAddresses shard (version st) cache
       = (cache', keys, (ShardAddresses.Master entry, true, None))
     ∧ GetReplicaAddresses get unmarshalAddresses shard (version st) cache
       = (cache', keys, inr (ShardAddresses.Replicas entry)))
  ∧ (numShards ≤ shard →
     GetMasterAddress get unmarshalAddresses shard (version st) cache
     = (cache', keys, ("", false, None))
     ∧ GetReplicaAddresses get unmarshalAddresses shard (version st) cache
       = (cache', keys, inl (shardNotFound shard))).
Proof.
  intros Hrun Hwritten Hv Hmiss Hget Hum cache' keys.
  assert (Hsome : addressesWritten evs ≠ []).
  { intros Hnil. rewrite Hnil in Hwritten. by apply elem_of_nil in Hwritten. }
  destruct (assignCallback_published rangeOver sound _ _ _ _ _ _ _ _ _ _ _ Hrun Hsome)
    as (d & p & entries & _ & _ & _ & _ & _ & _ & Haddresses & _ & Hentries).
  rewrite Haddresses in Hwritten. apply list_elem_of_singleton in Hwritten as ->.
  assert (Hread : getAddresses get unmarshalAddresses (version st) cache
                  = (cache', keys, inr (Addresses.mk (version st) entries))).
  { unfold getAddresses. rewrite decide_False by done. by rewrite Hmiss, Hget, Hum. }
  unfold GetMasterAddress, GetReplicaAddresses. rewrite Hread. simpl.
  rewrite Hentries, emptyAddresses_lookup. split.
  - intros Hshard. rewrite decide_True by done. simpl. eauto.
  - intros Hshard. rewrite decide_False by lia. done.
Qed.
End PublishedReaders.

(** The addresses written for A and B are found by a sharder with an empty
    cache: shard 2 has a master, shard 4 does not exist. *)
Lemma published_addresses_resolve_witness :
  (∃ address,
     (GetMasterAddress samplePublishedGet samplePublishedUnmarshal 2 3 ∅).2
     = (address, true, None))
  ∧ (GetMasterAddress samplePublishedGet samplePublishedUnmarshal 4 3 ∅).2
    = ("", false, None)
  ∧ (GetReplicaAddresses samplePublishedGet samplePublishedUnmarshal 4 3 ∅).2
    = inl (Failure "shard 4 not found").
Proof.
  assert (Hin : default (Addresses.mk 0 ∅) (head (addressesWritten samplePublication.1.2))
                ∈ addressesWritten samplePublication.1.2) by (vm_compute; left).
  pose proof (λ shard,
    published_addresses_resolve rangeCanonical rangeCanonical_sound 4 1
      sampleStateDecoder sampleRoleDecoder sampleFrontendDecoder sampleWorld sampleServers
      sampleAssigner _ _ _ _ samplePublishedGet samplePublishedUnmarshal ∅ "addresses"
      shard (run_eta samplePublication) Hin ltac:(discriminate) eq_refl eq_refl eq_refl)
    as Hresolve.
  split_and!.
  - destruct (proj1 (Hresolve 2)) as (entry & _ & Hmaster & _); [lia|].
    exists (ShardAddresses.Master entry). exact (f_equal snd Hmaster).
  - destruct (proj2 (Hresolve 4)) as [Hmaster _]; [lia|]. exact (f_equal snd Hmaster).
  - destruct (proj2 (Hresolve 4)) as [_ Hreplicas]; [lia|]. exact (f_equal snd Hreplicas).
Defined.


(** ** Announcing a server and a frontend *)

(** An announcer that leaves its loop on an error of a collaborator. *)
Ltac announce_exit :=
  intros [= <- <-]; split_and!;
  [ intros [|?] ?? H; simpl in H; simplify_eq; rewrite ?Nat.add_0_r;
    split_and!; try done; by intros ?%elem_of_nil
  | simpl; lia
  | done
  | done
  | intros ? [= <-]; simpl; rewrite ?Nat.add_0_r;
    first [ by left | by right; left | right; right; by eauto | right; by eauto ] ].

Section AnnounceProperties.
Context (id address : string).
Context (localShards : nat → error + gmap N bool).
Context (marshalState : ServerState.t → option error).
Context (marshalFrontend : FrontendState.t → option error).
Context (setState : nat → option error).

Lemma announceServerFrom_run (signals : list Signal) (round : nat)
    (serverState : ServerState.t) sets r :
  announceServerFrom localShards marshalState setState round serverState signals
  = (sets, r) →
  (∀ k state ttl,
     sets !! k = Some (state, ttl) →
     ttl = holdTTL
     ∧ ServerState.Id state = ServerState.Id serverState
     ∧ ServerState.Address state = ServerState.Address serverState
     ∧ ServerState.Version state
       = foldl (λ version signal,
                  match signal with NewVersion version' => version' | _ => version end)
               (ServerState.Version serverState) (take k signals)
     ∧ localShards (round + k)%nat = inr (ServerState.Shards state)
     ∧ Cancelled ∉ take k signals)
  ∧ (length sets ≤ S (length signals))%nat
  ∧ (r = None → length sets = S (length signals) ∧ Cancelled ∉ signals)
  ∧ (r = Some None → signals !! (length sets - 1)%nat = Some Cancelled ∧ sets ≠ [])
  ∧ (∀ err, r = Some (Some err) →
       (sets ≠ [] ∧ setState (round + (length sets - 1))%nat = Some err)
       ∨ localShards (round + length sets)%nat = inl err
       ∨ ∃ state, marshalState state = Some err).
Proof.
  revert round serverState sets r.
  induction signals as [|signal signals IH]; intros round serverState sets r;
    cbn [announceServerFrom];
    (destruct (localShards round) as [err|shards] eqn:Hshards; [announce_exit|]);
    (destruct (marshalState _) as [err|] eqn:Hmarshal; [announce_exit|]);
    (destruct (setState round) as [err|] eqn:Hset; [announce_exit|]).
  - intros [= <- <-]. split_and!.
    + intros [|k] state ttl; [|done]. intros [= <- <-]. rewrite Nat.add_0_r.
      split_and!; try done. by intros ?%elem_of_nil.
    + simpl. lia.
    + intros _. split; [done|]. by intros ?%elem_of_nil.
    + done.
    + done.
  - assert (Hfirst : ∀ state ttl,
              Some (ServerState.mk (ServerState.Id serverState)
                      (ServerState.Address serverState)
                      (ServerState.Version serverState) shards, holdTTL)
              = Some (state, ttl) →
              ttl = holdTTL
              ∧ ServerState.Id state = ServerState.Id serverState
              ∧ ServerState.Address state = ServerState.Address serverState
              ∧ ServerState.Version state = ServerState.Version serverState
              ∧ localShards (round + 0)%nat = inr (ServerState.Shards state)
              ∧ Cancelled ∉ take 0 (signal :: signals)).
    { intros state ttl [= <- <-]. rewrite Nat.add_0_r.
      split_and!; try done. by intros ?%elem_of_nil. }
    destruct signal as [|version|].
    + intros [= <- <-]. split_and!.
      * intros [|k] state ttl; [|done]. apply Hfirst.
      * simpl. lia.
      * done.
      * done.
      * done.
    + destruct (announceServerFrom _ _ _ _ _ _) as [sets' r'] eqn:Hrest.
      intros [= <- <-]. apply IH in Hrest as (Hsets & Hlen & Hrun & Hnil & Herr).
      simpl in *. split_and!.
      * intros [|k] state ttl; [apply Hfirst|]. simpl. intros Hk.
        destruct (Hsets _ _ _ Hk) as (? & ? & ? & ? & Hshards' & Hnot).
        rewrite <- Nat.add_succ_comm. split_and!; try done.
        intros [?|?]%elem_of_cons; done.
      * lia.
      * intros Hr. destruct (Hrun Hr) as [-> Hnot]. split; [done|].
        intros [?|?]%elem_of_cons; done.
      * intros Hr. destruct (Hnil Hr) as [Hc Hne]. split; [|done].
        destruct sets' as [|x sets']; [done|]. simpl in *.
        by rewrite Nat.sub_0_r in Hc.
      * intros err Hr. destruct (Herr _ Hr) as [[Hne Hs]|[Hl|Hm]].
        -- left. split; [done|]. destruct sets' as [|x sets']; [done|]. simpl in *.
           rewrite Nat.sub_0_r in *. by rewrite <- Nat.add_succ_comm.
        -- right. left. by rewrite <- Nat.add_succ_comm.
        -- by right; right.
    + destruct (announceServerFrom _ _ _ _ _ _) as [sets' r'] eqn:Hrest.
      intros [= <- <-]. apply IH in Hrest as (Hsets & Hlen & Hrun & Hnil & Herr).
      simpl in *. split_and!.
      * intros [|k] state ttl; [apply Hfirst|]. simpl. intros Hk.
        destruct (Hsets _ _ _ Hk) as (? & ? & ? & ? & Hshards' & Hnot).
        rewrite <- Nat.add_succ_comm. split_and!; try done.
        intros [?|?]%elem_of_cons; done.
      * lia.
      * intros Hr. destruct (Hrun Hr) as [-> Hnot]. split; [done|].
        intros [?|?]%elem_of_cons; done.
      * intros Hr. destruct (Hnil Hr) as [Hc Hne]. split; [|done].
        destruct sets' as [|x sets']; [done|]. simpl in *.
        by rewrite Nat.sub_0_r in Hc.
      * intros err Hr. destruct (Herr _ Hr) as [[Hne Hs]|[Hl|Hm]].
        -- left. split; [done|]. destruct sets' as [|x sets']; [done|]. simpl in *.
           rewrite Nat.sub_0_r in *. by rewrite <- Nat.add_succ_comm.
        -- right. left. by rewrite <- Nat.add_succ_comm.
        -- by right; right.
Qed.

(** X16.  Every state a server announces carries its id and address, the shards
    [LocalShards] reported in that round, a time to live of [holdTTL], and as
    version the last one received on the version channel before, or
    [InvalidVersion] when none was.  The announcer returns nil at the first
    cancellation and at no other time, and as long as nothing fails it
    announces once more after every other signal. *)
Theorem announceServer_heartbeat (signals : list Signal) sets r :
  announceServer id address localShards marshalState setState signals = (sets, r) →
  (∀ k state ttl,
     sets !! k = Some (state, ttl) →
     ttl = holdTTL ∧ ServerState.Id state = id ∧ ServerState.Address state = address
     ∧ ServerState.Version state = lastVersion (take k signals)
     ∧ localShards k = inr (ServerState.Shards state)
     ∧ Cancelled ∉ take k signals)
  ∧ (r = None → length sets = S (length signals) ∧ Cancelled ∉ signals)
  ∧ (r = Some None → signals !! (length sets - 1)%nat = Some Cancelled ∧ sets ≠ [])
  ∧ (∀ err, r = Some (Some err) →
       (sets ≠ [] ∧ setState (length sets - 1)%nat = Some err)
       ∨ localShards (length sets) = inl err
       ∨ ∃ state, marshalState state = Some err).
Proof.
  unfold announceServer. intros (Hsets & _ & Hrun & Hnil & Herr)%announceServerFrom_run.
  simpl in *. split_and!; try done.
Qed.

Lemma announceFrontendFrom_run (signals : list Signal) (round : nat)
    (frontendState : FrontendState.t) sets r :
  announceFrontendFrom marshalFrontend setState round frontendState signals = (sets, r) →
  (∀ k state ttl,
     sets !! k = Some (state, ttl) →
     ttl = holdTTL
     ∧ FrontendState.Address state = FrontendState.Address frontendState
     ∧ FrontendState.Version state
       = foldl (λ version signal,
                  match signal with NewVersion version' => version' | _ => version end)
               (FrontendState.Version frontendState) (take k signals)
     ∧ Cancelled ∉ take k signals)
  ∧ (length sets ≤ S (length signals))%nat
  ∧ (r = None → length sets = S (length signals) ∧ Cancelled ∉ signals)
  ∧ (r = Some None → signals !! (length sets - 1)%nat = Some Cancelled ∧ sets ≠ [])
  ∧ (∀ err, r = Some (Some err) →
       (sets ≠ [] ∧ setState (round + (length sets - 1))%nat = Some err)
       ∨ ∃ state, marshalFrontend state = Some err).
Proof.
  revert round frontendState sets r.
  induction signals as [|signal signals IH]; intros round frontendState sets r;
    cbn [announceFrontendFrom];
    (destruct (marshalFrontend _) as [err|] eqn:Hmarshal; [announce_exit|]);
    (destruct (setState round) as [err|] eqn:Hset; [announce_exit|]).
  - intros [= <- <-]. split_and!.
    + intros [|k] state ttl; [|done]. intros [= <- <-].
      split_and!; try done. by intros ?%elem_of_nil.
    + simpl. lia.
    + intros _. split; [done|]. by intros ?%elem_of_nil.
    + done.
    + done.
  - assert (Hfirst : ∀ state ttl,
              Some (frontendState, holdTTL) = Some (state, ttl) →
              ttl = holdTTL
              ∧ FrontendState.Address state = FrontendState.Address frontendState
              ∧ FrontendState.Version state = FrontendState.Version frontendState
              ∧ Cancelled ∉ take 0 (signal :: signals)).
    { intros state ttl [= <- <-]. split_and!; try done. by intros ?%elem_of_nil. }
    destruct signal as [|version|].
    + intros [= <- <-]. split_and!.
      * intros [|k] state ttl; [|done]. apply Hfirst.
      * simpl. lia.
      * done.
      * done.
      * done.
    + destruct (announceFrontendFrom _ _ _ _ _) as [sets' r'] eqn:Hrest.
      intros [= <- <-]. apply IH in Hrest as (Hsets & Hlen & Hrun & Hnil & Herr).
      simpl in *. split_and!.
      * intros [|k] state ttl; [apply Hfirst|]. simpl. intros Hk.
        destruct (Hsets _ _ _ Hk) as (? & ? & ? & Hnot).
        split_and!; try done. intros [?|?]%elem_of_cons; done.
      * lia.
      * intros Hr. destruct (Hrun Hr) as [-> Hnot]. split; [done|].
        intros [?|?]%elem_of_cons; done.
      * intros Hr. destruct (Hnil Hr) as [Hc Hne]. split; [|done].
        destruct sets' as [|x sets']; [done|]. simpl in *.
        by rewrite Nat.sub_0_r in Hc.
      * intros err Hr. destruct (Herr _ Hr) as [[Hne Hs]|Hm]; [|by right].
        left. split; [done|]. destruct sets' as [|x sets']; [done|]. simpl in *.
        rewrite Nat.sub_0_r in *. by rewrite <- Nat.add_succ_comm.
    + destruct (announceFrontendFrom _ _ _ _ _) as [sets' r'] eqn:Hrest.
      intros [= <- <-]. apply IH in Hrest as (Hsets & Hlen & Hrun & Hnil & Herr).
      simpl in *. split_and!.
      * intros [|k] state ttl; [apply Hfirst|]. simpl. intros Hk.
        destruct (Hsets _ _ _ Hk) as (? & ? & ? & Hnot).
        split_and!; try done. intros [?|?]%elem_of_cons; done.
      * lia.
      * intros Hr. destruct (Hrun Hr) as [-> Hnot]. split; [done|].
        intros [?|?]%elem_of_cons; done.
      * intros Hr. destruct (Hnil Hr) as [Hc Hne]. split; [|done].
        destruct sets' as [|x sets']; [done|]. simpl in *.
        by rewrite Nat.sub_0_r in Hc.
      * intros err Hr. destruct (Herr _ Hr) as [[Hne Hs]|Hm]; [|by right].
        left. split; [done|]. destruct sets' as [|x sets']; [done|]. simpl in *.
        rewrite Nat.sub_0_r in *. by rewrite <- Nat.add_succ_comm.
Qed.

(** X17.  Every state a frontend announces carries its address, a time to live of
    [holdTTL], and as version the last one received on the version channel
    before, or [InvalidVersion] when none was.  The announcer returns nil at
    the first cancellation and at no other time, and as long as nothing
    fails it announces once more after every other signal. *)
Theorem announceFrontend_heartbeat (signals : list Signal) sets r :
  announceFrontend address marshalFrontend setState signals = (sets, r) →
  (∀ k state ttl,
     sets !! k = Some (state, ttl) →
     ttl = holdTTL ∧ FrontendState.Address state = address
     ∧ FrontendState.Version state = lastVersion (take k signals)
     ∧ Cancelled ∉ take k signals)
  ∧ (r = None → length sets = S (length signals) ∧ Cancelled ∉ signals)
  ∧ (r = Some None → signals !! (length sets - 1)%nat = Some Cancelled ∧ sets ≠ [])
  ∧ (∀ err, r = Some (Some err) →
       (sets ≠ [] ∧ setState (length sets - 1)%nat = Some err)
       ∨ ∃ state, marshalFrontend state = Some err).
Proof.
  unfold announceFrontend. intros (Hsets & _ & Hrun & Hnil & Herr)%announceFrontendFrom_run.
  simpl in *. split_and!; try done.
Qed.
End AnnounceProperties.

(** A server is announced five times, with versions -1, -1, 0, 1, 1, and
    returns nil when it is cancelled. *)
Lemma announceServer_heartbeat_witness :
  (ServerState.Version ∘ fst) <$> sampleAnnounce.1 = [-1; -1; 0; 1; 1]%Z
  ∧ sampleAnnounce.2 = Some None
  ∧ ∀ k state ttl,
      sampleAnnounce.1 !! k = Some (state, ttl) →
      ttl = 20 ∧ ServerState.Id state = "A" ∧ ServerState.Address state = "host-A".
Proof.
  split_and!; [vm_compute; reflexivity|vm_compute; reflexivity|].
  intros k state ttl Hk.
  destruct (announceServer_heartbeat "A" "host-A" (λ _, inr {[ 0 := true ]}) (λ _, None)
              (λ _, None) _ _ _ (surjective_pairing sampleAnnounce)) as [Hsets _].
  destruct (Hsets _ _ _ Hk) as (? & ? & ? & _). done.
Defined.

Lemma announceFrontend_heartbeat_witness :
  (FrontendState.Version ∘ fst) <$> sampleAnnounceFrontend.1 = [-1; 0; 0]%Z
  ∧ sampleAnnounceFrontend.2 = Some None
  ∧ ∀ k state ttl,
      sampleAnnounceFrontend.1 !! k = Some (state, ttl) →
      ttl = 20 ∧ FrontendState.Address state = "host-F".
Proof.
  split_and!; [vm_compute; reflexivity|vm_compute; reflexivity|].
  intros k state ttl Hk.
  destruct (announceFrontend_heartbeat "host-F" (λ _, None) (λ _, None) _ _ _
              (surjective_pairing sampleAnnounceFrontend)) as [Hsets _].
  destruct (Hsets _ _ _ Hk) as (? & ? & _). done.
Defined.


(** ** Waiting for the cluster to be available *)

Lemma versionsOf_lookup (states : gmap string ServerState.t) v b :
  versionsOf states !! v = Some b ↔
  b = true ∧ ∃ id serverState, states !! id = Some serverState
                               ∧ ServerState.Version serverState = v.
Proof.
  unfold versionsOf. revert v b.
  apply (map_fold_weak_ind
           (λ versions (states : gmap string ServerState.t),
              ∀ v b, versions !! v = Some b ↔
                     b = true ∧ ∃ id serverState, states !! id = Some serverState
                                                  ∧ ServerState.Version serverState = v)).
  - intros v b. rewrite lookup_empty. split; [done|].
    intros (_ & id & s & Hid & _). by rewrite lookup_empty in Hid.
  - intros id s m versions Hfresh IH v b. rewrite lookup_insert. case_decide as Hv.
    + split.
      * intros [= <-]. split; [done|]. exists id, s. by rewrite lookup_insert_eq.
      * by intros [-> _].
    + rewrite IH. split.
      * intros (-> & id' & s' & Hid' & Hv'). split; [done|]. exists id', s'.
        split; [|done]. rewrite lookup_insert_ne; [done|]. intros ->. congruence.
      * intros (-> & id' & s' & Hid' & Hv'). split; [done|].
        rewrite lookup_insert in Hid'. case_decide; [by simplify_eq|]. eauto.
Qed.

Lemma size_1_key `{Countable K} {V : Type} (m : gmap K V) k k' :
  size m = 1%nat → is_Some (m !! k) → is_Some (m !! k') → k = k'.
Proof.
  intros Hsize Hk [v' Hk']. destruct (decide (k = k')) as [|Hne]; [done|].
  pose proof (map_size_delete_Some k m Hk) as Hdel. rewrite Hsize in Hdel.
  apply map_size_empty_inv in Hdel.
  assert (delete k m !! k' = Some v') as Hlook by by rewrite lookup_delete_ne.
  rewrite Hdel, lookup_empty in Hlook. done.
Qed.

Section AvailabilityProperties.
Context (loopOver : LoopOrder) (sound : LoopSound loopOver).
Context (decodeServerState : string → error + ServerState.t).
Context (decodeServerRole : string → error + ServerRole.t).
Context (decodeFrontendState : string → error + FrontendState.t).
Context (serverStateDir serverRoleDir : string).

Lemma gatherEntry_run (available available' : Available) key e :
  gatherEntry decodeServerState decodeServerRole serverStateDir serverRoleDir
    available (key, e) = inr available' →
  (if String.prefix serverStateDir key
   then ∃ serverState,
          decodeServerState e = inr serverState
          ∧ available'.1 = <[ServerState.Id serverState := serverState]> available.1
   else available'.1 = available.1)
  ∧ (if String.prefix serverRoleDir key
     then ∃ serverRole,
            decodeServerRole e = inr serverRole
            ∧ available'.2
              = <[ServerRole.Id serverRole :=
                    <[ServerRole.Version serverRole := serverRole]>
                      (default ∅ (available.2 !! ServerRole.Id serverRole))]> available.2
     else available'.2 = available.2).
Proof.
  destruct available as [states roles]. unfold gatherEntry. simpl.
  destruct (String.prefix serverStateDir key).
  - destruct (decodeServerState e) as [err|s]; [done|].
    destruct (String.prefix serverRoleDir key).
    + destruct (decodeServerRole e) as [err|r]; [done|]. intros [= <-]. simpl.
      split; eexists; by split.
    + intros [= <-]. simpl. split; [eexists; by split|done].
  - destruct (String.prefix serverRoleDir key).
    + destruct (decodeServerRole e) as [err|r]; [done|]. intros [= <-]. simpl.
      split; [done|eexists; by split].
    + by intros [= <-].
Qed.

(** What the loop over the entries has put into the two maps. *)
Lemma gatherEntries_run (l : list (string * string)) (available available' : Available) :
  gatherEntries decodeServerState decodeServerRole serverStateDir serverRoleDir
    available l = inr available' →
  (∀ id serverState,
     available'.1 !! id = Some serverState →
     available.1 !! id = Some serverState
     ∨ ∃ key e, (key, e) ∈ l ∧ String.prefix serverStateDir key = true
                ∧ decodeServerState e = inr serverState
                ∧ ServerState.Id serverState = id)
  ∧ (∀ id versionToServerRole v serverRole,
       available'.2 !! id = Some versionToServerRole →
       versionToServerRole !! v = Some serverRole →
       (∃ versionToServerRole0,
          available.2 !! id = Some versionToServerRole0
          ∧ versionToServerRole0 !! v = Some serverRole)
       ∨ ∃ key e, (key, e) ∈ l ∧ String.prefix serverRoleDir key = true
                  ∧ decodeServerRole e = inr serverRole
                  ∧ ServerRole.Id serverRole = id ∧ ServerRole.Version serverRole = v)
  ∧ (∀ id versionToServerRole0 v,
       available.2 !! id = Some versionToServerRole0 →
       is_Some (versionToServerRole0 !! v) →
       ∃ versionToServerRole,
         available'.2 !! id = Some versionToServerRole
         ∧ is_Some (versionToServerRole !! v))
  ∧ (∀ key e,
       (key, e) ∈ l → String.prefix serverRoleDir key = true →
       ∃ serverRole versionToServerRole,
         decodeServerRole e = inr serverRole
         ∧ available'.2 !! ServerRole.Id serverRole = Some versionToServerRole
         ∧ is_Some (versionToServerRole !! ServerRole.Version serverRole)).
Proof.
  revert available. induction l as [|[key e] l IH]; intros available; simpl.
  { intros [= <-]. split_and!.
    - intros ???. by left.
    - intros ???? ??. left. eauto.
    - intros ??? ??. eauto.
    - intros ?? ?%elem_of_nil. done. }
  destruct (gatherEntry _ _ _ _ _ _) as [err|available1] eqn:Hstep; [done|].
  intros (Hstates & Hroles & Hkept & Hall)%IH.
  apply (gatherEntry_run _ _ key e) in Hstep as [Hs Hr].
  assert (Hkept1 : ∀ id m0 v,
            available.2 !! id = Some m0 → is_Some (m0 !! v) →
            ∃ m, available1.2 !! id = Some m ∧ is_Some (m !! v)).
  { intros id m0 v Hid Hv. destruct (String.prefix serverRoleDir key); [|rewrite Hr; eauto].
    destruct Hr as (r & _ & ->). rewrite lookup_insert. case_decide as Heq; [|eauto].
    subst id. rewrite Hid. simpl. eexists. split; [done|].
    rewrite lookup_insert. by case_decide. }
  split_and!.
  - intros id s Hid. destruct (Hstates _ _ Hid) as [Hold|(k & e' & ? & ? & ? & ?)].
    + destruct (String.prefix serverStateDir key) eqn:Hprefix; [|left; by rewrite <- Hs].
      destruct Hs as (s' & Hdec & Heq). rewrite Heq, lookup_insert in Hold.
      case_decide as Hsame; [|by left]. injection Hold as <-.
      right. exists key, e. split_and!; [left|done..].
    + right. exists k, e'. split_and!; [by right|done..].
  - intros id m v r Hid Hv.
    destruct (Hroles _ _ _ _ Hid Hv) as [(m1 & Hid1 & Hv1)|(k & e' & ? & ? & ? & ? & ?)].
    + destruct (String.prefix serverRoleDir key) eqn:Hprefix;
        [|left; rewrite <- Hr; eauto].
      destruct Hr as (r' & Hdec & Heq). rewrite Heq, lookup_insert in Hid1.
      case_decide as Hsame; [|left; eauto]. injection Hid1 as <-.
      rewrite lookup_insert in Hv1. case_decide as Hsame'.
      * injection Hv1 as <-. right. exists key, e. split_and!; [left|done..].
      * left. subst id. destruct (available.2 !! ServerRole.Id r') as [m0|]; [eauto|].
        simpl in Hv1. by rewrite lookup_empty in Hv1.
    + right. exists k, e'. split_and!; [by right|done..].
  - intros id m0 v Hid Hv. destruct (Hkept1 _ _ _ Hid Hv) as (m1 & Hid1 & Hv1).
    by eapply Hkept.
  - intros k e' [[= -> ->]|Hin]%elem_of_cons Hprefix; [|by eapply Hall].
    rewrite Hprefix in Hr. destruct Hr as (r & Hdec & Heq).
    destruct (Hkept (ServerRole.Id r)
                (<[ServerRole.Version r := r]> (default ∅ (available.2 !! ServerRole.Id r)))
                (ServerRole.Version r)) as (m & Hm & Hv).
    + rewrite Heq. apply lookup_insert_eq.
    + rewrite lookup_insert_eq. eauto.
    + exists r, m. done.
Qed.

Lemma gatherEntries_fails (l : list (string * string)) (available : Available) err :
  gatherEntries decodeServerState decodeServerRole serverStateDir serverRoleDir
    available l = inl err →
  ∃ key e, (key, e) ∈ l
           ∧ (decodeServerState e = inl err ∨ decodeServerRole e = inl err).
Proof.
  revert available. induction l as [|[key e] l IH]; intros available; simpl; [done|].
  destruct (gatherEntry _ _ _ _ _ _) as [err'|available1] eqn:Hstep.
  - intros [= ->]. exists key, e. split; [left|].
    destruct available as [states roles]. unfold gatherEntry in Hstep. simpl in Hstep.
    destruct (String.prefix serverStateDir key).
    + destruct (decodeServerState e) as [err'|s]; [left; congruence|].
      destruct (String.prefix serverRoleDir key); [|done].
      destruct (decodeServerRole e) as [err'|r]; [right; congruence|done].
    + destruct (String.prefix serverRoleDir key); [|done].
      destruct (decodeServerRole e) as [err'|r]; [right; congruence|done].
  - intros (k & e' & Hin & Hcases)%IH. exists k, e'. split; [by right|done].
Qed.

(** What the checks of the first callback have established when it says
    COMPLETE. *)
Lemma serversReady_run delivery serverIds (available : Available) version v :
  serversReady loopOver delivery serverIds available version = Some v →
  v ≠ InvalidVersion
  ∧ (∀ id, id ∈ serverIds → is_Some (available.1 !! id) ∧ is_Some (available.2 !! id))
  ∧ (∀ id serverState, available.1 !! id = Some serverState →
                       ServerState.Version serverState = v)
  ∧ (∀ id versionToServerRole,
       available.2 !! id = Some versionToServerRole →
       (∃ v', is_Some (versionToServerRole !! v'))
       ∧ ∀ v', is_Some (versionToServerRole !! v') → v' = v).
Proof.
  destruct available as [states roles]. unfold serversReady. simpl.
  case_decide as Hstates; [done|]. case_decide as Hroles; [done|].
  case_bool_decide as Hids; [done|]. case_bool_decide as Hinvalid; [done|].
  case_decide as Hsize; [done|]. case_bool_decide as Hversions; [done|].
  pose proof (length_loopAt loopOver sound (AvailableVersions delivery) (versionsOf states))
    as Hlen.
  rewrite Hsize in Hlen.
  destruct (loopAt loopOver (AvailableVersions delivery) (versionsOf states))
    as [|[k b] [|? ?]] eqn:Hloop; try done.
  simpl. intros [= <-].
  assert (Hk : versionsOf states !! k = Some b).
  { apply (elem_of_loopAt loopOver sound (AvailableVersions delivery)).
    rewrite Hloop. left. }
  assert (Hall : ∀ id serverState, states !! id = Some serverState →
                                   ServerState.Version serverState = k).
  { intros id s Hid. apply (size_1_key (versionsOf states)); [done| |by eauto].
    exists true. apply versionsOf_lookup. eauto. }
  split_and!.
  - apply versionsOf_lookup in Hk as (_ & id & s & Hid & <-).
    intros Hv. apply Hinvalid. by exists id, s.
  - intros id Hin.
    destruct (decide (is_Some (states !! id) ∧ is_Some (roles !! id))) as [|Hno]; [done|].
    exfalso. apply Hids. apply Exists_exists. eauto.
  - done.
  - intros id m Hid.
    assert (Hm : size m = 1%nat ∧ ∀ v', is_Some (m !! v') → index (versionsOf states) v' = true).
    { destruct (decide (size m = 1%nat)) as [Hone|Hmany].
      - split; [done|]. intros v' [r Hv'].
        destruct (index (versionsOf states) v') eqn:Hindex; [done|].
        exfalso. apply Hversions. exists id, m. split; [done|]. right. by exists v', r.
      - exfalso. apply Hversions. exists id, m. split; [done|]. by left. }
    destruct Hm as [Hone Hin]. split.
    + apply map_size_ne_0_lookup. by rewrite Hone.
    + intros v' Hv'. apply Hin in Hv'. unfold index in Hv'.
      destruct (versionsOf states !! v') as [b'|] eqn:Hlook; [|done].
      symmetry. apply (size_1_key (versionsOf states)); [done|by eauto|by eauto].
Qed.

Lemma serversCallback_run delivery serverIds snapshot version version' evs r :
  (∀ e, decodeServerState e ≠ inl errComplete) →
  (∀ e, decodeServerRole e ≠ inl errComplete) →
  serversCallback loopOver decodeServerState decodeServerRole serverStateDir serverRoleDir
    delivery serverIds snapshot version = (version', evs, r) →
  evs = []
  ∧ (r = None → version' = version)
  ∧ (r = Some errComplete →
     ServersAvailable decodeServerState decodeServerRole serverStateDir serverRoleDir
       serverIds snapshot version').
Proof.
  intros Hstate Hrole. unfold serversCallback.
  destruct (gatherEntries _ _ _ _ _ _) as [err|available] eqn:Hgather.
  { intros [= <- <- <-]. split_and!; [done..|]. intros [= ->].
    apply gatherEntries_fails in Hgather as (k & e & _ & [He|He]);
      [by apply Hstate in He|by apply Hrole in He]. }
  destruct (serversReady _ _ _ _ _) as [v|] eqn:Hready;
    intros [= <- <- <-]; [|by split_and!].
  split_and!; [done..|]. intros _.
  apply serversReady_run in Hready as (Hvalid & Hids & Hstates & Hroles).
  apply gatherEntries_run in Hgather as (Hs & Hr & _ & Hall). simpl in Hs, Hr.
  split_and!; [done| |].
  - intros id [[s His] [m Him]]%Hids. split.
    + destruct (Hs _ _ His) as [Hold|(k & e & Hin & Hprefix & Hdec & Hid)];
        [by rewrite lookup_empty in Hold|].
      exists k, e, s. apply (elem_of_loopAt loopOver sound) in Hin. split_and!; eauto.
    + destruct (Hroles _ _ Him) as [[v' [role Hv']] Hsame].
      destruct (Hr _ _ _ _ Him Hv')
        as [(m0 & Hold & _)|(k & e & Hin & Hprefix & Hdec & Hid & Hver)];
        [by rewrite lookup_empty in Hold|].
      exists k, e, role. apply (elem_of_loopAt loopOver sound) in Hin.
      split_and!; [done..|]. rewrite Hver. apply Hsame. eauto.
  - intros k e Hin Hprefix.
    apply (elem_of_loopAt loopOver sound (AvailableEntries delivery)) in Hin.
    destruct (Hall _ _ Hin Hprefix) as (role & m & Hdec & Hm & Hv).
    exists role. split; [done|]. by apply (Hroles _ _ Hm).
Qed.

Lemma serversWatch_run serverIds deliveries ending delivery version version' evs :
  (∀ e, decodeServerState e ≠ inl errComplete) →
  (∀ e, decodeServerRole e ≠ inl errComplete) →
  ending ≠ errComplete →
  WatchAll (λ delivery version snapshot,
              serversCallback loopOver decodeServerState decodeServerRole
                serverStateDir serverRoleDir delivery serverIds snapshot version)
           delivery version deliveries ending = (version', evs, errComplete) →
  ∃ snapshot, snapshot ∈ deliveries
              ∧ ServersAvailable decodeServerState decodeServerRole
                  serverStateDir serverRoleDir serverIds snapshot version'.
Proof.
  intros Hstate Hrole Hending. revert delivery version evs.
  induction deliveries as [|snapshot rest IH]; intros delivery version evs; simpl.
  { by intros [= _ _ ?]. }
  destruct (serversCallback _ _ _ _ _ _ _ _ _) as [[v1 evs1] [err|]] eqn:Hcall.
  - intros [= <- <- ->].
    apply serversCallback_run in Hcall as (_ & _ & Hready); [|done..].
    exists snapshot. split; [left|by apply Hready].
  - destruct (WatchAll _ _ _ _ _) as [[v2 evs2] err2] eqn:Hrest.
    intros [= <- <- ->]. apply IH in Hrest as (s & Hin & Hready).
    exists s. split; [by right|done].
Qed.

Lemma gatherFrontends_run (l : list (string * string)) version
    (frontendStates0 frontendStates : gmap string FrontendState.t) :
  gatherFrontends decodeFrontendState version frontendStates0 l = inr (Some frontendStates) →
  (∀ key e, (key, e) ∈ l →
            ∃ frontendState, decodeFrontendState e = inr frontendState
                             ∧ FrontendState.Version frontendState = version)
  ∧ (∀ id frontendState,
       frontendStates !! id = Some frontendState →
       frontendStates0 !! id = Some frontendState
       ∨ ∃ key e, (key, e) ∈ l ∧ decodeFrontendState e = inr frontendState
                  ∧ FrontendState.Address frontendState = id).
Proof.
  revert frontendStates0. induction l as [|[key e] l IH]; intros frontendStates0; simpl.
  { intros [= <-]. split; [by intros ?? ?%elem_of_nil|]. intros ???. by left. }
  destruct (decodeFrontendState e) as [err|f] eqn:Hdec; [done|].
  case_decide as Hversion; [done|].
  intros [Hall Hfrom]%IH. split.
  - intros k e' [[= -> ->]|Hin]%elem_of_cons; [eauto|by eapply Hall].
  - intros id f' Hid. destruct (Hfrom _ _ Hid) as [Hold|(k & e' & Hin & ? & ?)].
    + rewrite lookup_insert in Hold. case_decide as Hsame; [|by left].
      injection Hold as <-. right. exists key, e. split_and!; [left|done..].
    + right. exists k, e'. split_and!; [by right|done..].
Qed.

Lemma gatherFrontends_fails (l : list (string * string)) version
    (frontendStates0 : gmap string FrontendState.t) err :
  gatherFrontends decodeFrontendState version frontendStates0 l = inl err →
  ∃ e, decodeFrontendState e = inl err.
Proof.
  revert frontendStates0. induction l as [|[key e] l IH]; intros frontendStates0; simpl;
    [done|].
  destruct (decodeFrontendState e) as [err'|f] eqn:Hdec; [intros [= ->]; eauto|].
  case_decide; [done|]. apply IH.
Qed.

Lemma frontendsCallback_run delivery version frontendIds snapshot :
  (∀ e, decodeFrontendState e ≠ inl errComplete) →
  frontendsCallback loopOver decodeFrontendState delivery version frontendIds snapshot
  = Some errComplete →
  FrontendsAvailable decodeFrontendState frontendIds snapshot version.
Proof.
  intros Hdec. unfold frontendsCallback.
  destruct (gatherFrontends _ _ _ _) as [err|[frontendStates|]] eqn:Hgather; [| |done].
  { intros [= ->]. apply gatherFrontends_fails in Hgather as [e He]. by apply Hdec in He. }
  case_decide; [done|]. case_bool_decide as Hids; [done|]. intros _.
  apply gatherFrontends_run in Hgather as [Hall Hfrom]. split.
  - intros key e Hin. eapply Hall.
    by apply (elem_of_loopAt loopOver sound (AvailableFrontends delivery)).
  - intros id Hin.
    destruct (decide (is_Some (frontendStates !! id))) as [[f Hf]|Hno];
      [|exfalso; apply Hids, Exists_exists; eauto].
    destruct (Hfrom _ _ Hf) as [Hold|(k & e & Hk & He & Hid)];
      [by rewrite lookup_empty in Hold|].
    exists k, e, f. apply (elem_of_loopAt loopOver sound) in Hk. done.
Qed.

Lemma frontendsWatch_run frontendIds version deliveries ending delivery st evs :
  (∀ e, decodeFrontendState e ≠ inl errComplete) →
  ending ≠ errComplete →
  WatchAll (λ delivery (_ : unit) snapshot,
              (tt, [], frontendsCallback loopOver decodeFrontendState delivery version
                         frontendIds snapshot))
           delivery tt deliveries ending = (st, evs, errComplete) →
  ∃ snapshot, snapshot ∈ deliveries
              ∧ FrontendsAvailable decodeFrontendState frontendIds snapshot version.
Proof.
  intros Hdec Hending. revert delivery st evs.
  induction deliveries as [|snapshot rest IH]; intros delivery st evs; simpl.
  { by intros [= _ _ ?]. }
  destruct (frontendsCallback _ _ _ _ _ _) as [err|] eqn:Hcall.
  - intros [= <- <- ->]. apply frontendsCallback_run in Hcall; [|done].
    exists snapshot. split; [left|done].
  - destruct (WatchAll _ _ _ _ _) as [[st2 evs2] err2] eqn:Hrest.
    intros [= <- <- ->]. apply IH in Hrest as (s & Hin & Hready).
    exists s. split; [by right|done].
Qed.

(** X18.  [WaitForAvailability] returns nil only after the server directory has
    shown, in one snapshot, a state and a role for every server waited for,
    their states and every role record at one valid version, and after the
    frontend directory has shown, in one snapshot, every frontend waited
    for, with all frontend states at that version. *)
Theorem WaitForAvailability_nil_means_available
    (frontendIds serverIds : list string)
    (serverDeliveries frontendDeliveries : list (gmap string string))
    (serverEnding frontendEnding : error) :
  (∀ e, decodeServerState e ≠ inl errComplete) →
  (∀ e, decodeServerRole e ≠ inl errComplete) →
  (∀ e, decodeFrontendState e ≠ inl errComplete) →
  serverEnding ≠ errComplete →
  frontendEnding ≠ errComplete →
  WaitForAvailability loopOver decodeServerState decodeServerRole decodeFrontendState
    serverStateDir serverRoleDir frontendIds serverIds
    serverDeliveries serverEnding frontendDeliveries frontendEnding = None →
  ∃ version servers frontends,
    servers ∈ serverDeliveries ∧ frontends ∈ frontendDeliveries
    ∧ ServersAvailable decodeServerState decodeServerRole serverStateDir serverRoleDir
        serverIds servers version
    ∧ FrontendsAvailable decodeFrontendState frontendIds frontends version.
Proof.
  intros Hstate Hrole Hfrontend Hservers Hfrontends. unfold WaitForAvailability.
  destruct (WatchAll _ _ _ serverDeliveries _) as [[version evs] err] eqn:Hfirst.
  case_decide as Herr; [done|]. subst err.
  destruct (WatchAll _ _ _ frontendDeliveries _) as [[st evs'] err'] eqn:Hsecond.
  case_decide as Herr'; [done|]. subst err'. intros _.
  apply serversWatch_run in Hfirst as (servers & Hin & Havailable); [|done..].
  apply frontendsWatch_run in Hsecond as (frontends & Hin' & Havailable'); [|done..].
  exists version, servers, frontends. done.
Qed.
End AvailabilityProperties.

Lemma WaitForAvailability_nil_means_available_witness :
  sampleWait = None
  ∧ ∃ version servers frontends,
      servers ∈ [sampleLoneServer; sampleAvailable]
      ∧ frontends ∈ [ ({[ "frontend/F" := "F" ]} : gmap string string) ]
      ∧ ServersAvailable sampleAvailableState sampleAvailableRole "state" "role"
          ["A"] servers version
      ∧ FrontendsAvailable sampleFrontendDecoder ["F"] frontends version.
Proof.
  assert (Hrun : sampleWait = None) by (vm_compute; reflexivity).
  split; [exact Hrun|].
  apply (WaitForAvailability_nil_means_available loopCanonical loopCanonical_sound
           sampleAvailableState sampleAvailableRole sampleFrontendDecoder "state" "role"
           ["F"] ["A"] _ _ discoveryErrCancelled discoveryErrCancelled);
    [done..|exact Hrun].
Defined.
